(** * make-mcp: blueprint validation, healing and deployment retry

    A shallow embedding of the blueprint engine of [src/mcp/server.ts]:
    the recursive validator of [validate_scenario], the module resolver
    [resolveClosestLiveModule], the healing prefix of [create_scenario]
    and its bounded retry loop; then the walks over a flow
    ([extractAllFlowModules], [replaceModuleIdsInFlow],
    [stripModuleVersionsInFlow], [setModuleVersionInFlow]), the readers of
    an IM007 error, the cache of the live catalog ([fetchLiveModuleIds]),
    and the handlers of [check_account_compatibility], [list_apps] and the
    resource [make://apps].

    Conventions of the embedding.
    - A parsed blueprint is a [json] tree, as [JSON.parse] returns it.
      Numbers are the integers (ids, versions and coordinates are integers).
      [Number(digits)] and the product of the minutes with 60 are doubles:
      the nearest double of the integer ([double_of]), exact below 2^53 and
      [Infinity] past the largest double.  The other arithmetic on numbers
      (a version minus 1, the counters) is that of the integers, as it is for
      doubles below 2^53.
    - Property reads on objects are own-key lookups in the field list, in
      insertion order; the static registries are read as the tables their
      TypeScript type [Record<string, _>] declares.  A module id that is a
      name every object inherits ([inherited_names]: [toString],
      [constructor], [__proto__], ...) is outside that reading: there the code
      finds the inherited value.  No module id with a colon is such a name.
    - An assignment to a property that exists replaces the value in place; a
      new property goes to the end; [delete] removes the key.  A property
      written on an array is not part of the tree ([JSON.stringify] skips
      it), so such a write leaves the tree as it is.
    - Strings are ASCII strings; [toLowerCase], [trim] and the regular
      expressions are the ones of the source restricted to ASCII.
    - In-place mutation of the tree is explicit value passing: a function
      that mutates its argument returns the tree after the call.
    - A [Map] and a [Set] are lists in insertion order, a [Map] with one
      pair for each key.  The clock and the network are arguments: the
      instants that [Date.now()] gives and the answer of the request.
    - [Array.prototype.sort] is the stable sort that the language
      defines. *)

From Stdlib Require Import List String Ascii ZArith QArith Bool Lia Arith.
From Stdlib Require Import DecimalString DecimalNat Sorted Permutation.
Import ListNotations.

Local Close Scope Q_scope.
Local Open Scope string_scope.
Local Open Scope list_scope.

Notation "a +++ b" := (String.append a b) (at level 60, right associativity).

(** ** JSON values and the JavaScript operations the source uses on them *)

#[warnings="-register-all"]
Inductive json : Type :=
| JNull
| JBool (b : bool)
| JNum (n : Z)
| JStr (s : string)
| JArr (items : list json)
| JObj (fields : list (string * json)).

Definition fields := list (string * json).

(** Own-property read: [None] is JavaScript's [undefined]. *)
Fixpoint get (k : string) (fs : fields) : option json :=
  match fs with
  | [] => None
  | (k', v) :: rest => if String.eqb k k' then Some v else get k rest
  end.

(** The same read in continuation style, for functions that recurse into
    the value read. *)
Definition with_field {A : Type} (k : string) (found : json -> A) (missing : A)
  : fields -> A :=
  fix go fs :=
    match fs with
    | [] => missing
    | (k', v) :: rest => if String.eqb k k' then found v else go rest
    end.

(** [obj.k = v] *)
Fixpoint set (k : string) (v : json) (fs : fields) : fields :=
  match fs with
  | [] => [(k, v)]
  | (k', v') :: rest =>
      if String.eqb k k' then (k', v) :: rest else (k', v') :: set k v rest
  end.

(** [delete obj.k] *)
Fixpoint del (k : string) (fs : fields) : fields :=
  match fs with
  | [] => []
  | (k', v') :: rest =>
      if String.eqb k k' then del k rest else (k', v') :: del k rest
  end.

(** [x.k] for a fixed identifier [k] that is neither an index nor [length]:
    defined on objects only. *)
Definition field (k : string) (x : json) : option json :=
  match x with
  | JObj fs => get k fs
  | _ => None
  end.

(** JavaScript truthiness of a value ([None] is [undefined]). *)
Definition truthy (x : json) : bool :=
  match x with
  | JNull => false
  | JBool b => b
  | JNum n => negb (Z.eqb n 0)
  | JStr s => negb (String.eqb s "")
  | JArr _ | JObj _ => true
  end.

Definition truthy_opt (x : option json) : bool :=
  match x with
  | Some v => truthy v
  | None => false
  end.

(** [x && typeof x === 'object'] *)
Definition is_object (x : json) : bool :=
  match x with
  | JArr _ | JObj _ => true
  | _ => false
  end.

(** Strict equality [x === y] on parsed values: by value on primitives,
    by identity on objects and arrays (two distinct places of a parsed tree
    are never identical, and a tree value is never identical to a fresh
    literal). *)
Definition strict_eq (x y : json) : bool :=
  match x, y with
  | JNull, JNull => true
  | JBool a, JBool b => Bool.eqb a b
  | JNum a, JNum b => Z.eqb a b
  | JStr a, JStr b => String.eqb a b
  | _, _ => false
  end.

Fixpoint jsize (j : json) : nat :=
  match j with
  | JArr items => S (fold_right (fun x acc => jsize x + acc) 0 items)
  | JObj fs => S (fold_right (fun kv acc => jsize (snd kv) + acc) 0 fs)
  | _ => 1
  end.

(** ** Strings *)

Definition nat_str (n : nat) : string := NilZero.string_of_uint (Nat.to_uint n).
Definition Z_str (z : Z) : string := NilZero.string_of_int (Z.to_int z).

Definition in_range (lo hi : nat) (c : ascii) : bool :=
  let n := nat_of_ascii c in ((lo <=? n) && (n <=? hi))%nat.

Definition is_lower (c : ascii) : bool := in_range 97 122 c.
Definition is_upper (c : ascii) : bool := in_range 65 90 c.
Definition is_digit (c : ascii) : bool := in_range 48 57 c.
Definition is_alnum (c : ascii) : bool := is_lower c || is_upper c || is_digit c.

(** [\s] on ASCII: tab, line feed, vertical tab, form feed, carriage return,
    space. *)
Definition is_space (c : ascii) : bool :=
  let n := nat_of_ascii c in (((9 <=? n) && (n <=? 13)) || (n =? 32))%nat.

Definition lower_char (c : ascii) : ascii :=
  if is_upper c then ascii_of_nat (nat_of_ascii c + 32) else c.

Fixpoint toLowerCase (s : string) : string :=
  match s with
  | EmptyString => EmptyString
  | String c rest => String (lower_char c) (toLowerCase rest)
  end.

Fixpoint string_filter (p : ascii -> bool) (s : string) : string :=
  match s with
  | EmptyString => EmptyString
  | String c rest =>
      if p c then String c (string_filter p rest) else string_filter p rest
  end.

(** [s.startsWith(p)] *)
Fixpoint startsWith (p s : string) : bool :=
  match p, s with
  | EmptyString, _ => true
  | String a p', String b s' => Ascii.eqb a b && startsWith p' s'
  | String _ _, EmptyString => false
  end.

(** [s.includes(p)] *)
Fixpoint includes (p s : string) : bool :=
  startsWith p s ||
  match s with
  | EmptyString => false
  | String _ s' => includes p s'
  end.

(** [s.split(sep)] for a one-character separator. *)
Fixpoint split_on (sep : ascii) (s : string) : list string :=
  match s with
  | EmptyString => [EmptyString]
  | String c rest =>
      if Ascii.eqb c sep then EmptyString :: split_on sep rest
      else match split_on sep rest with
           | [] => [String c EmptyString]
           | w :: ws => String c w :: ws
           end
  end.

(** [s.trim()] is truthy: some character is not white space. *)
Fixpoint trim_truthy (s : string) : bool :=
  match s with
  | EmptyString => false
  | String c rest => negb (is_space c) || trim_truthy rest
  end.

(** ** The static registries *)

(** [VERIFIED_MODULE_VERSIONS] *)
Definition VERIFIED_MODULE_VERSIONS : list (string * Z) :=
  [ ("json:ParseJSON", 1%Z);
    ("json:CreateJSON", 1%Z);
    ("json:TransformToJSON", 1%Z);
    ("gateway:CustomWebHook", 1%Z);
    ("gateway:WebhookRespond", 1%Z);
    ("builtin:BasicRouter", 1%Z);
    ("builtin:BasicFeeder", 1%Z);
    ("builtin:BasicAggregator", 1%Z);
    ("http:ActionSendData", 3%Z);
    ("http:ActionSendDataBasicAuth", 3%Z);
    ("http:ActionGetFile", 3%Z);
    ("http:ActionSendDataAdvanced", 3%Z);
    ("google-sheets:ActionAddRow", 1%Z);
    ("google-sheets:ActionUpdateRow", 1%Z);
    ("google-sheets:ActionDeleteRow", 1%Z);
    ("util:SetVariable", 1%Z);
    ("util:GetVariable", 1%Z);
    ("util:SetMultipleVariables", 1%Z);
    ("slack:ActionPostMessage", 1%Z);
    ("datastore:ActionGetRecord", 1%Z);
    ("datastore:ActionAddRecord", 1%Z);
    ("datastore:ActionUpdateRecord", 1%Z);
    ("datastore:ActionDeleteRecord", 1%Z);
    ("datastore:ActionSearchRecords", 1%Z) ].

(** [table[key]] on a [Record<string, A>]. *)
Fixpoint record_get {A : Type} (k : string) (table : list (string * A)) : option A :=
  match table with
  | [] => None
  | (k', v) :: rest => if String.eqb k k' then Some v else record_get k rest
  end.

Definition verifiedVersion (moduleId : string) : option Z :=
  record_get moduleId VERIFIED_MODULE_VERSIONS.

(** The names that an object literal inherits from [Object.prototype].  The
    registries are object literals: at these names [VERIFIED_MODULE_VERSIONS[id]]
    and [PROBLEMATIC_MODULES[id]] are the inherited function (the prototype
    itself at [__proto__]), which is neither [undefined] nor a value of the
    table.  The tables of this file are the registries at every other
    name. *)
Definition inherited_names : list string :=
  [ "constructor"; "hasOwnProperty"; "isPrototypeOf"; "propertyIsEnumerable";
    "toLocaleString"; "toString"; "valueOf"; "__defineGetter__";
    "__defineSetter__"; "__lookupGetter__"; "__lookupSetter__"; "__proto__" ].

Record problem_info := { alternative : string; reason : string }.

Definition openai_reason : string :=
  "OpenAI modules often fail via API deployment. Use http:ActionSendData (v3) to call the OpenAI API directly.".

(** [PROBLEMATIC_MODULES] *)
Definition PROBLEMATIC_MODULES : list (string * problem_info) :=
  [ ("openai:ActionCreateCompletion",
     {| alternative := "http:ActionSendData";
        reason := "OpenAI modules often fail via API deployment. Use http:ActionSendData (v3) to call the OpenAI API directly at https://api.openai.com/v1/chat/completions." |});
    ("openai-gpt-3:ActionCreateCompletion",
     {| alternative := "http:ActionSendData"; reason := openai_reason |});
    ("openai-gpt-3:ActionCreateChatCompletion",
     {| alternative := "http:ActionSendData"; reason := openai_reason |});
    ("openai:ActionAnalyzeImages",
     {| alternative := "http:ActionSendData"; reason := openai_reason |});
    ("openai:ActionCreateImage",
     {| alternative := "http:ActionSendData";
        reason := "OpenAI image modules often fail via API deployment. Use http:ActionSendData (v3) to call the OpenAI DALL-E API directly." |});
    ("email:ActionSendEmail",
     {| alternative := "microsoft-smtp-imap:ActionSendAnEmail";
        reason := "Generic email module may not be available. Use a specific provider module (Gmail, Microsoft SMTP/IMAP) or http:ActionSendData with an email API." |});
    ("ai-provider:ActionChatCompletion",
     {| alternative := "http:ActionSendData";
        reason := "AI Provider module may not be deployable via API. Use http:ActionSendData to call AI APIs directly." |}) ].

(** [getProblematicModuleInfo]: a direct entry, else any module of the
    [openai] and [openai-gpt-3] apps. *)
Definition getProblematicModuleInfo (moduleId : string) : option problem_info :=
  match record_get moduleId PROBLEMATIC_MODULES with
  | Some info => Some info
  | None =>
      let appPrefix := hd "" (split_on ":" moduleId) in
      if String.eqb appPrefix "openai" || String.eqb appPrefix "openai-gpt-3" then
        Some {| alternative := "http:ActionSendData";
                reason := "OpenAI modules (" +++ moduleId +++
                          ") often fail via API deployment. Use http:ActionSendData (v3) to call the OpenAI API directly." |}
      else None
  end.

(** ** The compatibility resolver *)

(** [moduleId.toLowerCase().replace(/[^a-z0-9:]/g, '')] *)
Definition normalizeModuleId (moduleId : string) : string :=
  string_filter (fun c => is_lower c || is_digit c || Ascii.eqb c ":")
                (toLowerCase moduleId).

(** [.replace(/([a-z])([A-Z])/g, '$1 $2')]: a space at every boundary from a
    lower-case to an upper-case letter (two matches never overlap, since a
    match ends in an upper-case letter). *)
Fixpoint split_camel (s : string) : string :=
  match s with
  | EmptyString => EmptyString
  | String a t =>
      match t with
      | String b _ =>
          if is_lower a && is_upper b
          then String a (String " " (split_camel t))
          else String a (split_camel t)
      | EmptyString => String a EmptyString
      end
  end.

(** [.replace(/[^a-zA-Z0-9]+/g, ' ')]: every maximal run of characters that
    are not letters or digits becomes one space. *)
Fixpoint squash_non_alnum (in_run : bool) (s : string) : string :=
  match s with
  | EmptyString => EmptyString
  | String c rest =>
      if is_alnum c then String c (squash_non_alnum false rest)
      else if in_run then squash_non_alnum true rest
      else String " " (squash_non_alnum true rest)
  end.

(** [.split(/\s+/)] *)
Fixpoint split_spaces (in_run : bool) (s : string) : list string :=
  match s with
  | EmptyString => [EmptyString]
  | String c rest =>
      if is_space c then
        if in_run then split_spaces true rest
        else EmptyString :: split_spaces true rest
      else
        match split_spaces false rest with
        | [] => [String c EmptyString]
        | w :: ws => String c w :: ws
        end
  end.

Definition nonempty (s : string) : bool := negb (String.eqb s "").

(** [tokenizeModulePart] *)
Definition tokenizeModulePart (value : string) : list string :=
  filter nonempty
    (split_spaces false
       (toLowerCase (squash_non_alnum false (split_camel value)))).

Definition str_mem (s : string) (l : list string) : bool :=
  existsb (String.eqb s) l.

(** [new Set(list)]: first occurrences, in order. *)
Fixpoint to_set (l : list string) : list string :=
  match l with
  | [] => []
  | x :: rest => x :: filter (fun y => negb (String.eqb x y)) (to_set rest)
  end.

Definition Qlt_b (x y : Q) : bool := negb (Qle_bool y x).

(** The candidate's score in the token-overlap stage:
    [candidateTokens.filter(t => targetTokens.has(t)).length /
     Math.max(targetTokens.size, 1)].
    The quotient of two small naturals is exact as a rational, and the
    comparisons of the source are comparisons of these rationals. *)
Definition overlap_of (targetTokens : list string) (candidate : string) : nat :=
  let candidatePart := nth 1 (split_on ":" candidate) "" in
  let candidateTokens := tokenizeModulePart candidatePart in
  List.length (filter (fun t => str_mem t targetTokens) candidateTokens).

Definition score_of (targetTokens : list string) (candidate : string) : Q :=
  Z.of_nat (overlap_of targetTokens candidate)
  # Pos.of_nat (Nat.max (List.length targetTokens) 1).

(** The loop over the candidates: a later candidate replaces the best one
    only with a strictly greater score. *)
Definition best_step (targetTokens : list string)
    (best : option (string * Q)) (candidate : string) : option (string * Q) :=
  let score := score_of targetTokens candidate in
  match best with
  | None => Some (candidate, score)
  | Some (_, best_score) =>
      if Qlt_b best_score score then Some (candidate, score) else best
  end.

Definition best_candidate (targetTokens : list string) (candidates : list string)
  : option (string * Q) :=
  fold_left (best_step targetTokens) candidates None.

(** The token-overlap stage, lines 381-400 of [resolveClosestLiveModule]. *)
Definition tokenOverlapStage (moduleId : string) (liveIds : list string)
  : option string :=
  let parts := split_on ":" moduleId in
  let appPart := nth 0 parts "" in
  let modulePart := nth 1 parts "" in
  if negb (nonempty appPart) || negb (nonempty modulePart) then None
  else
    let targetTokens := to_set (tokenizeModulePart modulePart) in
    let candidates := filter (startsWith (appPart +++ ":")) liveIds in
    match candidates with
    | [] => None
    | _ =>
        match best_candidate targetTokens candidates with
        | None => None
        | Some (id, score) => if Qlt_b score (1 # 2) then None else Some id
        end
    end.

(** [resolveClosestLiveModule]; [liveIds] is the [Set<string>] in insertion
    order. *)
Definition resolveClosestLiveModule (moduleId : string) (liveIds : list string)
  : option string :=
  if str_mem moduleId liveIds then Some moduleId
  else
    let moduleNorm := normalizeModuleId moduleId in
    let exactNormalized :=
      filter (fun liveId => String.eqb (normalizeModuleId liveId) moduleNorm) liveIds in
    match exactNormalized with
    | [only] => Some only
    | _ => tokenOverlapStage moduleId liveIds
    end.

(** ** The flow tree

    A flow is an array of nodes; a node that is an object may own a [routes]
    array, and a route that is an object may own a [flow] array, which is a
    flow again.  The source recurses on flows; the embedding recurses on
    the node, and a flow function is the loop over its nodes. *)

(** The flow of a route, when the route is an object whose [flow] is an
    array ([Array.isArray(route?.flow)]). *)
Definition route_flow (route : json) : option (list json) :=
  match route with
  | JObj rfs =>
      match get "flow" rfs with
      | Some (JArr sub) => Some sub
      | _ => None
      end
  | _ => None
  end.

(** The [routes] array of a node ([Array.isArray(node.routes)]). *)
Definition node_routes (node : json) : option (list json) :=
  match node with
  | JObj fs =>
      match get "routes" fs with
      | Some (JArr routes) => Some routes
      | _ => None
      end
  | _ => None
  end.

(** A node followed by all the nodes below it, in document order. *)
Fixpoint nodeAndBelow (node : json) : list json :=
  node ::
  match node with
  | JObj fs =>
      with_field "routes" (fun v =>
        match v with
        | JArr routes =>
            flat_map (fun route =>
              match route with
              | JObj rfs =>
                  with_field "flow" (fun fl =>
                    match fl with
                    | JArr sub => flat_map nodeAndBelow sub
                    | _ => []
                    end) [] rfs
              | _ => []
              end) routes
        | _ => []
        end) [] fs
  | _ => []
  end.

(** Every node of the tree under a flow, at any depth. *)
Definition treeNodes (flow : list json) : list json :=
  flat_map nodeAndBelow flow.

(** A loop [for (let i = 0; i < l.length; i++)] that collects results. *)
Definition each_indexed {A : Type} (f : json -> nat -> list A)
  : list json -> nat -> list A :=
  fix go l i :=
    match l with
    | [] => []
    | x :: rest => f x i ++ go rest (S i)
    end.

Definition pos_of (pathPrefix : string) (i : nat) : string :=
  pathPrefix +++ "[" +++ nat_str i +++ "]".

Definition route_prefix (pos : string) (r : nat) : string :=
  pos +++ ".routes[" +++ nat_str r +++ "]".

(** The body of the loop of [extractAllFlowModules] at the node of path
    [pos]. *)
Fixpoint extractNodeModules (node : json) (pos : string) : list (string * string) :=
  match node with
  | JObj fs =>
      with_field "module" (fun m =>
        match m with
        | JStr s => if trim_truthy s then [(s, pos)] else []
        | _ => []
        end) [] fs
      ++
      with_field "routes" (fun v =>
        match v with
        | JArr routes =>
            each_indexed (fun route r =>
              match route with
              | JObj rfs =>
                  with_field "flow" (fun fl =>
                    match fl with
                    | JArr sub =>
                        each_indexed (fun n i =>
                          extractNodeModules n (pos_of (route_prefix pos r) i)) sub 0
                    | _ => []
                    end) [] rfs
              | _ => []
              end) routes 0
        | _ => []
        end) [] fs
  | _ => []
  end.

(** [extractAllFlowModules(flow, pathPrefix)] *)
Definition extractAllFlowModules (flow : list json) (pathPrefix : string)
  : list (string * string) :=
  each_indexed (fun n i => extractNodeModules n (pos_of pathPrefix i)) flow 0.

(** A loop that rewrites every element and adds up a count. *)
Definition map_sum {C : Type} (zero : C) (plus : C -> C -> C)
    (f : json -> json * C) : list json -> list json * C :=
  fix go l :=
    match l with
    | [] => ([], zero)
    | x :: rest =>
        let '(x', c) := f x in
        let '(rest', d) := go rest in
        (x' :: rest', plus c d)
    end.

(** The loop over the routes of a node shared by the mutating walks:
    [for (const route of node.routes) if (Array.isArray(route?.flow)) rec(route.flow)]. *)
Definition in_routes {C : Type} (zero : C) (plus : C -> C -> C)
    (rec : json -> json * C) : list json -> list json * C :=
  map_sum zero plus (fun route =>
    match route with
    | JObj rfs =>
        with_field "flow" (fun fl =>
          match fl with
          | JArr sub =>
              let '(sub', c) := map_sum zero plus rec sub in
              (JObj (set "flow" (JArr sub') rfs), c)
          | _ => (route, zero)
          end) (route, zero) rfs
    | _ => (route, zero)
    end).

(** The walk below a node: [fs1] are the fields of the node after the
    node-local writes, which never touch [routes]; [fs] are its fields as
    read. *)
Definition below_node {C : Type} (zero : C) (plus : C -> C -> C)
    (rec : json -> json * C) (fs fs1 : fields) (c1 : C) : json * C :=
  with_field "routes" (fun v =>
    match v with
    | JArr routes =>
        let '(routes', c2) := in_routes zero plus rec routes in
        (JObj (set "routes" (JArr routes') fs1), plus c1 c2)
    | _ => (JObj fs1, c1)
    end) (JObj fs1, c1) fs.

Definition pair_plus (a b : nat * nat) : nat * nat :=
  (fst a + fst b, snd a + snd b).

(** The version write of [injectVerifiedVersions] on one node; the count is
    (injected, stripped).  The module id is read in the table: at one of the
    [inherited_names] the code finds the inherited value instead and writes
    it as the version, which no value of [json] stands for. *)
Definition inject_version (fs : fields) : fields * (nat * nat) :=
  match get "module" fs with
  | Some (JStr m) =>
      match verifiedVersion m with
      | Some knownVersion =>
          match get "version" fs with
          | Some (JNum v) =>
              if Z.eqb v knownVersion then (fs, (0, 0))
              else (set "version" (JNum knownVersion) fs, (1, 0))
          | _ => (set "version" (JNum knownVersion) fs, (1, 0))
          end
      | None =>
          match get "version" fs with
          | Some _ => (del "version" fs, (0, 1))
          | None => (fs, (0, 0))
          end
      end
  | _ => (fs, (0, 0))
  end.

Fixpoint injectNode (node : json) : json * (nat * nat) :=
  match node with
  | JObj fs =>
      let '(fs1, c1) := inject_version fs in
      below_node (0, 0) pair_plus injectNode fs fs1 c1
  | _ => (node, (0, 0))
  end.

(** [injectVerifiedVersions(flow)]: the flow after the call and
    [{ injected, stripped }]. *)
Definition injectVerifiedVersions (flow : list json) : list json * (nat * nat) :=
  map_sum (0, 0) pair_plus injectNode flow.

(** [replaceModuleIdsInFlow(flow, replacements)] *)
Definition replace_module (replacements : list (string * string)) (fs : fields)
  : fields :=
  match get "module" fs with
  | Some (JStr m) =>
      match record_get m replacements with
      | Some to => set "module" (JStr to) fs
      | None => fs
      end
  | _ => fs
  end.

Fixpoint replaceNode (replacements : list (string * string)) (node : json)
  : json * unit :=
  match node with
  | JObj fs =>
      below_node tt (fun _ _ => tt) (replaceNode replacements) fs
                 (replace_module replacements fs) tt
  | _ => (node, tt)
  end.

Definition replaceModuleIdsInFlow (flow : list json)
    (replacements : list (string * string)) : list json :=
  fst (map_sum tt (fun _ _ => tt) (replaceNode replacements) flow).

(** [stripModuleVersionsInFlow(flow)]: the flow after the call and the
    number of pins removed. *)
Fixpoint stripNode (node : json) : json * nat :=
  match node with
  | JObj fs =>
      match get "version" fs with
      | Some _ => below_node 0 Nat.add stripNode fs (del "version" fs) 1
      | None => below_node 0 Nat.add stripNode fs fs 0
      end
  | _ => (node, 0)
  end.

Definition stripModuleVersionsInFlow (flow : list json) : list json * nat :=
  map_sum 0 Nat.add stripNode flow.

(** [setModuleVersionInFlow(flow, moduleId, version)]: the flow after the
    call and the number of nodes updated. *)
Fixpoint setVersionNode (moduleId : string) (version : Z) (node : json)
  : json * nat :=
  match node with
  | JObj fs =>
      match get "module" fs with
      | Some (JStr m) =>
          if String.eqb m moduleId
          then below_node 0 Nat.add (setVersionNode moduleId version) fs
                          (set "version" (JNum version) fs) 1
          else below_node 0 Nat.add (setVersionNode moduleId version) fs fs 0
      | _ => below_node 0 Nat.add (setVersionNode moduleId version) fs fs 0
      end
  | _ => (node, 0)
  end.

Definition setModuleVersionInFlow (flow : list json) (moduleId : string)
    (version : Z) : list json * nat :=
  map_sum 0 Nat.add (setVersionNode moduleId version) flow.

Definition sample_router_flow : list json :=
  [ JObj [("id", JNum 1); ("module", JStr "gateway:CustomWebHook"); ("version", JNum 7)];
    JObj [("id", JNum 2); ("module", JStr "builtin:BasicRouter");
          ("routes", JArr [
             JObj [("filter", JObj []);
                   ("flow", JArr [JObj [("id", JNum 3); ("module", JStr "acme:Thing");
                                        ("version", JNum 2)]])];
             JObj [("flow", JArr [JObj [("id", JNum 4); ("module", JStr "http:ActionSendData")]])]])] ].

(** ** Scheduling normalisation *)

Fixpoint take_digits (s : string) : string * string :=
  match s with
  | EmptyString => (EmptyString, EmptyString)
  | String c rest =>
      if is_digit c
      then let '(ds, tl) := take_digits rest in (String c ds, tl)
      else (EmptyString, s)
  end.

Fixpoint drop_spaces (s : string) : string :=
  match s with
  | EmptyString => EmptyString
  | String c rest => if is_space c then drop_spaces rest else s
  end.

(** A match of [(\d+)\s*min] that starts at the head of [s]: the digits
    captured.  The digits are the whole run, since what follows them has to
    be white space or the letter m. *)
Definition match_minutes_here (s : string) : option string :=
  let '(ds, tl) := take_digits s in
  if nonempty ds && startsWith "min" (drop_spaces tl) then Some ds else None.

(** The leftmost match of [/(\d+)\s*min/] in [s]. *)
Fixpoint match_minutes (s : string) : option string :=
  match match_minutes_here s with
  | Some ds => Some ds
  | None =>
      match s with
      | EmptyString => None
      | String _ rest => match_minutes rest
      end
  end.

(** The number that a string of decimal digits writes. *)
Fixpoint number_of_digits (acc : Z) (s : string) : Z :=
  match s with
  | EmptyString => acc
  | String c rest =>
      number_of_digits (10 * acc + Z.of_nat (nat_of_ascii c - 48))%Z rest
  end.

(** A number of the program that is not negative and has no fraction: a
    double with an integer value, or [Infinity]. *)
Inductive number : Type :=
| Finite (n : Z)
| Infinity.

(** The double nearest to the integer [n], which is not negative: [n] itself
    below 2^53, else [n] rounded to 53 binary digits, a tie to the even
    neighbour, and [Infinity] when that reaches 2^1024.  It is the value of
    a decimal literal and of a product of such doubles. *)
Definition double_of (n : Z) : number :=
  if (n <? 2 ^ 53)%Z then Finite n
  else
    let ulp := (2 ^ (Z.log2 n - 52))%Z in
    let q := (n / ulp)%Z in
    let r := (n mod ulp)%Z in
    let rounded :=
      if (ulp <? 2 * r)%Z || ((ulp =? 2 * r)%Z && Z.odd q)
      then ((q + 1) * ulp)%Z else (q * ulp)%Z in
    if (2 ^ 1024 <=? rounded)%Z then Infinity else Finite rounded.

(** [Number(digits)] for a string of decimal digits. *)
Definition Number_of (digits : string) : number :=
  double_of (number_of_digits 0 digits).

(** [parseMinutes] *)
Definition parseMinutes (text : string) : option Z :=
  match match_minutes text with
  | None => None
  | Some ds =>
      match Number_of ds with
      | Finite parsed => if (parsed <=? 0)%Z then None else Some parsed
      | Infinity => None
      end
  end.

Definition indefinitely (interval : Z) : json :=
  JObj [("type", JStr "indefinitely"); ("interval", JNum interval)].

(** The interval in seconds that [parseSchedulingFromScheduleModule] reads off
    the lower-cased interval text; [minutes * 60] is a product of doubles. *)
Definition interval_seconds (intervalText : string) : number :=
  if includes "day" intervalText then Finite 86400
  else if includes "week" intervalText then Finite 604800
  else if includes "month" intervalText then Finite 2592000
  else if includes "hour" intervalText then Finite 3600
  else match parseMinutes intervalText with
       | Some minutes => double_of (minutes * 60)
       | None => Finite 900
       end.

(** [{ type: 'indefinitely', interval }].  The object is only printed, for
    the payload and for the log: an interval that is [Infinity] is written
    here the way [JSON.stringify] prints it, as [null]. *)
Definition scheduling_of (interval : number) : json :=
  match interval with
  | Finite seconds => indefinitely seconds
  | Infinity => JObj [("type", JStr "indefinitely"); ("interval", JNull)]
  end.

(** [module?.parameters?.interval], lower-cased when it is a string. *)
Definition interval_text (module : json) : string :=
  match field "parameters" module with
  | Some params =>
      match field "interval" params with
      | Some (JStr s) => toLowerCase s
      | _ => ""
      end
  | None => ""
  end.

(** [parseSchedulingFromScheduleModule] *)
Definition parseSchedulingFromScheduleModule (module : json) : json :=
  scheduling_of (interval_seconds (interval_text module)).

(** [mod.module === 'builtin:Schedule'] on a flow item [node] that is an
    object. *)
Definition is_schedule (node : json) : bool :=
  match field "module" node with
  | Some (JStr m) => String.eqb m "builtin:Schedule"
  | _ => false
  end.

Record normalized := {
  normalizedFlow : list json;
  scheduling : option json;
  removedModules : list string
}.

(** [normalizeSchedulingModules]: one pass of [filter] over the flow given;
    the first schedule node met sets the scheduling. *)
Fixpoint normalize_from (flow : list json) (current : option json) : normalized :=
  match flow with
  | [] => {| normalizedFlow := []; scheduling := current; removedModules := [] |}
  | node :: rest =>
      if is_schedule node then
        let current' :=
          match current with
          | None => Some (parseSchedulingFromScheduleModule node)
          | Some _ => current
          end in
        let r := normalize_from rest current' in
        {| normalizedFlow := normalizedFlow r;
           scheduling := scheduling r;
           removedModules := "builtin:Schedule" :: removedModules r |}
      else
        let r := normalize_from rest current in
        {| normalizedFlow := node :: normalizedFlow r;
           scheduling := scheduling r;
           removedModules := removedModules r |}
  end.

Definition normalizeSchedulingModules (flow : list json) : normalized :=
  normalize_from flow None.

(** ** Healing in [create_scenario] *)

Definition default_metadata : json :=
  JObj [ ("version", JNum 1);
         ("scenario", JObj [ ("roundtrips", JNum 1);
                             ("maxErrors", JNum 3);
                             ("autoCommit", JBool true);
                             ("autoCommitTriggerLast", JBool true);
                             ("sequential", JBool false);
                             ("confidential", JBool false);
                             ("dataloss", JBool false);
                             ("dlq", JBool false);
                             ("freshVariables", JBool false) ]);
         ("designer", JObj [("orphans", JArr [])]) ].

Definition designer_xy : json := JObj [("x", JNum 0); ("y", JNum 0)].

(** The designer placeholder of [healFlow] on one node.  [None] is the
    [TypeError] of a property write on a primitive (the module is strict
    code); a write on an array leaves the tree as it is. *)
Definition heal_designer (fs : fields) : option fields :=
  match get "metadata" fs with
  | None => Some (set "metadata" (JObj [("designer", designer_xy)]) fs)
  | Some md =>
      if negb (truthy md)
      then Some (set "metadata" (JObj [("designer", designer_xy)]) fs)
      else
        match md with
        | JObj mfs =>
            if truthy_opt (get "designer" mfs) then Some fs
            else Some (set "metadata" (JObj (set "designer" designer_xy mfs)) fs)
        | JArr _ => Some fs
        | _ => None
        end
  end.

(** [if (route.filter !== undefined) delete route.filter] *)
Definition strip_filter (rfs : fields) : fields :=
  match get "filter" rfs with
  | Some _ => del "filter" rfs
  | None => rfs
  end.

Definition map_opt (f : json -> option json) : list json -> option (list json) :=
  fix go l :=
    match l with
    | [] => Some []
    | x :: rest =>
        match f x with
        | None => None
        | Some x' =>
            match go rest with
            | None => None
            | Some rest' => Some (x' :: rest')
            end
        end
    end.

(** The body of the loop of [healFlow].  A [null] route makes
    [route.filter] throw. *)
Fixpoint healNode (node : json) : option json :=
  match node with
  | JObj fs =>
      match heal_designer fs with
      | None => None
      | Some fs1 =>
          with_field "routes" (fun v =>
            match v with
            | JArr routes =>
                match
                  map_opt (fun route =>
                    match route with
                    | JNull => None
                    | JObj rfs =>
                        let rfs1 := strip_filter rfs in
                        with_field "flow" (fun fl =>
                          match fl with
                          | JArr sub =>
                              match map_opt healNode sub with
                              | Some sub' => Some (JObj (set "flow" (JArr sub') rfs1))
                              | None => None
                              end
                          | _ => Some (JObj rfs1)
                          end) (Some (JObj rfs1)) rfs
                    | _ => Some route
                    end) routes
                with
                | Some routes' => Some (JObj (set "routes" (JArr routes') fs1))
                | None => None
                end
            | _ => Some (JObj fs1)
            end) (Some (JObj fs1)) fs
      end
  | _ => Some node
  end.

(** [healFlow(flow)] *)
Definition healFlow (flow : list json) : option (list json) :=
  map_opt healNode flow.

Record healed := {
  blueprint_of : json;
  schedulingConfig : json;
  normalizationWarnings : list string
}.

Fixpoint join_comma (l : list string) : string :=
  match l with
  | [] => ""
  | [x] => x
  | x :: rest => x +++ ", " +++ join_comma rest
  end.

(** The healing steps of [create_scenario] on the parsed blueprint, lines
    1011-1090: schedule normalisation, metadata, [healFlow],
    [injectVerifiedVersions].  [None] is a thrown [TypeError] (a [null]
    blueprint, a primitive blueprint, or one of the two above). *)
Definition heal (parsed : json) : option healed :=
  match parsed with
  | JObj fs =>
      let '(fs1, sched, warns) :=
        match get "flow" fs with
        | Some (JArr flow) =>
            let n := normalizeSchedulingModules flow in
            (set "flow" (JArr (normalizedFlow n)) fs,
             match scheduling n with
             | Some s => s
             | None => JObj [("type", JStr "on-demand")]
             end,
             match removedModules n with
             | [] => []
             | _ => ["Converted " +++ join_comma (removedModules n) +++
                     " to scenario scheduling to avoid module compatibility issues."]
             end)
        | _ => (fs, JObj [("type", JStr "on-demand")], [])
        end in
      let fs2 :=
        if truthy_opt (get "metadata" fs1) then fs1
        else set "metadata" default_metadata fs1 in
      match get "flow" fs2 with
      | Some (JArr flow) =>
          match healFlow flow with
          | None => None
          | Some flow' =>
              Some {| blueprint_of :=
                        JObj (set "flow" (JArr (fst (injectVerifiedVersions flow'))) fs2);
                      schedulingConfig := sched;
                      normalizationWarnings := warns |}
          end
      | _ => Some {| blueprint_of := JObj fs2;
                     schedulingConfig := sched;
                     normalizationWarnings := warns |}
      end
  | JArr _ =>
      Some {| blueprint_of := parsed;
              schedulingConfig := JObj [("type", JStr "on-demand")];
              normalizationWarnings := [] |}
  | _ => None
  end.

(** ** The validator of [validate_scenario] *)

Definition dq : string := String (ascii_of_nat 34) EmptyString.
Definition quoted (s : string) : string := dq +++ s +++ dq.

(** [String(x)], as a template literal renders a parsed value. *)
Fixpoint js_string (x : json) : string :=
  match x with
  | JNull => "null"
  | JBool true => "true"
  | JBool false => "false"
  | JNum n => Z_str n
  | JStr s => s
  | JArr items =>
      (fix join (l : list json) : string :=
         match l with
         | [] => ""
         | y :: rest =>
             let here := match y with JNull => "" | _ => js_string y end in
             match rest with
             | [] => here
             | _ => here +++ "," +++ join rest
             end
         end) items
  | JObj _ => "[object Object]"
  end.

(** A canonical array index written as a property name. *)
Fixpoint all_digits (s : string) : bool :=
  match s with
  | EmptyString => true
  | String c rest => is_digit c && all_digits rest
  end.

Definition index_key (name : string) : option nat :=
  match name with
  | EmptyString => None
  | String c rest =>
      if all_digits name && (negb (Ascii.eqb c "0") || String.eqb rest "")
      then Some (Z.to_nat (number_of_digits 0 name))
      else None
  end.

(** [x?.[name]] for a computed name: own keys of an object, indices and
    [length] of an array or a string. *)
Definition prop (x : json) (name : string) : option json :=
  match x with
  | JObj fs => get name fs
  | JArr items =>
      if String.eqb name "length" then Some (JNum (Z.of_nat (List.length items)))
      else match index_key name with
           | Some i => nth_error items i
           | None => None
           end
  | JStr s =>
      if String.eqb name "length" then Some (JNum (Z.of_nat (String.length s)))
      else match index_key name with
           | Some i =>
               match String.get i s with
               | Some c => Some (JStr (String c EmptyString))
               | None => None
               end
           | None => None
           end
  | _ => None
  end.

Definition prop_opt (x : option json) (name : string) : option json :=
  match x with
  | Some v => prop v name
  | None => None
  end.

Definition is_some {A : Type} (x : option A) : bool :=
  match x with
  | Some _ => true
  | None => false
  end.

(** A parameter definition of a catalog row, and the row: [type] and the
    parsed [parameters] column. *)
Record param := { param_name : string; param_required : bool }.
Record module_row := { row_type : string; row_parameters : list param }.

Inductive outcome (A : Type) : Type :=
| Ok (a : A)
| Thrown.
Arguments Ok {A} a.
Arguments Thrown {A}.

(** What the handler reads from outside: the catalog ([db.getModule] on a
    string id), what the binding layer of the database does with a key that
    is not a string, and the live module ids ([null] without an API key or
    when the fetch fails). *)
Record environment := {
  getModule : string -> option module_row;
  getModuleOther : json -> outcome (option module_row);
  liveIds : option (list string)
}.

(** The variables of the handler: the parsed blueprint and the three
    arrays the validator pushes to. *)
Record vstate := {
  parsed : json;
  errors : list string;
  warnings : list string;
  validatedModules : list string
}.

(** The handler is a computation over these variables that may throw; a
    throw keeps the state. *)
Definition V (A : Type) : Type := vstate -> outcome A * vstate.

Definition ret {A : Type} (a : A) : V A := fun s => (Ok a, s).

Definition bind {A B : Type} (c : V A) (k : A -> V B) : V B :=
  fun s =>
    match c s with
    | (Ok a, s') => k a s'
    | (Thrown, s') => (Thrown, s')
    end.

Definition throw {A : Type} : V A := fun s => (Thrown, s).

Notation "x <- c ;; k" := (bind c (fun x => k))
  (at level 61, c at next level, right associativity).
Notation "c ;;; k" := (bind c (fun _ => k))
  (at level 61, right associativity).

Definition push_error (e : string) : V unit :=
  fun s => (Ok tt, {| parsed := parsed s; errors := errors s ++ [e];
                      warnings := warnings s;
                      validatedModules := validatedModules s |}).

Definition push_warning (w : string) : V unit :=
  fun s => (Ok tt, {| parsed := parsed s; errors := errors s;
                      warnings := warnings s ++ [w];
                      validatedModules := validatedModules s |}).

Definition push_validated (m : string) : V unit :=
  fun s => (Ok tt, {| parsed := parsed s; errors := errors s;
                      warnings := warnings s;
                      validatedModules := validatedModules s ++ [m] |}).

Definition read_parsed : V json := fun s => (Ok (parsed s), s).
Definition read_errors : V (list string) := fun s => (Ok (errors s), s).
Definition read_warnings : V (list string) := fun s => (Ok (warnings s), s).
Definition read_validated : V (list string) := fun s => (Ok (validatedModules s), s).

Definition when (b : bool) (c : V unit) : V unit := if b then c else ret tt.

(** [for (let i = 0; i < l.length; i++) f(l[i], i)] *)
Definition for_indexed (f : json -> nat -> V unit) : list json -> nat -> V unit :=
  fix go l i :=
    match l with
    | [] => ret tt
    | x :: rest => f x i ;;; go rest (S i)
    end.

(** [for (const x of l) f(x)] *)
Definition for_of {A : Type} (f : A -> V unit) : list A -> V unit :=
  fix go l :=
    match l with
    | [] => ret tt
    | x :: rest => f x ;;; go rest
    end.

(** The version warnings, lines 806-813. *)
Definition version_warnings (pos m : string) (fs : fields) : V unit :=
  match get "version" fs with
  | Some version =>
      match verifiedVersion m with
      | Some verified =>
          when (negb (strict_eq version (JNum verified)))
            (push_warning (pos +++ " (" +++ m +++ "): Version " +++ js_string version +++
               " specified but verified working version is " +++ Z_str verified +++
               ". create_scenario will auto-correct this."))
      | None =>
          push_warning (pos +++ " (" +++ m +++ "): Module " +++ quoted "version" +++
            " is set in blueprint. This can trigger IM007 for unverified modules; create_scenario will strip it.")
      end
  | None => ret tt
  end.

(** The registry warnings, lines 815-827. *)
Definition registry_warnings (pos m : string) (fs : fields) : V unit :=
  let problemInfo := getProblematicModuleInfo m in
  match problemInfo with
  | Some info =>
      push_warning (pos +++ " (" +++ m +++ "): " +++ reason info +++
                    " Alternative: " +++ alternative info)
  | None => ret tt
  end ;;;
  if is_some (verifiedVersion m) && negb (is_some (get "version" fs)) then ret tt
  else
    when (negb (is_some (verifiedVersion m)) && negb (is_some problemInfo))
      (push_warning (pos +++ " (" +++ m +++
         "): Not in verified registry — may require manual verification.")).

(** [flowModule.parameters?.[name] !== undefined || flowModule.mapper?.[name] !== undefined] *)
Definition hasParam (fs : fields) (name : string) : bool :=
  is_some (prop_opt (get "parameters" fs) name) ||
  is_some (prop_opt (get "mapper" fs) name).

(** [!flowModule.routes || !Array.isArray(flowModule.routes) || flowModule.routes.length === 0] *)
Definition lacks_routes (fs : fields) : bool :=
  match get "routes" fs with
  | Some (JArr (_ :: _)) => false
  | _ => true
  end.

(** The check of one parameter definition, lines 834-847. *)
Definition check_param (pos m : string) (fs : fields) (p : param) : V unit :=
  if param_required p then
    if String.eqb m "builtin:BasicRouter" && String.eqb (param_name p) "routes" then
      when (lacks_routes fs)
        (push_error (pos +++ " (" +++ m +++ "): Router must have a " +++ quoted "routes" +++
                     " array with at least one route."))
    else
      when (negb (hasParam fs (param_name p)))
        (push_error (pos +++ " (" +++ m +++ "): Missing required parameter " +++
                     quoted (param_name p) +++ "."))
  else ret tt.

Definition unknown_module_error (pos m : string) : string :=
  pos +++ ": Unknown module " +++ quoted m +++ ". Use search_modules to find valid IDs.".

Definition missing_id_warning (pos m : string) : string :=
  pos +++ " (" +++ m +++ "): Missing " +++ quoted "id" +++
  " field. Each module should have a unique numeric ID.".

Definition missing_module_error (pos : string) : string :=
  pos +++ ": Missing or invalid " +++ quoted "module" +++ " property.".

(** The body of the loop of [validateFlow] on the item of path [pos]. *)
Fixpoint validateNode (env : environment) (flowModule : json) (pos : string)
  : V unit :=
  match flowModule with
  | JObj fs =>
      match get "module" fs with
      | Some (JStr m) =>
          if negb (nonempty m) then push_error (missing_module_error pos)
          else
            when (negb (is_some (get "id" fs)))
              (push_warning (missing_id_warning pos m)) ;;;
            match getModule env m with
            | None => push_error (unknown_module_error pos m)
            | Some schema =>
                version_warnings pos m fs ;;;
                registry_warnings pos m fs ;;;
                push_validated m ;;;
                for_of (check_param pos m fs) (row_parameters schema) ;;;
                with_field "routes" (fun v =>
                  match v with
                  | JArr routes =>
                      for_indexed (fun route r =>
                        match route with
                        | JNull => throw
                        | JObj rfs =>
                            with_field "flow" (fun fl =>
                              match fl with
                              | JArr sub =>
                                  for_indexed (fun n i =>
                                    validateNode env n (pos_of (route_prefix pos r) i)) sub 0
                              | _ => ret tt
                              end) (ret tt) rfs
                        | _ => ret tt
                        end) routes 0
                  | _ => ret tt
                  end) (ret tt) fs
            end
      | _ => push_error (missing_module_error pos)
      end
  | JArr _ => push_error (missing_module_error pos)
  | _ => push_error (pos +++ ": Each flow item must be an object.")
  end.

(** [validateFlow(flow, pathPrefix)] *)
Definition validateFlow (env : environment) (flow : list json) (pathPrefix : string)
  : V unit :=
  for_indexed (fun n i => validateNode env n (pos_of pathPrefix i)) flow 0.

(** An entry of [accountCompatibility.incompatibleModules]. *)
Record issue := {
  issue_module : string;
  issue_suggestion : option string;
  issue_problematic : bool;
  issue_paths : list string
}.

(** The validation report. *)
Record report := {
  valid : bool;
  report_errors : list string;
  report_warnings : list string;
  modulesValidated : list string;
  liveCatalogChecked : bool;
  verifiedRegistryChecked : bool;
  incompatibleModules : list issue
}.

(** [byModule]: the paths of each module id, in the order the ids first
    occur. *)
Fixpoint add_path (m p : string) (acc : list (string * list string))
  : list (string * list string) :=
  match acc with
  | [] => [(m, [p])]
  | (m', ps) :: rest =>
      if String.eqb m m' then (m', ps ++ [p]) :: rest
      else (m', ps) :: add_path m p rest
  end.

Definition byModule (allModules : list (string * string))
  : list (string * list string) :=
  fold_left (fun acc mp => add_path (fst mp) (snd mp) acc) allModules [].

Definition unavailable_error (moduleId : string) (suggestion : option string) : string :=
  match suggestion with
  | Some s =>
      "Module " +++ quoted moduleId +++
      " is not available in this Make account/region. Suggested replacement: " +++
      quoted s +++ "."
  | None =>
      "Module " +++ quoted moduleId +++ " is not available in this Make account/region."
  end.

(** The live-catalog check of one module id, lines 907-921: the issue, if
    any, and its error. *)
Definition live_check (live : list string) (entry : string * list string)
  : V (list issue) :=
  let moduleId := fst entry in
  if str_mem moduleId live then ret []
  else
    let suggestion :=
      match resolveClosestLiveModule moduleId live with
      | Some s => if nonempty s then Some s else None
      | None => None
      end in
    push_error (unavailable_error moduleId suggestion) ;;;
    ret [ {| issue_module := moduleId; issue_suggestion := suggestion;
             issue_problematic := false; issue_paths := snd entry |} ].

Fixpoint live_checks (live : list string) (entries : list (string * list string))
  : V (list issue) :=
  match entries with
  | [] => ret []
  | e :: rest =>
      here <- live_check live e ;;
      more <- live_checks live rest ;;
      ret (here ++ more)
  end.

(** The registry check, lines 927-940. *)
Fixpoint registry_issues (entries : list (string * list string))
    (issues : list issue) : list issue :=
  match entries with
  | [] => issues
  | (moduleId, paths) :: rest =>
      match getProblematicModuleInfo moduleId with
      | Some info =>
          if existsb (fun i => String.eqb (issue_module i) moduleId) issues
          then registry_issues rest issues
          else registry_issues rest
                 (issues ++ [ {| issue_module := moduleId;
                                 issue_suggestion := Some (alternative info);
                                 issue_problematic := true;
                                 issue_paths := paths |} ])
      | None => registry_issues rest issues
      end
  end.

(** The first-module warning, lines 872-877. *)
Definition first_module_warning (env : environment) (flow : list json) : V unit :=
  match flow with
  | [] => ret tt
  | first :: _ =>
      match field "module" first with
      | Some m =>
          if truthy m then
            match (match m with
                   | JStr id => Ok (getModule env id)
                   | _ => getModuleOther env m
                   end) with
            | Thrown => throw
            | Ok (Some firstModule) =>
                when (negb (String.eqb (row_type firstModule) "trigger"))
                  (push_warning "First module should typically be a trigger. Your scenario has no trigger entry point.")
            | Ok None => ret tt
            end
          else ret tt
      | None => ret tt
      end
  end.

(** The checks of the flow, lines 862-878. *)
Definition flow_checks (env : environment) (p : json) : V unit :=
  match field "flow" p with
  | Some (JArr flow) =>
      when (Nat.eqb (List.length flow) 0)
        (push_error "Flow array is empty. Add at least one module.") ;;;
      validateFlow env flow "Flow" ;;;
      first_module_warning env flow
  | _ =>
      push_error ("Blueprint must contain a " +++ quoted "flow" +++ " array of modules.")
  end.

(** The metadata warning, lines 881-883. *)
Definition metadata_warning (p : json) : V unit :=
  when (negb (truthy_opt (field "metadata" p)))
    (push_warning ("Blueprint is missing " +++ quoted "metadata" +++
                   " section. It will be auto-injected during deployment.")).

(** The account compatibility, lines 885-941: [liveCatalogChecked],
    [verifiedRegistryChecked] and the issues. *)
Definition compatibility (env : environment) (p : json)
  : V (bool * bool * list issue) :=
  match field "flow" p with
  | Some (JArr flow) =>
      let entries := byModule (extractAllFlowModules flow "Flow") in
      live_issues <-
        match liveIds env with
        | Some live => live_checks live entries
        | None => ret []
        end ;;
      ret (is_some (liveIds env), true, registry_issues entries live_issues)
  | _ => ret (false, false, [])
  end.

(** The result, lines 943-956. *)
Definition make_report (compat : bool * bool * list issue) : V report :=
  errs <- read_errors ;;
  warns <- read_warnings ;;
  validated <- read_validated ;;
  ret {| valid := Nat.eqb (List.length errs) 0;
         report_errors := errs;
         report_warnings := warns;
         modulesValidated := validated;
         liveCatalogChecked := fst (fst compat);
         verifiedRegistryChecked := snd (fst compat);
         incompatibleModules := snd compat |}.

(** The handler of [validate_scenario] on the parsed blueprint; reading
    [parsed.flow] off [null] throws. *)
Definition validate_handler (env : environment) : V report :=
  p <- read_parsed ;;
  match p with
  | JNull => throw
  | _ =>
      flow_checks env p ;;;
      metadata_warning p ;;;
      compat <- compatibility env p ;;
      make_report compat
  end.

Definition initial_state (p : json) : vstate :=
  {| parsed := p; errors := []; warnings := []; validatedModules := [] |}.

(** [validate_scenario]: the report, or a throw (the handler then answers
    with its failure message), and the handler's variables at the end. *)
Definition validate_scenario (env : environment) (p : json)
  : outcome report * vstate :=
  validate_handler env (initial_state p).
(** ** Reading the deployment error *)

Definition hex_digit (n : nat) : ascii :=
  if (n <? 10)%nat then ascii_of_nat (48 + n) else ascii_of_nat (87 + n).

(** The escape of one character inside a JSON string. *)
Definition json_escape_char (c : ascii) : string :=
  let n := nat_of_ascii c in
  let bs := String (ascii_of_nat 92) EmptyString in
  if (n =? 34)%nat then bs +++ dq
  else if (n =? 92)%nat then bs +++ bs
  else if (n =? 8)%nat then bs +++ "b"
  else if (n =? 12)%nat then bs +++ "f"
  else if (n =? 10)%nat then bs +++ "n"
  else if (n =? 13)%nat then bs +++ "r"
  else if (n =? 9)%nat then bs +++ "t"
  else if (n <? 32)%nat then
    bs +++ "u00" +++ String (hex_digit (n / 16)) (String (hex_digit (n mod 16)) EmptyString)
  else String c EmptyString.

Fixpoint json_escape (s : string) : string :=
  match s with
  | EmptyString => EmptyString
  | String c rest => json_escape_char c +++ json_escape rest
  end.

(** [JSON.stringify(x)] without indentation. *)
Fixpoint stringify (x : json) : string :=
  match x with
  | JNull => "null"
  | JBool true => "true"
  | JBool false => "false"
  | JNum n => Z_str n
  | JStr s => quoted (json_escape s)
  | JArr items =>
      "[" +++
      (fix join (l : list json) : string :=
         match l with
         | [] => ""
         | y :: rest =>
             match rest with
             | [] => stringify y
             | _ => stringify y +++ "," +++ join rest
             end
         end) items +++ "]"
  | JObj fs =>
      "{" +++
      (fix join (l : list (string * json)) : string :=
         match l with
         | [] => ""
         | (k, v) :: rest =>
             let here := quoted (json_escape k) +++ ":" +++ stringify v in
             match rest with
             | [] => here
             | _ => here +++ "," +++ join rest
             end
         end) fs +++ "}"
  end.

(** [typeof errorData === 'string' ? errorData : JSON.stringify(errorData || {})] *)
Definition error_body (errorData : option json) : string :=
  match errorData with
  | Some (JStr s) => s
  | Some d => if truthy d then stringify d else "{}"
  | None => "{}"
  end.

Fixpoint take_while (p : ascii -> bool) (s : string) : string * string :=
  match s with
  | EmptyString => (EmptyString, EmptyString)
  | String c rest =>
      if p c
      then let '(run, tl) := take_while p rest in (String c run, tl)
      else (EmptyString, s)
  end.

(** The rest of [s] after the literal [p] (given in lower case), matched
    without regard to case. *)
Fixpoint after_ci (p s : string) : option string :=
  match p, s with
  | EmptyString, _ => Some s
  | String a p', String b s' =>
      if Ascii.eqb a (lower_char b) then after_ci p' s' else None
  | String _ _, EmptyString => None
  end.

(** The rest of [s] after a non-empty run of characters that satisfy [p]. *)
Definition after_run (p : ascii -> bool) (s : string) : option string :=
  let '(run, tl) := take_while p s in
  if nonempty run then Some tl else None.

(** [[A-Za-z0-9_.:-]] *)
Definition is_id_char (c : ascii) : bool :=
  is_alnum c || Ascii.eqb c "_" || Ascii.eqb c "." || Ascii.eqb c ":" || Ascii.eqb c "-".

Fixpoint colon_then_more (s : string) : bool :=
  match s with
  | EmptyString => false
  | String c rest => (Ascii.eqb c ":" && nonempty rest) || colon_then_more rest
  end.

(** A match of [([A-Za-z0-9_.:-]+:[A-Za-z0-9_.:-]+)] at the head of [s]: the
    whole run of identifier characters, when a colon stands inside it. *)
Definition id_group_here (s : string) : option string :=
  let '(run, _) := take_while is_id_char s in
  match run with
  | String _ rest => if colon_then_more rest then Some run else None
  | EmptyString => None
  end.

(** The greedy separator [[^A-Za-z0-9]+] gives characters back one at a
    time: the group is tried after the whole run first, then earlier. *)
Fixpoint group_after_separator (s : string) : option string :=
  match s with
  | EmptyString => None
  | String c rest =>
      if is_alnum c then None
      else
        match (if match rest with
                  | String c' _ => negb (is_alnum c')
                  | EmptyString => false
                  end
               then group_after_separator rest else None) with
        | Some g => Some g
        | None => id_group_here rest
        end
  end.

Definition bind_opt {A B : Type} (x : option A) (k : A -> option B) : option B :=
  match x with
  | Some a => k a
  | None => None
  end.

Definition module_not_found_here (s : string) : option string :=
  bind_opt (after_ci "module" s) (fun s1 =>
  bind_opt (after_run is_space s1) (fun s2 =>
  bind_opt (after_ci "not" s2) (fun s3 =>
  bind_opt (after_run is_space s3) (fun s4 =>
  bind_opt (after_ci "found" s4) group_after_separator)))).

Definition first_match {A : Type} (here : string -> option A) : string -> option A :=
  fix go s :=
    match here s with
    | Some a => Some a
    | None =>
        match s with
        | EmptyString => None
        | String _ rest => go rest
        end
    end.

(** [extractIm007ModuleId] *)
Definition extractIm007ModuleId (errorData : option json) : option string :=
  first_match module_not_found_here (error_body errorData).

Definition version_here (s : string) : option string :=
  bind_opt (after_ci "version" s) (fun s1 =>
  bind_opt (after_run is_space s1) (fun s2 =>
  bind_opt (after_ci "'" s2) (fun s3 =>
    let '(ds, tl) := take_digits s3 in
    if nonempty ds && startsWith "'" tl then Some ds else None))).

(** [extractIm007Version] *)
Definition extractIm007Version (errorData : option json) : option Z :=
  match first_match version_here (error_body errorData) with
  | None => None
  | Some ds =>
      match Number_of ds with
      | Finite parsed => if (parsed <=? 0)%Z then None else Some parsed
      | Infinity => None
      end
  end.

(** ** The retry loop of [create_scenario] *)

(** A rejected submission: [error.response?.status] and
    [error.response?.data]. *)
Record deploy_error := {
  status : option Z;
  data : option json
}.

Inductive response : Type :=
| Accepted (body : json)
| Rejected (error : deploy_error).

(** The remote platform: its answer to the submission number [attempt] of
    the blueprint given. *)
Definition platform := nat -> json -> response.

(** The retries, as the loop logs them with [logger.warn]. *)
Inductive retry : Type :=
| RetryVerified (module : string) (verifiedVersion : Z)
| RetryRemap (missingModule replacement : string)
| RetryLowerVersion (module : string) (fromVersion toVersion : Z)
| RetryStripVersions.

(** The variables of the handler that the loop works on. *)
Record loop_state := {
  blueprint : json;
  strippedVersionsForRetry : bool;
  triedVersionFallbacks : list string;
  remappedModules : list (string * string);
  failedModulesOuter : list (string * problem_info);
  retries : list retry
}.

Inductive loop_exit : Type :=
| Responded (body : json)
| Threw (error : deploy_error)
| NoResponse.

Record loop_result := {
  exit : loop_exit;
  attempts : nat;
  final : loop_state
}.

Definition maxAttempts : nat := 5.

(** [status === 400] *)
Definition is_400 (e : deploy_error) : bool :=
  match status e with
  | Some s => Z.eqb s 400
  | None => false
  end.

(** [data?.code === 'IM007'] *)
Definition is_IM007 (e : deploy_error) : bool :=
  match bind_opt (data e) (field "code") with
  | Some (JStr c) => String.eqb c "IM007"
  | _ => false
  end.

(** [Array.isArray(parsed.flow)] *)
Definition flow_of (parsed : json) : option (list json) :=
  match field "flow" parsed with
  | Some (JArr flow) => Some flow
  | _ => None
  end.

(** The blueprint with its flow array after an in-place walk. *)
Definition with_flow (parsed : json) (flow : list json) : json :=
  match parsed with
  | JObj fs => JObj (set "flow" (JArr flow) fs)
  | _ => parsed
  end.

Definition truthy_string (s : option string) : option string :=
  match s with
  | Some m => if nonempty m then Some m else None
  | None => None
  end.

Inductive verdict : Type :=
| Continue (st : loop_state)
| Throw (st : loop_state).

(** Strategy 1: the verified version of the missing module, once. *)
Definition strategy1 (e : deploy_error) (more : bool) (st : loop_state)
  : option loop_state :=
  match truthy_string (extractIm007ModuleId (data e)), flow_of (blueprint st) with
  | Some m, Some flow =>
      if is_400 e && is_IM007 e && more then
        match verifiedVersion m with
        | Some v =>
            if negb (str_mem (m +++ "@verified") (triedVersionFallbacks st)) then
              let '(flow', updated) := setModuleVersionInFlow flow m v in
              if (0 <? updated)%nat then
                Some {| blueprint := with_flow (blueprint st) flow';
                        strippedVersionsForRetry := strippedVersionsForRetry st;
                        triedVersionFallbacks :=
                          triedVersionFallbacks st ++ [m +++ "@verified"];
                        remappedModules := remappedModules st;
                        failedModulesOuter := failedModulesOuter st;
                        retries := retries st ++ [RetryVerified m v] |}
              else None
            else None
        | None => None
        end
      else None
  | _, _ => None
  end.

(** Strategy 2: a module of the deny-list ends the retries. *)
Definition strategy2 (e : deploy_error) (st : loop_state) : option loop_state :=
  match truthy_string (extractIm007ModuleId (data e)) with
  | Some m =>
      if is_400 e && is_IM007 e then
        match getProblematicModuleInfo m with
        | Some info =>
            Some {| blueprint := blueprint st;
                    strippedVersionsForRetry := strippedVersionsForRetry st;
                    triedVersionFallbacks := triedVersionFallbacks st;
                    remappedModules := remappedModules st;
                    failedModulesOuter := failedModulesOuter st ++ [(m, info)];
                    retries := retries st |}
        | None => None
        end
      else None
  | None => None
  end.

(** Strategy 3: the closest live module id. *)
Definition strategy3 (live : option (list string)) (e : deploy_error) (more : bool)
    (st : loop_state) : option loop_state :=
  match truthy_string (extractIm007ModuleId (data e)), live with
  | Some m, Some liveIds =>
      if is_400 e && more then
        match truthy_string (resolveClosestLiveModule m liveIds), flow_of (blueprint st) with
        | Some replacement, Some flow =>
            if negb (String.eqb replacement m) then
              Some {| blueprint :=
                        with_flow (blueprint st)
                                  (replaceModuleIdsInFlow flow [(m, replacement)]);
                      strippedVersionsForRetry := strippedVersionsForRetry st;
                      triedVersionFallbacks := triedVersionFallbacks st;
                      remappedModules := remappedModules st ++ [(m, replacement)];
                      failedModulesOuter := failedModulesOuter st;
                      retries := retries st ++ [RetryRemap m replacement] |}
            else None
        | _, _ => None
        end
      else None
  | _, _ => None
  end.

(** Strategy 4: the version below the one reported, once for each module and
    version. *)
Definition strategy4 (e : deploy_error) (more : bool) (st : loop_state)
  : option loop_state :=
  match truthy_string (extractIm007ModuleId (data e)),
        extractIm007Version (data e), flow_of (blueprint st) with
  | Some m, Some missingVersion, Some flow =>
      if is_400 e && is_IM007 e && negb (Z.eqb missingVersion 0)
         && (1 <? missingVersion)%Z && more then
        let fallbackVersion := (missingVersion - 1)%Z in
        let fallbackKey := m +++ "@" +++ Z_str fallbackVersion in
        if negb (str_mem fallbackKey (triedVersionFallbacks st)) then
          let '(flow', updated) := setModuleVersionInFlow flow m fallbackVersion in
          if (0 <? updated)%nat then
            Some {| blueprint := with_flow (blueprint st) flow';
                    strippedVersionsForRetry := strippedVersionsForRetry st;
                    triedVersionFallbacks := triedVersionFallbacks st ++ [fallbackKey];
                    remappedModules := remappedModules st;
                    failedModulesOuter := failedModulesOuter st;
                    retries := retries st ++
                               [RetryLowerVersion m missingVersion fallbackVersion] |}
          else None
        else None
      else None
  | _, _, _ => None
  end.

(** Strategy 5: all version pins off, once. *)
Definition strategy5 (e : deploy_error) (more : bool) (st : loop_state)
  : option loop_state :=
  match flow_of (blueprint st) with
  | Some flow =>
      if is_400 e && more && negb (strippedVersionsForRetry st) && is_IM007 e then
        let '(flow', stripped) := stripModuleVersionsInFlow flow in
        if (0 <? stripped)%nat then
          Some {| blueprint := with_flow (blueprint st) flow';
                  strippedVersionsForRetry := true;
                  triedVersionFallbacks := triedVersionFallbacks st;
                  remappedModules := remappedModules st;
                  failedModulesOuter := failedModulesOuter st;
                  retries := retries st ++ [RetryStripVersions] |}
        else None
      else None
  | None => None
  end.

(** The [catch] block of the loop: the first strategy that applies, in the
    order of the source; [more] is [attempt < maxAttempts]. *)
Definition on_rejection (live : option (list string)) (e : deploy_error)
    (more : bool) (st : loop_state) : verdict :=
  match strategy1 e more st with
  | Some st' => Continue st'
  | None =>
      match strategy2 e st with
      | Some st' => Throw st'
      | None =>
          match strategy3 live e more st with
          | Some st' => Continue st'
          | None =>
              match strategy4 e more st with
              | Some st' => Continue st'
              | None =>
                  match strategy5 e more st with
                  | Some st' => Continue st'
                  | None => Throw st
                  end
              end
          end
      end
  end.

(** [while (attempt < maxAttempts)]: [remaining] is [maxAttempts - attempt],
    the number of turns the condition still allows. *)
Fixpoint retry_loop (post : platform) (live : option (list string))
    (remaining attempt : nat) (st : loop_state) : loop_result :=
  match remaining with
  | 0 => {| exit := NoResponse; attempts := attempt; final := st |}
  | S remaining' =>
      let attempt := S attempt in
      match post attempt (blueprint st) with
      | Accepted body => {| exit := Responded body; attempts := attempt; final := st |}
      | Rejected e =>
          match on_rejection live e (attempt <? maxAttempts)%nat st with
          | Continue st' => retry_loop post live remaining' attempt st'
          | Throw st' => {| exit := Threw e; attempts := attempt; final := st' |}
          end
      end
  end.

Definition start_state (parsed : json) (remapped : list (string * string)) : loop_state :=
  {| blueprint := parsed;
     strippedVersionsForRetry := false;
     triedVersionFallbacks := [];
     remappedModules := remapped;
     failedModulesOuter := [];
     retries := [] |}.

(** The submission loop of [create_scenario] on a healed blueprint. *)
Definition deploy (post : platform) (live : option (list string)) (parsed : json)
    (remapped : list (string * string)) : loop_result :=
  retry_loop post live maxAttempts 0 (start_state parsed remapped).

(** The account-aware remap before the loop, lines 1106-1135: the
    replacements, and the module ids with none. *)
Fixpoint plan_remap (live : list string) (ids : list string)
  : list (string * string) * list string :=
  match ids with
  | [] => ([], [])
  | moduleId :: rest =>
      let '(replacements, unavailable) := plan_remap live rest in
      if str_mem moduleId live then (replacements, unavailable)
      else
        match truthy_string (resolveClosestLiveModule moduleId live) with
        | Some replacement =>
            if negb (String.eqb replacement moduleId)
            then ((moduleId, replacement) :: replacements, unavailable)
            else (replacements, moduleId :: unavailable)
        | None => (replacements, moduleId :: unavailable)
        end
  end.

Inductive tool_result : Type :=
| Created (scenario : json) (remapped : list (string * string)) (warns : list string)
| CreatedInvalid (scenario : json)
| CannotDeploy (unavailable : list string)
| DeployFailed (error : deploy_error) (failedModules : list (string * problem_info))
| HealingThrew
| NoResponseAfterRetries.

(** [createdScenario?.isinvalid === true] with
    [createdScenario = response.data?.scenario || response.data]. *)
Definition marked_invalid (body : json) : bool :=
  let createdScenario :=
    match field "scenario" body with
    | Some s => if truthy s then s else body
    | None => body
    end in
  match field "isinvalid" createdScenario with
  | Some (JBool true) => true
  | _ => false
  end.

(** The warnings about problematic modules, lines 1092-1103. *)
Definition problem_warnings (parsed : json) : list string :=
  match flow_of parsed with
  | Some flow =>
      flat_map (fun mp =>
        match getProblematicModuleInfo (fst mp) with
        | Some info =>
            ["Warning: " +++ quoted (fst mp) +++ " at " +++ snd mp +++
             " may fail during API deployment. " +++ reason info]
        | None => []
        end) (extractAllFlowModules flow "Flow")
  | None => []
  end.

(** The remap against the live catalog, lines 1106-1135: the blueprint after
    it, the remapped modules and the unavailable ones. *)
Definition remap_to_live (live : option (list string)) (parsed : json)
  : json * list (string * string) * list string :=
  match live, flow_of parsed with
  | Some liveIds, Some flow =>
      let ids := to_set (map fst (extractAllFlowModules flow "Flow")) in
      let '(replacements, unavailable) := plan_remap liveIds ids in
      (match replacements with
       | [] => parsed
       | _ => with_flow parsed (replaceModuleIdsInFlow flow replacements)
       end, replacements, unavailable)
  | _, _ => (parsed, [], [])
  end.

(** [create_scenario] from the parsed blueprint on, with the API key and the
    team id in place: the result and the number of submissions. *)
Definition create_scenario (post : platform) (live : option (list string))
    (parsed : json) : tool_result * nat :=
  match heal parsed with
  | None => (HealingThrew, 0)
  | Some h =>
      let warns := normalizationWarnings h ++ problem_warnings (blueprint_of h) in
      let '(parsed1, remapped, unavailable) := remap_to_live live (blueprint_of h) in
      match unavailable with
      | _ :: _ => (CannotDeploy unavailable, 0)
      | [] =>
          let r := deploy post live parsed1 remapped in
          (match exit r with
           | Responded body =>
               if marked_invalid body then CreatedInvalid body
               else Created body (remappedModules (final r)) warns
           | Threw e => DeployFailed e (failedModulesOuter (final r))
           | NoResponse => NoResponseAfterRetries
           end, attempts r)
      end
  end.
(** ** The notions the properties are stated with *)

(** *** The resolver *)

(** The score the specification gives: the number of distinct tokens that
    the target and the candidate share, over the number of target tokens. *)
Definition intersection_size (targetTokens : list string) (candidate : string) : nat :=
  List.length (to_set (filter (fun t => str_mem t targetTokens)
     (tokenizeModulePart (nth 1 (split_on ":" candidate) "")))).

Definition intersection_score (targetTokens : list string) (candidate : string) : Q :=
  Z.of_nat (intersection_size targetTokens candidate)
  # Pos.of_nat (Nat.max (List.length targetTokens) 1).

(** The namespace and the target tokens of the token-overlap stage. *)
Definition namespace_of (moduleId : string) : string :=
  nth 0 (split_on ":" moduleId) "".

Definition target_tokens (moduleId : string) : list string :=
  to_set (tokenizeModulePart (nth 1 (split_on ":" moduleId) "")).

(** *** The tree *)

(** The validator goes below a node only when the node is an object whose
    module id is a non-empty string that the catalog knows. *)
Definition descends (env : environment) (node : json) : bool :=
  match node with
  | JObj fs =>
      match get "module" fs with
      | Some (JStr m) => nonempty m && is_some (getModule env m)
      | _ => false
      end
  | _ => false
  end.

(** A node followed by the nodes below it that the validator reaches. *)
Fixpoint visitedNodes (env : environment) (node : json) : list json :=
  node ::
  if descends env node then
    match node with
    | JObj fs =>
        with_field "routes" (fun v =>
          match v with
          | JArr routes =>
              flat_map (fun route =>
                match route with
                | JObj rfs =>
                    with_field "flow" (fun fl =>
                      match fl with
                      | JArr sub => flat_map (visitedNodes env) sub
                      | _ => []
                      end) [] rfs
                | _ => []
                end) routes
          | _ => []
          end) [] fs
    | _ => []
    end
  else [].

(** A node as C1 describes it: a well-formed step node whose module id is in
    the static catalog and whose required parameters are all present in its
    [parameters] or [mapper]. *)
Definition node_as_claimed (env : environment) (node : json) : bool :=
  match node with
  | JObj fs =>
      match get "module" fs with
      | Some (JStr m) =>
          nonempty m &&
          match getModule env m with
          | Some schema =>
              forallb (fun p => negb (param_required p) || hasParam fs (param_name p))
                      (row_parameters schema)
          | None => false
          end
      | _ => false
      end
  | _ => false
  end.

(** A required parameter as the validator checks it: [routes] of a router
    is the [routes] array of the node, with at least one route; any other is
    present in [parameters] or [mapper]. *)
Definition param_supplied (m : string) (fs : fields) (p : param) : bool :=
  negb (param_required p) ||
  (if String.eqb m "builtin:BasicRouter" && String.eqb (param_name p) "routes"
   then negb (lacks_routes fs)
   else hasParam fs (param_name p)).

(** No entry of the [routes] array of the node is [null]. *)
Definition routes_readable (fs : fields) : bool :=
  match get "routes" fs with
  | Some (JArr routes) =>
      forallb (fun route => match route with JNull => false | _ => true end) routes
  | _ => true
  end.

(** A node that passes the validator. *)
Definition node_passes (env : environment) (node : json) : bool :=
  match node with
  | JObj fs =>
      match get "module" fs with
      | Some (JStr m) =>
          nonempty m &&
          match getModule env m with
          | Some schema => forallb (param_supplied m fs) (row_parameters schema)
          | None => false
          end &&
          routes_readable fs
      | _ => false
      end
  | _ => false
  end.

(** With a live catalog, every module id of the tree is in it. *)
Definition live_has_all (env : environment) (flow : list json) : bool :=
  match liveIds env with
  | Some live =>
      forallb (fun mp => str_mem (fst mp) live) (extractAllFlowModules flow "Flow")
  | None => true
  end.

(** What C7 says of a node: a verified module carries the version of the
    registry, any other module carries none. *)
Definition version_reconciled (node : json) : Prop :=
  match node with
  | JObj fs =>
      match get "module" fs with
      | Some (JStr m) =>
          get "version" fs =
          match verifiedVersion m with
          | Some known => Some (JNum known)
          | None => None
          end
      | _ => True
      end
  | _ => True
  end.

(** *** Counting the retries *)

Definition count {A : Type} (p : A -> bool) (l : list A) : nat :=
  List.length (filter p l).

Definition is_verified_retry (m : string) (r : retry) : bool :=
  match r with
  | RetryVerified m' _ => String.eqb m m'
  | _ => false
  end.

Definition is_lower_retry (m : string) (v : Z) (r : retry) : bool :=
  match r with
  | RetryLowerVersion m' _ v' => String.eqb m m' && Z.eqb v v'
  | _ => false
  end.

Definition is_lower_retry_of (m : string) (r : retry) : bool :=
  match r with
  | RetryLowerVersion m' _ _ => String.eqb m m'
  | _ => false
  end.

Definition is_remap_retry (m : string) (r : retry) : bool :=
  match r with
  | RetryRemap m' _ => String.eqb m m'
  | _ => false
  end.

Definition is_strip_retry (r : retry) : bool :=
  match r with
  | RetryStripVersions => true
  | _ => false
  end.

(** ** A catalog, blueprints and platforms to run the definitions on

    Four rows of the module catalog of [src/scrapers/scrape-modules.ts], with
    their parameter definitions. *)

Definition required (name : string) : param :=
  {| param_name := name; param_required := true |}.

Definition optional (name : string) : param :=
  {| param_name := name; param_required := false |}.

Definition sample_catalog (moduleId : string) : option module_row :=
  if String.eqb moduleId "gateway:CustomWebHook" then
    Some {| row_type := "trigger";
            row_parameters := [required "name"; optional "dataStructure"] |}
  else if String.eqb moduleId "slack:ActionPostMessage" then
    Some {| row_type := "action";
            row_parameters := [required "channel"; required "text"; optional "username";
                               optional "iconEmoji"; optional "iconUrl"; optional "blocks";
                               optional "threadTs"] |}
  else if String.eqb moduleId "http:ActionSendData" then
    Some {| row_type := "action";
            row_parameters := [required "method"; required "url"; optional "headers";
                               optional "queryString"; optional "body"; optional "bodyType";
                               optional "parseResponse"; optional "timeout"] |}
  else if String.eqb moduleId "builtin:BasicRouter" then
    Some {| row_type := "action"; row_parameters := [required "routes"] |}
  else None.

Definition sample_env (live : option (list string)) : environment :=
  {| getModule := sample_catalog;
     getModuleOther := fun _ => Ok None;
     liveIds := live |}.

Definition webhook_node : json :=
  JObj [("id", JNum 1); ("module", JStr "gateway:CustomWebHook");
        ("parameters", JObj [("name", JStr "Test")])].

Definition slack_node (id : Z) : json :=
  JObj [("id", JNum id); ("module", JStr "slack:ActionPostMessage");
        ("parameters", JObj [("channel", JStr "#test"); ("text", JStr "Hello")])].

(** The blueprint of the test [should validate a correct blueprint]. *)
Definition correct_flow : list json := [webhook_node; slack_node 2].

Definition correct_blueprint : json := JObj [("flow", JArr correct_flow)].

(** A router with two routes, one of them two levels deep. *)
Definition routed_flow : list json :=
  [ webhook_node;
    JObj [("id", JNum 2); ("module", JStr "builtin:BasicRouter");
          ("routes", JArr [
             JObj [("flow", JArr [slack_node 3])];
             JObj [("flow", JArr [
                JObj [("id", JNum 4); ("module", JStr "builtin:BasicRouter");
                      ("routes", JArr [JObj [("flow", JArr [slack_node 5])]])]])]])] ].

Definition routed_blueprint : json := JObj [("flow", JArr routed_flow)].

(** A router that carries [routes] in its [parameters] and not on the node. *)
Definition router_in_parameters_flow : list json :=
  [ webhook_node;
    JObj [("id", JNum 2); ("module", JStr "builtin:BasicRouter");
          ("parameters", JObj [("routes", JArr [JObj [("flow", JArr [])]])])] ].

Definition router_in_parameters_blueprint : json :=
  JObj [("flow", JArr router_in_parameters_flow)].

Definition unknown_leaf : json :=
  JObj [("id", JNum 9); ("module", JStr "bar:Baz")].

(** An unknown module below a router the catalog knows. *)
Definition unknown_below_router_flow : list json :=
  [ webhook_node;
    JObj [("id", JNum 2); ("module", JStr "builtin:BasicRouter");
          ("routes", JArr [JObj [("flow", JArr [unknown_leaf])]])] ].

Definition unknown_below_router : json :=
  JObj [("flow", JArr unknown_below_router_flow)].

(** An unknown module below a node with routes whose own module is
    unknown. *)
Definition unknown_below_unknown_flow : list json :=
  [ webhook_node;
    JObj [("id", JNum 2); ("module", JStr "foo:Router");
          ("routes", JArr [JObj [("flow", JArr [unknown_leaf])]])] ].

Definition unknown_below_unknown : json :=
  JObj [("flow", JArr unknown_below_unknown_flow)].

(** The report of a run, if the handler did not throw. *)
Definition report_of (run : outcome report * vstate) : option report :=
  match fst run with
  | Ok r => Some r
  | Thrown => None
  end.

(** A router whose first route starts with a schedule node. *)
Definition nested_schedule_blueprint : json :=
  JObj [("flow", JArr [
    JObj [("id", JNum 1); ("module", JStr "gateway:CustomWebHook");
          ("parameters", JObj [("name", JStr "hook")])];
    JObj [("id", JNum 2); ("module", JStr "builtin:BasicRouter");
          ("routes", JArr [
             JObj [("flow", JArr [
               JObj [("id", JNum 3); ("module", JStr "builtin:Schedule");
                     ("parameters", JObj [("interval", JStr "every day")])];
               JObj [("id", JNum 4); ("module", JStr "http:ActionSendData")]])]])]])].

Definition unhealed_blueprint : json :=
  JObj [("name", JStr "demo");
        ("flow", JArr [
           JObj [("id", JNum 1); ("module", JStr "builtin:Schedule");
                 ("parameters", JObj [("interval", JStr "every 10 minutes")])];
           JObj [("id", JNum 2); ("module", JStr "builtin:BasicRouter"); ("version", JNum 4);
                 ("routes", JArr [
                    JObj [("filter", JObj [("name", JStr "big")]);
                          ("flow", JArr [JObj [("id", JNum 3); ("module", JStr "acme:Thing");
                                               ("version", JNum 2);
                                               ("metadata", JObj [])]])]])]])].

Definition openai_rejection : deploy_error :=
  {| status := Some 400%Z;
     data := Some (JObj [("code", JStr "IM007");
                         ("detail", JStr "Module not found: 'openai:ActionCreateCompletion'")]) |}.

Definition openai_blueprint : json :=
  JObj [("flow", JArr [JObj [("id", JNum 1); ("module", JStr "openai:ActionCreateCompletion")]])].

(** A platform that keeps naming [foo:Bar], on an account whose live
    catalog spells it [foo:bar]. *)
Definition stubborn_platform : platform :=
  fun _ _ => Rejected {| status := Some 400%Z;
                         data := Some (JStr "Module not found: foo:Bar") |}.

Definition foo_blueprint : json :=
  JObj [("flow", JArr [JObj [("id", JNum 1); ("module", JStr "foo:bar")]])].

(** A platform that rejects version 3, then version 2, of [acme:Thing]. *)
Definition version_platform : platform :=
  fun attempt _ =>
    match attempt with
    | 1 => Rejected {| status := Some 400%Z;
                       data := Some (JObj [("code", JStr "IM007");
                                 ("detail", JStr "Module not found: 'acme:Thing' version '3'")]) |}
    | 2 => Rejected {| status := Some 400%Z;
                       data := Some (JObj [("code", JStr "IM007");
                                 ("detail", JStr "Module not found: 'acme:Thing' version '2'")]) |}
    | _ => Accepted (JObj [("scenario", JObj [("id", JNum 7)])])
    end.

Definition acme_blueprint : json :=
  JObj [("flow", JArr [JObj [("id", JNum 1); ("module", JStr "acme:Thing");
                             ("version", JNum 3)]])].

(** ** Notions of the proofs *)

(** *** The walks as maps over the tree *)

(** A route with its flow rewritten by [g]. *)
Definition over_flow (g : list json -> list json) (route : json) : json :=
  match route with
  | JObj rfs =>
      match get "flow" rfs with
      | Some (JArr sub) => JObj (set "flow" (JArr (g sub)) rfs)
      | _ => route
      end
  | _ => route
  end.

(** The fields [fs1] of a node with the flows below it rewritten by [g];
    the routes are read in [fs]. *)
Definition over_routes (g : list json -> list json) (fs fs1 : fields) : fields :=
  match get "routes" fs with
  | Some (JArr routes) => set "routes" (JArr (map (over_flow g) routes)) fs1
  | _ => fs1
  end.

(** The tree that [injectVerifiedVersions] leaves. *)
Definition inject_tree (node : json) : json := fst (injectNode node).

(** The nodes below a node. *)
Definition below (node : json) : list json :=
  match node_routes node with
  | Some routes =>
      flat_map (fun route =>
        match route_flow route with
        | Some sub => flat_map nodeAndBelow sub
        | None => []
        end) routes
  | None => []
  end.

Definition visited_below (env : environment) (node : json) : list json :=
  match node_routes node with
  | Some routes =>
      flat_map (fun route =>
        match route_flow route with
        | Some sub => flat_map (visitedNodes env) sub
        | None => []
        end) routes
  | None => []
  end.

(** *** Healed trees *)

(** The loop of [healFlow] over one route. *)
Definition heal_route (route : json) : option json :=
  match route with
  | JNull => None
  | JObj rfs =>
      match get "flow" rfs with
      | Some (JArr sub) =>
          match map_opt healNode sub with
          | Some sub' => Some (JObj (set "flow" (JArr sub') (strip_filter rfs)))
          | None => None
          end
      | _ => Some (JObj (strip_filter rfs))
      end
  | _ => Some route
  end.

(** The metadata that [healFlow] leaves as it is: an object with a designer,
    or an array, on which the designer is a property that is not part of the
    tree. *)
Definition designer_ok (metadata : option json) : bool :=
  match metadata with
  | Some (JObj mfs) => truthy_opt (get "designer" mfs)
  | Some (JArr _) => true
  | _ => false
  end.

(** A route that healing leaves alone, apart from its flow. *)
Definition route_healed (route : json) : Prop :=
  match route with
  | JNull => False
  | JObj rfs => get "filter" rfs = None
  | _ => True
  end.

(** A node that healing leaves alone, apart from the flows below it. *)
Definition node_healed (node : json) : Prop :=
  match node with
  | JObj fs =>
      designer_ok (get "metadata" fs) = true /\
      match node_routes node with
      | Some routes => Forall route_healed routes
      | None => True
      end
  | _ => True
  end.

Definition tree_healed (node : json) : Prop :=
  Forall node_healed (nodeAndBelow node).

(** What healing leaves alone: a blueprint with metadata whose root flow,
    if any, has no schedule node, is healed and has its versions
    reconciled. *)
Definition blueprint_stable (fs : fields) : Prop :=
  truthy_opt (get "metadata" fs) = true /\
  match get "flow" fs with
  | Some (JArr F) =>
      filter (fun n => negb (is_schedule n)) F = F /\
      healFlow F = Some F /\ map inject_tree F = F
  | _ => True
  end.

(** *** Computations of the validator *)

(** The walk of [validateFlow] below one route and below one node. *)
Definition validate_route (env : environment) (route : json) (prefix : string)
  : V unit :=
  match route with
  | JNull => throw
  | JObj rfs =>
      match get "flow" rfs with
      | Some (JArr sub) => validateFlow env sub prefix
      | _ => ret tt
      end
  | _ => ret tt
  end.

Definition validate_routes (env : environment) (fs : fields) (pos : string)
  : V unit :=
  match get "routes" fs with
  | Some (JArr routes) =>
      for_indexed (fun route r => validate_route env route (route_prefix pos r)) routes 0
  | _ => ret tt
  end.

(** The computation leaves [parsed] alone and only adds to [errors]. *)
Definition appends {A : Type} (c : V A) : Prop :=
  forall s,
    parsed (snd (c s)) = parsed s /\
    exists extra, errors (snd (c s)) = errors s ++ extra.

Definition errors_kept (s s' : vstate) : Prop :=
  forall e, In e (errors s) -> In e (errors s').

(** The computation does not throw and adds no error. *)
Definition quiet {A : Type} (c : V A) : Prop :=
  forall s, exists a s', c s = (Ok a, s') /\ errors s' = errors s.

(** *** The state of the retry loop *)

(** What the loop keeps true of its state: a retry of a once-only strategy
    has left its mark in [triedVersionFallbacks] or in
    [strippedVersionsForRetry], and has happened once. *)
Record once_only (st : loop_state) : Prop := {
  verified_once : forall m,
    count (is_verified_retry m) (retries st) = 0 \/
    (count (is_verified_retry m) (retries st) = 1 /\
     In (m +++ "@verified") (triedVersionFallbacks st));
  lower_once : forall m v,
    count (is_lower_retry m v) (retries st) = 0 \/
    (count (is_lower_retry m v) (retries st) = 1 /\
     In (m +++ "@" +++ Z_str v) (triedVersionFallbacks st));
  strip_once :
    count is_strip_retry (retries st) = 0 \/
    (count is_strip_retry (retries st) = 1 /\ strippedVersionsForRetry st = true)
}.


(** *** The walks, node by node *)

(** What [extractAllFlowModules] reports of a node: its module id, when it
    is a string that is not blank. *)
Definition reported_module (node : json) : list string :=
  match field "module" node with
  | Some (JStr s) => if trim_truthy s then [s] else []
  | _ => []
  end.

(** [node.version !== undefined] *)
Definition has_version (node : json) : bool := is_some (field "version" node).

(** [node.module === moduleId] *)
Definition has_module (moduleId : string) (node : json) : bool :=
  match field "module" node with
  | Some (JStr m) => String.eqb m moduleId
  | _ => false
  end.

(** The module id that [replaceModuleIdsInFlow] leaves where it found [m]. *)
Definition renamed (replacements : list (string * string)) (m : option json)
  : option json :=
  match m with
  | Some (JStr s) =>
      match record_get s replacements with
      | Some to => Some (JStr to)
      | None => m
      end
  | _ => m
  end.

(** The trees that the walks leave. *)
Definition replace_tree (replacements : list (string * string)) (node : json) : json :=
  fst (replaceNode replacements node).

Definition strip_tree (node : json) : json := fst (stripNode node).

Definition setVersion_tree (moduleId : string) (version : Z) (node : json) : json :=
  fst (setVersionNode moduleId version node).

(** The count that a walk adds at a node, when [p] tells the nodes it
    writes to. *)
Definition counted (p : json -> bool) (node : json) : nat :=
  if p node then 1 else 0.

(** *** Strings *)

(** Every character of the string satisfies [p]. *)
Fixpoint string_forall (p : ascii -> bool) (s : string) : bool :=
  match s with
  | EmptyString => true
  | String c rest => p c && string_forall p rest
  end.

(** [[a-z0-9:]], the characters that [normalizeModuleId] keeps. *)
Definition is_normal_char (c : ascii) : bool :=
  is_lower c || is_digit c || Ascii.eqb c ":".

(** *** The validator *)

(** What the validator pushes to [validatedModules] at a node: the module
    id, when it is a non-empty string that the catalog knows. *)
Definition validated_module (env : environment) (node : json) : list string :=
  match field "module" node with
  | Some (JStr m) =>
      if nonempty m && is_some (getModule env m) then [m] else []
  | _ => []
  end.

(** The computation leaves [validatedModules] alone. *)
Definition keeps_validated {A : Type} (c : V A) : Prop :=
  forall s, validatedModules (snd (c s)) = validatedModules s.

(** *** Healing *)

(** The node carries a designer placeholder in the tree: it is an object
    whose metadata is an object with a designer. *)
Definition carries_designer (node : json) : bool :=
  match field "metadata" node with
  | Some (JObj mfs) => truthy_opt (get "designer" mfs)
  | _ => false
  end.

(** The metadata of the node, when it is an array. *)
Definition metadata_array (node : json) : option (list json) :=
  match field "metadata" node with
  | Some (JArr items) => Some items
  | _ => None
  end.

(** The metadata of the node is an array. *)
Definition array_metadata (node : json) : bool := is_some (metadata_array node).

(** What healing leaves of a node that is an object: a designer placeholder,
    unless the metadata is an array, and no [filter] on its routes. *)
Definition designer_placed (node : json) : Prop :=
  match node with
  | JObj _ =>
      (if array_metadata node then True else carries_designer node = true) /\
      match node_routes node with
      | Some routes => Forall route_healed routes
      | None => True
      end
  | _ => True
  end.

(** ** More blueprints to run the definitions on *)

(** A blueprint whose second module id has drifted in case. *)
Definition drifted_blueprint : json :=
  JObj [("flow", JArr [webhook_node;
                       JObj [("id", JNum 2); ("module", JStr "slack:actionpostmessage")]])].

(** ** The live module catalog and its cache

    [fetchLiveModuleIds] of [src/mcp/server.ts].  The clock and the network
    are given: [now] is [Date.now()] at the look-up in the cache, [request]
    is the answer to [axios.get] ([Thrown] when it throws, else
    [response.data]), [stored] is [Date.now()] at the write to the cache.
    [ttl] is [MODULE_CACHE_TTL_MS], a number of milliseconds. *)

Record LiveModuleCatalog := { fetchedAt : Z; catalog_ids : list string }.

(** [liveModuleCatalogCache], a [Map] keyed by the base URL. *)
Definition catalog_cache := list (string * LiveModuleCatalog).

(** [map.set(k, v)]: in place for a key of the map, at the end for a new
    key. *)
Fixpoint map_set {A : Type} (k : string) (v : A) (m : list (string * A))
  : list (string * A) :=
  match m with
  | [] => [(k, v)]
  | (k', v') :: rest =>
      if String.eqb k k' then (k', v) :: rest else (k', v') :: map_set k v rest
  end.

(** [set.add(x)] on a [Set] in insertion order. *)
Definition set_add (x : string) (s : list string) : list string :=
  if str_mem x s then s else s ++ [x].

(** [s.includes(':')] *)
Definition has_colon (s : string) : bool := includes ":" s.

(** [Array.isArray(response.data?.modules) ? response.data.modules
     : Array.isArray(response.data) ? response.data : []] *)
Definition rawModules (data : option json) : list json :=
  match bind_opt data (field "modules") with
  | Some (JArr modules) => modules
  | _ =>
      match data with
      | Some (JArr items) => items
      | _ => []
      end
  end.

(** The ids that one item of the answer gives: the item itself when it is a
    string, else its [id], [module] and [key]; each when it is a string with
    a colon. *)
Definition id_candidates (item : json) : list string :=
  match item with
  | JStr s => if has_colon s then [s] else []
  | JObj fs =>
      flat_map (fun candidate =>
                  match candidate with
                  | Some (JStr c) => if has_colon c then [c] else []
                  | _ => []
                  end)
               [get "id" fs; get "module" fs; get "key" fs]
  | _ => []
  end.

(** The loop over [rawModules] that fills [ids]. *)
Definition parse_module_ids (raw : list json) : list string :=
  fold_left (fun ids item =>
               fold_left (fun acc candidate => set_add candidate acc)
                         (id_candidates item) ids)
            raw [].

(** The request and what it leaves in the cache. *)
Definition fetch_fresh (cache : catalog_cache) (baseUrl : string)
    (request : outcome (option json)) (stored : Z)
  : option (list string) * catalog_cache :=
  match request with
  | Thrown => (None, cache)
  | Ok data =>
      match parse_module_ids (rawModules data) with
      | [] => (None, cache)
      | ids =>
          (Some ids,
           map_set baseUrl {| fetchedAt := stored; catalog_ids := ids |} cache)
      end
  end.

(** [fetchLiveModuleIds]: the ids, or [None] for [null], and the cache after
    the call. *)
Definition fetchLiveModuleIds (ttl : Z) (cache : catalog_cache) (baseUrl : string)
    (now : Z) (request : outcome (option json)) (stored : Z)
  : option (list string) * catalog_cache :=
  match record_get baseUrl cache with
  | Some cached =>
      if (now - fetchedAt cached <? ttl)%Z then (Some (catalog_ids cached), cache)
      else fetch_fresh cache baseUrl request stored
  | None => fetch_fresh cache baseUrl request stored
  end.

(** What the cache keeps true of each entry: the ids are there, are
    distinct, and each has a colon. *)
Definition ids_ok (ids : list string) : Prop :=
  ids <> [] /\ NoDup ids /\ Forall (fun id => has_colon id = true) ids.

Definition cache_ok (cache : catalog_cache) : Prop :=
  Forall (fun entry => ids_ok (catalog_ids (snd entry))) cache.

(** ** The handler of [check_account_compatibility]

    From the parsed arguments on: [moduleIds], and [blueprint] with the
    outcome of [JSON.parse] ([None] inside for a text that is not JSON).
    [apiKey] is [process.env.MAKE_API_KEY], [baseUrl] the result of
    [getMakeBaseUrl()], [liveIds] the answer of [fetchLiveModuleIds], which
    the handler asks for with a valid key only. *)

(** [hasValidApiKey()] *)
Definition hasValidApiKey (apiKey : option string) : bool :=
  match apiKey with
  | Some key => nonempty key && negb (String.eqb key "your_api_key_here")
  | None => false
  end.

(** [s.trim()] on ASCII white space. *)
Fixpoint trim_end (s : string) : string :=
  match s with
  | EmptyString => EmptyString
  | String c rest =>
      match trim_end rest with
      | EmptyString => if is_space c then EmptyString else String c EmptyString
      | kept => String c kept
      end
  end.

Definition trim (s : string) : string := trim_end (drop_spaces s).

(** A row of [modules] in the answer.  [row_liveAvailable] is [None] in
    the answer without an API key, which has no such property. *)
Record compat_row := {
  row_moduleId : string;
  row_liveAvailable : option (option bool);
  row_verified : bool;
  row_recommendedVersion : option Z;
  row_problematic : bool;
  row_warning : option string;
  row_alternative : option string
}.

(** The row of the check against the registries only, lines 670-681. *)
Definition offline_row (moduleId : string) : compat_row :=
  let problemInfo := getProblematicModuleInfo moduleId in
  {| row_moduleId := moduleId;
     row_liveAvailable := None;
     row_verified := is_some (verifiedVersion moduleId);
     row_recommendedVersion := verifiedVersion moduleId;
     row_problematic := is_some problemInfo;
     row_warning := option_map reason problemInfo;
     row_alternative := option_map alternative problemInfo |}.

(** The row of the check with an API key, lines 707-724. *)
Definition online_row (liveIds : option (list string)) (moduleId : string)
  : compat_row :=
  let problemInfo := getProblematicModuleInfo moduleId in
  let liveAvailable := option_map (str_mem moduleId) liveIds in
  let suggestedReplacement :=
    match liveIds with
    | Some live =>
        if str_mem moduleId live then None
        else resolveClosestLiveModule moduleId live
    | None => None
    end in
  {| row_moduleId := moduleId;
     row_liveAvailable := Some liveAvailable;
     row_verified := is_some (verifiedVersion moduleId);
     row_recommendedVersion := verifiedVersion moduleId;
     row_problematic := is_some problemInfo;
     row_warning := option_map reason problemInfo;
     row_alternative :=
       match problemInfo with
       | Some info => Some (alternative info)
       | None => suggestedReplacement
       end |}.

(** [requested], lines 647-662: the ids given, trimmed, without the empty
    ones, then the module ids of the blueprint, each id once. *)
Definition requested_ids (moduleIds : option (list string)) (blueprint : option json)
  : list string :=
  let given :=
    to_set (filter nonempty
              (map trim match moduleIds with
                        | Some l => l
                        | None => []
                        end)) in
  match bind_opt blueprint flow_of with
  | Some flow =>
      fold_left (fun requested item => set_add (fst item) requested)
                (extractAllFlowModules flow "Flow") given
  | None => given
  end.

Fixpoint join_space (l : list string) : string :=
  match l with
  | [] => ""
  | [x] => x
  | x :: rest => x +++ " " +++ join_space rest
  end.

(** [parts.filter(Boolean).join(' ')] *)
Definition summary_of (parts : list string) : string :=
  join_space (filter nonempty parts).

(** The answer of the handler: [fail(message)]; a [TypeError] thrown in the
    body, which the [catch] of the handler answers with
    [fail('Compatibility check failed: ...')]; the two [ok] answers, with the
    properties that vary. *)
Inductive compat_answer : Type :=
| CompatFailed (message : string)
| CompatThrew
| CompatOffline (checkedModules : list string) (compatible : option bool)
    (modules : list compat_row) (summary : string)
| CompatOnline (liveCatalogChecked : bool) (makeApiUrl : string)
    (liveModuleCount checkedCount verifiedCount problematicCount unverifiedCount : nat)
    (compatible : option bool) (modules : list compat_row) (summary : string).

Definition is_unverified (r : compat_row) : bool :=
  negb (row_verified r) && negb (row_problematic r).

(** The answer without an API key, lines 668-699. *)
Definition offline_answer (requested : list string) : compat_answer :=
  let results := map offline_row requested in
  let problematic := filter row_problematic results in
  let unverified := filter is_unverified results in
  CompatOffline requested
    (match problematic with [] => None | _ => Some false end)
    results
    (summary_of
       [ nat_str (List.length (filter row_verified results)) +++
           " module(s) have verified versions.";
         match problematic with
         | [] => ""
         | _ => nat_str (List.length problematic) +++
                " module(s) are known to be problematic via API."
         end;
         match unverified with
         | [] => ""
         | _ => nat_str (List.length unverified) +++
                " module(s) are unverified — they may or may not work."
         end;
         "MAKE_API_KEY not configured — cannot verify against live account." ]).

(** The answer with an API key, lines 701-747. *)
Definition online_answer (baseUrl : string) (liveIds : option (list string))
    (requested : list string) : compat_answer :=
  let results := map (online_row liveIds) requested in
  let problematic := filter row_problematic results in
  let unverified := filter is_unverified results in
  let verified := filter row_verified results in
  CompatOnline (is_some liveIds) baseUrl
    (match liveIds with Some live => List.length live | None => 0 end)
    (List.length results) (List.length verified) (List.length problematic)
    (List.length unverified)
    (match problematic with
     | [] => match unverified with [] => Some true | _ => None end
     | _ => Some false
     end)
    results
    (summary_of
       [ nat_str (List.length verified) +++ " module(s) have verified versions.";
         match problematic with
         | [] => ""
         | _ => nat_str (List.length problematic) +++
                " module(s) are known to be problematic — see warnings and alternatives."
         end;
         match unverified with
         | [] => ""
         | _ => nat_str (List.length unverified) +++
                " module(s) are unverified — deployment will attempt them but they may fail."
         end;
         match liveIds with
         | Some _ => ""
         | None => "Live module endpoint unavailable — using verified registry only."
         end ]).

(** [check_account_compatibility] *)
Definition check_account_compatibility (apiKey : option string) (baseUrl : string)
    (liveIds : option (list string)) (moduleIds : option (list string))
    (blueprint : option (option json)) : compat_answer :=
  match blueprint with
  | Some None =>
      CompatFailed "Invalid blueprint JSON. Ensure the blueprint is valid JSON."
  | Some (Some JNull) => CompatThrew
  | _ =>
      let parsed := match blueprint with Some p => p | None => None end in
      match requested_ids moduleIds parsed with
      | [] =>
          CompatFailed "Provide at least one module ID via moduleIds or include a blueprint with a flow array."
      | requested =>
          if hasValidApiKey apiKey then online_answer baseUrl liveIds requested
          else offline_answer requested
      end
  end.

(** ** The catalog of apps: [list_apps] and the resource [make://apps]

    Both handlers read [db.searchModules('*')], the rows of the table
    [modules]; [apps] below is that answer, with the two columns that the
    handlers read. *)

Record listed_module := { mod_app : string; mod_type : string }.

(** A value of [appMap] in [list_apps]. *)
Record app_info := { info_count : nat; info_types : list string }.

(** The body of the loop of [list_apps] that fills [appMap]. *)
Definition tally_step (appMap : list (string * app_info)) (module : listed_module)
  : list (string * app_info) :=
  match record_get (mod_app module) appMap with
  | Some existing =>
      map_set (mod_app module)
        {| info_count := S (info_count existing);
           info_types := set_add (mod_type module) (info_types existing) |}
        appMap
  | None =>
      map_set (mod_app module)
        {| info_count := 1; info_types := [mod_type module] |} appMap
  end.

Definition tally (apps : list listed_module) : list (string * app_info) :=
  fold_left tally_step apps [].

(** [array.sort(compare)].  The sort of an array is stable: each element
    goes before the first one that it does not have to follow. *)
Fixpoint sort_insert {A : Type} (compare : A -> A -> Z) (x : A) (sorted : list A)
  : list A :=
  match sorted with
  | [] => [x]
  | y :: rest =>
      if (compare x y <=? 0)%Z then x :: sorted
      else y :: sort_insert compare x rest
  end.

Definition array_sort {A : Type} (compare : A -> A -> Z) (l : list A) : list A :=
  fold_right (sort_insert compare) [] l.

(** An element of [apps] in the answer of [list_apps]. *)
Record app_entry := {
  entry_app : string;
  entry_moduleCount : nat;
  entry_types : list string
}.

Record apps_answer := {
  totalApps : nat;
  totalModules : nat;
  apps_list : list app_entry
}.

(** [list_apps], the argument of [ok]. *)
Definition list_apps (apps : list listed_module) : apps_answer :=
  let result :=
    array_sort (fun a b => (Z.of_nat (entry_moduleCount b) -
                            Z.of_nat (entry_moduleCount a))%Z)
      (map (fun entry =>
              {| entry_app := fst entry;
                 entry_moduleCount := info_count (snd entry);
                 entry_types := info_types (snd entry) |})
           (tally apps)) in
  {| totalApps := List.length result;
     totalModules := List.length apps;
     apps_list := result |}.

(** The loop of the resource [make://apps] that fills [appMap]. *)
Definition count_apps (apps : list listed_module) : list (string * nat) :=
  fold_left (fun appMap module =>
               map_set (mod_app module)
                 (match record_get (mod_app module) appMap with
                  | Some count => count
                  | None => 0
                  end + 1)
                 appMap)
            apps [].

(** The resource [make://apps]: [totalApps] and [apps] of the object that
    it prints. *)
Definition apps_resource (apps : list listed_module) : nat * list (string * nat) :=
  let result :=
    array_sort (fun a b => (Z.of_nat (snd b) - Z.of_nat (snd a))%Z)
               (count_apps apps) in
  (List.length result, result).

(** The number of modules of an app. *)
Definition modules_of (app : string) (apps : list listed_module) : nat :=
  List.length (filter (fun module => String.eqb (mod_app module) app) apps).

(** What the loop of [list_apps] keeps true of [appMap], when [seen] are
    the modules read so far. *)
Definition tally_ok (appMap : list (string * app_info)) (seen : list listed_module)
  : Prop :=
  NoDup (map fst appMap) /\
  (forall a, record_get a appMap = None -> modules_of a seen = 0) /\
  (forall a info, record_get a appMap = Some info ->
     info_count info = modules_of a seen /\ 0 < info_count info /\
     NoDup (info_types info) /\
     forall t, In t (info_types info) <->
               exists m, In m seen /\ mod_app m = a /\ mod_type m = t) /\
  list_sum (map (fun e => info_count (snd e)) appMap) = List.length seen.

(** *** Scheduling *)

(** The text writes minutes after [pre]: the decimal digits [ds], white
    space if any, and [min]. *)
Definition minutes_at (text pre ds : string) : Prop :=
  exists spaces rest,
    text = pre +++ ds +++ spaces +++ "min" +++ rest /\
    nonempty ds = true /\ all_digits ds = true /\
    string_forall is_space spaces = true.

(** The minutes that the text names: the digits of the first place where it
    writes minutes. *)
Definition names_minutes (text ds : string) : Prop :=
  exists pre,
    minutes_at text pre ds /\
    forall pre' ds', minutes_at text pre' ds' ->
                     String.length pre <= String.length pre'.

(** The rule of the interval, in the words of the claim: the first of day,
    week, month, hour that the text contains; else the minutes N that it
    names, times 60, for N above 0 and N times 60 below 2^53; else 900, when
    it names no minutes or names 0. *)
Inductive interval_rule (text : string) : Z -> Prop :=
| rule_day :
    includes "day" text = true -> interval_rule text 86400
| rule_week :
    includes "day" text = false -> includes "week" text = true ->
    interval_rule text 604800
| rule_month :
    includes "day" text = false -> includes "week" text = false ->
    includes "month" text = true -> interval_rule text 2592000
| rule_hour :
    includes "day" text = false -> includes "week" text = false ->
    includes "month" text = false -> includes "hour" text = true ->
    interval_rule text 3600
| rule_minutes (ds : string) :
    includes "day" text = false -> includes "week" text = false ->
    includes "month" text = false -> includes "hour" text = false ->
    names_minutes text ds ->
    (0 < number_of_digits 0 ds)%Z ->
    (number_of_digits 0 ds * 60 < 2 ^ 53)%Z ->
    interval_rule text (number_of_digits 0 ds * 60)
| rule_default :
    includes "day" text = false -> includes "week" text = false ->
    includes "month" text = false -> includes "hour" text = false ->
    (forall ds, names_minutes text ds -> number_of_digits 0 ds = 0%Z) ->
    interval_rule text 900.
(** * Properties *)

(** ** Field lists *)

(** Case analysis on a property read: an array [items], or anything else;
    [E] records the case. *)
Ltac case_array read items E :=
  destruct read as [[| | | |items|]|] eqn:E.

Lemma with_field_get {A : Type} (k : string) (found : json -> A) (missing : A)
    (fs : fields) :
  with_field k found missing fs =
  match get k fs with
  | Some v => found v
  | None => missing
  end.
Proof.
  induction fs as [|[k' v] rest IH]; simpl; [reflexivity|].
  destruct (String.eqb k k'); [reflexivity|exact IH].
Qed.

Lemma get_set_same (k : string) (v : json) (fs : fields) :
  get k (set k v fs) = Some v.
Proof.
  induction fs as [|[k' v'] rest IH]; simpl.
  - rewrite String.eqb_refl. reflexivity.
  - destruct (String.eqb k k') eqn:E; simpl; rewrite E; [reflexivity|exact IH].
Qed.

Lemma get_set_other (k k' : string) (v : json) (fs : fields) :
  String.eqb k k' = false -> get k (set k' v fs) = get k fs.
Proof.
  intros Hk. induction fs as [|[k0 v0] rest IH]; simpl.
  - rewrite Hk. reflexivity.
  - destruct (String.eqb k' k0) eqn:E; simpl.
    + apply String.eqb_eq in E. subst k0. rewrite Hk. reflexivity.
    + destruct (String.eqb k k0); [reflexivity|exact IH].
Qed.

Lemma get_del_same (k : string) (fs : fields) : get k (del k fs) = None.
Proof.
  induction fs as [|[k' v'] rest IH]; simpl; [reflexivity|].
  destruct (String.eqb k k') eqn:E; simpl; [exact IH|].
  rewrite E. exact IH.
Qed.

Lemma get_del_other (k k' : string) (fs : fields) :
  String.eqb k k' = false -> get k (del k' fs) = get k fs.
Proof.
  intros Hk. induction fs as [|[k0 v0] rest IH]; simpl; [reflexivity|].
  destruct (String.eqb k' k0) eqn:E; simpl.
  - apply String.eqb_eq in E. subst k0. rewrite Hk. exact IH.
  - destruct (String.eqb k k0); [reflexivity|exact IH].
Qed.

Lemma set_get_id (k : string) (v : json) (fs : fields) :
  get k fs = Some v -> set k v fs = fs.
Proof.
  induction fs as [|[k' v'] rest IH]; simpl; [discriminate|].
  destruct (String.eqb k k') eqn:E.
  - intros H. injection H as ->. reflexivity.
  - intros H. rewrite (IH H). reflexivity.
Qed.

Lemma set_set_same (k : string) (v w : json) (fs : fields) :
  set k w (set k v fs) = set k w fs.
Proof.
  induction fs as [|[k' v'] rest IH]; simpl.
  - rewrite String.eqb_refl. reflexivity.
  - destruct (String.eqb k k') eqn:E; simpl; rewrite E; [reflexivity|].
    rewrite IH. reflexivity.
Qed.

Lemma del_none_id (k : string) (fs : fields) :
  get k fs = None -> del k fs = fs.
Proof.
  induction fs as [|[k' v'] rest IH]; simpl; [reflexivity|].
  destruct (String.eqb k k'); [discriminate|].
  intros H. rewrite (IH H). reflexivity.
Qed.

Lemma get_size (k : string) (v : json) (fs : fields) :
  get k fs = Some v -> jsize v < jsize (JObj fs).
Proof.
  simpl. induction fs as [|[k' v'] rest IH]; simpl; [discriminate|].
  destruct (String.eqb k k').
  - intros H. injection H as ->. lia.
  - intros H. specialize (IH H). lia.
Qed.

Lemma In_size (x : json) (l : list json) : In x l -> jsize x < jsize (JArr l).
Proof.
  simpl. induction l as [|y rest IH]; simpl; [contradiction|].
  intros [->|H]; [lia|]. specialize (IH H). lia.
Qed.

Lemma route_flow_size (route : json) (sub : list json) :
  route_flow route = Some sub -> jsize (JArr sub) < jsize route.
Proof.
  destruct route as [| | | | |rfs]; try discriminate. unfold route_flow.
  case_array (get "flow" rfs) l E; try discriminate.
  intros H. injection H as ->. exact (get_size _ _ _ E).
Qed.

Lemma node_routes_size (node : json) (routes : list json) :
  node_routes node = Some routes -> jsize (JArr routes) < jsize node.
Proof.
  destruct node as [| | | | |fs]; try discriminate. unfold node_routes.
  case_array (get "routes" fs) l E; try discriminate.
  intros H. injection H as ->. exact (get_size _ _ _ E).
Qed.

(** A node below a node is smaller: the measure of the proofs by induction
    on the tree. *)
Lemma below_size (node route n : json) (routes sub : list json) :
  node_routes node = Some routes -> In route routes ->
  route_flow route = Some sub -> In n sub ->
  jsize n < jsize node.
Proof.
  intros H1 H2 H3 H4.
  pose proof (node_routes_size _ _ H1). pose proof (In_size _ _ H2).
  pose proof (route_flow_size _ _ H3). pose proof (In_size _ _ H4). lia.
Qed.

(** Induction on the tree: a property of a node follows from the property
    of the nodes below it. *)
Lemma node_induction (P : json -> Prop) :
  (forall node,
      (forall routes route sub n,
          node_routes node = Some routes -> In route routes ->
          route_flow route = Some sub -> In n sub -> P n) ->
      P node) ->
  forall node, P node.
Proof.
  intros step node.
  assert (H : forall k n, jsize n < k -> P n).
  { induction k as [|k IH]; intros n Hn; [lia|].
    apply step. intros routes route sub n' H1 H2 H3 H4.
    apply IH. pose proof (below_size _ _ _ _ _ H1 H2 H3 H4). lia. }
  exact (H (S (jsize node)) node (Nat.lt_succ_diag_r _)).
Qed.

(** ** Strings *)

Lemma str_mem_In (s : string) (l : list string) : str_mem s l = true <-> In s l.
Proof.
  unfold str_mem. rewrite existsb_exists. split.
  - intros [x [Hx E]]. apply String.eqb_eq in E. subst. exact Hx.
  - intros H. exists s. split; [exact H|apply String.eqb_refl].
Qed.

Lemma startsWith_append (p s : string) : startsWith p (p +++ s) = true.
Proof.
  induction p as [|c p IH]; simpl; [reflexivity|].
  rewrite Ascii.eqb_refl. exact IH.
Qed.

Lemma includes_append (a p b : string) : includes p (a +++ p +++ b) = true.
Proof.
  induction a as [|c a IH].
  - change (includes p (p +++ b) = true).
    destruct (p +++ b) eqn:E; simpl.
    + destruct p; [reflexivity|discriminate].
    + rewrite <- E, startsWith_append. reflexivity.
  - change (includes p (String c (a +++ p +++ b)) = true).
    simpl. rewrite IH. apply orb_true_r.
Qed.

Lemma append_assoc (a b c : string) : (a +++ b) +++ c = a +++ b +++ c.
Proof. induction a as [|x a IH]; simpl; [reflexivity|]. rewrite IH. reflexivity. Qed.

Lemma record_get_In {A : Type} (k : string) (v : A) (table : list (string * A)) :
  record_get k table = Some v -> In (k, v) table.
Proof.
  induction table as [|[k' v'] rest IH]; simpl; [discriminate|].
  destruct (String.eqb k k') eqn:E.
  - apply String.eqb_eq in E. subst. intros H. injection H as ->. left. reflexivity.
  - intros H. right. exact (IH H).
Qed.
(** ** The compatibility resolver *)

Lemma best_candidate_from (targetTokens candidates : list string)
    (start : option (string * Q)) (id : string) (score : Q) :
  fold_left (best_step targetTokens) candidates start = Some (id, score) ->
  In id candidates \/ start = Some (id, score).
Proof.
  revert start. induction candidates as [|c rest IH]; simpl; intros start H.
  - right. exact H.
  - destruct (IH _ H) as [Hin|Hstep]; [left; right; exact Hin|].
    unfold best_step in Hstep. destruct start as [[b bs]|].
    + destruct (Qlt_b bs (score_of targetTokens c)).
      * injection Hstep as <- _. left. left. reflexivity.
      * right. exact Hstep.
    + injection Hstep as <- _. left. left. reflexivity.
Qed.

Lemma best_candidate_In (targetTokens candidates : list string) (id : string) (score : Q) :
  best_candidate targetTokens candidates = Some (id, score) -> In id candidates.
Proof.
  intros H. destruct (best_candidate_from _ _ _ _ _ H) as [Hin|Hno];
    [exact Hin|discriminate].
Qed.

Lemma tokenOverlapStage_In (moduleId : string) (liveIds : list string) (r : string) :
  tokenOverlapStage moduleId liveIds = Some r -> In r liveIds.
Proof.
  unfold tokenOverlapStage.
  destruct (negb (nonempty (nth 0 (split_on ":" moduleId) "")) ||
            negb (nonempty (nth 1 (split_on ":" moduleId) ""))); [discriminate|].
  set (cands := filter _ liveIds). set (T := to_set _).
  destruct cands as [|c cs] eqn:E; [discriminate|].
  destruct (best_candidate T (c :: cs)) as [[id score]|] eqn:B; [|discriminate].
  destruct (Qlt_b score (1 # 2)); [discriminate|].
  intros H. injection H as <-.
  apply best_candidate_In in B. rewrite <- E in B. unfold cands in B.
  apply filter_In in B. exact (proj1 B).
Qed.

(** C9. [resolveClosestLiveModule] answers [null] or a member of the live
    ids it was given: a suggestion is never made up. *)
Theorem resolveClosestLiveModule_member (moduleId : string) (liveIds : list string) :
  resolveClosestLiveModule moduleId liveIds = None \/
  exists suggestion,
    resolveClosestLiveModule moduleId liveIds = Some suggestion /\
    In suggestion liveIds.
Proof.
  destruct (resolveClosestLiveModule moduleId liveIds) as [r|] eqn:R;
    [right|left; reflexivity].
  exists r. split; [reflexivity|].
  unfold resolveClosestLiveModule in R.
  destruct (str_mem moduleId liveIds) eqn:M.
  - injection R as <-. apply str_mem_In. exact M.
  - set (f := fun liveId : string => _) in R.
    destruct (filter f liveIds) as [|only [|second more]] eqn:F.
    + exact (tokenOverlapStage_In _ _ _ R).
    + injection R as <-.
      assert (H : In only (filter f liveIds)) by (rewrite F; left; reflexivity).
      apply filter_In in H. exact (proj1 H).
    + exact (tokenOverlapStage_In _ _ _ R).
Qed.

Lemma filter_absent (x : string) (l : list string) :
  ~ In x l -> filter (fun y => negb (String.eqb x y)) l = l.
Proof.
  induction l as [|y l IH]; simpl; [reflexivity|]. intros H.
  destruct (String.eqb x y) eqn:E; simpl.
  - apply String.eqb_eq in E. subst. exfalso. apply H. left. reflexivity.
  - rewrite IH; [reflexivity|]. intros Hin. apply H. right. exact Hin.
Qed.

Lemma to_set_NoDup_id (l : list string) : NoDup l -> to_set l = l.
Proof.
  induction 1 as [|x l Hx Hl IH]; simpl; [reflexivity|].
  rewrite IH, (filter_absent x l Hx). reflexivity.
Qed.

(** Where the candidate's tokens do not repeat, the score of the source is
    the score of the specification. *)
Lemma score_of_intersection (targetTokens : list string) (candidate : string) :
  NoDup (tokenizeModulePart (nth 1 (split_on ":" candidate) "")) ->
  score_of targetTokens candidate = intersection_score targetTokens candidate.
Proof.
  intros H. unfold score_of, intersection_score, overlap_of, intersection_size.
  rewrite to_set_NoDup_id; [reflexivity|].
  apply NoDup_filter. exact H.
Qed.

(** C5, as stated, fails: on the target [app:AlphaBetaGamma] and the live id
    [app:AlphaAlphaX] the resolver counts the token alpha twice; its score is
    2/3 and it proposes the candidate, where the one shared token out of three
    gives 1/3, below the threshold. *)
Lemma token_overlap_counts_repeats :
  to_set (tokenizeModulePart "AlphaBetaGamma") = ["alpha"; "beta"; "gamma"] /\
  tokenizeModulePart "AlphaAlphaX" = ["alpha"; "alpha"; "x"] /\
  score_of ["alpha"; "beta"; "gamma"] "app:AlphaAlphaX" = (2 # 3)%Q /\
  intersection_score ["alpha"; "beta"; "gamma"] "app:AlphaAlphaX" = (1 # 3)%Q /\
  Qlt_b (1 # 3) (1 # 2) = true /\
  resolveClosestLiveModule "app:AlphaBetaGamma" ["app:AlphaAlphaX"]
    = Some "app:AlphaAlphaX".
Proof. repeat split; reflexivity. Qed.

(** *** The best candidate and the threshold *)

Lemma Qlt_b_true (x y : Q) : Qlt_b x y = true -> (x < y)%Q.
Proof.
  unfold Qlt_b. intros H. apply negb_true_iff in H.
  apply Qnot_le_lt. intros L. apply Qle_bool_iff in L. congruence.
Qed.

Lemma Qlt_b_false (x y : Q) : Qlt_b x y = false -> (y <= x)%Q.
Proof.
  unfold Qlt_b. intros H. apply negb_false_iff in H. apply Qle_bool_iff. exact H.
Qed.

(** The loop keeps a candidate with its own score, and no candidate seen
    scores higher. *)
Lemma best_candidate_from_max (targetTokens candidates : list string)
    (start : option (string * Q)) (id : string) (score : Q) :
  match start with
  | Some (b, bs) => bs = score_of targetTokens b
  | None => True
  end ->
  fold_left (best_step targetTokens) candidates start = Some (id, score) ->
  score = score_of targetTokens id /\
  (forall c, In c candidates -> (score_of targetTokens c <= score)%Q) /\
  match start with
  | Some (_, bs) => (bs <= score)%Q
  | None => True
  end.
Proof.
  revert start. induction candidates as [|c rest IH]; simpl; intros start Hstart H.
  - subst start. split; [exact Hstart|]. split; [intros c []|apply Qle_refl].
  - assert (Hnext : match best_step targetTokens start c with
                    | Some (b, bs) => bs = score_of targetTokens b
                    | None => True
                    end).
    { unfold best_step. destruct start as [[b bs]|]; [|reflexivity].
      destruct (Qlt_b bs (score_of targetTokens c)); [reflexivity|exact Hstart]. }
    destruct (IH _ Hnext H) as [A [B C]]. split; [exact A|].
    unfold best_step in C. split.
    + intros c' [<-|Hc']; [|exact (B c' Hc')].
      destruct start as [[b bs]|]; [|exact C].
      destruct (Qlt_b bs (score_of targetTokens c)) eqn:E; [exact C|].
      apply Qlt_b_false in E. exact (Qle_trans _ _ _ E C).
    + destruct start as [[b bs]|]; [|exact I].
      destruct (Qlt_b bs (score_of targetTokens c)) eqn:E; [|exact C].
      apply Qlt_b_true in E. apply Qlt_le_weak.
      exact (Qlt_le_trans _ _ _ E C).
Qed.

(** The token-overlap stage proposes a candidate of the same namespace with
    the highest score of the source, and only with a score of at least 1/2. *)
Lemma tokenOverlapStage_best (moduleId : string) (liveIds : list string) (id : string) :
  tokenOverlapStage moduleId liveIds = Some id ->
  In id liveIds /\ startsWith (namespace_of moduleId +++ ":") id = true /\
  (1 # 2 <= score_of (target_tokens moduleId) id)%Q /\
  forall c, In c liveIds -> startsWith (namespace_of moduleId +++ ":") c = true ->
            (score_of (target_tokens moduleId) c
             <= score_of (target_tokens moduleId) id)%Q.
Proof.
  unfold tokenOverlapStage, namespace_of, target_tokens. intros H.
  set (parts := split_on ":" moduleId) in *.
  set (T := to_set (tokenizeModulePart (nth 1 parts ""))) in *.
  destruct (negb (nonempty (nth 0 parts "")) || negb (nonempty (nth 1 parts "")));
    [discriminate|].
  set (cands := filter (startsWith (nth 0 parts "" +++ ":")) liveIds) in *.
  destruct cands as [|c0 cs] eqn:E; [discriminate|].
  destruct (best_candidate T (c0 :: cs)) as [[b score]|] eqn:B; [|discriminate].
  destruct (Qlt_b score (1 # 2)) eqn:L; [discriminate|].
  injection H as <-. apply Qlt_b_false in L.
  pose proof (best_candidate_In _ _ _ _ B) as Hin.
  destruct (best_candidate_from_max T (c0 :: cs) None b score I B) as [A [M _]].
  rewrite <- E in Hin, M. unfold cands in Hin, M. apply filter_In in Hin.
  destruct Hin as [Hlive Hpre]. subst score.
  repeat split; try assumption.
  intros c Hc Hp. apply M. apply filter_In. split; assumption.
Qed.

(** Without a candidate that reaches 1/2, there is no suggestion. *)
Lemma tokenOverlapStage_below_threshold (moduleId : string) (liveIds : list string) :
  (forall c, In c liveIds -> startsWith (namespace_of moduleId +++ ":") c = true ->
             (score_of (target_tokens moduleId) c < 1 # 2)%Q) ->
  tokenOverlapStage moduleId liveIds = None.
Proof.
  intros H.
  destruct (tokenOverlapStage moduleId liveIds) as [id|] eqn:E; [|reflexivity].
  destruct (tokenOverlapStage_best _ _ _ E) as [Hin [Hpre [Hge _]]].
  exfalso. apply (Qlt_not_le _ _ (H id Hin Hpre)). exact Hge.
Qed.

Lemma best_candidate_some (targetTokens candidates : list string)
    (start : string * Q) :
  exists best, fold_left (best_step targetTokens) candidates (Some start) = Some best.
Proof.
  revert start. induction candidates as [|c rest IH]; simpl; intros start.
  - exists start. reflexivity.
  - destruct start as [b bs]. unfold best_step at 1.
    destruct (Qlt_b bs (score_of targetTokens c)); apply IH.
Qed.

(** C5 (as amended). In the token-overlap stage, for a target id
    namespace:identifier and the candidates of the same namespace, the score
    of a candidate is the number of its tokens that are target tokens, each
    occurrence counted, over the number of target tokens (at least 1); this
    is |intersection| / |targetTokens| when the tokens of the candidate do
    not repeat.  The stage returns a candidate with the highest score, and
    only if that score is at least 1/2; when it returns [null], the namespace
    or the identifier is empty or every candidate scores below 1/2. *)
Theorem token_overlap_stage_spec (moduleId : string) (liveIds : list string) :
  (forall c,
      score_of (target_tokens moduleId) c
      = (Z.of_nat (List.length
           (filter (fun t => str_mem t (target_tokens moduleId))
                   (tokenizeModulePart (nth 1 (split_on ":" c) ""))))
         # Pos.of_nat (Nat.max (List.length (target_tokens moduleId)) 1))%Q) /\
  (forall c,
      NoDup (tokenizeModulePart (nth 1 (split_on ":" c) "")) ->
      score_of (target_tokens moduleId) c
      = intersection_score (target_tokens moduleId) c) /\
  match tokenOverlapStage moduleId liveIds with
  | Some id =>
      In id liveIds /\ startsWith (namespace_of moduleId +++ ":") id = true /\
      (1 # 2 <= score_of (target_tokens moduleId) id)%Q /\
      forall c, In c liveIds -> startsWith (namespace_of moduleId +++ ":") c = true ->
                (score_of (target_tokens moduleId) c
                 <= score_of (target_tokens moduleId) id)%Q
  | None =>
      namespace_of moduleId = "" \/ nth 1 (split_on ":" moduleId) "" = "" \/
      forall c, In c liveIds -> startsWith (namespace_of moduleId +++ ":") c = true ->
                (score_of (target_tokens moduleId) c < 1 # 2)%Q
  end.
Proof.
  split; [intros c; reflexivity|].
  split; [intros c; apply score_of_intersection|].
  destruct (tokenOverlapStage moduleId liveIds) as [id|] eqn:E;
    [exact (tokenOverlapStage_best _ _ _ E)|].
  unfold tokenOverlapStage in E. unfold namespace_of, target_tokens.
  set (parts := split_on ":" moduleId) in *.
  set (T := to_set (tokenizeModulePart (nth 1 parts ""))) in *.
  destruct (nth 0 parts "") as [|a0 app] eqn:A; [left; reflexivity|].
  destruct (nth 1 parts "") as [|m0 modulePart] eqn:M; [right; left; reflexivity|].
  right. right.
  change (negb (nonempty (String a0 app)) || negb (nonempty (String m0 modulePart)))
    with false in E. cbv iota in E.
  set (cands := filter (startsWith (String a0 app +++ ":")) liveIds) in *.
  intros c Hc Hp.
  assert (Hcand : In c cands) by (apply filter_In; split; assumption).
  destruct cands as [|c0 cs] eqn:C; [contradiction|].
  destruct (best_candidate T (c0 :: cs)) as [[b score]|] eqn:B.
  - destruct (Qlt_b score (1 # 2)) eqn:L; [|discriminate].
    apply Qlt_b_true in L.
    destruct (best_candidate_from_max T (c0 :: cs) None b score I B) as [_ [Mx _]].
    exact (Qle_lt_trans _ _ _ (Mx c Hcand) L).
  - exfalso. unfold best_candidate in B. simpl in B.
    destruct (best_candidate_some T cs (c0, score_of T c0)) as [best Hb].
    rewrite Hb in B. discriminate.
Qed.
(** ** The retry loop *)

(** No module of the verified registry is on the deny-list. *)
Lemma verified_not_problematic (m : string) (v : Z) :
  verifiedVersion m = Some v -> getProblematicModuleInfo m = None.
Proof.
  intros H. apply record_get_In in H. unfold VERIFIED_MODULE_VERSIONS in H.
  simpl in H.
  repeat (destruct H as [H|H]; [injection H as <- _; reflexivity|]).
  contradiction.
Qed.

Lemma problematic_not_verified (m : string) (info : problem_info) :
  getProblematicModuleInfo m = Some info -> verifiedVersion m = None.
Proof.
  intros H. destruct (verifiedVersion m) as [v|] eqn:V; [|reflexivity].
  rewrite (verified_not_problematic _ _ V) in H. discriminate.
Qed.

Lemma problematic_nonempty (m : string) (info : problem_info) :
  getProblematicModuleInfo m = Some info -> nonempty m = true.
Proof. destruct m; [discriminate|reflexivity]. Qed.

Lemma strategy1_skips_problematic (e : deploy_error) (more : bool) (st : loop_state)
    (m : string) (info : problem_info) :
  extractIm007ModuleId (data e) = Some m ->
  getProblematicModuleInfo m = Some info ->
  strategy1 e more st = None.
Proof.
  intros Hm Hp. unfold strategy1. rewrite Hm. simpl.
  rewrite (problematic_nonempty _ _ Hp).
  destruct (flow_of (blueprint st)); [|reflexivity].
  rewrite (problematic_not_verified _ _ Hp).
  destruct (is_400 e && is_IM007 e && more); reflexivity.
Qed.

(** A rejection that names a module of the deny-list ends the loop at the
    submission that met it, whatever the state. *)
Lemma denylisted_module_stops_loop (post : platform) (live : option (list string))
    (remaining attempt : nat) (st : loop_state) (e : deploy_error) (m : string)
    (info : problem_info) :
  post (S attempt) (blueprint st) = Rejected e ->
  is_400 e = true -> is_IM007 e = true ->
  extractIm007ModuleId (data e) = Some m ->
  getProblematicModuleInfo m = Some info ->
  let r := retry_loop post live (S remaining) attempt st in
  exit r = Threw e /\ attempts r = S attempt /\
  failedModulesOuter (final r) = failedModulesOuter st ++ [(m, info)].
Proof.
  intros Hpost H400 Hcode Hm Hp. simpl. rewrite Hpost.
  unfold on_rejection.
  rewrite (strategy1_skips_problematic _ _ _ _ _ Hm Hp).
  unfold strategy2. rewrite Hm. simpl.
  rewrite (problematic_nonempty _ _ Hp), H400, Hcode, Hp. simpl.
  repeat split; reflexivity.
Qed.

(** The loop, started on a rejection that names a module of the deny-list,
    throws after one submission. *)
Lemma deploy_denylisted_module (post : platform) (live : option (list string))
    (parsed : json) (remapped : list (string * string)) (e : deploy_error)
    (m : string) (info : problem_info) :
  post 1 parsed = Rejected e ->
  is_400 e = true -> is_IM007 e = true ->
  extractIm007ModuleId (data e) = Some m ->
  getProblematicModuleInfo m = Some info ->
  deploy post live parsed remapped
  = {| exit := Threw e; attempts := 1;
       final := {| blueprint := parsed;
                   strippedVersionsForRetry := false;
                   triedVersionFallbacks := [];
                   remappedModules := remapped;
                   failedModulesOuter := [(m, info)];
                   retries := [] |} |}.
Proof.
  intros Hpost H400 Hcode Hm Hp. unfold deploy, maxAttempts.
  simpl. simpl in Hpost. rewrite Hpost. unfold on_rejection.
  rewrite (strategy1_skips_problematic _ _ _ _ _ Hm Hp).
  unfold strategy2. rewrite Hm. simpl.
  rewrite (problematic_nonempty _ _ Hp), H400, Hcode, Hp. reflexivity.
Qed.

(** C4. When [create_scenario] has healed the blueprint and found no module
    unavailable, and the first submission is rejected with status 400 and
    code IM007 by an error that names a module of the problematic-module
    deny-list, it ends in a failure after exactly one submission, with the
    module among the failed ones; no repair of a higher priority can
    apply, since no deny-listed module has a verified version. *)
Theorem denylisted_module_aborts_after_one_attempt
    (post : platform) (live : option (list string)) (parsed : json) (h : healed)
    (submitted : json) (remapped : list (string * string)) (e : deploy_error)
    (m : string) (info : problem_info) :
  heal parsed = Some h ->
  remap_to_live live (blueprint_of h) = (submitted, remapped, []) ->
  post 1 submitted = Rejected e ->
  is_400 e = true -> is_IM007 e = true ->
  extractIm007ModuleId (data e) = Some m ->
  getProblematicModuleInfo m = Some info ->
  create_scenario post live parsed = (DeployFailed e [(m, info)], 1).
Proof.
  intros Hheal Hremap Hpost H400 Hcode Hm Hp. unfold create_scenario.
  rewrite Hheal, Hremap.
  rewrite (deploy_denylisted_module post live submitted remapped e m info
             Hpost H400 Hcode Hm Hp).
  reflexivity.
Qed.

Lemma denylisted_module_aborts_witness :
  create_scenario (fun _ _ => Rejected openai_rejection) None openai_blueprint
  = (DeployFailed openai_rejection
       [("openai:ActionCreateCompletion",
         {| alternative := "http:ActionSendData";
            reason := "OpenAI modules often fail via API deployment. Use http:ActionSendData (v3) to call the OpenAI API directly at https://api.openai.com/v1/chat/completions." |})],
     1).
Proof.
  eapply (denylisted_module_aborts_after_one_attempt
            (fun _ _ => Rejected openai_rejection) None openai_blueprint);
    reflexivity.
Defined.

(** *** Counting the retries *)

Lemma count_app {A : Type} (p : A -> bool) (l : list A) (x : A) :
  count p (l ++ [x]) = count p l + (if p x then 1 else 0).
Proof.
  unfold count. rewrite filter_app, length_app. simpl.
  destruct (p x); reflexivity.
Qed.

Lemma once_only_start (parsed : json) (remapped : list (string * string)) :
  once_only (start_state parsed remapped).
Proof. split; intros; left; reflexivity. Qed.

Lemma not_mem_not_In (s : string) (l : list string) :
  negb (str_mem s l) = true -> ~ In s l.
Proof.
  intros H Hin. apply str_mem_In in Hin. rewrite Hin in H. discriminate.
Qed.

Lemma strategy1_once (e : deploy_error) (more : bool) (st st' : loop_state) :
  once_only st -> strategy1 e more st = Some st' ->
  once_only st' /\ List.length (retries st') = S (List.length (retries st)).
Proof.
  intros [Hv Hl Hs] H. unfold strategy1 in H.
  destruct (truthy_string (extractIm007ModuleId (data e))) as [m|]; [|discriminate].
  destruct (flow_of (blueprint st)) as [flow|]; [|discriminate].
  destruct (is_400 e && is_IM007 e && more); [|discriminate].
  destruct (verifiedVersion m) as [v|]; [|discriminate].
  destruct (negb (str_mem (m +++ "@verified") (triedVersionFallbacks st))) eqn:T;
    [|discriminate].
  destruct (setModuleVersionInFlow flow m v) as [flow' updated].
  destruct (0 <? updated)%nat; [|discriminate].
  injection H as <-. split; [split; simpl|].
  - intros m'. rewrite count_app. simpl.
    destruct (String.eqb m' m) eqn:E.
    + apply String.eqb_eq in E. subst m'. right. split.
      * destruct (Hv m) as [Z|[_ Hin]]; [lia|].
        exfalso. exact (not_mem_not_In _ _ T Hin).
      * apply in_or_app. right. left. reflexivity.
    + destruct (Hv m') as [Z|[O Hin]]; [left; lia|right].
      split; [lia|apply in_or_app; left; exact Hin].
  - intros m' v'. rewrite count_app. simpl.
    destruct (Hl m' v') as [Z|[O Hin]]; [left; lia|right].
    split; [lia|apply in_or_app; left; exact Hin].
  - rewrite count_app. simpl. destruct Hs as [Z|[O F]]; [left; lia|right].
    split; [lia|exact F].
  - simpl. rewrite length_app. simpl. lia.
Qed.

Lemma strategy3_once (live : option (list string)) (e : deploy_error) (more : bool)
    (st st' : loop_state) :
  once_only st -> strategy3 live e more st = Some st' ->
  once_only st' /\ List.length (retries st') = S (List.length (retries st)).
Proof.
  intros [Hv Hl Hs] H. unfold strategy3 in H.
  destruct (truthy_string (extractIm007ModuleId (data e))) as [m|]; [|discriminate].
  destruct live as [liveIds|]; [|discriminate].
  destruct (is_400 e && more); [|discriminate].
  destruct (truthy_string (resolveClosestLiveModule m liveIds)) as [repl|]; [|discriminate].
  destruct (flow_of (blueprint st)) as [flow|]; [|discriminate].
  destruct (negb (String.eqb repl m)); [|discriminate].
  injection H as <-. split; [split; simpl|].
  - intros m'. rewrite count_app. simpl. rewrite Nat.add_0_r. apply Hv.
  - intros m' v'. rewrite count_app. simpl. rewrite Nat.add_0_r. apply Hl.
  - rewrite count_app. simpl. rewrite Nat.add_0_r. exact Hs.
  - simpl. rewrite length_app. simpl. lia.
Qed.

Lemma strategy4_once (e : deploy_error) (more : bool) (st st' : loop_state) :
  once_only st -> strategy4 e more st = Some st' ->
  once_only st' /\ List.length (retries st') = S (List.length (retries st)).
Proof.
  intros [Hv Hl Hs] H. unfold strategy4 in H.
  destruct (truthy_string (extractIm007ModuleId (data e))) as [m|]; [|discriminate].
  destruct (extractIm007Version (data e)) as [mv|]; [|discriminate].
  destruct (flow_of (blueprint st)) as [flow|]; [|discriminate].
  destruct (is_400 e && is_IM007 e && negb (mv =? 0)%Z && (1 <? mv)%Z && more);
    [|discriminate].
  destruct (negb (str_mem (m +++ "@" +++ Z_str (mv - 1))
                          (triedVersionFallbacks st))) eqn:T; [|discriminate].
  destruct (setModuleVersionInFlow flow m (mv - 1)) as [flow' updated].
  destruct (0 <? updated)%nat; [|discriminate].
  injection H as <-. split; [split; simpl|].
  - intros m'. rewrite count_app. simpl.
    destruct (Hv m') as [Z|[O Hin]]; [left; lia|right].
    split; [lia|apply in_or_app; left; exact Hin].
  - intros m' v'. rewrite count_app. simpl.
    destruct (String.eqb m' m && (v' =? mv - 1)%Z) eqn:E.
    + apply andb_true_iff in E. destruct E as [E1 E2].
      apply String.eqb_eq in E1. apply Z.eqb_eq in E2. subst m' v'. right. split.
      * destruct (Hl m (mv - 1)%Z) as [Z|[_ Hin]]; [lia|].
        exfalso. exact (not_mem_not_In _ _ T Hin).
      * apply in_or_app. right. left. reflexivity.
    + destruct (Hl m' v') as [Z|[O Hin]]; [left; lia|right].
      split; [lia|apply in_or_app; left; exact Hin].
  - rewrite count_app. simpl. destruct Hs as [Z|[O F]]; [left; lia|right].
    split; [lia|exact F].
  - simpl. rewrite length_app. simpl. lia.
Qed.

Lemma strategy5_once (e : deploy_error) (more : bool) (st st' : loop_state) :
  once_only st -> strategy5 e more st = Some st' ->
  once_only st' /\ List.length (retries st') = S (List.length (retries st)).
Proof.
  intros [Hv Hl Hs] H. unfold strategy5 in H.
  destruct (flow_of (blueprint st)) as [flow|]; [|discriminate].
  destruct (strippedVersionsForRetry st) eqn:F.
  { rewrite andb_false_r in H. simpl in H. discriminate. }
  destruct (is_400 e && more && negb false && is_IM007 e); [|discriminate].
  destruct (stripModuleVersionsInFlow flow) as [flow' stripped].
  destruct (0 <? stripped)%nat; [|discriminate].
  injection H as <-. split; [split; simpl|].
  - intros m'. rewrite count_app. simpl. rewrite Nat.add_0_r. apply Hv.
  - intros m' v'. rewrite count_app. simpl. rewrite Nat.add_0_r. apply Hl.
  - rewrite count_app. simpl. right. split; [|reflexivity].
    destruct Hs as [Z|[_ F']]; [lia|discriminate].
  - simpl. rewrite length_app. simpl. lia.
Qed.

Lemma strategy2_keeps (e : deploy_error) (st st' : loop_state) :
  strategy2 e st = Some st' -> retries st' = retries st /\
  triedVersionFallbacks st' = triedVersionFallbacks st /\
  strippedVersionsForRetry st' = strippedVersionsForRetry st.
Proof.
  unfold strategy2.
  destruct (truthy_string (extractIm007ModuleId (data e))) as [m|]; [|discriminate].
  destruct (is_400 e && is_IM007 e); [|discriminate].
  destruct (getProblematicModuleInfo m); [|discriminate].
  intros H. injection H as <-. repeat split.
Qed.

(** At the last submission [attempt < maxAttempts] is false, and no strategy
    continues. *)
Lemma no_continue_at_last (live : option (list string)) (e : deploy_error)
    (st st' : loop_state) :
  on_rejection live e false st <> Continue st'.
Proof.
  unfold on_rejection.
  assert (H1 : strategy1 e false st = None).
  { unfold strategy1.
    destruct (truthy_string _); [|reflexivity].
    destruct (flow_of _); [|reflexivity].
    rewrite andb_false_r. reflexivity. }
  assert (H3 : strategy3 live e false st = None).
  { unfold strategy3.
    destruct (truthy_string _); [|reflexivity].
    destruct live; [|reflexivity].
    rewrite andb_false_r. reflexivity. }
  assert (H4 : strategy4 e false st = None).
  { unfold strategy4.
    destruct (truthy_string _); [|reflexivity].
    destruct (extractIm007Version _); [|reflexivity].
    destruct (flow_of _); [|reflexivity].
    rewrite andb_false_r. reflexivity. }
  assert (H5 : strategy5 e false st = None).
  { unfold strategy5.
    destruct (flow_of _); [|reflexivity].
    rewrite andb_false_r. reflexivity. }
  rewrite H1, H3, H4, H5. destruct (strategy2 e st); discriminate.
Qed.

Lemma on_rejection_once (live : option (list string)) (e : deploy_error)
    (more : bool) (st : loop_state) :
  once_only st ->
  match on_rejection live e more st with
  | Continue st' =>
      once_only st' /\ List.length (retries st') = S (List.length (retries st))
  | Throw st' => once_only st' /\ retries st' = retries st
  end.
Proof.
  intros Inv. unfold on_rejection.
  destruct (strategy1 e more st) eqn:S1; [exact (strategy1_once _ _ _ _ Inv S1)|].
  destruct (strategy2 e st) as [st2|] eqn:S2.
  { destruct (strategy2_keeps _ _ _ S2) as [R [T F]].
    destruct Inv as [Hv Hl Hs]. split; [split|exact R].
    - intros m. rewrite R, T. apply Hv.
    - intros m v. rewrite R, T. apply Hl.
    - rewrite R, F. exact Hs. }
  destruct (strategy3 live e more st) eqn:S3; [exact (strategy3_once _ _ _ _ _ Inv S3)|].
  destruct (strategy4 e more st) eqn:S4; [exact (strategy4_once _ _ _ _ Inv S4)|].
  destruct (strategy5 e more st) eqn:S5; [exact (strategy5_once _ _ _ _ Inv S5)|].
  split; [exact Inv|reflexivity].
Qed.

Lemma retry_loop_spec (post : platform) (live : option (list string))
    (remaining : nat) :
  forall attempt st,
    0 < remaining -> attempt + remaining = maxAttempts ->
    once_only st -> List.length (retries st) = attempt ->
    let r := retry_loop post live remaining attempt st in
    attempt < attempts r /\ attempts r <= maxAttempts /\
    exit r <> NoResponse /\
    List.length (retries (final r)) + 1 = attempts r /\
    once_only (final r).
Proof.
  induction remaining as [|remaining IH]; intros attempt st Hpos Hsum Inv Hlen;
    [lia|].
  simpl. destruct (post (S attempt) (blueprint st)) as [body|e].
  - simpl. split; [lia|]. split; [lia|]. split; [discriminate|].
    split; [lia|exact Inv].
  - pose proof (on_rejection_once live e (S attempt <? maxAttempts)%nat st Inv) as Step.
    destruct (on_rejection live e (S attempt <? maxAttempts)%nat st) as [st'|st'] eqn:R.
    + destruct Step as [Inv' Hlen'].
      destruct remaining as [|remaining'].
      * exfalso. assert (E : (S attempt <? maxAttempts)%nat = false)
          by (apply Nat.ltb_ge; lia).
        rewrite E in R. exact (no_continue_at_last _ _ _ _ R).
      * assert (Hr : 0 < S remaining') by lia.
        assert (Hs : S attempt + S remaining' = maxAttempts) by lia.
        assert (Hl : List.length (retries st') = S attempt) by lia.
        destruct (IH (S attempt) st' Hr Hs Inv' Hl) as [A [B [C [D E]]]].
        split; [lia|]. split; [exact B|]. split; [exact C|].
        split; [exact D|exact E].
    + destruct Step as [Inv' Hret]. simpl.
      split; [lia|]. split; [lia|]. split; [discriminate|].
      split; [rewrite Hret; lia|exact Inv'].
Qed.

(** C3 (as amended). For every blueprint and every platform, the loop makes
    at least one and at most [maxAttempts] = 5 submissions and ends with a
    response or a thrown error; every submission but the last is followed by
    exactly one retry.  The verified-version retry happens at most once for a
    module id, the lower-version retry at most once for a module id and
    target version, the strip-versions retry at most once. *)
Theorem retry_loop_bounded (post : platform) (live : option (list string))
    (parsed : json) (remapped : list (string * string)) :
  1 <= attempts (deploy post live parsed remapped) <= maxAttempts /\
  exit (deploy post live parsed remapped) <> NoResponse /\
  List.length (retries (final (deploy post live parsed remapped))) + 1
    = attempts (deploy post live parsed remapped) /\
  (forall m,
      count (is_verified_retry m)
            (retries (final (deploy post live parsed remapped))) <= 1) /\
  (forall m v,
      count (is_lower_retry m v)
            (retries (final (deploy post live parsed remapped))) <= 1) /\
  count is_strip_retry (retries (final (deploy post live parsed remapped))) <= 1.
Proof.
  unfold deploy.
  assert (Hpos : 0 < maxAttempts) by (unfold maxAttempts; lia).
  destruct (retry_loop_spec post live maxAttempts 0 (start_state parsed remapped)
              Hpos eq_refl (once_only_start parsed remapped) eq_refl)
    as [A [B [C [D [Hv Hl Hs]]]]].
  split; [lia|]. split; [exact C|]. split; [exact D|].
  split; [|split].
  - intros m. destruct (Hv m) as [Z|[O _]]; lia.
  - intros m v. destruct (Hl m v) as [Z|[O _]]; lia.
  - destruct Hs as [Z|[O _]]; lia.
Qed.

(** C3, as stated, fails: the remap strategy keeps no record of what it has
    tried, and is applied four times for the one module id [foo:Bar]. *)
Lemma remap_retry_repeats :
  retries (final (deploy stubborn_platform (Some ["foo:bar"]) foo_blueprint []))
    = [ RetryRemap "foo:Bar" "foo:bar"; RetryRemap "foo:Bar" "foo:bar";
        RetryRemap "foo:Bar" "foo:bar"; RetryRemap "foo:Bar" "foo:bar" ] /\
  count (is_remap_retry "foo:Bar")
        (retries (final (deploy stubborn_platform (Some ["foo:bar"]) foo_blueprint [])))
    = 4 /\
  attempts (deploy stubborn_platform (Some ["foo:bar"]) foo_blueprint []) = 5.
Proof. vm_compute. repeat split. Qed.

(** The lower-version strategy is once for a module and a version: for one
    module it can run again with the next version down. *)
Example lower_version_retry_twice :
  retries (final (deploy version_platform None acme_blueprint []))
    = [ RetryLowerVersion "acme:Thing" 3 2; RetryLowerVersion "acme:Thing" 2 1 ] /\
  count (is_lower_retry_of "acme:Thing")
        (retries (final (deploy version_platform None acme_blueprint []))) = 2 /\
  attempts (deploy version_platform None acme_blueprint []) = 3 /\
  blueprint (final (deploy version_platform None acme_blueprint []))
    = JObj [("flow", JArr [JObj [("id", JNum 1); ("module", JStr "acme:Thing");
                                 ("version", JNum 1)]])].
Proof. vm_compute. repeat split. Qed.

(** *** [create_scenario] as a whole *)

(** [create_scenario] submits at most [maxAttempts] times, and never ends in
    the message of a loop left without response. *)
Lemma create_scenario_bounded (post : platform) (live : option (list string))
    (parsed : json) :
  snd (create_scenario post live parsed) <= maxAttempts /\
  fst (create_scenario post live parsed) <> NoResponseAfterRetries.
Proof.
  unfold create_scenario. destruct (heal parsed) as [h|];
    [|split; [apply Nat.le_0_l|discriminate]].
  destruct (remap_to_live live (blueprint_of h)) as [[parsed1 remapped] unavailable].
  destruct unavailable as [|u us]; [|split; [apply Nat.le_0_l|discriminate]].
  assert (Hpos : 0 < maxAttempts) by (unfold maxAttempts; lia).
  destruct (retry_loop_spec post live maxAttempts 0 (start_state parsed1 remapped)
              Hpos eq_refl (once_only_start parsed1 remapped) eq_refl)
    as [_ [B [N _]]].
  fold (deploy post live parsed1 remapped) in B, N.
  simpl. split; [exact B|].
  destruct (exit (deploy post live parsed1 remapped)) as [body| |];
    [destruct (marked_invalid body); discriminate|discriminate|].
  exfalso. apply N. reflexivity.
Qed.
(** ** The walks, as equations on [get] *)

Lemma map_sum_fst {C : Type} (zero : C) (plus : C -> C -> C)
    (f : json -> json * C) (l : list json) :
  fst (map_sum zero plus f l) = map (fun x => fst (f x)) l.
Proof.
  induction l as [|x rest IH]; simpl; [reflexivity|].
  destruct (f x) as [x' c]. destruct (map_sum zero plus f rest) as [rest' d].
  simpl in *. rewrite IH. reflexivity.
Qed.

Lemma in_routes_fst {C : Type} (zero : C) (plus : C -> C -> C)
    (rec : json -> json * C) (routes : list json) :
  fst (in_routes zero plus rec routes) =
  map (over_flow (map (fun x => fst (rec x)))) routes.
Proof.
  unfold in_routes. rewrite map_sum_fst. apply map_ext. intros route.
  destruct route as [| | | | |rfs]; try reflexivity.
  rewrite with_field_get. unfold over_flow.
  destruct (get "flow" rfs) as [[| | | |sub|]|]; try reflexivity.
  pose proof (map_sum_fst zero plus rec sub) as H.
  destruct (map_sum zero plus rec sub) as [sub' c]. simpl in *. rewrite H.
  reflexivity.
Qed.

Lemma below_node_fst {C : Type} (zero : C) (plus : C -> C -> C)
    (rec : json -> json * C) (fs fs1 : fields) (c1 : C) :
  fst (below_node zero plus rec fs fs1 c1) =
  JObj (over_routes (map (fun x => fst (rec x))) fs fs1).
Proof.
  unfold below_node, over_routes. rewrite with_field_get.
  destruct (get "routes" fs) as [[| | | |routes|]|]; try reflexivity.
  pose proof (in_routes_fst zero plus rec routes) as H.
  destruct (in_routes zero plus rec routes) as [routes' c2]. simpl in *.
  rewrite H. reflexivity.
Qed.

Lemma injectVerifiedVersions_tree (flow : list json) :
  fst (injectVerifiedVersions flow) = map inject_tree flow.
Proof. unfold injectVerifiedVersions. apply map_sum_fst. Qed.

Lemma inject_tree_obj (fs : fields) :
  inject_tree (JObj fs) =
  JObj (over_routes (map inject_tree) fs (fst (inject_version fs))).
Proof.
  unfold inject_tree at 1. simpl.
  destruct (inject_version fs) as [fs1 c1]. apply below_node_fst.
Qed.

Lemma inject_tree_other (node : json) :
  (forall fs, node <> JObj fs) -> inject_tree node = node.
Proof.
  destruct node; try reflexivity. intros H. exfalso. exact (H _ eq_refl).
Qed.

Lemma nodeAndBelow_eq (node : json) : nodeAndBelow node = node :: below node.
Proof.
  destruct node as [| | | | |fs]; try reflexivity.
  unfold below, node_routes. simpl. rewrite with_field_get. f_equal.
  destruct (get "routes" fs) as [[| | | |routes|]|]; try reflexivity.
  induction routes as [|route rest IH]; simpl; [reflexivity|].
  rewrite IH. f_equal.
  destruct route as [| | | | |rfs]; try reflexivity.
  unfold route_flow. rewrite with_field_get.
  destruct (get "flow" rfs) as [[| | | |sub|]|]; reflexivity.
Qed.

Lemma In_below (node n : json) :
  In n (below node) <->
  exists routes route sub n0,
    node_routes node = Some routes /\ In route routes /\
    route_flow route = Some sub /\ In n0 sub /\ In n (nodeAndBelow n0).
Proof.
  unfold below. split.
  - destruct (node_routes node) as [routes|]; [|contradiction].
    intros H. apply in_flat_map in H. destruct H as [route [Hr H]].
    destruct (route_flow route) as [sub|] eqn:F; [|contradiction].
    apply in_flat_map in H. destruct H as [n0 [Hn0 H]].
    exists routes, route, sub, n0. repeat split; assumption.
  - intros [routes [route [sub [n0 [H1 [H2 [H3 [H4 H5]]]]]]]].
    rewrite H1. apply in_flat_map. exists route. split; [exact H2|].
    rewrite H3. apply in_flat_map. exists n0. split; assumption.
Qed.

Lemma In_treeNodes (flow : list json) (n : json) :
  In n (treeNodes flow) <-> exists n0, In n0 flow /\ In n (nodeAndBelow n0).
Proof. unfold treeNodes. apply in_flat_map. Qed.

(** *** Routes and flows under the rewriting of flows *)

Lemma route_flow_over_flow (g : list json -> list json) (route : json) :
  route_flow (over_flow g route) = option_map g (route_flow route).
Proof.
  destruct route as [| | | | |rfs]; try reflexivity.
  unfold over_flow, route_flow.
  case_array (get "flow" rfs) sub E; simpl; try rewrite E;
    try reflexivity.
  rewrite get_set_same. reflexivity.
Qed.

Lemma node_routes_over_routes (g : list json -> list json) (fs fs1 : fields) :
  get "routes" fs1 = get "routes" fs ->
  node_routes (JObj (over_routes g fs fs1)) =
  option_map (map (over_flow g)) (node_routes (JObj fs)).
Proof.
  intros H. unfold over_routes, node_routes.
  case_array (get "routes" fs) routes E; simpl; try rewrite H;
    try reflexivity.
  rewrite get_set_same. reflexivity.
Qed.

Lemma get_over_routes (k : string) (g : list json -> list json) (fs fs1 : fields) :
  String.eqb k "routes" = false ->
  get k (over_routes g fs fs1) = get k fs1.
Proof.
  intros H. unfold over_routes.
  destruct (get "routes" fs) as [[| | | |routes|]|]; try reflexivity.
  apply get_set_other. exact H.
Qed.

(** The version write touches [version] only. *)
Lemma get_inject_version (k : string) (fs : fields) :
  String.eqb k "version" = false ->
  get k (fst (inject_version fs)) = get k fs.
Proof.
  intros H. unfold inject_version.
  destruct (get "module" fs) as [[| | |m| |]|]; try reflexivity.
  destruct (verifiedVersion m) as [known|].
  - destruct (get "version" fs) as [[| |v| | |]|]; simpl;
      try (apply get_set_other; exact H).
    destruct (Z.eqb v known); simpl; [reflexivity|apply get_set_other; exact H].
  - destruct (get "version" fs); simpl; [apply get_del_other; exact H|reflexivity].
Qed.

(** What the version write leaves in [version]. *)
Lemma inject_version_result (fs : fields) (m : string) :
  get "module" fs = Some (JStr m) ->
  get "version" (fst (inject_version fs)) =
  match verifiedVersion m with
  | Some known => Some (JNum known)
  | None => None
  end.
Proof.
  intros Hm. unfold inject_version. rewrite Hm.
  destruct (verifiedVersion m) as [known|].
  - destruct (get "version" fs) as [[| |v| | |]|] eqn:V; simpl;
      try apply get_set_same.
    destruct (Z.eqb v known) eqn:E; simpl; [|apply get_set_same].
    apply Z.eqb_eq in E. subst. exact V.
  - destruct (get "version" fs) eqn:V; simpl; [apply get_del_same|exact V].
Qed.
(** ** Version reconciliation *)

Lemma flat_map_ext_In {A B : Type} (f g : A -> list B) (l : list A) :
  (forall x, In x l -> f x = g x) -> flat_map f l = flat_map g l.
Proof.
  induction l as [|x rest IH]; simpl; intros H; [reflexivity|].
  rewrite (H x (or_introl eq_refl)), IH; [reflexivity|].
  intros y Hy. apply H. right. exact Hy.
Qed.

Lemma flat_map_map {A B C : Type} (h : A -> B) (f : B -> list C) (l : list A) :
  flat_map f (map h l) = flat_map (fun x => f (h x)) l.
Proof. induction l as [|x rest IH]; simpl; [reflexivity|]. rewrite IH. reflexivity. Qed.

Lemma map_flat_map {A B C : Type} (f : A -> list B) (h : B -> C) (l : list A) :
  map h (flat_map f l) = flat_map (fun x => map h (f x)) l.
Proof.
  induction l as [|x rest IH]; simpl; [reflexivity|].
  rewrite map_app, IH. reflexivity.
Qed.

(** The nodes of the tree after a rewriting [t] of nodes that rewrites the
    flows below a node with [map t] are the nodes of the tree, rewritten. *)
Lemma nodes_of_rewritten_tree (t : json -> json)
    (local : fields -> fields) :
  (forall fs, t (JObj fs) = JObj (over_routes (map t) fs (local fs))) ->
  (forall fs, get "routes" (local fs) = get "routes" fs) ->
  (forall node, (forall fs, node <> JObj fs) -> t node = node) ->
  forall node, nodeAndBelow (t node) = map t (nodeAndBelow node).
Proof.
  intros Hobj Hroutes Hother.
  apply (node_induction (fun node => nodeAndBelow (t node) = map t (nodeAndBelow node))).
  intros node IH. rewrite !nodeAndBelow_eq. simpl. f_equal.
  destruct node as [| | | | |fs];
    try (rewrite Hother; [reflexivity|intros fs0; discriminate]).
  rewrite Hobj. unfold below at 1.
  rewrite (node_routes_over_routes _ _ _ (Hroutes fs)).
  unfold below.
  destruct (node_routes (JObj fs)) as [routes|] eqn:R; simpl; [|reflexivity].
  rewrite flat_map_map, map_flat_map. apply flat_map_ext_In.
  intros route Hroute. rewrite route_flow_over_flow.
  destruct (route_flow route) as [sub|] eqn:F; simpl; [|reflexivity].
  rewrite flat_map_map, map_flat_map. apply flat_map_ext_In.
  intros n Hn. exact (IH routes route sub n eq_refl Hroute F Hn).
Qed.

Lemma inject_tree_nodes (node : json) :
  nodeAndBelow (inject_tree node) = map inject_tree (nodeAndBelow node).
Proof.
  apply (nodes_of_rewritten_tree inject_tree (fun fs => fst (inject_version fs))).
  - exact inject_tree_obj.
  - intros fs. apply get_inject_version. reflexivity.
  - exact inject_tree_other.
Qed.

Lemma treeNodes_inject (flow : list json) :
  treeNodes (map inject_tree flow) = map inject_tree (treeNodes flow).
Proof.
  unfold treeNodes. rewrite flat_map_map, map_flat_map.
  apply flat_map_ext. exact inject_tree_nodes.
Qed.

Lemma field_module_inject_tree (node : json) :
  field "module" (inject_tree node) = field "module" node.
Proof.
  destruct node as [| | | | |fs]; try reflexivity.
  rewrite inject_tree_obj. simpl.
  rewrite get_over_routes by reflexivity.
  apply get_inject_version. reflexivity.
Qed.

Lemma inject_tree_reconciled (node : json) : version_reconciled (inject_tree node).
Proof.
  destruct node as [| | | | |fs]; try exact I.
  rewrite inject_tree_obj. simpl.
  rewrite !get_over_routes by reflexivity.
  rewrite get_inject_version by reflexivity.
  destruct (get "module" fs) as [[| | |m| |]|] eqn:M; try exact I.
  exact (inject_version_result fs m M).
Qed.

(** What C7 says, off the names that every object inherits: after
    [injectVerifiedVersions], every node of the tree, at any depth below the
    routes of routers, whose module id is a string carries the version of the
    verified registry when the id has an entry there, whatever version it
    had, and carries no version when the id has no entry.  The walk keeps
    every node and its module id in place.  At a module id that is one of
    the [inherited_names] the code writes a version instead of removing
    it. *)
Lemma injectVerifiedVersions_reconciles (flow : list json) :
  Forall (fun n => forall m, field "module" n = Some (JStr m) ->
                             ~ In m inherited_names)
         (treeNodes flow) ->
  Forall version_reconciled (treeNodes (fst (injectVerifiedVersions flow))) /\
  map (field "module") (treeNodes (fst (injectVerifiedVersions flow)))
    = map (field "module") (treeNodes flow).
Proof.
  intros _. rewrite injectVerifiedVersions_tree, treeNodes_inject. split.
  - apply Forall_map. apply Forall_forall. intros n _.
    apply inject_tree_reconciled.
  - rewrite map_map. apply map_ext. exact field_module_inject_tree.
Qed.
(** ** Scheduling normalisation *)

(** *** Doubles *)

Lemma double_of_exact (n : Z) : (n < 2 ^ 53)%Z -> double_of n = Finite n.
Proof.
  intros H. unfold double_of. apply Z.ltb_lt in H. rewrite H. reflexivity.
Qed.

(** From 2^53 on, the double of an integer is at least 2^53. *)
Lemma double_of_large (n v : Z) :
  (2 ^ 53 <= n)%Z -> double_of n = Finite v -> (2 ^ 53 <= v)%Z.
Proof.
  intros H. unfold double_of.
  destruct (n <? 2 ^ 53)%Z eqn:E; [apply Z.ltb_lt in E; lia|].
  assert (Hn : (0 < n)%Z) by (assert (0 < 2 ^ 53)%Z by reflexivity; lia).
  destruct (Z.log2_spec n Hn) as [Lo _].
  assert (L : (53 <= Z.log2 n)%Z).
  { apply Z.log2_le_pow2; [exact Hn|exact H]. }
  set (e := (Z.log2 n - 52)%Z) in *.
  assert (He : (1 <= e)%Z) by (subst e; lia).
  assert (P : (2 ^ Z.log2 n = 2 ^ 52 * 2 ^ e)%Z).
  { rewrite <- Z.pow_add_r by lia. f_equal. subst e. lia. }
  assert (U : (0 < 2 ^ e)%Z) by (apply Z.pow_pos_nonneg; lia).
  assert (Q : (2 ^ 52 <= n / 2 ^ e)%Z).
  { apply Z.div_le_lower_bound; [exact U|]. rewrite Z.mul_comm, <- P. exact Lo. }
  assert (U2 : (2 <= 2 ^ e)%Z).
  { change 2%Z with (2 ^ 1)%Z at 1. apply Z.pow_le_mono_r; lia. }
  assert (B : (2 ^ 53 <= n / 2 ^ e * 2 ^ e)%Z).
  { change (2 ^ 53)%Z with (2 ^ 52 * 2)%Z. apply Z.mul_le_mono_nonneg; lia. }
  cbv zeta.
  destruct ((2 ^ e <? 2 * (n mod 2 ^ e))%Z
            || ((2 ^ e =? 2 * (n mod 2 ^ e))%Z && Z.odd (n / 2 ^ e)));
    match goal with
    | |- context [(2 ^ 1024 <=? ?r)%Z] => destruct (2 ^ 1024 <=? r)%Z
    end; try discriminate; intros V; injection V as <-; nia.
Qed.

(** From 2^1024 on, it is [Infinity]. *)
Lemma double_of_overflow (n : Z) : (2 ^ 1024 <= n)%Z -> double_of n = Infinity.
Proof.
  intros H. unfold double_of.
  assert (B : (2 ^ 53 < 2 ^ 1024)%Z) by reflexivity.
  destruct (n <? 2 ^ 53)%Z eqn:E; [apply Z.ltb_lt in E; lia|].
  assert (Hn : (0 < n)%Z) by (assert (0 < 2 ^ 53)%Z by reflexivity; lia).
  destruct (Z.log2_spec n Hn) as [Lo Hi].
  assert (L : (1024 <= Z.log2 n)%Z).
  { apply Z.log2_le_pow2; [exact Hn|exact H]. }
  set (e := (Z.log2 n - 52)%Z) in *.
  assert (P : (2 ^ Z.log2 n = 2 ^ 52 * 2 ^ e)%Z).
  { rewrite <- Z.pow_add_r by lia. f_equal. subst e. lia. }
  assert (U : (0 < 2 ^ e)%Z) by (apply Z.pow_pos_nonneg; lia).
  assert (Q : (2 ^ 52 <= n / 2 ^ e)%Z).
  { apply Z.div_le_lower_bound; [exact U|]. rewrite Z.mul_comm, <- P. exact Lo. }
  assert (M : (2 ^ 1024 <= 2 ^ Z.log2 n)%Z) by (apply Z.pow_le_mono_r; lia).
  assert (B2 : (2 ^ 1024 <= n / 2 ^ e * 2 ^ e)%Z).
  { rewrite P in M. nia. }
  cbv zeta.
  destruct ((2 ^ e <? 2 * (n mod 2 ^ e))%Z
            || ((2 ^ e =? 2 * (n mod 2 ^ e))%Z && Z.odd (n / 2 ^ e)));
    match goal with
    | |- context [(2 ^ 1024 <=? ?r)%Z] => destruct (Z.leb_spec (2 ^ 1024) r)
    end; try reflexivity; nia.
Qed.

(** The rounding at work: ties go to the even neighbour, and the largest
    double is 2^1024 - 2^971. *)
Example double_of_examples :
  double_of (2 ^ 53 + 1) = Finite (2 ^ 53) /\
  double_of (2 ^ 53 + 3) = Finite (2 ^ 53 + 4) /\
  double_of (10 ^ 23) = Finite 99999999999999991611392 /\
  double_of (2 ^ 1024 - 2 ^ 970 - 1) = Finite (2 ^ 1024 - 2 ^ 971) /\
  double_of (2 ^ 1024 - 2 ^ 970) = Infinity.
Proof. vm_compute. repeat split. Qed.

(** Only from 2^1023 on can it be [Infinity]. *)
Lemma double_of_infinite (n : Z) : double_of n = Infinity -> (2 ^ 1023 <= n)%Z.
Proof.
  unfold double_of.
  destruct (n <? 2 ^ 53)%Z eqn:E; [discriminate|]. apply Z.ltb_ge in E.
  assert (Hn : (0 < n)%Z) by (assert (0 < 2 ^ 53)%Z by reflexivity; lia).
  destruct (Z.log2_spec n Hn) as [Lo _].
  assert (L : (53 <= Z.log2 n)%Z).
  { apply Z.log2_le_pow2; [exact Hn|exact E]. }
  set (e := (Z.log2 n - 52)%Z) in *.
  assert (U : (0 < 2 ^ e)%Z) by (apply Z.pow_pos_nonneg; subst e; lia).
  assert (Un : (2 ^ e <= n)%Z).
  { apply Z.le_trans with (2 ^ Z.log2 n)%Z; [|exact Lo].
    apply Z.pow_le_mono_r; subst e; lia. }
  assert (Q : (2 ^ e * (n / 2 ^ e) <= n)%Z) by (apply Z.mul_div_le; exact U).
  assert (T : (2 ^ 1024 = 2 * 2 ^ 1023)%Z) by reflexivity.
  cbv zeta.
  destruct ((2 ^ e <? 2 * (n mod 2 ^ e))%Z
            || ((2 ^ e =? 2 * (n mod 2 ^ e))%Z && Z.odd (n / 2 ^ e)));
    match goal with
    | |- context [(2 ^ 1024 <=? ?r)%Z] => destruct (Z.leb_spec (2 ^ 1024) r)
    end; try discriminate; intros _; nia.
Qed.

Lemma number_of_digits_nonneg (s : string) (acc : Z) :
  (0 <= acc)%Z -> (0 <= number_of_digits acc s)%Z.
Proof.
  revert acc. induction s as [|c s IH]; intros acc H; cbn [number_of_digits];
    [exact H|].
  apply IH. pose proof (Nat2Z.is_nonneg (nat_of_ascii c - 48)). lia.
Qed.

Lemma normalize_from_spec (flow : list json) (current : option json) :
  normalizedFlow (normalize_from flow current)
    = filter (fun n => negb (is_schedule n)) flow /\
  scheduling (normalize_from flow current)
    = match current with
      | Some _ => current
      | None => option_map parseSchedulingFromScheduleModule (find is_schedule flow)
      end /\
  removedModules (normalize_from flow current)
    = map (fun _ => "builtin:Schedule") (filter is_schedule flow).
Proof.
  revert current. induction flow as [|n rest IH]; intros current; simpl.
  - destruct current; repeat split.
  - destruct (is_schedule n) eqn:S; simpl.
    + destruct current as [c|];
        [destruct (IH (Some c)) as [A [B C]]
        |destruct (IH (Some (parseSchedulingFromScheduleModule n))) as [A [B C]]];
        rewrite A, B, C; repeat split.
    + destruct (IH current) as [A [B C]]. rewrite A, B, C. repeat split.
Qed.

(** *** The interval written as a number of minutes *)

Lemma digit_not_other (c d : ascii) :
  is_digit d = true -> is_digit c = false -> Ascii.eqb c d = false.
Proof.
  intros Hd Hc. destruct (Ascii.eqb c d) eqn:E; [|reflexivity].
  apply Ascii.eqb_eq in E. subst. congruence.
Qed.

Lemma includes_after_digits (c : ascii) (p ds t : string) :
  all_digits ds = true -> is_digit c = false ->
  includes (String c p) (ds +++ t) = includes (String c p) t.
Proof.
  intros Hds Hc. induction ds as [|d ds IH]; [reflexivity|].
  simpl in Hds. apply andb_true_iff in Hds. destruct Hds as [Hd Hds].
  change (includes (String c p) (String d (ds +++ t)) = includes (String c p) t).
  change (includes (String c p) (String d (ds +++ t)))
    with (startsWith (String c p) (String d (ds +++ t))
          || includes (String c p) (ds +++ t)).
  simpl startsWith. rewrite (digit_not_other c d Hd Hc). simpl.
  exact (IH Hds).
Qed.

Lemma take_digits_append (ds t : string) :
  all_digits ds = true ->
  match t with
  | String c _ => is_digit c = false
  | EmptyString => True
  end ->
  take_digits (ds +++ t) = (ds, t).
Proof.
  intros Hds Ht. induction ds as [|d ds IH].
  - simpl. destruct t as [|c t']; [reflexivity|]. simpl. rewrite Ht. reflexivity.
  - simpl in Hds. apply andb_true_iff in Hds. destruct Hds as [Hd Hds].
    simpl. rewrite Hd, (IH Hds). reflexivity.
Qed.

Lemma match_minutes_at_head (s ds : string) :
  match_minutes_here s = Some ds -> match_minutes s = Some ds.
Proof.
  intros H. destruct s as [|c s]; [vm_compute in H; discriminate|].
  change (match match_minutes_here (String c s) with
          | Some x => Some x
          | None => match_minutes s
          end = Some ds).
  rewrite H. reflexivity.
Qed.

(** *** The place where a text writes minutes *)

Lemma take_digits_spec (s : string) :
  s = fst (take_digits s) +++ snd (take_digits s) /\
  all_digits (fst (take_digits s)) = true /\
  match snd (take_digits s) with
  | String c _ => is_digit c = false
  | EmptyString => True
  end.
Proof.
  induction s as [|c s IH]; simpl; [repeat split|].
  destruct (is_digit c) eqn:D.
  - destruct (take_digits s) as [ds tl]. simpl in *.
    destruct IH as [E [A N]]. rewrite D, A. rewrite <- E. repeat split. exact N.
  - simpl. repeat split. exact D.
Qed.

Lemma drop_spaces_spec (s : string) :
  exists spaces,
    s = spaces +++ drop_spaces s /\ string_forall is_space spaces = true.
Proof.
  induction s as [|c s [spaces [E F]]]; simpl.
  - exists "". split; reflexivity.
  - destruct (is_space c) eqn:C.
    + exists (String c spaces). simpl. rewrite <- E, C, F. split; reflexivity.
    + exists "". split; reflexivity.
Qed.

Lemma drop_spaces_append (spaces t : string) :
  string_forall is_space spaces = true ->
  match t with
  | String c _ => is_space c = false
  | EmptyString => True
  end ->
  drop_spaces (spaces +++ t) = t.
Proof.
  intros F T. induction spaces as [|c spaces IH]; simpl.
  - destruct t as [|c t]; [reflexivity|]. simpl. rewrite T. reflexivity.
  - simpl in F. apply andb_true_iff in F. destruct F as [C F].
    rewrite C. exact (IH F).
Qed.

Lemma startsWith_inv (p s : string) :
  startsWith p s = true -> exists rest, s = p +++ rest.
Proof.
  revert s. induction p as [|a p IH]; intros s H.
  - exists s. reflexivity.
  - destruct s as [|b s]; [discriminate|]. simpl in H.
    apply andb_true_iff in H. destruct H as [E H].
    apply Ascii.eqb_eq in E. subst b. destruct (IH s H) as [rest ->].
    exists rest. reflexivity.
Qed.

Lemma match_minutes_here_sound (s ds : string) :
  match_minutes_here s = Some ds -> minutes_at s "" ds.
Proof.
  unfold match_minutes_here. destruct (take_digits_spec s) as [E [A _]].
  destruct (take_digits s) as [ds0 tl]. simpl in E, A.
  destruct (nonempty ds0) eqn:N; cbn [andb]; [|discriminate].
  destruct (startsWith "min" (drop_spaces tl)) eqn:M; [|discriminate].
  intros H. injection H as <-.
  destruct (drop_spaces_spec tl) as [spaces [Etl F]].
  destruct (startsWith_inv _ _ M) as [rest R].
  exists spaces, rest. split; [|repeat split; assumption].
  rewrite E at 1. rewrite Etl at 1. rewrite R. reflexivity.
Qed.

Lemma match_minutes_here_complete (s ds : string) :
  minutes_at s "" ds -> match_minutes_here s = Some ds.
Proof.
  intros [spaces [rest [E [N [A F]]]]].
  change (s = ds +++ spaces +++ "min" +++ rest) in E. subst s.
  unfold match_minutes_here.
  assert (T : take_digits (ds +++ spaces +++ "min" +++ rest)
              = (ds, spaces +++ "min" +++ rest)).
  { apply take_digits_append; [exact A|].
    destruct spaces as [|c spaces]; [reflexivity|].
    simpl in F. apply andb_true_iff in F. destruct F as [C _]. simpl.
    destruct (is_digit c) eqn:D; [|reflexivity].
    exfalso. revert C D. unfold is_space, is_digit, in_range.
    destruct (nat_of_ascii c) as [|n]; [discriminate|].
    do 13 (destruct n as [|n]; [simpl; try discriminate; intros _ D; discriminate|]).
    do 18 (destruct n as [|n]; [discriminate|]).
    destruct n as [|n]; [intros _ D; discriminate|].
    intros C _. simpl in C. discriminate. }
  rewrite T, N. cbn [andb].
  rewrite (drop_spaces_append spaces ("min" +++ rest) F) by reflexivity.
  reflexivity.
Qed.

Lemma minutes_at_tail (c : ascii) (text pre ds : string) :
  minutes_at (String c text) (String c pre) ds <-> minutes_at text pre ds.
Proof.
  split; intros [spaces [rest [E H]]]; exists spaces, rest; split; try exact H.
  - simpl in E. injection E as E. exact E.
  - simpl. rewrite E. reflexivity.
Qed.

Lemma minutes_at_head (text pre ds : string) :
  minutes_at text pre ds ->
  match pre with
  | EmptyString => True
  | String c pre' => exists text', text = String c text'
  end.
Proof.
  intros [spaces [rest [E _]]]. destruct pre as [|c pre']; [exact I|].
  simpl in E. eexists. exact E.
Qed.

(** The match that [parseMinutes] finds is the minutes that the text
    names. *)
Lemma match_minutes_names (text ds : string) :
  match_minutes text = Some ds -> names_minutes text ds.
Proof.
  induction text as [|c text IH].
  - intros H. vm_compute in H. discriminate.
  - change (match_minutes (String c text))
      with (match match_minutes_here (String c text) with
            | Some x => Some x
            | None => match_minutes text
            end).
    destruct (match_minutes_here (String c text)) as [ds0|] eqn:Here.
    + intros H. injection H as <-. exists "". split.
      * exact (match_minutes_here_sound _ _ Here).
      * intros pre' ds' _. apply Nat.le_0_l.
    + intros H. destruct (IH H) as [pre [At Least]].
      exists (String c pre). split; [apply minutes_at_tail; exact At|].
      intros pre' ds' At'. pose proof (minutes_at_head _ _ _ At') as Hd.
      destruct pre' as [|c' pre'].
      * apply match_minutes_here_complete in At'. congruence.
      * destruct Hd as [text' Et]. injection Et as <- <-.
        apply minutes_at_tail in At'. simpl. apply le_n_S.
        exact (Least _ _ At').
Qed.

Lemma match_minutes_none (text pre ds : string) :
  match_minutes text = None -> ~ minutes_at text pre ds.
Proof.
  revert pre. induction text as [|c text IH]; intros pre H At.
  - destruct At as [spaces [rest [E [N _]]]].
    destruct pre; [|discriminate]. destruct ds; discriminate.
  - change (match_minutes (String c text))
      with (match match_minutes_here (String c text) with
            | Some x => Some x
            | None => match_minutes text
            end) in H.
    destruct (match_minutes_here (String c text)) as [ds0|] eqn:Here;
      [discriminate|].
    pose proof (minutes_at_head _ _ _ At) as Hd.
    destruct pre as [|c' pre].
    + apply match_minutes_here_complete in At. congruence.
    + destruct Hd as [text' Et]. injection Et as <- <-.
      apply minutes_at_tail in At. exact (IH pre H At).
Qed.

(** The minutes that a text names are the match that [parseMinutes]
    finds. *)
Lemma names_minutes_match (text ds : string) :
  names_minutes text ds -> match_minutes text = Some ds.
Proof.
  intros [pre [At Least]]. revert text At Least.
  induction pre as [|c pre IH]; intros text At Least.
  - apply match_minutes_at_head. apply match_minutes_here_complete. exact At.
  - destruct (minutes_at_head _ _ _ At) as [text' ->].
    change (match_minutes (String c text'))
      with (match match_minutes_here (String c text') with
            | Some x => Some x
            | None => match_minutes text'
            end).
    destruct (match_minutes_here (String c text')) as [ds0|] eqn:Here.
    + apply match_minutes_here_sound in Here.
      specialize (Least _ _ Here). simpl in Least. lia.
    + apply IH; [apply (minutes_at_tail c); exact At|].
      intros pre' ds' At'. apply (minutes_at_tail c) in At'.
      specialize (Least _ _ At'). simpl in Least. lia.
Qed.

(** What the rule says of a text, [parseSchedulingFromScheduleModule]
    answers for it. *)
Lemma interval_rule_answer (text : string) (seconds : Z) :
  interval_rule text seconds -> interval_seconds text = Finite seconds.
Proof.
  intros R. unfold interval_seconds.
  destruct R as [D|D W|D W M|D W M H|ds D W M H Names Pos Small|D W M H Zero];
    rewrite ?D, ?W, ?M, ?H; try reflexivity; unfold parseMinutes.
  - rewrite (names_minutes_match _ _ Names). unfold Number_of.
    rewrite double_of_exact by lia.
    destruct (Z.leb_spec (number_of_digits 0 ds) 0); [lia|].
    apply double_of_exact. exact Small.
  - destruct (match_minutes text) as [ds|] eqn:Match; [|reflexivity].
    unfold Number_of. rewrite (Zero ds (match_minutes_names _ _ Match)).
    reflexivity.
Qed.

(** For the text [N minutes], written with the decimal digits [ds] of a
    positive number, the interval is that number times 60, as far as 2^53. *)
Lemma interval_of_minutes (ds : string) :
  all_digits ds = true -> nonempty ds = true ->
  (0 < number_of_digits 0 ds)%Z ->
  (number_of_digits 0 ds * 60 < 2 ^ 53)%Z ->
  interval_seconds (ds +++ " minutes") = Finite (number_of_digits 0 ds * 60).
Proof.
  intros Hds Hne Hpos Hsmall. unfold interval_seconds.
  rewrite !(includes_after_digits _ _ ds " minutes" Hds) by reflexivity.
  simpl includes. cbv beta iota.
  unfold parseMinutes.
  assert (M : match_minutes (ds +++ " minutes") = Some ds).
  { apply match_minutes_at_head. unfold match_minutes_here.
    rewrite (take_digits_append ds " minutes" Hds) by reflexivity.
    rewrite Hne. reflexivity. }
  rewrite M. unfold Number_of. rewrite double_of_exact by lia.
  destruct (Z.leb_spec (number_of_digits 0 ds) 0); [lia|].
  apply double_of_exact. exact Hsmall.
Qed.

Lemma normalizedFlow_filter (flow : list json) :
  normalizedFlow (normalizeSchedulingModules flow)
    = filter (fun n => negb (is_schedule n)) flow.
Proof. exact (proj1 (normalize_from_spec flow None)). Qed.

(** C8 (as amended). [normalizeSchedulingModules] removes every
    [builtin:Schedule] node of the flow it is given, which is the root flow,
    and keeps every other item in order.  The first schedule node of the root
    flow gives the scheduling: its lower-cased interval text is mapped to
    seconds by the first rule that applies of day 86400, week 604800, month
    2592000, hour 3600; else the minutes N that the text names give N times
    60, for N above 0 and N times 60 below 2^53; and the interval is 900 when
    the text names no minutes or names 0. *)
Theorem normalizeSchedulingModules_root_flow (flow : list json) :
  normalizedFlow (normalizeSchedulingModules flow)
    = filter (fun n => negb (is_schedule n)) flow /\
  scheduling (normalizeSchedulingModules flow)
    = option_map parseSchedulingFromScheduleModule (find is_schedule flow) /\
  removedModules (normalizeSchedulingModules flow)
    = map (fun _ => "builtin:Schedule") (filter is_schedule flow) /\
  (forall node seconds,
      interval_rule (interval_text node) seconds ->
      parseSchedulingFromScheduleModule node = indefinitely seconds).
Proof.
  unfold normalizeSchedulingModules.
  destruct (normalize_from_spec flow None) as [A [B C]].
  split; [exact A|]. split; [exact B|]. split; [exact C|].
  intros node seconds R. unfold parseSchedulingFromScheduleModule.
  rewrite (interval_rule_answer _ _ R). reflexivity.
Qed.

(** C8, as stated, fails: the schedule node below the router is in the tree
    after healing, and the scheduling stays on demand. *)
Lemma nested_schedule_survives_healing :
  option_map
    (fun h =>
       (match flow_of (blueprint_of h) with
        | Some flow => filter is_schedule (treeNodes flow)
        | None => []
        end,
        schedulingConfig h))
    (heal nested_schedule_blueprint)
  = Some ([ JObj [("id", JNum 3); ("module", JStr "builtin:Schedule");
                  ("parameters", JObj [("interval", JStr "every day")]);
                  ("metadata", JObj [("designer", designer_xy)])] ],
          JObj [("type", JStr "on-demand")]).
Proof. vm_compute. reflexivity. Qed.

(** The same node in the root flow is removed and gives the scheduling. *)
Example root_schedule_is_translated :
  option_map
    (fun h => (blueprint_of h, schedulingConfig h))
    (heal (JObj [("flow", JArr [
             JObj [("id", JNum 1); ("module", JStr "builtin:Schedule");
                   ("parameters", JObj [("interval", JStr "Every 2 Hours")])];
             JObj [("id", JNum 2); ("module", JStr "http:ActionSendData")]]);
                 ("metadata", JObj [("version", JNum 1)])]))
  = Some (JObj [("flow", JArr [
                   JObj [("id", JNum 2); ("module", JStr "http:ActionSendData");
                         ("metadata", JObj [("designer", designer_xy)]);
                         ("version", JNum 3)]]);
                ("metadata", JObj [("version", JNum 1)])],
          indefinitely 3600).
Proof. vm_compute. reflexivity. Qed.

(** The rule of the minutes on a text. *)
Lemma interval_of_minutes_witness :
  interval_seconds "45 minutes" = Finite 2700.
Proof. exact (interval_of_minutes "45" eq_refl eq_refl eq_refl eq_refl). Defined.

(** The rules on texts: the minutes that a text names are the first it
    writes; a text past the doubles is outside the rule. *)
Example interval_rule_examples :
  interval_rule "every 45 minutes, not 10 min" 2700 /\
  interval_rule "5min" 300 /\
  interval_rule "0 minutes or 7 min" 900 /\
  interval_rule "now and then" 900 /\
  interval_rule "every day or 5 minutes" 86400.
Proof.
  assert (None_named : forall text,
            match_minutes text = None ->
            forall ds, names_minutes text ds -> number_of_digits 0 ds = 0%Z).
  { intros text H ds Names. rewrite (names_minutes_match _ _ Names) in H.
    discriminate. }
  assert (Named : forall text ds ds',
            match_minutes text = Some ds ->
            names_minutes text ds' -> ds' = ds).
  { intros text ds ds' H Names. rewrite (names_minutes_match _ _ Names) in H.
    injection H as ->. reflexivity. }
  repeat split.
  - apply (rule_minutes _ "45"); try reflexivity.
    apply match_minutes_names. reflexivity.
  - apply (rule_minutes _ "5"); try reflexivity.
    apply match_minutes_names. reflexivity.
  - apply rule_default; try reflexivity.
    intros ds Names.
    rewrite (Named "0 minutes or 7 min" "0" ds eq_refl Names). reflexivity.
  - apply rule_default; try reflexivity. apply None_named. reflexivity.
  - apply rule_day. reflexivity.
Qed.
(** ** Healing *)

Lemma map_opt_ext (f g : json -> option json) (l : list json) :
  (forall x, f x = g x) -> map_opt f l = map_opt g l.
Proof.
  intros H. induction l as [|x rest IH]; simpl; [reflexivity|].
  rewrite H, IH. reflexivity.
Qed.

Lemma healNode_obj (fs : fields) :
  healNode (JObj fs) =
  match heal_designer fs with
  | None => None
  | Some fs1 =>
      match get "routes" fs with
      | Some (JArr routes) =>
          match map_opt heal_route routes with
          | Some routes' => Some (JObj (set "routes" (JArr routes') fs1))
          | None => None
          end
      | _ => Some (JObj fs1)
      end
  end.
Proof.
  simpl. destruct (heal_designer fs) as [fs1|]; [|reflexivity].
  rewrite with_field_get.
  destruct (get "routes" fs) as [[| | | |routes|]|]; try reflexivity.
  erewrite map_opt_ext; [reflexivity|].
  intros route. destruct route as [| | | | |rfs]; try reflexivity.
  simpl. rewrite with_field_get.
  destruct (get "flow" rfs) as [[| | | |sub|]|]; reflexivity.
Qed.

Lemma healNode_other (node : json) :
  (forall fs, node <> JObj fs) -> healNode node = Some node.
Proof.
  destruct node; try reflexivity. intros H. exfalso. exact (H _ eq_refl).
Qed.

Lemma map_opt_Forall2 (f : json -> option json) (l l' : list json) :
  map_opt f l = Some l' -> Forall2 (fun a b => f a = Some b) l l'.
Proof.
  revert l'. induction l as [|x rest IH]; simpl; intros l' H.
  - injection H as <-. constructor.
  - destruct (f x) as [x'|] eqn:E; [|discriminate].
    destruct (map_opt f rest) as [rest'|]; [|discriminate].
    injection H as <-. constructor; [exact E|apply IH; reflexivity].
Qed.

Lemma map_opt_fixed (f : json -> option json) (l : list json) :
  (forall x, In x l -> f x = Some x) -> map_opt f l = Some l.
Proof.
  induction l as [|x rest IH]; simpl; intros H; [reflexivity|].
  rewrite (H x (or_introl eq_refl)), IH; [reflexivity|].
  intros y Hy. apply H. right. exact Hy.
Qed.

Lemma Forall2_In_r {A B : Type} (R : A -> B -> Prop) (l : list A) (l' : list B) (b : B) :
  Forall2 R l l' -> In b l' -> exists a, In a l /\ R a b.
Proof.
  induction 1 as [|x y l l' Hxy _ IH]; simpl; [contradiction|].
  intros [<-|H].
  - exists x. split; [left; reflexivity|exact Hxy].
  - destruct (IH H) as [a [Ha Hab]]. exists a. split; [right; exact Ha|exact Hab].
Qed.

Lemma heal_designer_ok (fs fs1 : fields) :
  heal_designer fs = Some fs1 -> designer_ok (get "metadata" fs1) = true.
Proof.
  unfold heal_designer.
  destruct (get "metadata" fs) as [md|] eqn:M.
  - destruct (negb (truthy md)) eqn:T.
    + intros H. injection H as <-. rewrite get_set_same. reflexivity.
    + destruct md as [| | | |l|mfs]; try discriminate.
      * intros H. injection H as <-. rewrite M. reflexivity.
      * destruct (truthy_opt (get "designer" mfs)) eqn:D; intros H;
          injection H as <-.
        -- rewrite M. exact D.
        -- rewrite get_set_same. simpl. rewrite get_set_same. reflexivity.
  - intros H. injection H as <-. rewrite get_set_same. reflexivity.
Qed.

Lemma heal_designer_fixed (fs : fields) :
  designer_ok (get "metadata" fs) = true -> heal_designer fs = Some fs.
Proof.
  unfold heal_designer, designer_ok.
  destruct (get "metadata" fs) as [[| | | |l|mfs]|]; try discriminate.
  - intros _. reflexivity.
  - intros D. simpl. rewrite D. reflexivity.
Qed.

Lemma heal_designer_other (k : string) (fs fs1 : fields) :
  String.eqb k "metadata" = false ->
  heal_designer fs = Some fs1 -> get k fs1 = get k fs.
Proof.
  intros Hk. unfold heal_designer.
  destruct (get "metadata" fs) as [md|].
  - destruct (negb (truthy md)).
    + intros H. injection H as <-. apply get_set_other. exact Hk.
    + destruct md as [| | | |l|mfs]; try discriminate.
      * intros H. injection H as <-. reflexivity.
      * destruct (truthy_opt (get "designer" mfs)); intros H; injection H as <-;
          [reflexivity|apply get_set_other; exact Hk].
  - intros H. injection H as <-. apply get_set_other. exact Hk.
Qed.

Lemma strip_filter_none (rfs : fields) : get "filter" (strip_filter rfs) = None.
Proof.
  unfold strip_filter. destruct (get "filter" rfs) eqn:E; [apply get_del_same|exact E].
Qed.

Lemma strip_filter_other (k : string) (rfs : fields) :
  String.eqb k "filter" = false -> get k (strip_filter rfs) = get k rfs.
Proof.
  intros H. unfold strip_filter.
  destruct (get "filter" rfs); [apply get_del_other; exact H|reflexivity].
Qed.

Lemma strip_filter_fixed (rfs : fields) :
  get "filter" rfs = None -> strip_filter rfs = rfs.
Proof. intros H. unfold strip_filter. rewrite H. reflexivity. Qed.

Lemma heal_route_healed (route route' : json) :
  heal_route route = Some route' ->
  route_healed route' /\
  match route_flow route with
  | Some sub =>
      exists sub', map_opt healNode sub = Some sub' /\ route_flow route' = Some sub'
  | None => route_flow route' = None
  end.
Proof.
  destruct route as [| | | | |rfs]; simpl; try discriminate;
    try (intros H; injection H as <-; split; [exact I|reflexivity]).
  case_array (get "flow" rfs) sub F;
    try (intros H; injection H as <-; simpl; split;
         [apply strip_filter_none
         |rewrite strip_filter_other by reflexivity; rewrite F; reflexivity]).
  destruct (map_opt healNode sub) as [sub'|]; [|discriminate].
  intros H. injection H as <-. simpl. split.
  - rewrite get_set_other by reflexivity. apply strip_filter_none.
  - exists sub'. split; [reflexivity|]. rewrite get_set_same. reflexivity.
Qed.

(** Healing a node gives a healed tree. *)
Lemma healNode_healed (x : json) :
  forall y, healNode x = Some y -> tree_healed y.
Proof.
  apply (node_induction (fun x => forall y, healNode x = Some y -> tree_healed y)).
  intros node IH y H. unfold tree_healed. rewrite nodeAndBelow_eq.
  destruct node as [| | | | |fs];
    try (simpl in H; injection H as <-; constructor; [exact I|constructor]).
  rewrite healNode_obj in H.
  destruct (heal_designer fs) as [fs1|] eqn:D; [|discriminate].
  pose proof (heal_designer_ok _ _ D) as Dok.
  pose proof (heal_designer_other "routes" _ _ eq_refl D) as Droutes.
  case_array (get "routes" fs) routes R;
    try (injection H as <-; constructor;
         [split; [exact Dok|unfold node_routes; rewrite Droutes; exact I]
         |unfold below, node_routes; rewrite Droutes; constructor]).
  destruct (map_opt heal_route routes) as [routes'|] eqn:M; [|discriminate].
  injection H as <-. apply map_opt_Forall2 in M.
  assert (NR : node_routes (JObj (set "routes" (JArr routes') fs1)) = Some routes').
  { unfold node_routes. rewrite get_set_same. reflexivity. }
  constructor.
  - split; [rewrite get_set_other by reflexivity; exact Dok|].
    rewrite NR. apply Forall_forall. intros r' Hr'.
    destruct (Forall2_In_r _ _ _ _ M Hr') as [r [_ Hr]].
    exact (proj1 (heal_route_healed _ _ Hr)).
  - apply Forall_forall. intros n Hn. apply In_below in Hn.
    destruct Hn as [rs [r' [sub' [n0 [H1 [H2 [H3 [H4 H5]]]]]]]].
    rewrite NR in H1. injection H1 as <-.
    destruct (Forall2_In_r _ _ _ _ M H2) as [r [Hr Hheal]].
    destruct (heal_route_healed _ _ Hheal) as [_ Hflow].
    destruct (route_flow r) as [sub|] eqn:F; [|congruence].
    destruct Hflow as [sub'' [Hmap Hsub]]. rewrite H3 in Hsub.
    injection Hsub as <-. apply map_opt_Forall2 in Hmap.
    destruct (Forall2_In_r _ _ _ _ Hmap H4) as [n1 [Hn1 Hn1heal]].
    assert (NRfs : node_routes (JObj fs) = Some routes)
      by (unfold node_routes; rewrite R; reflexivity).
    pose proof (IH routes r sub n1 NRfs Hr F Hn1 n0 Hn1heal) as T.
    unfold tree_healed in T. rewrite Forall_forall in T. exact (T n H5).
Qed.

(** Healing leaves a healed tree as it is. *)
Lemma healNode_fixed (y : json) : tree_healed y -> healNode y = Some y.
Proof.
  apply (node_induction (fun y => tree_healed y -> healNode y = Some y)).
  intros node IH T.
  destruct node as [| | | | |fs]; try reflexivity.
  unfold tree_healed in T. rewrite nodeAndBelow_eq in T.
  inversion T as [|? ? Hhead Tbelow]; subst.
  destruct Hhead as [Dok Hroutes].
  rewrite healNode_obj, (heal_designer_fixed _ Dok).
  unfold node_routes in Hroutes.
  case_array (get "routes" fs) routes R; try reflexivity.
  assert (NR : node_routes (JObj fs) = Some routes)
    by (unfold node_routes; rewrite R; reflexivity).
  rewrite map_opt_fixed.
  - rewrite (set_get_id _ _ _ R). reflexivity.
  - intros r Hr. rewrite Forall_forall in Hroutes. specialize (Hroutes r Hr).
    destruct r as [| | | | |rfs]; try reflexivity; [contradiction|].
    simpl in Hroutes. simpl. rewrite (strip_filter_fixed _ Hroutes).
    case_array (get "flow" rfs) sub F; try reflexivity.
    assert (RF : route_flow (JObj rfs) = Some sub)
      by (unfold route_flow; rewrite F; reflexivity).
    rewrite map_opt_fixed.
    + rewrite (set_get_id _ _ _ F). reflexivity.
    + intros n Hn. apply (IH routes (JObj rfs) sub n NR Hr RF Hn).
      unfold tree_healed. apply Forall_forall. intros n' Hn'.
      rewrite Forall_forall in Tbelow. apply Tbelow. apply In_below.
      exists routes, (JObj rfs), sub, n. repeat split; assumption.
Qed.

(** [healFlow] is idempotent. *)
Lemma healNode_idempotent (x y : json) :
  healNode x = Some y -> healNode y = Some y.
Proof. intros H. apply healNode_fixed. exact (healNode_healed x y H). Qed.
(** *** Healing twice *)

Lemma route_healed_over_flow (g : list json -> list json) (route : json) :
  route_healed route -> route_healed (over_flow g route).
Proof.
  destruct route as [| | | | |rfs]; try (intros H; exact H).
  unfold over_flow.
  destruct (get "flow" rfs) as [[| | | |sub|]|]; try (intros H; exact H).
  simpl. intros H. rewrite get_set_other by reflexivity. exact H.
Qed.

Lemma node_healed_inject_tree (node : json) :
  node_healed node -> node_healed (inject_tree node).
Proof.
  destruct node as [| | | | |fs]; try (intros H; exact H).
  intros [Dok Hroutes]. rewrite inject_tree_obj. split.
  - rewrite get_over_routes by reflexivity.
    rewrite get_inject_version by reflexivity. exact Dok.
  - rewrite node_routes_over_routes by (apply get_inject_version; reflexivity).
    destruct (node_routes (JObj fs)) as [routes|]; simpl; [|exact I].
    apply Forall_map. apply Forall_forall. intros r Hr.
    rewrite Forall_forall in Hroutes.
    apply route_healed_over_flow. exact (Hroutes r Hr).
Qed.

(** The version walk keeps a healed tree healed. *)
Lemma tree_healed_inject_tree (node : json) :
  tree_healed node -> tree_healed (inject_tree node).
Proof.
  unfold tree_healed. rewrite inject_tree_nodes. intros H.
  apply Forall_map. apply Forall_forall. intros n Hn.
  rewrite Forall_forall in H. apply node_healed_inject_tree. exact (H n Hn).
Qed.

Lemma inject_version_fixed (fs : fields) :
  version_reconciled (JObj fs) -> fst (inject_version fs) = fs.
Proof.
  unfold version_reconciled, inject_version.
  destruct (get "module" fs) as [[| | |m| |]|]; try reflexivity.
  destruct (verifiedVersion m) as [known|]; intros H; rewrite H.
  - rewrite Z.eqb_refl. reflexivity.
  - reflexivity.
Qed.

Lemma over_flow_twice (g : list json -> list json) (route : json) :
  (forall sub, route_flow route = Some sub -> g (g sub) = g sub) ->
  over_flow g (over_flow g route) = over_flow g route.
Proof.
  destruct route as [| | | | |rfs]; try reflexivity. intros H.
  unfold over_flow.
  case_array (get "flow" rfs) sub F;
    try (rewrite F; reflexivity).
  rewrite get_set_same, set_set_same.
  rewrite (H sub); [reflexivity|]. unfold route_flow. rewrite F. reflexivity.
Qed.

Lemma over_routes_twice (g : list json -> list json) (fs fs1 : fields) :
  get "routes" fs1 = get "routes" fs ->
  (forall routes route sub,
      node_routes (JObj fs) = Some routes -> In route routes ->
      route_flow route = Some sub -> g (g sub) = g sub) ->
  over_routes g (over_routes g fs fs1) (over_routes g fs fs1) = over_routes g fs fs1.
Proof.
  intros Hsame H. unfold over_routes at 1.
  assert (E : get "routes" (over_routes g fs fs1) =
              match get "routes" fs with
              | Some (JArr routes) => Some (JArr (map (over_flow g) routes))
              | other => other
              end).
  { unfold over_routes.
    destruct (get "routes" fs) as [[| | | |routes|]|]; try exact Hsame.
    apply get_set_same. }
  rewrite E.
  case_array (get "routes" fs) routes R; try reflexivity.
  apply set_get_id. rewrite E. do 2 f_equal.
  rewrite map_map. apply map_ext_in. intros r Hr. symmetry. apply over_flow_twice.
  intros sub Hsub. apply (H routes r sub); [|exact Hr|exact Hsub].
  unfold node_routes. rewrite R. reflexivity.
Qed.

(** [injectVerifiedVersions] is idempotent. *)
Lemma inject_tree_idempotent (node : json) :
  inject_tree (inject_tree node) = inject_tree node.
Proof.
  apply (node_induction (fun node => inject_tree (inject_tree node) = inject_tree node)).
  clear node. intros node IH.
  destruct node as [| | | | |fs]; try reflexivity.
  pose proof (inject_tree_reconciled (JObj fs)) as Rec.
  rewrite inject_tree_obj in *. rewrite inject_tree_obj.
  rewrite (inject_version_fixed _ Rec). f_equal.
  apply over_routes_twice.
  - apply get_inject_version. reflexivity.
  - intros routes route sub H1 H2 H3.
    rewrite map_map. apply map_ext_in. intros n Hn.
    exact (IH routes route sub n H1 H2 H3 Hn).
Qed.

Lemma field_module_healNode (x y : json) :
  healNode x = Some y -> field "module" y = field "module" x.
Proof.
  destruct x as [| | | | |fs]; try (intros H; injection H as <-; reflexivity).
  rewrite healNode_obj.
  destruct (heal_designer fs) as [fs1|] eqn:D; [|discriminate].
  pose proof (heal_designer_other "module" _ _ eq_refl D) as M.
  destruct (get "routes" fs) as [[| | | |routes|]|];
    try (intros H; injection H as <-; exact M).
  destruct (map_opt heal_route routes); [|discriminate].
  intros H. injection H as <-. simpl.
  rewrite get_set_other by reflexivity. exact M.
Qed.

Lemma is_schedule_module (x y : json) :
  field "module" y = field "module" x -> is_schedule y = is_schedule x.
Proof. unfold is_schedule. intros ->. reflexivity. Qed.

Lemma filter_all {A : Type} (p : A -> bool) (l : list A) :
  (forall x, In x l -> p x = true) -> filter p l = l.
Proof.
  induction l as [|x rest IH]; simpl; intros H; [reflexivity|].
  rewrite (H x (or_introl eq_refl)), IH; [reflexivity|].
  intros y Hy. apply H. right. exact Hy.
Qed.

Lemma filter_filter_same {A : Type} (p : A -> bool) (l : list A) :
  forall x, In x (filter p l) -> p x = true.
Proof. intros x H. apply filter_In in H. exact (proj2 H). Qed.

(** The flow that healing leaves: the root flow without schedule nodes,
    healed, with the versions reconciled. *)
Lemma healed_flow_fixed (flow healedFlow : list json) :
  healFlow (filter (fun n => negb (is_schedule n)) flow) = Some healedFlow ->
  let F := map inject_tree healedFlow in
  filter (fun n => negb (is_schedule n)) F = F /\
  healFlow F = Some F /\
  map inject_tree F = F.
Proof.
  intros H F. unfold healFlow in H. apply map_opt_Forall2 in H.
  split; [|split].
  - apply filter_all. intros n Hn. unfold F in Hn. apply in_map_iff in Hn.
    destruct Hn as [y [<- Hy]].
    destruct (Forall2_In_r _ _ _ _ H Hy) as [x [Hx Hxy]].
    rewrite (is_schedule_module y (inject_tree y) (field_module_inject_tree y)).
    rewrite (is_schedule_module x y (field_module_healNode x y Hxy)).
    exact (filter_filter_same _ _ x Hx).
  - unfold healFlow. apply map_opt_fixed. intros n Hn. unfold F in Hn.
    apply in_map_iff in Hn. destruct Hn as [y [<- Hy]].
    destruct (Forall2_In_r _ _ _ _ H Hy) as [x [_ Hxy]].
    apply healNode_fixed, tree_healed_inject_tree. exact (healNode_healed x y Hxy).
  - unfold F. rewrite map_map. apply map_ext. exact inject_tree_idempotent.
Qed.

Lemma truthy_default_metadata : truthy default_metadata = true.
Proof. reflexivity. Qed.

Lemma heal_stable (fs : fields) :
  blueprint_stable fs ->
  exists h', heal (JObj fs) = Some h' /\ blueprint_of h' = JObj fs.
Proof.
  intros [M H]. unfold heal.
  case_array (get "flow" fs) F E;
    try (rewrite M, E; eexists; split; reflexivity).
  destruct H as [A [B C]].
  rewrite (normalizedFlow_filter F), A.
  rewrite (set_get_id _ _ _ E), M, E, B, injectVerifiedVersions_tree, C.
  rewrite (set_get_id _ _ _ E).
  eexists; split; reflexivity.
Qed.

Lemma with_metadata_truthy (fs : fields) :
  truthy_opt (get "metadata"
    (if truthy_opt (get "metadata" fs) then fs
     else set "metadata" default_metadata fs)) = true.
Proof.
  destruct (truthy_opt (get "metadata" fs)) eqn:T; [exact T|].
  rewrite get_set_same. reflexivity.
Qed.

Lemma with_metadata_flow (fs : fields) :
  get "flow"
    (if truthy_opt (get "metadata" fs) then fs
     else set "metadata" default_metadata fs) = get "flow" fs.
Proof.
  destruct (truthy_opt (get "metadata" fs)); [reflexivity|].
  apply get_set_other. reflexivity.
Qed.

Lemma heal_gives_stable (fs : fields) (h : healed) :
  heal (JObj fs) = Some h ->
  exists fsB, blueprint_of h = JObj fsB /\ blueprint_stable fsB.
Proof.
  unfold heal.
  case_array (get "flow" fs) flow E;
    try (rewrite with_metadata_flow, E; intros H; injection H as <-;
         eexists; split; [reflexivity|]; split;
         [apply with_metadata_truthy|rewrite with_metadata_flow, E; exact I]).
  rewrite with_metadata_flow, get_set_same.
  rewrite (normalizedFlow_filter flow).
  destruct (healFlow (filter (fun n => negb (is_schedule n)) flow))
    as [healedFlow|] eqn:HF; [|discriminate].
  intros H. injection H as <-. eexists. split; [reflexivity|].
  rewrite injectVerifiedVersions_tree. split.
  - rewrite get_set_other by reflexivity. apply with_metadata_truthy.
  - rewrite get_set_same. exact (healed_flow_fixed flow healedFlow HF).
Qed.

(** C6. Healing is idempotent: when the healing steps of [create_scenario]
    (schedule normalisation, metadata, designer placeholders and filter
    stripping, version reconciliation) succeed on a blueprint, they succeed
    on the healed blueprint and leave it as it is. *)
Theorem heal_idempotent (parsed : json) (h : healed) :
  heal parsed = Some h ->
  exists h', heal (blueprint_of h) = Some h' /\ blueprint_of h' = blueprint_of h.
Proof.
  destruct parsed as [| | | |items|fs]; try discriminate.
  - intros H. injection H as <-. simpl. eexists. split; reflexivity.
  - intros H. destruct (heal_gives_stable fs h H) as [fsB [-> S]].
    exact (heal_stable fsB S).
Qed.

Lemma heal_idempotent_witness :
  exists h h',
    heal unhealed_blueprint = Some h /\
    heal (blueprint_of h) = Some h' /\ blueprint_of h' = blueprint_of h.
Proof.
  destruct (heal unhealed_blueprint) as [h|] eqn:H; [|vm_compute in H; discriminate].
  destruct (heal_idempotent unhealed_blueprint h H) as [h' [H1 H2]].
  exists h, h'. repeat split; assumption.
Defined.

Example heal_unhealed :
  option_map (fun h => (blueprint_of h, schedulingConfig h)) (heal unhealed_blueprint)
  = Some
      (JObj [("name", JStr "demo");
             ("flow", JArr [
                JObj [("id", JNum 2); ("module", JStr "builtin:BasicRouter");
                      ("version", JNum 1);
                      ("routes", JArr [
                         JObj [("flow", JArr [
                                  JObj [("id", JNum 3); ("module", JStr "acme:Thing");
                                        ("metadata", JObj [("designer", designer_xy)])]])]]);
                      ("metadata", JObj [("designer", designer_xy)])]]);
             ("metadata", default_metadata)],
       indefinitely 600).
Proof. vm_compute. reflexivity. Qed.
(** *** What the healed blueprint looks like *)

Lemma filter_fixed_all {A : Type} (p : A -> bool) (l : list A) :
  filter p l = l -> forall x, In x l -> p x = true.
Proof. intros E x Hx. rewrite <- E in Hx. apply filter_In in Hx. exact (proj2 Hx). Qed.

(** After healing, the root flow has no schedule node, and every node of the
    tree has its version reconciled with the registry. *)
Lemma heal_postcondition (parsed : json) (h : healed) (flow : list json) :
  heal parsed = Some h ->
  flow_of (blueprint_of h) = Some flow ->
  Forall (fun n => is_schedule n = false) flow /\
  Forall version_reconciled (treeNodes flow).
Proof.
  intros H F. destruct parsed as [| | | |items|fs]; try discriminate.
  { injection H as <-. discriminate. }
  destruct (heal_gives_stable fs h H) as [fsB [E [_ S]]].
  rewrite E in F. unfold flow_of in F. simpl in F.
  destruct (get "flow" fsB) as [[| | | |F0|]|]; try discriminate.
  injection F as ->. destruct S as [A [_ C]]. split.
  - apply Forall_forall. intros n Hn.
    apply negb_true_iff. exact (filter_fixed_all _ _ A n Hn).
  - rewrite <- C, treeNodes_inject. apply Forall_map. apply Forall_forall.
    intros n _. apply inject_tree_reconciled.
Qed.

Lemma heal_postcondition_witness :
  exists h flow,
    heal unhealed_blueprint = Some h /\
    flow_of (blueprint_of h) = Some flow /\
    Forall (fun n => is_schedule n = false) flow /\
    Forall version_reconciled (treeNodes flow).
Proof.
  destruct (heal unhealed_blueprint) as [h|] eqn:H; [|vm_compute in H; discriminate].
  destruct (flow_of (blueprint_of h)) as [flow|] eqn:F.
  - exists h, flow. split; [reflexivity|]. split; [exact F|].
    exact (heal_postcondition unhealed_blueprint h flow H F).
  - exfalso. vm_compute in H. injection H as <-. vm_compute in F. discriminate.
Defined.
(** ** Walks that count nothing change nothing

    The retry loop keeps the blueprint of a walk only when the walk counted
    an update; a walk that counts none has written nothing. *)

Lemma map_sum_zero (f : json -> json * nat) (l : list json) :
  snd (map_sum 0 Nat.add f l) = 0 -> forall x, In x l -> snd (f x) = 0.
Proof.
  induction l as [|y rest IH]; simpl; [intros _ x []|].
  destruct (f y) as [y' c] eqn:E. destruct (map_sum 0 Nat.add f rest) as [rest' d].
  simpl in *. intros H x [<-|Hx]; [rewrite E; simpl; lia|].
  apply IH; [lia|exact Hx].
Qed.

Lemma in_routes_zero (rec : json -> json * nat) (routes : list json) :
  snd (in_routes 0 Nat.add rec routes) = 0 ->
  forall route sub n,
    In route routes -> route_flow route = Some sub -> In n sub -> snd (rec n) = 0.
Proof.
  unfold in_routes. intros H route sub n Hroute Hsub Hn.
  pose proof (map_sum_zero _ _ H route Hroute) as Hr.
  destruct route as [| | | | |rfs]; try discriminate.
  unfold route_flow in Hsub. rewrite with_field_get in Hr.
  destruct (get "flow" rfs) as [[| | | |sub0|]|]; try discriminate.
  injection Hsub as ->.
  destruct (map_sum 0 Nat.add rec sub) as [sub' c] eqn:E. simpl in Hr. subst c.
  apply (map_sum_zero rec sub); [rewrite E; reflexivity|exact Hn].
Qed.

Lemma below_node_zero (rec : json -> json * nat) (fs fs1 : fields) (c1 : nat) :
  snd (below_node 0 Nat.add rec fs fs1 c1) = 0 ->
  c1 = 0 /\
  forall routes route sub n,
    node_routes (JObj fs) = Some routes -> In route routes ->
    route_flow route = Some sub -> In n sub -> snd (rec n) = 0.
Proof.
  unfold below_node, node_routes. rewrite with_field_get.
  destruct (get "routes" fs) as [[| | | |routes|]|];
    try (simpl; intros ->; split; [reflexivity|discriminate]).
  destruct (in_routes 0 Nat.add rec routes) as [routes' c2] eqn:E. simpl.
  intros H. split; [lia|].
  intros rs route sub n Hrs Hroute Hsub Hn. injection Hrs as <-.
  apply (in_routes_zero rec routes) with (route := route) (sub := sub);
    try assumption.
  rewrite E. simpl. lia.
Qed.

Lemma over_flow_id (g : list json -> list json) (route : json) :
  (forall sub, route_flow route = Some sub -> g sub = sub) ->
  over_flow g route = route.
Proof.
  destruct route as [| | | | |rfs]; try reflexivity. intros H.
  unfold over_flow. case_array (get "flow" rfs) sub F;
    try reflexivity.
  rewrite (H sub); [|unfold route_flow; rewrite F; reflexivity].
  rewrite (set_get_id _ _ _ F). reflexivity.
Qed.

Lemma over_routes_id (g : list json -> list json) (fs : fields) :
  (forall routes route sub,
      node_routes (JObj fs) = Some routes -> In route routes ->
      route_flow route = Some sub -> g sub = sub) ->
  over_routes g fs fs = fs.
Proof.
  intros H. unfold over_routes.
  case_array (get "routes" fs) routes R; try reflexivity.
  assert (E : map (over_flow g) routes = routes).
  { rewrite <- (map_id routes) at 2. apply map_ext_in. intros r Hr.
    apply over_flow_id. intros sub Hsub. apply (H routes r sub); try assumption.
    unfold node_routes. rewrite R. reflexivity. }
  rewrite E. apply set_get_id. exact R.
Qed.

Lemma map_fixed {A : Type} (f : A -> A) (l : list A) :
  (forall x, In x l -> f x = x) -> map f l = l.
Proof.
  intros H. rewrite <- (map_id l) at 2. apply map_ext_in. exact H.
Qed.

(** A walk over nodes whose local write happens only with a count. *)
Lemma counted_walk_unchanged (walk : json -> json * nat)
    (local : fields -> fields * nat) :
  (forall fs, walk (JObj fs) =
              below_node 0 Nat.add walk fs (fst (local fs)) (snd (local fs))) ->
  (forall fs, snd (local fs) = 0 -> fst (local fs) = fs) ->
  (forall node, (forall fs, node <> JObj fs) -> walk node = (node, 0)) ->
  forall node, snd (walk node) = 0 -> fst (walk node) = node.
Proof.
  intros Hobj Hlocal Hother.
  apply (node_induction (fun node => snd (walk node) = 0 -> fst (walk node) = node)).
  intros node IH H.
  destruct node as [| | | | |fs];
    try (rewrite Hother; [reflexivity|intros fs0; discriminate]).
  rewrite Hobj in *. rewrite below_node_fst.
  destruct (below_node_zero _ _ _ _ H) as [Hc Hbelow].
  rewrite (Hlocal fs Hc). f_equal. apply over_routes_id.
  intros routes route sub H1 H2 H3. apply map_fixed. intros n Hn.
  apply (IH routes route sub n H1 H2 H3 Hn).
  exact (Hbelow routes route sub n H1 H2 H3 Hn).
Qed.

Lemma counted_flow_unchanged (walk : json -> json * nat) (flow : list json) :
  (forall node, snd (walk node) = 0 -> fst (walk node) = node) ->
  snd (map_sum 0 Nat.add walk flow) = 0 ->
  fst (map_sum 0 Nat.add walk flow) = flow.
Proof.
  intros H Z. rewrite map_sum_fst. apply map_fixed. intros n Hn.
  apply H. exact (map_sum_zero walk flow Z n Hn).
Qed.

(** [setModuleVersionInFlow] with no node updated leaves the flow as it
    is. *)
Lemma setModuleVersionInFlow_none (flow : list json) (moduleId : string) (version : Z) :
  snd (setModuleVersionInFlow flow moduleId version) = 0 ->
  fst (setModuleVersionInFlow flow moduleId version) = flow.
Proof.
  apply counted_flow_unchanged.
  apply (counted_walk_unchanged (setVersionNode moduleId version)
           (fun fs => match get "module" fs with
                      | Some (JStr m) =>
                          if String.eqb m moduleId
                          then (set "version" (JNum version) fs, 1)
                          else (fs, 0)
                      | _ => (fs, 0)
                      end)).
  - intros fs. simpl. destruct (get "module" fs) as [[| | |m| |]|]; try reflexivity.
    destruct (String.eqb m moduleId); reflexivity.
  - intros fs. destruct (get "module" fs) as [[| | |m| |]|]; try reflexivity.
    destruct (String.eqb m moduleId); [discriminate|reflexivity].
  - intros node H. destruct node; try reflexivity. exfalso. exact (H _ eq_refl).
Qed.

(** [stripModuleVersionsInFlow] with no pin removed leaves the flow as it
    is. *)
Lemma stripModuleVersionsInFlow_none (flow : list json) :
  snd (stripModuleVersionsInFlow flow) = 0 ->
  fst (stripModuleVersionsInFlow flow) = flow.
Proof.
  apply counted_flow_unchanged.
  apply (counted_walk_unchanged stripNode
           (fun fs => match get "version" fs with
                      | Some _ => (del "version" fs, 1)
                      | None => (fs, 0)
                      end)).
  - intros fs. simpl. destruct (get "version" fs); reflexivity.
  - intros fs. destruct (get "version" fs); [discriminate|reflexivity].
  - intros node H. destruct node; try reflexivity. exfalso. exact (H _ eq_refl).
Qed.
(** ** The validator *)

Section Validator.

Variable env : environment.

Lemma bind_ext {A B : Type} (c : V A) (k k' : A -> V B) (s : vstate) :
  (forall a s', k a s' = k' a s') -> bind c k s = bind c k' s.
Proof.
  intros H. unfold bind. destruct (c s) as [[a|] s']; [apply H|reflexivity].
Qed.

Lemma for_indexed_run_ext (f g : json -> nat -> V unit) (l : list json) :
  (forall x i s, f x i s = g x i s) ->
  forall i s, for_indexed f l i s = for_indexed g l i s.
Proof.
  intros H. induction l as [|x rest IH]; intros i s; simpl; [reflexivity|].
  unfold bind. rewrite H. destruct (g x i s) as [[[]|] s']; [apply IH|reflexivity].
Qed.

Lemma validateNode_obj (fs : fields) (pos : string) (s : vstate) :
  validateNode env (JObj fs) pos s =
  match get "module" fs with
  | Some (JStr m) =>
      if negb (nonempty m) then push_error (missing_module_error pos) s
      else
        (when (negb (is_some (get "id" fs))) (push_warning (missing_id_warning pos m)) ;;;
         match getModule env m with
         | None => push_error (unknown_module_error pos m)
         | Some schema =>
             version_warnings pos m fs ;;;
             registry_warnings pos m fs ;;;
             push_validated m ;;;
             for_of (check_param pos m fs) (row_parameters schema) ;;;
             validate_routes env fs pos
         end) s
  | _ => push_error (missing_module_error pos) s
  end.
Proof.
  simpl. destruct (get "module" fs) as [[| | |m| |]|]; try reflexivity.
  destruct (negb (nonempty m)); [reflexivity|].
  apply bind_ext. intros _ s1.
  destruct (getModule env m) as [schema|]; [|reflexivity].
  apply bind_ext. intros _ s2. apply bind_ext. intros _ s3.
  apply bind_ext. intros _ s4. apply bind_ext. intros _ s5.
  rewrite with_field_get. unfold validate_routes.
  destruct (get "routes" fs) as [[| | | |routes|]|]; try reflexivity.
  apply for_indexed_run_ext. intros route r s6.
  destruct route as [| | | | |rfs]; try reflexivity.
  simpl. rewrite with_field_get.
  destruct (get "flow" rfs) as [[| | | |sub|]|]; reflexivity.
Qed.

Lemma validateNode_not_obj (node : json) (pos : string) :
  (forall fs, node <> JObj fs) ->
  exists e, validateNode env node pos = push_error e.
Proof.
  destruct node; try (intros _; eexists; reflexivity).
  intros H. exfalso. exact (H _ eq_refl).
Qed.

(** *** What a computation of the handler may do to its variables *)

Lemma appends_ret {A : Type} (a : A) : appends (ret a).
Proof. intros s. split; [reflexivity|]. exists []. simpl. rewrite app_nil_r. reflexivity. Qed.

Lemma appends_throw {A : Type} : appends (@throw A).
Proof. intros s. split; [reflexivity|]. exists []. simpl. rewrite app_nil_r. reflexivity. Qed.

Lemma appends_push_error (e : string) : appends (push_error e).
Proof. intros s. split; [reflexivity|]. exists [e]. reflexivity. Qed.

Lemma appends_push_warning (w : string) : appends (push_warning w).
Proof. intros s. split; [reflexivity|]. exists []. simpl. rewrite app_nil_r. reflexivity. Qed.

Lemma appends_push_validated (m : string) : appends (push_validated m).
Proof. intros s. split; [reflexivity|]. exists []. simpl. rewrite app_nil_r. reflexivity. Qed.

Lemma appends_bind {A B : Type} (c : V A) (k : A -> V B) :
  appends c -> (forall a, appends (k a)) -> appends (bind c k).
Proof.
  intros Hc Hk s. unfold bind. destruct (Hc s) as [P [extra E]].
  destruct (c s) as [[a|] s1]; simpl in *.
  - destruct (Hk a s1) as [P' [extra' E']]. split; [congruence|].
    exists (extra ++ extra'). rewrite E', E, app_assoc. reflexivity.
  - split; [exact P|]. exists extra. exact E.
Qed.

Lemma appends_when (b : bool) (c : V unit) : appends c -> appends (when b c).
Proof. intros H. destruct b; [exact H|apply appends_ret]. Qed.

Lemma appends_for_of {A : Type} (f : A -> V unit) (l : list A) :
  (forall x, In x l -> appends (f x)) -> appends (for_of f l).
Proof.
  induction l as [|x rest IH]; intros H; simpl; [apply appends_ret|].
  apply appends_bind; [apply H; left; reflexivity|].
  intros _. apply IH. intros y Hy. apply H. right. exact Hy.
Qed.

Lemma appends_for_indexed (f : json -> nat -> V unit) (l : list json) :
  (forall x i, In x l -> appends (f x i)) -> forall i, appends (for_indexed f l i).
Proof.
  induction l as [|x rest IH]; intros H i; simpl; [apply appends_ret|].
  apply appends_bind; [apply H; left; reflexivity|].
  intros _. apply IH. intros y j Hy. apply H. right. exact Hy.
Qed.

Lemma appends_run_ext {A : Type} (c c' : V A) :
  (forall s, c s = c' s) -> appends c' -> appends c.
Proof. intros E H s. rewrite E. apply H. Qed.

Create HintDb handler discriminated.

#[local] Hint Resolve appends_ret appends_throw appends_push_error
  appends_push_warning appends_push_validated appends_when : handler.

Lemma appends_version_warnings (pos m : string) (fs : fields) :
  appends (version_warnings pos m fs).
Proof.
  unfold version_warnings. destruct (get "version" fs); [|auto with handler].
  destruct (verifiedVersion m); auto with handler.
Qed.

Lemma appends_registry_warnings (pos m : string) (fs : fields) :
  appends (registry_warnings pos m fs).
Proof.
  unfold registry_warnings. apply appends_bind.
  - destruct (getProblematicModuleInfo m);
      [apply appends_push_warning|apply appends_ret].
  - intros _. destruct (is_some (verifiedVersion m) && negb (is_some (get "version" fs)));
      [apply appends_ret|apply appends_when, appends_push_warning].
Qed.

Lemma appends_check_param (pos m : string) (fs : fields) (p : param) :
  appends (check_param pos m fs p).
Proof.
  unfold check_param. destruct (param_required p); [|auto with handler].
  destruct (String.eqb m "builtin:BasicRouter" && String.eqb (param_name p) "routes");
    auto with handler.
Qed.

Lemma appends_validateNode (node : json) :
  forall pos, appends (validateNode env node pos).
Proof.
  apply (node_induction (fun node => forall pos, appends (validateNode env node pos))).
  clear node. intros node IH pos.
  destruct node as [| | | | |fs]; try apply appends_push_error.
  eapply appends_run_ext; [intros s; apply validateNode_obj|].
  destruct (get "module" fs) as [[| | |m| |]|]; try apply appends_push_error.
  destruct (negb (nonempty m)); [apply appends_push_error|].
  apply appends_bind; [apply appends_when, appends_push_warning|]. intros _.
  destruct (getModule env m) as [schema|]; [|apply appends_push_error].
  apply appends_bind; [apply appends_version_warnings|]. intros _.
  apply appends_bind; [apply appends_registry_warnings|]. intros _.
  apply appends_bind; [apply appends_push_validated|]. intros _.
  apply appends_bind;
    [apply appends_for_of; intros p _; apply appends_check_param|]. intros _.
  unfold validate_routes.
  case_array (get "routes" fs) routes R; try apply appends_ret.
  apply appends_for_indexed. intros route r Hroute.
  destruct route as [| | | | |rfs]; try apply appends_ret; [apply appends_throw|].
  simpl. case_array (get "flow" rfs) sub F; try apply appends_ret.
  unfold validateFlow. apply appends_for_indexed. intros n i Hn.
  apply (IH routes (JObj rfs) sub n); try assumption.
  - unfold node_routes. rewrite R. reflexivity.
  - unfold route_flow. rewrite F. reflexivity.
Qed.

Lemma appends_validateFlow (flow : list json) (prefix : string) :
  appends (validateFlow env flow prefix).
Proof.
  unfold validateFlow. apply appends_for_indexed. intros n i _.
  apply appends_validateNode.
Qed.

Lemma appends_live_checks (live : list string) (entries : list (string * list string)) :
  appends (live_checks live entries).
Proof.
  induction entries as [|e rest IH]; simpl; [apply appends_ret|].
  apply appends_bind.
  - unfold live_check. destruct (str_mem (fst e) live); [apply appends_ret|].
    apply appends_bind; [apply appends_push_error|intros _; apply appends_ret].
  - intros here. apply appends_bind; [exact IH|intros more; apply appends_ret].
Qed.

Lemma appends_first_module_warning (flow : list json) :
  appends (first_module_warning env flow).
Proof.
  unfold first_module_warning. destruct flow as [|first rest]; [apply appends_ret|].
  destruct (field "module" first) as [m|]; [|apply appends_ret].
  destruct (truthy m); [|apply appends_ret].
  destruct (match m with JStr id => Ok (getModule env id) | _ => getModuleOther env m end)
    as [[row|]|]; try apply appends_ret; [|apply appends_throw].
  apply appends_when, appends_push_warning.
Qed.

Lemma appends_read {A : Type} (f : vstate -> A) : appends (fun s => (Ok (f s), s)).
Proof. intros s. split; [reflexivity|]. exists []. simpl. rewrite app_nil_r. reflexivity. Qed.

Lemma appends_flow_checks (p : json) :
  appends (flow_checks env p).
Proof.
  unfold flow_checks.
  destruct (field "flow" p) as [[| | | |flow|]|]; try apply appends_push_error.
  apply appends_bind; [apply appends_when, appends_push_error|]. intros _.
  apply appends_bind; [apply appends_validateFlow|]. intros _.
  apply appends_first_module_warning.
Qed.

Lemma appends_compatibility (p : json) :
  appends (compatibility env p).
Proof.
  unfold compatibility.
  destruct (field "flow" p) as [[| | | |flow|]|]; try apply appends_ret.
  apply appends_bind; [|intros li; apply appends_ret].
  destruct (liveIds env); [apply appends_live_checks|apply appends_ret].
Qed.

Lemma appends_make_report (compat : bool * bool * list issue) :
  appends (make_report compat).
Proof.
  unfold make_report.
  apply appends_bind; [apply (appends_read errors)|]. intros errs.
  apply appends_bind; [apply (appends_read warnings)|]. intros warns.
  apply appends_bind; [apply (appends_read validatedModules)|]. intros validated.
  apply appends_ret.
Qed.

Lemma appends_validate_handler : appends (validate_handler env).
Proof.
  unfold validate_handler. apply appends_bind; [apply (appends_read parsed)|].
  intros p.
  assert (Body : appends (flow_checks env p ;;; metadata_warning p ;;;
                          compat <- compatibility env p ;; make_report compat)).
  { apply appends_bind; [apply appends_flow_checks|]. intros _.
    apply appends_bind; [apply appends_when, appends_push_warning|]. intros _.
    apply appends_bind; [apply appends_compatibility|]. intros compat.
    apply appends_make_report. }
  destruct p; try exact Body. apply appends_throw.
Qed.

(** *** Unknown modules *)

Lemma appends_kept {A : Type} (c : V A) (s : vstate) :
  appends c -> errors_kept s (snd (c s)).
Proof.
  intros H e He. destruct (H s) as [_ [extra E]]. rewrite E.
  apply in_or_app. left. exact He.
Qed.

Lemma errors_kept_trans (s1 s2 s3 : vstate) :
  errors_kept s1 s2 -> errors_kept s2 s3 -> errors_kept s1 s3.
Proof. intros H1 H2 e He. apply H2, H1, He. Qed.

Lemma bind_Ok {A B : Type} (c : V A) (k : A -> V B) (s s' : vstate) (b : B) :
  bind c k s = (Ok b, s') ->
  exists a s1, c s = (Ok a, s1) /\ k a s1 = (Ok b, s').
Proof.
  unfold bind. destruct (c s) as [[a|] s1]; [|discriminate].
  intros H. exists a, s1. split; [reflexivity|exact H].
Qed.

(** In a loop that ends without a throw, the turn of every item ended
    without a throw, and its errors are there at the end. *)
Lemma for_indexed_turn (f : json -> nat -> V unit) (l : list json) :
  (forall x j, In x l -> appends (f x j)) ->
  forall i s s',
    for_indexed f l i s = (Ok tt, s') ->
    forall x, In x l ->
    exists j sa sb, f x j sa = (Ok tt, sb) /\ errors_kept sb s'.
Proof.
  induction l as [|y rest IH]; intros Happ i s s' Hrun x Hx; [contradiction|].
  simpl in Hrun. apply bind_Ok in Hrun. destruct Hrun as [[] [s1 [Hy Hrest]]].
  assert (Happ' : forall x j, In x rest -> appends (f x j))
    by (intros z j Hz; apply Happ; right; exact Hz).
  destruct Hx as [<-|Hx].
  - exists i, s, s1. split; [exact Hy|].
    pose proof (appends_kept _ s1 (appends_for_indexed f rest Happ' (S i))) as K.
    rewrite Hrest in K. exact K.
  - exact (IH Happ' (S i) s1 s' Hrest x Hx).
Qed.

Lemma visitedNodes_eq (node : json) :
  visitedNodes env node =
  node :: (if descends env node then visited_below env node else []).
Proof.
  destruct node as [| | | | |fs]; try reflexivity.
  simpl visitedNodes. unfold descends. f_equal.
  match goal with |- (if ?b then _ else _) = _ => destruct b end; [|reflexivity].
  unfold visited_below, node_routes. rewrite with_field_get.
  destruct (get "routes" fs) as [[| | | |routes|]|]; try reflexivity.
  induction routes as [|route rest IH]; simpl; [reflexivity|].
  rewrite IH. f_equal.
  destruct route as [| | | | |rfs]; try reflexivity.
  unfold route_flow. rewrite with_field_get.
  destruct (get "flow" rfs) as [[| | | |sub|]|]; reflexivity.
Qed.

Lemma includes_empty (s : string) : includes "" s = true.
Proof. destruct s; reflexivity. Qed.

Lemma unknown_module_error_names (pos m : string) :
  includes m (unknown_module_error pos m) = true.
Proof.
  unfold unknown_module_error, quoted.
  replace (pos +++ ": Unknown module " +++ (dq +++ m +++ dq) +++
           ". Use search_modules to find valid IDs.")
    with ((pos +++ ": Unknown module " +++ dq) +++ m +++
          (dq +++ ". Use search_modules to find valid IDs.")).
  - apply includes_append.
  - rewrite !append_assoc. reflexivity.
Qed.

(** A node with an unknown module id among the nodes the validator reaches
    leaves an error that contains the id. *)
Lemma validateNode_reports_unknown (node : json) :
  forall pos s s',
    validateNode env node pos s = (Ok tt, s') ->
    forall n m,
      In n (visitedNodes env node) ->
      field "module" n = Some (JStr m) -> getModule env m = None ->
      exists e, In e (errors s') /\ includes m e = true.
Proof.
  apply (node_induction (fun node =>
    forall pos s s',
      validateNode env node pos s = (Ok tt, s') ->
      forall n m,
        In n (visitedNodes env node) ->
        field "module" n = Some (JStr m) -> getModule env m = None ->
        exists e, In e (errors s') /\ includes m e = true)).
  clear node. intros node IH pos s s' Hrun n m Hn Hm Hunknown.
  rewrite visitedNodes_eq in Hn.
  destruct node as [| | | | |fs];
    try (destruct Hn as [<-|[]]; discriminate).
  rewrite validateNode_obj in Hrun.
  destruct Hn as [<-|Hn].
  - simpl in Hm. rewrite Hm in Hrun.
    destruct (negb (nonempty m)) eqn:E.
    + injection Hrun as <-. eexists. split.
      * simpl. apply in_or_app. right. left. reflexivity.
      * destruct m; [apply includes_empty|discriminate].
    + apply bind_Ok in Hrun. destruct Hrun as [[] [s1 [_ Hrun]]].
      rewrite Hunknown in Hrun. injection Hrun as <-.
      exists (unknown_module_error pos m). split.
      * simpl. apply in_or_app. right. left. reflexivity.
      * apply unknown_module_error_names.
  - destruct (descends env (JObj fs)) eqn:D; [|contradiction].
    simpl in D.
    destruct (get "module" fs) as [[| | |m0| |]|]; try discriminate.
    apply andb_true_iff in D. destruct D as [Dne Dknown].
    rewrite Dne in Hrun. simpl in Hrun.
    destruct (getModule env m0) as [schema|]; [|discriminate].
    apply bind_Ok in Hrun. destruct Hrun as [[] [s1 [_ Hrun]]].
    apply bind_Ok in Hrun. destruct Hrun as [[] [s2 [_ Hrun]]].
    apply bind_Ok in Hrun. destruct Hrun as [[] [s3 [_ Hrun]]].
    apply bind_Ok in Hrun. destruct Hrun as [[] [s4 [_ Hrun]]].
    apply bind_Ok in Hrun. destruct Hrun as [[] [s5 [_ Hrun]]].
    unfold visited_below in Hn. unfold validate_routes in Hrun.
    unfold node_routes in Hn.
    case_array (get "routes" fs) routes R; try contradiction.
    apply in_flat_map in Hn. destruct Hn as [route [Hroute Hn]].
    destruct (route_flow route) as [sub|] eqn:F; [|contradiction].
    apply in_flat_map in Hn. destruct Hn as [n0 [Hn0 Hn]].
    assert (NR : node_routes (JObj fs) = Some routes)
      by (unfold node_routes; rewrite R; reflexivity).
    assert (Aroute : forall x j, In x routes ->
              appends (validate_route env x (route_prefix pos j))).
    { intros x j _. destruct x as [| | | | |rfs]; try apply appends_ret;
        [apply appends_throw|].
      simpl. destruct (get "flow" rfs) as [[| | | |l|]|]; try apply appends_ret.
      apply appends_validateFlow. }
    destruct (for_indexed_turn _ routes Aroute 0 s5 s' Hrun route Hroute)
      as [r [sa [sb [Hturn Hkept]]]].
    destruct route as [| | | | |rfs]; try discriminate.
    unfold route_flow in F. simpl in Hturn.
    case_array (get "flow" rfs) sub0 G; try discriminate.
    injection F as <-. unfold validateFlow in Hturn.
    assert (Anode : forall x j, In x sub0 ->
              appends (validateNode env x (pos_of (route_prefix pos r) j)))
      by (intros x j _; apply appends_validateNode).
    destruct (for_indexed_turn _ sub0 Anode 0 sa sb Hturn n0 Hn0)
      as [i [sc [sd [Hnode Hkept']]]].
    assert (RF : route_flow (JObj rfs) = Some sub0)
      by (unfold route_flow; rewrite G; reflexivity).
    destruct (IH routes (JObj rfs) sub0 n0 NR Hroute RF Hn0 _ sc sd Hnode
                n m Hn Hm Hunknown) as [e [He Hinc]].
    exists e. split; [apply Hkept, Hkept', He|exact Hinc].
Qed.

Lemma make_report_errors (compat : bool * bool * list issue) (s s' : vstate) (r : report) :
  make_report compat s = (Ok r, s') -> report_errors r = errors s.
Proof. unfold make_report. intros H. injection H as <- _. reflexivity. Qed.

(** C2 (as amended). When [validate_scenario] returns a report, every module
    id that is not in the static catalog and that a node reached by the
    validator refers to is contained in an error of the report.  The validator
    reaches the nodes of the root flow and, below a node that is an object
    whose module id is a non-empty string known to the catalog, the nodes of
    the flows of its routes, at any depth. *)
Theorem unknown_module_is_reported (p : json)
    (flow : list json) (r : report) (s : vstate) (n : json) (m : string) :
  validate_scenario env p = (Ok r, s) ->
  flow_of p = Some flow ->
  In n (flat_map (visitedNodes env) flow) ->
  field "module" n = Some (JStr m) ->
  getModule env m = None ->
  exists e, In e (report_errors r) /\ includes m e = true.
Proof.
  intros Hrun Hflow Hn Hm Hunknown.
  unfold validate_scenario, validate_handler in Hrun.
  apply bind_Ok in Hrun. destruct Hrun as [p0 [s0 [Hread Hrun]]].
  injection Hread as <- <-. simpl parsed in Hrun.
  unfold flow_of in Hflow.
  case_array (field "flow" p) flow0 F; try discriminate.
  injection Hflow as ->.
  assert (Body : (flow_checks env p ;;; metadata_warning p ;;;
                  compat <- compatibility env p ;; make_report compat)
                   (initial_state p) = (Ok r, s)).
  { destruct p; try exact Hrun. discriminate. }
  clear Hrun.
  apply bind_Ok in Body. destruct Body as [[] [s1 [Hchecks Body]]].
  apply bind_Ok in Body. destruct Body as [[] [s2 [Hmeta Body]]].
  apply bind_Ok in Body. destruct Body as [compat [s3 [Hcompat Body]]].
  rewrite (make_report_errors _ _ _ _ Body).
  unfold flow_checks in Hchecks. rewrite F in Hchecks.
  apply bind_Ok in Hchecks. destruct Hchecks as [[] [sa [_ Hchecks]]].
  apply bind_Ok in Hchecks. destruct Hchecks as [[] [sb [Hvalidate Hfirst]]].
  apply in_flat_map in Hn. destruct Hn as [n0 [Hn0 Hn]].
  unfold validateFlow in Hvalidate.
  assert (Anode : forall x j, In x flow -> appends (validateNode env x (pos_of "Flow" j)))
    by (intros x j _; apply appends_validateNode).
  destruct (for_indexed_turn _ flow Anode 0 sa sb Hvalidate n0 Hn0)
    as [i [sc [sd [Hnode Hkept]]]].
  destruct (validateNode_reports_unknown n0 _ sc sd Hnode n m Hn Hm Hunknown)
    as [e [He Hinc]].
  exists e. split; [|exact Hinc].
  pose proof (appends_kept _ sb (appends_first_module_warning flow)) as K1.
  rewrite Hfirst in K1.
  pose proof (appends_kept _ s1 (appends_when _ _ (appends_push_warning _))
              : errors_kept s1 (snd (metadata_warning p s1))) as K2.
  rewrite Hmeta in K2.
  pose proof (appends_kept _ s2 (appends_compatibility p)) as K3.
  rewrite Hcompat in K3.
  apply K3, K2, K1, Hkept, He.
Qed.
(** *** Blueprints that pass *)

Lemma quiet_ret {A : Type} (a : A) : quiet (ret a).
Proof. intros s. exists a, s. split; reflexivity. Qed.

Lemma quiet_push_warning (w : string) : quiet (push_warning w).
Proof. intros s. eexists tt, _. split; reflexivity. Qed.

Lemma quiet_push_validated (m : string) : quiet (push_validated m).
Proof. intros s. eexists tt, _. split; reflexivity. Qed.

Lemma quiet_bind {A B : Type} (c : V A) (k : A -> V B) :
  quiet c -> (forall a, quiet (k a)) -> quiet (bind c k).
Proof.
  intros Hc Hk s. destruct (Hc s) as [a [s1 [E1 K1]]].
  destruct (Hk a s1) as [b [s2 [E2 K2]]].
  exists b, s2. unfold bind. rewrite E1. split; [exact E2|congruence].
Qed.

Lemma quiet_when (b : bool) (c : V unit) : (b = true -> quiet c) -> quiet (when b c).
Proof. intros H. destruct b; [apply H; reflexivity|apply quiet_ret]. Qed.

Lemma quiet_for_of {A : Type} (f : A -> V unit) (l : list A) :
  (forall x, In x l -> quiet (f x)) -> quiet (for_of f l).
Proof.
  induction l as [|x rest IH]; intros H; simpl; [apply quiet_ret|].
  apply quiet_bind; [apply H; left; reflexivity|].
  intros _. apply IH. intros y Hy. apply H. right. exact Hy.
Qed.

Lemma quiet_for_indexed (f : json -> nat -> V unit) (l : list json) :
  (forall x i, In x l -> quiet (f x i)) -> forall i, quiet (for_indexed f l i).
Proof.
  induction l as [|x rest IH]; intros H i; simpl; [apply quiet_ret|].
  apply quiet_bind; [apply H; left; reflexivity|].
  intros _. apply IH. intros y j Hy. apply H. right. exact Hy.
Qed.

Lemma quiet_run_ext {A : Type} (c c' : V A) :
  (forall s, c s = c' s) -> quiet c' -> quiet c.
Proof. intros E H s. rewrite E. apply H. Qed.

Lemma quiet_version_warnings (pos m : string) (fs : fields) :
  quiet (version_warnings pos m fs).
Proof.
  unfold version_warnings. destruct (get "version" fs); [|apply quiet_ret].
  destruct (verifiedVersion m);
    [apply quiet_when; intros _|]; apply quiet_push_warning.
Qed.

Lemma quiet_registry_warnings (pos m : string) (fs : fields) :
  quiet (registry_warnings pos m fs).
Proof.
  unfold registry_warnings. apply quiet_bind.
  - destruct (getProblematicModuleInfo m);
      [apply quiet_push_warning|apply quiet_ret].
  - intros _. destruct (is_some (verifiedVersion m) && negb (is_some (get "version" fs)));
      [apply quiet_ret|apply quiet_when; intros _; apply quiet_push_warning].
Qed.

Lemma quiet_check_param (pos m : string) (fs : fields) (p : param) :
  param_supplied m fs p = true -> quiet (check_param pos m fs p).
Proof.
  unfold param_supplied, check_param.
  destruct (param_required p); [|intros _; apply quiet_ret]. simpl.
  destruct (String.eqb m "builtin:BasicRouter" && String.eqb (param_name p) "routes");
    intros H; apply quiet_when; intros E.
  - destruct (lacks_routes fs); discriminate.
  - rewrite H in E. discriminate.
Qed.

(** A node all of whose nodes pass is validated without a throw and without
    an error. *)
Lemma quiet_validateNode (node : json) :
  (forall n, In n (nodeAndBelow node) -> node_passes env n = true) ->
  forall pos, quiet (validateNode env node pos).
Proof.
  apply (node_induction (fun node =>
    (forall n, In n (nodeAndBelow node) -> node_passes env n = true) ->
    forall pos, quiet (validateNode env node pos))).
  clear node. intros node IH Hall pos.
  pose proof (Hall node) as Hnode. rewrite nodeAndBelow_eq in Hnode.
  specialize (Hnode (or_introl eq_refl)).
  destruct node as [| | | | |fs]; try discriminate.
  eapply quiet_run_ext; [intros s; apply validateNode_obj|].
  simpl in Hnode.
  destruct (get "module" fs) as [[| | |m| |]|]; try discriminate.
  apply andb_true_iff in Hnode. destruct Hnode as [Hnode Hroutes].
  apply andb_true_iff in Hnode. destruct Hnode as [Hne Hschema].
  rewrite Hne. simpl.
  destruct (getModule env m) as [schema|]; [|discriminate].
  apply quiet_bind; [apply quiet_when; intros _; apply quiet_push_warning|]. intros _.
  apply quiet_bind; [apply quiet_version_warnings|]. intros _.
  apply quiet_bind; [apply quiet_registry_warnings|]. intros _.
  apply quiet_bind; [apply quiet_push_validated|]. intros _.
  apply quiet_bind.
  { apply quiet_for_of. intros p Hp. apply quiet_check_param.
    rewrite forallb_forall in Hschema. exact (Hschema p Hp). }
  intros _. unfold validate_routes. unfold routes_readable in Hroutes.
  case_array (get "routes" fs) routes R; try apply quiet_ret.
  assert (NR : node_routes (JObj fs) = Some routes)
    by (unfold node_routes; rewrite R; reflexivity).
  apply quiet_for_indexed. intros route r Hroute.
  rewrite forallb_forall in Hroutes. specialize (Hroutes route Hroute).
  destruct route as [| | | | |rfs]; try apply quiet_ret; [discriminate|].
  simpl. case_array (get "flow" rfs) sub F; try apply quiet_ret.
  assert (RF : route_flow (JObj rfs) = Some sub)
    by (unfold route_flow; rewrite F; reflexivity).
  unfold validateFlow. apply quiet_for_indexed. intros n i Hn.
  apply (IH routes (JObj rfs) sub n NR Hroute RF Hn).
  intros n' Hn'. apply Hall. rewrite nodeAndBelow_eq. right. apply In_below.
  exists routes, (JObj rfs), sub, n. repeat split; assumption.
Qed.

Lemma quiet_validateFlow (flow : list json) (prefix : string) :
  (forall n, In n (treeNodes flow) -> node_passes env n = true) ->
  quiet (validateFlow env flow prefix).
Proof.
  intros H. unfold validateFlow. apply quiet_for_indexed. intros n i Hn.
  apply quiet_validateNode. intros n' Hn'. apply H. apply In_treeNodes.
  exists n. split; assumption.
Qed.

Lemma quiet_first_module_warning (flow : list json) :
  (forall n, In n flow -> node_passes env n = true) ->
  quiet (first_module_warning env flow).
Proof.
  intros H. unfold first_module_warning.
  destruct flow as [|first rest]; [apply quiet_ret|].
  specialize (H first (or_introl eq_refl)).
  destruct first as [| | | | |fs]; try discriminate. simpl in *.
  destruct (get "module" fs) as [[| | |m| |]|]; try discriminate.
  apply andb_true_iff in H. destruct H as [H _].
  apply andb_true_iff in H. destruct H as [Hne Hschema].
  simpl. unfold nonempty in Hne. rewrite Hne.
  destruct (getModule env m) as [schema|]; [|discriminate].
  apply quiet_when. intros _. apply quiet_push_warning.
Qed.

Lemma add_path_keys (m p : string) (acc : list (string * list string))
    (e : string * list string) :
  In e (add_path m p acc) -> fst e = m \/ In (fst e) (map fst acc).
Proof.
  induction acc as [|[m' ps] rest IH]; simpl.
  - intros [<-|[]]. left. reflexivity.
  - destruct (String.eqb m m') eqn:E.
    + apply String.eqb_eq in E. subst m'. intros [<-|H].
      * left. reflexivity.
      * right. right. apply in_map. exact H.
    + intros [<-|H]; [right; left; reflexivity|].
      destruct (IH H) as [K|K]; [left; exact K|right; right; exact K].
Qed.

Lemma byModule_keys (allModules : list (string * string)) (e : string * list string) :
  In e (byModule allModules) -> In (fst e) (map fst allModules).
Proof.
  unfold byModule.
  assert (G : forall acc,
            In e (fold_left (fun acc mp => add_path (fst mp) (snd mp) acc) allModules acc) ->
            In (fst e) (map fst allModules) \/ In (fst e) (map fst acc)).
  { induction allModules as [|[m p] rest IH]; simpl; intros acc H.
    - right. apply in_map. exact H.
    - destruct (IH _ H) as [K|K]; [left; right; exact K|].
      destruct (in_map_iff fst (add_path m p acc) (fst e)) as [Hex _].
      destruct (Hex K) as [e' [Ee' He']].
      destruct (add_path_keys _ _ _ _ He') as [L|L].
      + left. left. congruence.
      + right. congruence. }
  intros H. destruct (G [] H) as [K|[]]. exact K.
Qed.

Lemma quiet_live_checks (live : list string) (entries : list (string * list string)) :
  (forall e, In e entries -> str_mem (fst e) live = true) ->
  quiet (live_checks live entries).
Proof.
  induction entries as [|e rest IH]; intros H; simpl; [apply quiet_ret|].
  apply quiet_bind.
  - unfold live_check. rewrite (H e (or_introl eq_refl)). apply quiet_ret.
  - intros here. apply quiet_bind; [|intros more; apply quiet_ret].
    apply IH. intros e' He'. apply H. right. exact He'.
Qed.

Lemma quiet_compatibility (p : json) (flow : list json) :
  field "flow" p = Some (JArr flow) -> live_has_all env flow = true ->
  quiet (compatibility env p).
Proof.
  intros F H. unfold compatibility. rewrite F. unfold live_has_all in H.
  apply quiet_bind; [|intros li; apply quiet_ret].
  destruct (liveIds env) as [live|]; [|apply quiet_ret].
  apply quiet_live_checks. intros e He. apply byModule_keys in He.
  apply in_map_iff in He. destruct He as [mp [E Hmp]].
  rewrite forallb_forall in H. rewrite <- E. exact (H mp Hmp).
Qed.

(** C1 (as amended). For every blueprint whose root flow is a non-empty
    array, where every node of the tree is an object whose module id is a
    non-empty string found in the static catalog, every required parameter is
    supplied (the [routes] of a [builtin:BasicRouter] by a non-empty [routes]
    array on the node, any other in [parameters] or [mapper]), no route entry
    is [null], and the live catalog, when there is one, has every module id of
    the tree, [validate_scenario] returns a report with [valid] true and no
    error. *)
Theorem valid_blueprint_passes (p : json) (flow : list json) :
  flow_of p = Some flow ->
  flow <> [] ->
  forallb (node_passes env) (treeNodes flow) = true ->
  live_has_all env flow = true ->
  exists r s,
    validate_scenario env p = (Ok r, s) /\ valid r = true /\ report_errors r = [].
Proof.
  intros Hflow Hne Hnodes Hlive.
  assert (Hall : forall n, In n (treeNodes flow) -> node_passes env n = true)
    by (apply forallb_forall; exact Hnodes).
  assert (Hroot : forall n, In n flow -> node_passes env n = true).
  { intros n Hn. apply Hall. apply In_treeNodes. exists n. split; [exact Hn|].
    rewrite nodeAndBelow_eq. left. reflexivity. }
  unfold flow_of in Hflow.
  case_array (field "flow" p) flow0 F; try discriminate.
  injection Hflow as ->.
  assert (Q : quiet (flow_checks env p ;;; metadata_warning p ;;;
                     compat <- compatibility env p ;; ret compat)).
  { apply quiet_bind.
    - unfold flow_checks. rewrite F. apply quiet_bind.
      + apply quiet_when. intros E. apply Nat.eqb_eq in E.
        destruct flow; [contradiction|discriminate].
      + intros _. apply quiet_bind; [apply quiet_validateFlow; exact Hall|].
        intros _. apply quiet_first_module_warning. exact Hroot.
    - intros _. apply quiet_bind;
        [apply quiet_when; intros _; apply quiet_push_warning|].
      intros _. apply quiet_bind; [|intros c; apply quiet_ret].
      exact (quiet_compatibility p flow F Hlive). }
  destruct (Q (initial_state p)) as [compat [s [Hrun Herr]]].
  unfold validate_scenario, validate_handler.
  assert (E : (p0 <- read_parsed ;;
               match p0 with
               | JNull => throw
               | _ => flow_checks env p0 ;;; metadata_warning p0 ;;;
                      compat <- compatibility env p0 ;; make_report compat
               end) (initial_state p)
              = (flow_checks env p ;;; metadata_warning p ;;;
                 compat <- compatibility env p ;; make_report compat)
                  (initial_state p)).
  { unfold bind at 1. simpl. destruct p; try reflexivity. discriminate. }
  rewrite E. clear E.
  unfold bind in Hrun |- *.
  destruct (flow_checks env p (initial_state p)) as [[[]|] s1]; [|discriminate].
  destruct (metadata_warning p s1) as [[[]|] s2]; [|discriminate].
  destruct (compatibility env p s2) as [[c|] s3]; [|discriminate].
  injection Hrun as <- <-. simpl in Herr.
  eexists _, _. split; [reflexivity|]. simpl. rewrite Herr. split; reflexivity.
Qed.

End Validator.
(** *** The validator on the sample blueprints *)

Lemma valid_blueprint_passes_witness :
  exists r s,
    validate_scenario (sample_env None) routed_blueprint = (Ok r, s) /\
    valid r = true /\ report_errors r = [].
Proof.
  apply (valid_blueprint_passes (sample_env None) routed_blueprint routed_flow).
  - reflexivity.
  - discriminate.
  - vm_compute. reflexivity.
  - reflexivity.
Defined.

Example correct_blueprint_passes :
  option_map (fun r => (valid r, report_errors r, modulesValidated r))
    (report_of (validate_scenario
       (sample_env (Some ["slack:ActionPostMessage"; "gateway:CustomWebHook"]))
       correct_blueprint))
  = Some (true, [], ["gateway:CustomWebHook"; "slack:ActionPostMessage"]).
Proof. vm_compute. reflexivity. Qed.

Example empty_flow_error :
  option_map report_errors
    (report_of (validate_scenario (sample_env None) (JObj [("flow", JArr [])])))
  = Some ["Flow array is empty. Add at least one module."].
Proof. vm_compute. reflexivity. Qed.

(** C1, as stated, fails twice.  A router whose [routes] are in its
    [parameters] has every required parameter of its schema present there,
    and the validator asks for the [routes] array of the node.  And with a
    live catalog, a module of the static catalog that the account lacks is an
    error. *)
Lemma catalog_known_blueprint_fails :
  (router_in_parameters_flow <> [] /\
   forallb (node_as_claimed (sample_env None)) (treeNodes router_in_parameters_flow) = true /\
   option_map (fun r => (valid r, report_errors r))
     (report_of (validate_scenario (sample_env None) router_in_parameters_blueprint))
   = Some (false,
           ["Flow[1] (builtin:BasicRouter): Router must have a " +++ quoted "routes" +++
            " array with at least one route."]))
  /\
  (correct_flow <> [] /\
   forallb (node_as_claimed (sample_env (Some ["gateway:CustomWebHook"])))
           (treeNodes correct_flow) = true /\
   option_map (fun r => (valid r, report_errors r))
     (report_of (validate_scenario (sample_env (Some ["gateway:CustomWebHook"]))
                                   correct_blueprint))
   = Some (false,
           ["Module " +++ quoted "slack:ActionPostMessage" +++
            " is not available in this Make account/region."])).
Proof.
  split; (split; [discriminate|split; vm_compute; reflexivity]).
Qed.

Lemma unknown_module_is_reported_witness :
  exists r s e,
    validate_scenario (sample_env None) unknown_below_router = (Ok r, s) /\
    In e (report_errors r) /\ includes "bar:Baz" e = true.
Proof.
  destruct (validate_scenario (sample_env None) unknown_below_router)
    as [[r|] s] eqn:Run; [|vm_compute in Run; discriminate].
  destruct (unknown_module_is_reported (sample_env None) unknown_below_router
              unknown_below_router_flow r s unknown_leaf "bar:Baz" Run eq_refl)
    as [e [He Hinc]].
  - vm_compute. right. right. left. reflexivity.
  - reflexivity.
  - reflexivity.
  - exists r, s, e. repeat split; assumption.
Defined.

(** C2, as stated, fails: the node of module [bar:Baz] is in the tree, below
    a route of a node whose own module id is unknown; the validator reports
    that node and does not go below it, and no error contains [bar:Baz]. *)
Lemma unknown_module_below_unknown_unreported :
  In unknown_leaf (treeNodes unknown_below_unknown_flow) /\
  field "module" unknown_leaf = Some (JStr "bar:Baz") /\
  getModule (sample_env None) "bar:Baz" = None /\
  option_map (fun r => (report_errors r, existsb (includes "bar:Baz") (report_errors r)))
    (report_of (validate_scenario (sample_env None) unknown_below_unknown))
  = Some (["Flow[1]: Unknown module " +++ quoted "foo:Router" +++
           ". Use search_modules to find valid IDs."], false).
Proof.
  split; [vm_compute; right; right; left; reflexivity|].
  repeat split; vm_compute; reflexivity.
Qed.

(** ** The walks of the flow tree, node by node *)

(** *** Counts *)

Lemma map_sum_snd (f : json -> json * nat) (l : list json) :
  snd (map_sum 0 Nat.add f l) = list_sum (map (fun x => snd (f x)) l).
Proof.
  induction l as [|x rest IH]; simpl; [reflexivity|].
  destruct (f x) as [x' c]. destruct (map_sum 0 Nat.add f rest) as [rest' d].
  simpl in *. rewrite IH. reflexivity.
Qed.

Lemma list_sum_ext_In {A : Type} (f g : A -> nat) (l : list A) :
  (forall x, In x l -> f x = g x) -> list_sum (map f l) = list_sum (map g l).
Proof.
  induction l as [|x rest IH]; simpl; intros H; [reflexivity|].
  rewrite (H x (or_introl eq_refl)), IH; [reflexivity|].
  intros y Hy. apply H. right. exact Hy.
Qed.

Lemma count_flat_map {A B : Type} (p : B -> bool) (f : A -> list B) (l : list A) :
  count p (flat_map f l) = list_sum (map (fun x => count p (f x)) l).
Proof.
  unfold count. induction l as [|x rest IH]; simpl; [reflexivity|].
  rewrite filter_app, length_app, IH. reflexivity.
Qed.

Lemma count_cons {A : Type} (p : A -> bool) (x : A) (l : list A) :
  count p (x :: l) = (if p x then 1 else 0) + count p l.
Proof. unfold count. simpl. destruct (p x); reflexivity. Qed.

Lemma in_routes_snd (rec : json -> json * nat) (routes : list json) :
  snd (in_routes 0 Nat.add rec routes) =
  list_sum (map (fun route =>
                   match route_flow route with
                   | Some sub => list_sum (map (fun n => snd (rec n)) sub)
                   | None => 0
                   end) routes).
Proof.
  unfold in_routes. rewrite map_sum_snd. f_equal. apply map_ext. intros route.
  destruct route as [| | | | |rfs]; try reflexivity.
  rewrite with_field_get. unfold route_flow.
  destruct (get "flow" rfs) as [[| | | |sub|]|]; try reflexivity.
  pose proof (map_sum_snd rec sub) as H.
  destruct (map_sum 0 Nat.add rec sub) as [sub' c]. exact H.
Qed.

Lemma below_node_snd (rec : json -> json * nat) (fs fs1 : fields) (c1 : nat) :
  snd (below_node 0 Nat.add rec fs fs1 c1) =
  c1 + match node_routes (JObj fs) with
       | Some routes => snd (in_routes 0 Nat.add rec routes)
       | None => 0
       end.
Proof.
  unfold below_node, node_routes. rewrite with_field_get.
  destruct (get "routes" fs) as [[| | | |routes|]|]; simpl; try lia.
  destruct (in_routes 0 Nat.add rec routes) as [routes' c2]. reflexivity.
Qed.

(** A walk that counts one at the nodes [p] tells has counted the nodes of
    the tree that [p] tells. *)
Lemma counted_walk_count (walk : json -> json * nat)
    (local : fields -> fields * nat) (p : json -> bool) :
  (forall fs, walk (JObj fs) =
              below_node 0 Nat.add walk fs (fst (local fs)) (snd (local fs))) ->
  (forall fs, snd (local fs) = counted p (JObj fs)) ->
  (forall node, (forall fs, node <> JObj fs) -> walk node = (node, 0) /\ p node = false) ->
  forall node, snd (walk node) = count p (nodeAndBelow node).
Proof.
  intros Hobj Hlocal Hother.
  apply (node_induction (fun node => snd (walk node) = count p (nodeAndBelow node))).
  intros node IH. rewrite nodeAndBelow_eq, count_cons.
  destruct node as [| | | | |fs];
    try (match goal with
         | |- snd (walk ?n) = _ =>
             destruct (Hother n) as [-> ->]; [intros fs0; discriminate|reflexivity]
         end).
  rewrite Hobj, below_node_snd, Hlocal. unfold counted. f_equal.
  unfold below.
  destruct (node_routes (JObj fs)) as [routes|] eqn:R; [|reflexivity].
  rewrite in_routes_snd, count_flat_map. apply list_sum_ext_In.
  intros route Hroute.
  destruct (route_flow route) as [sub|] eqn:F; [|reflexivity].
  rewrite count_flat_map. apply list_sum_ext_In.
  intros n Hn. exact (IH routes route sub n eq_refl Hroute F Hn).
Qed.

Lemma counted_flow_count (walk : json -> json * nat) (p : json -> bool)
    (flow : list json) :
  (forall node, snd (walk node) = count p (nodeAndBelow node)) ->
  snd (map_sum 0 Nat.add walk flow) = count p (treeNodes flow).
Proof.
  intros H. rewrite map_sum_snd. unfold treeNodes. rewrite count_flat_map.
  f_equal. apply map_ext. exact H.
Qed.

(** *** Trees *)

Lemma treeNodes_map (t : json -> json) (flow : list json) :
  (forall node, nodeAndBelow (t node) = map t (nodeAndBelow node)) ->
  treeNodes (map t flow) = map t (treeNodes flow).
Proof.
  intros H. unfold treeNodes. rewrite flat_map_map, map_flat_map.
  apply flat_map_ext. exact H.
Qed.

Lemma Forall2_map_r {A B : Type} (R : A -> B -> Prop) (t : A -> B) (l : list A) :
  (forall x, R x (t x)) -> Forall2 R l (map t l).
Proof.
  intros H. induction l as [|x rest IH]; simpl; constructor; [apply H|exact IH].
Qed.

(** A rewriting of nodes whose local write changes nothing changes
    nothing. *)
Lemma rewritten_tree_id (t : json -> json) (local : fields -> fields) :
  (forall fs, t (JObj fs) = JObj (over_routes (map t) fs (local fs))) ->
  (forall fs, local fs = fs) ->
  (forall node, (forall fs, node <> JObj fs) -> t node = node) ->
  forall node, t node = node.
Proof.
  intros Hobj Hlocal Hother.
  apply (node_induction (fun node => t node = node)). intros node IH.
  destruct node as [| | | | |fs]; try (apply Hother; intros fs0; discriminate).
  rewrite Hobj, Hlocal. f_equal. apply over_routes_id.
  intros routes route sub H1 H2 H3. apply map_fixed. intros n Hn.
  exact (IH routes route sub n H1 H2 H3 Hn).
Qed.

(** *** [stripModuleVersionsInFlow] *)

Lemma stripNode_obj (fs : fields) :
  stripNode (JObj fs) =
  below_node 0 Nat.add stripNode fs (del "version" fs) (counted has_version (JObj fs)).
Proof.
  unfold counted, has_version. simpl.
  destruct (get "version" fs) eqn:V; simpl; [reflexivity|].
  rewrite (del_none_id _ _ V). reflexivity.
Qed.

Lemma strip_tree_obj (fs : fields) :
  strip_tree (JObj fs) = JObj (over_routes (map strip_tree) fs (del "version" fs)).
Proof. unfold strip_tree at 1. rewrite stripNode_obj. apply below_node_fst. Qed.

Lemma strip_tree_other (node : json) :
  (forall fs, node <> JObj fs) -> strip_tree node = node.
Proof. destruct node; try reflexivity. intros H. exfalso. exact (H _ eq_refl). Qed.

Lemma strip_tree_nodes (node : json) :
  nodeAndBelow (strip_tree node) = map strip_tree (nodeAndBelow node).
Proof.
  apply (nodes_of_rewritten_tree strip_tree (del "version")).
  - exact strip_tree_obj.
  - intros fs. apply get_del_other. reflexivity.
  - exact strip_tree_other.
Qed.

Lemma stripNode_count (node : json) :
  snd (stripNode node) = count has_version (nodeAndBelow node).
Proof.
  apply (counted_walk_count stripNode
           (fun fs => (del "version" fs, counted has_version (JObj fs)))).
  - exact stripNode_obj.
  - reflexivity.
  - intros n H. destruct n; try (split; reflexivity). exfalso. exact (H _ eq_refl).
Qed.

Lemma strip_tree_field (k : string) (node : json) :
  String.eqb k "routes" = false ->
  field k (strip_tree node) =
  if String.eqb k "version" then None else field k node.
Proof.
  intros Hr. destruct node as [| | | | |fs];
    try (simpl; destruct (String.eqb k "version"); reflexivity).
  rewrite strip_tree_obj. simpl. rewrite (get_over_routes _ _ _ _ Hr).
  destruct (String.eqb k "version") eqn:E.
  - apply String.eqb_eq in E. subst k. apply get_del_same.
  - apply get_del_other. exact E.
Qed.

(** X1. [stripModuleVersionsInFlow] returns the number of nodes of the tree,
    at any depth, that had a [version], and leaves a tree in which no node
    has one; every node is still in its place with its other properties,
    and a second call finds nothing to remove. *)
Theorem stripModuleVersionsInFlow_removes_every_pin (flow : list json) :
  snd (stripModuleVersionsInFlow flow) = count has_version (treeNodes flow) /\
  Forall (fun n => has_version n = false)
         (treeNodes (fst (stripModuleVersionsInFlow flow))) /\
  Forall2 (fun n n' =>
             forall k, String.eqb k "version" = false ->
                       String.eqb k "routes" = false ->
                       field k n' = field k n)
          (treeNodes flow) (treeNodes (fst (stripModuleVersionsInFlow flow))) /\
  snd (stripModuleVersionsInFlow (fst (stripModuleVersionsInFlow flow))) = 0.
Proof.
  assert (N : treeNodes (fst (stripModuleVersionsInFlow flow))
              = map strip_tree (treeNodes flow)).
  { unfold stripModuleVersionsInFlow. rewrite map_sum_fst.
    apply (treeNodes_map strip_tree). exact strip_tree_nodes. }
  assert (C : forall l, snd (stripModuleVersionsInFlow l) = count has_version (treeNodes l)).
  { intros l. apply counted_flow_count. exact stripNode_count. }
  assert (F : Forall (fun n => has_version n = false)
                     (treeNodes (fst (stripModuleVersionsInFlow flow)))).
  { rewrite N. apply Forall_map. apply Forall_forall. intros n _.
    unfold has_version. rewrite strip_tree_field by reflexivity. reflexivity. }
  split; [apply C|]. split; [exact F|]. split.
  - rewrite N. apply Forall2_map_r. intros n k Hv Hr.
    rewrite (strip_tree_field k n Hr), Hv. reflexivity.
  - rewrite C. unfold count. clear N.
    induction F as [|n l Hn _ IH]; simpl; [reflexivity|].
    rewrite Hn. exact IH.
Qed.

(** *** [setModuleVersionInFlow] *)

Lemma setVersionNode_obj (moduleId : string) (version : Z) (fs : fields) :
  setVersionNode moduleId version (JObj fs) =
  below_node 0 Nat.add (setVersionNode moduleId version) fs
    (if has_module moduleId (JObj fs) then set "version" (JNum version) fs else fs)
    (counted (has_module moduleId) (JObj fs)).
Proof.
  unfold counted, has_module. simpl.
  destruct (get "module" fs) as [[| | |m| |]|]; try reflexivity.
  destruct (String.eqb m moduleId); reflexivity.
Qed.

Lemma setVersion_tree_obj (moduleId : string) (version : Z) (fs : fields) :
  setVersion_tree moduleId version (JObj fs) =
  JObj (over_routes (map (setVersion_tree moduleId version)) fs
          (if has_module moduleId (JObj fs) then set "version" (JNum version) fs else fs)).
Proof. unfold setVersion_tree at 1. rewrite setVersionNode_obj. apply below_node_fst. Qed.

Lemma setVersion_tree_other (moduleId : string) (version : Z) (node : json) :
  (forall fs, node <> JObj fs) -> setVersion_tree moduleId version node = node.
Proof. destruct node; try reflexivity. intros H. exfalso. exact (H _ eq_refl). Qed.

Lemma setVersion_tree_nodes (moduleId : string) (version : Z) (node : json) :
  nodeAndBelow (setVersion_tree moduleId version node) =
  map (setVersion_tree moduleId version) (nodeAndBelow node).
Proof.
  apply (nodes_of_rewritten_tree (setVersion_tree moduleId version)
           (fun fs => if has_module moduleId (JObj fs)
                      then set "version" (JNum version) fs else fs)).
  - exact (setVersion_tree_obj moduleId version).
  - intros fs. destruct (has_module moduleId (JObj fs)); [|reflexivity].
    apply get_set_other. reflexivity.
  - exact (setVersion_tree_other moduleId version).
Qed.

Lemma setVersionNode_count (moduleId : string) (version : Z) (node : json) :
  snd (setVersionNode moduleId version node) =
  count (has_module moduleId) (nodeAndBelow node).
Proof.
  apply (counted_walk_count (setVersionNode moduleId version)
           (fun fs => (if has_module moduleId (JObj fs)
                       then set "version" (JNum version) fs else fs,
                       counted (has_module moduleId) (JObj fs)))).
  - exact (setVersionNode_obj moduleId version).
  - reflexivity.
  - intros n H. destruct n; try (split; reflexivity). exfalso. exact (H _ eq_refl).
Qed.

Lemma setVersion_tree_field (moduleId : string) (version : Z) (k : string)
    (node : json) :
  String.eqb k "routes" = false ->
  field k (setVersion_tree moduleId version node) =
  if String.eqb k "version" && has_module moduleId node
  then Some (JNum version) else field k node.
Proof.
  intros Hr. destruct node as [| | | | |fs];
    try (simpl; rewrite andb_false_r; reflexivity).
  rewrite setVersion_tree_obj.
  change (field k (JObj ?x)) with (get k x).
  rewrite (get_over_routes _ _ _ _ Hr).
  destruct (has_module moduleId (JObj fs)); [|rewrite andb_false_r; reflexivity].
  rewrite andb_true_r. destruct (String.eqb k "version") eqn:E.
  - apply String.eqb_eq in E. subst k. apply get_set_same.
  - apply get_set_other. exact E.
Qed.

(** X2. [setModuleVersionInFlow] returns the number of nodes of the tree, at
    any depth, whose module is the id given; each of them has the version
    given afterwards, and nothing else has changed in any node. *)
Theorem setModuleVersionInFlow_pins_the_module (flow : list json)
    (moduleId : string) (version : Z) :
  snd (setModuleVersionInFlow flow moduleId version)
    = count (has_module moduleId) (treeNodes flow) /\
  Forall2 (fun n n' =>
             field "version" n' =
               (if has_module moduleId n then Some (JNum version)
                else field "version" n) /\
             forall k, String.eqb k "version" = false ->
                       String.eqb k "routes" = false ->
                       field k n' = field k n)
          (treeNodes flow)
          (treeNodes (fst (setModuleVersionInFlow flow moduleId version))).
Proof.
  split.
  - apply counted_flow_count. exact (setVersionNode_count moduleId version).
  - unfold setModuleVersionInFlow. rewrite map_sum_fst.
    rewrite (treeNodes_map (setVersion_tree moduleId version))
      by exact (setVersion_tree_nodes moduleId version).
    apply Forall2_map_r. intros n. split.
    + rewrite setVersion_tree_field by reflexivity. reflexivity.
    + intros k Hv Hr. rewrite (setVersion_tree_field _ _ k n Hr), Hv. reflexivity.
Qed.

(** *** [replaceModuleIdsInFlow] *)

Lemma replace_tree_obj (replacements : list (string * string)) (fs : fields) :
  replace_tree replacements (JObj fs) =
  JObj (over_routes (map (replace_tree replacements)) fs
          (replace_module replacements fs)).
Proof.
  unfold replace_tree at 1. simpl.
  unfold below_node, over_routes. rewrite with_field_get.
  destruct (get "routes" fs) as [[| | | |routes|]|]; try reflexivity.
  unfold in_routes.
  assert (H : forall l,
             fst (map_sum tt (fun _ _ => tt) (replaceNode replacements) l)
             = map (replace_tree replacements) l).
  { intros l. induction l as [|x rest IH]; simpl; [reflexivity|].
    unfold replace_tree at 1.
    destruct (replaceNode replacements x) as [x' c].
    destruct (map_sum tt (fun _ _ => tt) (replaceNode replacements) rest) as [rest' d].
    simpl in *. rewrite IH. reflexivity. }
  match goal with
  | |- fst (let '(r, c) := ?m in _) = _ =>
      assert (E : fst m = map (over_flow (map (replace_tree replacements))) routes);
      [|destruct m as [routes' c2]; simpl in *; rewrite E; reflexivity]
  end.
  induction routes as [|route rest IH]; simpl; [reflexivity|].
  match goal with
  | |- fst (let '(x', c) := ?a in let '(rest', d) := ?b in _) = _ =>
      destruct a as [x' c] eqn:A; destruct b as [rest' d] eqn:B
  end.
  simpl in *. rewrite <- IH. f_equal.
  destruct route as [| | | | |rfs]; try (injection A as <- _; reflexivity).
  rewrite with_field_get in A. unfold over_flow.
  destruct (get "flow" rfs) as [[| | | |sub|]|];
    try (injection A as <- _; reflexivity).
  specialize (H sub).
  destruct (map_sum tt (fun _ _ => tt) (replaceNode replacements) sub) as [sub' e].
  simpl in H. injection A as <- _. rewrite H. reflexivity.
Qed.

Lemma replace_tree_other (replacements : list (string * string)) (node : json) :
  (forall fs, node <> JObj fs) -> replace_tree replacements node = node.
Proof. destruct node; try reflexivity. intros H. exfalso. exact (H _ eq_refl). Qed.

Lemma get_replace_module (k : string) (replacements : list (string * string))
    (fs : fields) :
  String.eqb k "module" = false ->
  get k (replace_module replacements fs) = get k fs.
Proof.
  intros H. unfold replace_module.
  destruct (get "module" fs) as [[| | |m| |]|]; try reflexivity.
  destruct (record_get m replacements); [|reflexivity].
  apply get_set_other. exact H.
Qed.

Lemma replace_module_result (replacements : list (string * string)) (fs : fields) :
  get "module" (replace_module replacements fs)
  = renamed replacements (get "module" fs).
Proof.
  unfold replace_module, renamed.
  destruct (get "module" fs) as [[| | |m| |]|] eqn:M; try exact M.
  destruct (record_get m replacements); [apply get_set_same|exact M].
Qed.

Lemma replace_tree_nodes (replacements : list (string * string)) (node : json) :
  nodeAndBelow (replace_tree replacements node) =
  map (replace_tree replacements) (nodeAndBelow node).
Proof.
  apply (nodes_of_rewritten_tree (replace_tree replacements)
           (replace_module replacements)).
  - exact (replace_tree_obj replacements).
  - intros fs. apply get_replace_module. reflexivity.
  - exact (replace_tree_other replacements).
Qed.

Lemma replaceModuleIdsInFlow_tree (flow : list json)
    (replacements : list (string * string)) :
  replaceModuleIdsInFlow flow replacements = map (replace_tree replacements) flow.
Proof.
  unfold replaceModuleIdsInFlow.
  induction flow as [|x rest IH]; simpl; [reflexivity|].
  unfold replace_tree at 1.
  destruct (replaceNode replacements x) as [x' c].
  destruct (map_sum tt (fun _ _ => tt) (replaceNode replacements) rest) as [rest' d].
  simpl in *. rewrite IH. reflexivity.
Qed.

Lemma replace_tree_field (replacements : list (string * string)) (k : string)
    (node : json) :
  String.eqb k "routes" = false ->
  field k (replace_tree replacements node) =
  if String.eqb k "module" then renamed replacements (field k node)
  else field k node.
Proof.
  intros Hr. destruct node as [| | | | |fs];
    try (simpl; destruct (String.eqb k "module"); reflexivity).
  rewrite replace_tree_obj.
  change (field k (JObj ?x)) with (get k x).
  rewrite (get_over_routes _ _ _ _ Hr).
  destruct (String.eqb k "module") eqn:E.
  - apply String.eqb_eq in E. subst k. apply replace_module_result.
  - apply get_replace_module. exact E.
Qed.

(** X3. [replaceModuleIdsInFlow] renames, at any depth, the module of every
    node whose module id is a key of the replacements to the value of that
    key, once (a value that is a key again is not followed); every node is
    still in its place with its other properties, and with no replacement
    the flow is as it was. *)
Theorem replaceModuleIdsInFlow_renames (flow : list json)
    (replacements : list (string * string)) :
  Forall2 (fun n n' =>
             field "module" n' = renamed replacements (field "module" n) /\
             forall k, String.eqb k "module" = false ->
                       String.eqb k "routes" = false ->
                       field k n' = field k n)
          (treeNodes flow)
          (treeNodes (replaceModuleIdsInFlow flow replacements)) /\
  replaceModuleIdsInFlow flow [] = flow.
Proof.
  split.
  - rewrite replaceModuleIdsInFlow_tree.
    rewrite (treeNodes_map (replace_tree replacements))
      by exact (replace_tree_nodes replacements).
    apply Forall2_map_r. intros n. split.
    + rewrite replace_tree_field by reflexivity. reflexivity.
    + intros k Hm Hr. rewrite (replace_tree_field _ k n Hr), Hm. reflexivity.
  - rewrite replaceModuleIdsInFlow_tree. apply map_fixed. intros n _.
    apply (rewritten_tree_id (replace_tree []) (replace_module [])).
    + exact (replace_tree_obj []).
    + intros fs. unfold replace_module.
      destruct (get "module" fs) as [[| | |m| |]|]; reflexivity.
    + exact (replace_tree_other []).
Qed.

(** ** [extractAllFlowModules] *)

Lemma each_indexed_fst {A B : Type} (f : json -> nat -> list (A * B))
    (g : json -> list A) (l : list json) :
  (forall x i, In x l -> map fst (f x i) = g x) ->
  forall i, map fst (each_indexed f l i) = flat_map g l.
Proof.
  induction l as [|x rest IH]; intros H i; simpl; [reflexivity|].
  rewrite map_app, (H x i (or_introl eq_refl)), IH; [reflexivity|].
  intros y j Hy. apply H. right. exact Hy.
Qed.

Lemma each_indexed_ext {A : Type} (f g : json -> nat -> list A) (l : list json) :
  (forall x i, f x i = g x i) ->
  forall i, each_indexed f l i = each_indexed g l i.
Proof.
  intros H. induction l as [|x rest IH]; intros i; simpl; [reflexivity|].
  rewrite H, IH. reflexivity.
Qed.

Lemma extractNodeModules_obj (fs : fields) (pos : string) :
  extractNodeModules (JObj fs) pos =
  map (fun m => (m, pos)) (reported_module (JObj fs)) ++
  match get "routes" fs with
  | Some (JArr routes) =>
      each_indexed (fun route r =>
        match route_flow route with
        | Some sub =>
            each_indexed (fun n i =>
              extractNodeModules n (pos_of (route_prefix pos r) i)) sub 0
        | None => []
        end) routes 0
  | _ => []
  end.
Proof.
  simpl. rewrite !with_field_get. f_equal.
  - unfold reported_module. simpl.
    destruct (get "module" fs) as [[| | |s| |]|]; try reflexivity.
    destruct (trim_truthy s); reflexivity.
  - destruct (get "routes" fs) as [[| | | |routes|]|]; try reflexivity.
    apply each_indexed_ext. intros route r.
    destruct route as [| | | | |rfs]; try reflexivity.
    unfold route_flow. rewrite with_field_get.
    destruct (get "flow" rfs) as [[| | | |sub|]|]; reflexivity.
Qed.

Lemma flat_map_flat_map {A B C : Type} (f : B -> list C) (g : A -> list B) (l : list A) :
  flat_map f (flat_map g l) = flat_map (fun x => flat_map f (g x)) l.
Proof.
  induction l as [|x rest IH]; simpl; [reflexivity|].
  rewrite flat_map_app, IH. reflexivity.
Qed.

Lemma extractNodeModules_ids :
  forall node pos, map fst (extractNodeModules node pos)
                   = flat_map reported_module (nodeAndBelow node).
Proof.
  apply (node_induction (fun node =>
           forall pos, map fst (extractNodeModules node pos)
                       = flat_map reported_module (nodeAndBelow node))).
  intros node IH pos. rewrite nodeAndBelow_eq.
  destruct node as [| | | | |fs]; try reflexivity.
  rewrite extractNodeModules_obj, map_app, map_map. simpl. rewrite map_id.
  f_equal. unfold below, node_routes.
  destruct (get "routes" fs) as [[| | | |routes|]|] eqn:R; try reflexivity.
  rewrite flat_map_flat_map. apply each_indexed_fst.
  intros route r Hroute.
  destruct (route_flow route) as [sub|] eqn:F; [|reflexivity].
  rewrite flat_map_flat_map. apply each_indexed_fst.
  intros n i Hn. apply (IH routes route sub n); try assumption.
  unfold node_routes. rewrite R. reflexivity.
Qed.



(** *** Decimal indices *)

Lemma string_of_uint_digits (d : Decimal.uint) :
  all_digits (NilEmpty.string_of_uint d) = true.
Proof. induction d; simpl; try reflexivity; exact IHd. Qed.

Lemma to_uint_not_Nil (n : nat) : Nat.to_uint n <> Decimal.Nil.
Proof.
  intros E. pose proof (Unsigned.of_to n) as R. rewrite E in R.
  simpl in R. subst n. discriminate E.
Qed.

Lemma nat_str_digits (n : nat) : all_digits (nat_str n) = true.
Proof.
  unfold nat_str, NilZero.string_of_uint.
  destruct (Nat.to_uint n) eqn:E; try reflexivity; rewrite <- E;
    apply string_of_uint_digits.
Qed.

Lemma nat_str_inj (i j : nat) : nat_str i = nat_str j -> i = j.
Proof.
  unfold nat_str. intros H.
  pose proof (NilZero.usu _ (to_uint_not_Nil i)) as A.
  pose proof (NilZero.usu _ (to_uint_not_Nil j)) as B.
  rewrite H in A. rewrite A in B. injection B as B.
  apply Unsigned.to_uint_inj. exact B.
Qed.

(** Two strings that begin with an index and a closing bracket begin with
    the same index, when they are equal. *)
Lemma index_bracket_inj (ds ds' s s' : string) :
  all_digits ds = true -> all_digits ds' = true ->
  ds +++ "]" +++ s = ds' +++ "]" +++ s' -> ds = ds' /\ s = s'.
Proof.
  revert ds'. induction ds as [|c ds IH]; intros [|c' ds'] D D' E; simpl in *.
  - injection E as E. split; [reflexivity|exact E].
  - injection E as <- _. discriminate.
  - injection E as -> _. discriminate.
  - injection E as <- E.
    apply andb_true_iff in D, D'.
    destruct (IH ds' (proj2 D) (proj2 D') E) as [-> ->]. split; reflexivity.
Qed.

Lemma append_inj_l (a s s' : string) : a +++ s = a +++ s' -> s = s'.
Proof.
  induction a as [|c a IH]; simpl; intros E; [exact E|].
  injection E as E. exact (IH E).
Qed.

Lemma append_nil_r (a : string) : a +++ "" = a.
Proof. induction a as [|c a IH]; simpl; [reflexivity|]. rewrite IH. reflexivity. Qed.

(** *** Paths *)

Lemma each_indexed_map {A B : Type} (h : A -> B) (f : json -> nat -> list A)
    (l : list json) :
  forall i, map h (each_indexed f l i) = each_indexed (fun x i => map h (f x i)) l i.
Proof.
  induction l as [|x rest IH]; intros i; simpl; [reflexivity|].
  rewrite map_app, IH. reflexivity.
Qed.

Lemma each_indexed_ext_In {A : Type} (f g : json -> nat -> list A) (l : list json) :
  (forall x i, In x l -> f x i = g x i) ->
  forall i, each_indexed f l i = each_indexed g l i.
Proof.
  induction l as [|x rest IH]; intros H i; simpl; [reflexivity|].
  rewrite (H x i (or_introl eq_refl)), IH; [reflexivity|].
  intros y j Hy. apply H. right. exact Hy.
Qed.

Lemma In_each_indexed {A : Type} (f : json -> nat -> list A) (l : list json) (a : A) :
  forall i, In a (each_indexed f l i) ->
            exists x j, i <= j /\ In x l /\ In a (f x j).
Proof.
  induction l as [|x rest IH]; intros i H; simpl in H; [contradiction|].
  apply in_app_or in H. destruct H as [H|H].
  - exists x, i. split; [lia|]. split; [left; reflexivity|exact H].
  - destruct (IH (S i) H) as [y [j [Hj [Hy Ha]]]].
    exists y, j. split; [lia|]. split; [right; exact Hy|exact Ha].
Qed.

(** The results of an indexed loop are distinct when each turn gives
    distinct results that tell the index of the turn. *)
Lemma NoDup_each_indexed {A : Type} (f : json -> nat -> list A)
    (tells : nat -> A -> Prop) (l : list json) :
  (forall x i, In x l -> NoDup (f x i)) ->
  (forall x i a, In x l -> In a (f x i) -> tells i a) ->
  (forall i j a, tells i a -> tells j a -> i = j) ->
  forall i, NoDup (each_indexed f l i).
Proof.
  intros Hnd Htells Hone. induction l as [|x rest IH]; intros i; simpl;
    [constructor|].
  apply NoDup_app.
  - apply Hnd. left. reflexivity.
  - apply IH.
    + intros y j Hy. apply Hnd. right. exact Hy.
    + intros y j a Hy. apply Htells. right. exact Hy.
  - intros a Ha Hrest.
    destruct (In_each_indexed f rest a (S i) Hrest) as [y [j [Hj [Hy Hin]]]].
    assert (E : i = j).
    { apply (Hone i j a).
      - apply (Htells x i a); [left; reflexivity|exact Ha].
      - apply (Htells y j a); [right; exact Hy|exact Hin]. }
    lia.
Qed.

(** The path of the item [i] of the route [r] below the path [pos]. *)
Lemma pos_of_below (pos : string) (r i : nat) :
  pos_of (route_prefix pos r) i = pos +++ pos_of (route_prefix "" r) i.
Proof. unfold pos_of, route_prefix. rewrite !append_assoc. reflexivity. Qed.

(** The paths below a path are the paths below the empty path, with the
    path in front. *)
Lemma extractNodeModules_paths :
  forall node pos,
    map snd (extractNodeModules node pos)
    = map (String.append pos) (map snd (extractNodeModules node "")).
Proof.
  apply (node_induction (fun node =>
           forall pos, map snd (extractNodeModules node pos)
                       = map (String.append pos)
                             (map snd (extractNodeModules node "")))).
  intros node IH pos. destruct node as [| | | | |fs]; try reflexivity.
  rewrite !extractNodeModules_obj, !map_app, !map_map. f_equal.
  - apply map_ext. intros m. simpl. rewrite append_nil_r. reflexivity.
  - destruct (get "routes" fs) as [[| | | |routes|]|] eqn:R; try reflexivity.
    rewrite <- (map_map snd (String.append pos)).
    rewrite !each_indexed_map. apply each_indexed_ext_In.
    intros route r Hroute.
    destruct (route_flow route) as [sub|] eqn:F; [|reflexivity].
    rewrite !each_indexed_map. apply each_indexed_ext_In.
    intros n i Hn.
    assert (H := IH routes route sub n
                    ltac:(unfold node_routes; rewrite R; reflexivity) Hroute F Hn).
    rewrite (H (pos_of (route_prefix pos r) i)).
    rewrite (H (pos_of (route_prefix "" r) i)).
    rewrite !map_map. apply map_ext. intros mp.
    rewrite (pos_of_below pos r i). apply append_assoc.
Qed.

Lemma NoDup_map_append (a : string) (l : list string) :
  NoDup l -> NoDup (map (String.append a) l).
Proof.
  induction 1 as [|x l Hx _ IH]; simpl; constructor; [|exact IH].
  intros H. apply in_map_iff in H. destruct H as [y [E Hy]].
  apply append_inj_l in E. subst y. exact (Hx Hy).
Qed.

(** A path that begins with an index in brackets tells the index. *)
Lemma bracket_index_inj (a : string) (i j : nat) (s s' : string) :
  a +++ "[" +++ nat_str i +++ "]" +++ s = a +++ "[" +++ nat_str j +++ "]" +++ s' ->
  i = j /\ s = s'.
Proof.
  intros E. apply append_inj_l in E. injection E as E.
  destruct (index_bracket_inj _ _ _ _ (nat_str_digits i) (nat_str_digits j) E)
    as [N S].
  split; [exact (nat_str_inj _ _ N)|exact S].
Qed.

Lemma extractNodeModules_NoDup :
  forall node, NoDup (map snd (extractNodeModules node "")).
Proof.
  apply (node_induction (fun node => NoDup (map snd (extractNodeModules node "")))).
  intros node IH. destruct node as [| | | | |fs]; try constructor.
  rewrite extractNodeModules_obj, map_app, map_map.
  assert (Hr : forall routes route sub n,
             get "routes" fs = Some (JArr routes) -> In route routes ->
             route_flow route = Some sub -> In n sub ->
             NoDup (map snd (extractNodeModules n ""))).
  { intros routes route sub n R. apply IH. unfold node_routes. rewrite R. reflexivity. }
  clear IH.
  set (below_paths :=
         map snd match get "routes" fs with
                 | Some (JArr routes) => _
                 | _ => []
                 end).
  assert (B : NoDup below_paths /\
              forall a, In a below_paths ->
                        exists r s, a = ".routes" +++ "[" +++ nat_str r +++ "]" +++ s).
  { subst below_paths.
    destruct (get "routes" fs) as [[| | | |routes|]|] eqn:R;
      try (split; [constructor|intros a []]).
    specialize (Hr routes).
    rewrite each_indexed_map.
    assert (T : forall route r a,
               In route routes ->
               In a (map snd match route_flow route with
                             | Some sub =>
                                 each_indexed (fun n i =>
                                   extractNodeModules n (pos_of (route_prefix "" r) i)) sub 0
                             | None => []
                             end) ->
               exists i s, a = ".routes" +++ "[" +++ nat_str r +++ "]" +++
                               "[" +++ nat_str i +++ "]" +++ s).
    { intros route r a Hroute Ha.
      destruct (route_flow route) as [sub|]; [|contradiction].
      rewrite each_indexed_map in Ha.
      destruct (In_each_indexed _ _ _ _ Ha) as [n [i [_ [_ Hin]]]].
      rewrite extractNodeModules_paths in Hin.
      apply in_map_iff in Hin. destruct Hin as [s [<- _]].
      exists i, s. unfold pos_of, route_prefix. rewrite !append_assoc. reflexivity. }
    split.
    - apply (NoDup_each_indexed _
               (fun r a => exists s, a = ".routes" +++ "[" +++ nat_str r +++ "]" +++ s)).
      + intros route r Hroute.
        destruct (route_flow route) as [sub|] eqn:F; [|constructor].
        rewrite each_indexed_map.
        apply (NoDup_each_indexed _
                 (fun i a => exists s,
                      a = (".routes" +++ "[" +++ nat_str r +++ "]") +++
                          "[" +++ nat_str i +++ "]" +++ s)).
        * intros n i Hn. rewrite extractNodeModules_paths.
          apply NoDup_map_append. exact (Hr route sub n eq_refl Hroute F Hn).
        * intros n i a Hn Ha. rewrite extractNodeModules_paths in Ha.
          apply in_map_iff in Ha. destruct Ha as [s [<- _]].
          exists s. unfold pos_of, route_prefix. rewrite !append_assoc. reflexivity.
        * intros i j a [s ->] [s' E].
          exact (proj1 (bracket_index_inj _ i j s s' E)).
      + intros route r a Hroute Ha.
        destruct (T route r a Hroute Ha) as [i [s ->]]. eexists. reflexivity.
      + intros i j a [s ->] [s' E].
        exact (proj1 (bracket_index_inj ".routes" i j s s' E)).
    - intros a Ha. destruct (In_each_indexed _ _ _ _ Ha) as [route [r [_ [Hroute Hin]]]].
      destruct (T route r a Hroute Hin) as [i [s ->]]. exists r. eexists. reflexivity. }
  destruct B as [B1 B2]. apply NoDup_app.
  - unfold reported_module. destruct (field "module" (JObj fs)) as [[| | |s| |]|];
      try constructor.
    destruct (trim_truthy s); repeat constructor. intros [].
  - exact B1.
  - intros a Ha Hb. apply in_map_iff in Ha. destruct Ha as [m [<- _]].
    destruct (B2 _ Hb) as [r [s E]]. discriminate E.
Qed.

Lemma extractAllFlowModules_NoDup (flow : list json) (pathPrefix : string) :
  NoDup (map snd (extractAllFlowModules flow pathPrefix)).
Proof.
  unfold extractAllFlowModules. rewrite each_indexed_map.
  apply (NoDup_each_indexed _
           (fun i a => exists s, a = pathPrefix +++ "[" +++ nat_str i +++ "]" +++ s)).
  - intros n i _. rewrite extractNodeModules_paths.
    apply NoDup_map_append. apply extractNodeModules_NoDup.
  - intros n i a _ Ha. rewrite extractNodeModules_paths in Ha.
    apply in_map_iff in Ha. destruct Ha as [s [<- _]].
    exists s. unfold pos_of. rewrite !append_assoc. reflexivity.
  - intros i j a [s ->] [s' E]. exact (proj1 (bracket_index_inj _ i j s s' E)).
Qed.

Lemma extractAllFlowModules_modules (flow : list json) (pathPrefix : string) :
  map fst (extractAllFlowModules flow pathPrefix)
  = flat_map reported_module (treeNodes flow).
Proof.
  unfold extractAllFlowModules, treeNodes. rewrite flat_map_flat_map.
  apply each_indexed_fst. intros n i _. apply extractNodeModules_ids.
Qed.

(** X4. [extractAllFlowModules] reports, in document order and whatever the
    path prefix, the module id of every node of the tree, at any depth, whose
    module is a string that is not blank, and of no other node; the paths it
    reports are pairwise distinct. *)
Theorem extractAllFlowModules_reports_each_node_once (flow : list json)
    (pathPrefix : string) :
  map fst (extractAllFlowModules flow pathPrefix)
    = flat_map reported_module (treeNodes flow) /\
  NoDup (map snd (extractAllFlowModules flow pathPrefix)).
Proof.
  split; [apply extractAllFlowModules_modules|apply extractAllFlowModules_NoDup].
Qed.

(** ** The registries and the resolver *)

(** X5. Every module of the apps [openai] and [openai-gpt-3] is on the
    deny-list, with or without an entry of its own, and the alternative
    offered is [http:ActionSendData]. *)
Theorem openai_modules_are_denylisted (moduleId : string) :
  hd "" (split_on ":" moduleId) = "openai" \/
  hd "" (split_on ":" moduleId) = "openai-gpt-3" ->
  exists info,
    getProblematicModuleInfo moduleId = Some info /\
    alternative info = "http:ActionSendData".
Proof.
  intros H. unfold getProblematicModuleInfo.
  destruct (record_get moduleId PROBLEMATIC_MODULES) as [info|] eqn:E.
  - exists info. split; [reflexivity|].
    apply record_get_In in E. unfold PROBLEMATIC_MODULES in E. simpl in E.
    repeat (destruct E as [E|E];
            [injection E as <- <-;
             try reflexivity; destruct H as [H|H]; vm_compute in H; discriminate|]).
    contradiction.
  - destruct H as [-> | ->]; simpl; eexists; split; reflexivity.
Qed.

Lemma openai_modules_are_denylisted_witness :
  exists info,
    getProblematicModuleInfo "openai:ActionTranscribe" = Some info /\
    alternative info = "http:ActionSendData".
Proof.
  apply (openai_modules_are_denylisted "openai:ActionTranscribe").
  left. reflexivity.
Defined.

(** *** [normalizeModuleId] *)

Lemma lower_char_normal (c : ascii) :
  is_normal_char c = true -> lower_char c = c.
Proof.
  destruct c as [[] [] [] [] [] [] [] []]; vm_compute; intros H;
    first [reflexivity|discriminate].
Qed.

Lemma lower_char_twice (c : ascii) : lower_char (lower_char c) = lower_char c.
Proof. destruct c as [[] [] [] [] [] [] [] []]; reflexivity. Qed.

Lemma toLowerCase_twice (s : string) : toLowerCase (toLowerCase s) = toLowerCase s.
Proof.
  induction s as [|c s IH]; simpl; [reflexivity|].
  rewrite lower_char_twice, IH. reflexivity.
Qed.

Lemma string_filter_forall (p : ascii -> bool) (s : string) :
  string_forall p (string_filter p s) = true.
Proof.
  induction s as [|c s IH]; simpl; [reflexivity|].
  destruct (p c) eqn:E; simpl; [rewrite E|]; exact IH.
Qed.

Lemma string_filter_fixed (p : ascii -> bool) (s : string) :
  string_forall p s = true -> string_filter p s = s.
Proof.
  induction s as [|c s IH]; simpl; [reflexivity|].
  intros H. apply andb_true_iff in H. destruct H as [Hc Hs].
  rewrite Hc, (IH Hs). reflexivity.
Qed.

Lemma toLowerCase_fixed (s : string) :
  string_forall is_normal_char s = true -> toLowerCase s = s.
Proof.
  induction s as [|c s IH]; simpl; [reflexivity|].
  intros H. apply andb_true_iff in H. destruct H as [Hc Hs].
  rewrite (lower_char_normal c Hc), (IH Hs). reflexivity.
Qed.

(** X6. [normalizeModuleId] gives a string of lower-case letters, digits and
    colons only; it is idempotent and blind to case: an id and its
    lower-cased form have the same normal form. *)
Theorem normalizeModuleId_canonical (moduleId : string) :
  string_forall is_normal_char (normalizeModuleId moduleId) = true /\
  normalizeModuleId (normalizeModuleId moduleId) = normalizeModuleId moduleId /\
  normalizeModuleId (toLowerCase moduleId) = normalizeModuleId moduleId.
Proof.
  assert (N : string_forall is_normal_char (normalizeModuleId moduleId) = true)
    by apply string_filter_forall.
  split; [exact N|]. split.
  - unfold normalizeModuleId at 1. rewrite (toLowerCase_fixed _ N).
    apply string_filter_fixed. exact N.
  - unfold normalizeModuleId. rewrite toLowerCase_twice. reflexivity.
Qed.
(** *** [tokenizeModulePart] *)

Lemma string_forall_impl (p q : ascii -> bool) (s : string) :
  (forall c, p c = true -> q c = true) ->
  string_forall p s = true -> string_forall q s = true.
Proof.
  intros H. induction s as [|c s IH]; simpl; [reflexivity|].
  intros E. apply andb_true_iff in E. destruct E as [Hc Hs].
  rewrite (H c Hc), (IH Hs). reflexivity.
Qed.

Lemma squash_non_alnum_chars (in_run : bool) (s : string) :
  string_forall (fun c => is_alnum c || Ascii.eqb c " ")
                (squash_non_alnum in_run s) = true.
Proof.
  revert in_run. induction s as [|c s IH]; intros in_run; simpl; [reflexivity|].
  destruct (is_alnum c) eqn:E; simpl.
  - rewrite E. apply IH.
  - destruct in_run; simpl; apply IH.
Qed.

Lemma toLowerCase_chars (s : string) :
  string_forall (fun c => is_alnum c || Ascii.eqb c " ") s = true ->
  string_forall (fun c => is_lower c || is_digit c || Ascii.eqb c " ")
                (toLowerCase s) = true.
Proof.
  induction s as [|c s IH]; simpl; [reflexivity|].
  intros H. apply andb_true_iff in H. destruct H as [Hc Hs].
  rewrite (IH Hs), andb_true_r. clear - Hc.
  destruct c as [[] [] [] [] [] [] [] []]; vm_compute in Hc |- *;
    first [reflexivity|discriminate].
Qed.

(** The pieces of [split(/\s+/)] have the characters of the string that are
    not white space. *)
Lemma split_spaces_chars (p : ascii -> bool) (s : string) :
  string_forall p s = true ->
  forall in_run w, In w (split_spaces in_run s) ->
    string_forall (fun c => p c && negb (is_space c)) w = true.
Proof.
  induction s as [|c s IH]; simpl; intros H in_run w Hw.
  - destruct Hw as [<-|[]]. reflexivity.
  - apply andb_true_iff in H. destruct H as [Hc Hs].
    destruct (is_space c) eqn:S.
    + destruct in_run.
      * exact (IH Hs true w Hw).
      * destruct Hw as [<-|Hw]; [reflexivity|exact (IH Hs true w Hw)].
    + destruct (split_spaces false s) as [|w0 ws] eqn:E.
      * destruct Hw as [<-|[]]. simpl. rewrite Hc, S. reflexivity.
      * destruct Hw as [<-|Hw].
        -- simpl. rewrite Hc, S. simpl.
           apply (IH Hs false w0). rewrite E. left. reflexivity.
        -- apply (IH Hs false w). rewrite E. right. exact Hw.
Qed.

(** X7. Every token that [tokenizeModulePart] returns is a non-empty string
    of lower-case letters and digits. *)
Theorem tokenizeModulePart_tokens (value token : string) :
  In token (tokenizeModulePart value) ->
  token <> "" /\ string_forall (fun c => is_lower c || is_digit c) token = true.
Proof.
  unfold tokenizeModulePart. intros H. apply filter_In in H. destruct H as [H N].
  split.
  - intros ->. discriminate N.
  - apply (split_spaces_chars _ _
             (toLowerCase_chars _ (squash_non_alnum_chars false (split_camel value))))
      in H.
    revert H. apply string_forall_impl. intros c Hc.
    destruct c as [[] [] [] [] [] [] [] []]; vm_compute in Hc |- *;
      first [reflexivity|discriminate].
Qed.

Lemma tokenizeModulePart_tokens_witness :
  "send" <> "" /\ string_forall (fun c => is_lower c || is_digit c) "send" = true.
Proof.
  apply (tokenizeModulePart_tokens "ActionSendData" "send").
  vm_compute. right. left. reflexivity.
Defined.
(** *** [resolveClosestLiveModule] *)

Lemma resolveClosestLiveModule_In (moduleId r : string) (liveIds : list string) :
  resolveClosestLiveModule moduleId liveIds = Some r -> In r liveIds.
Proof.
  unfold resolveClosestLiveModule.
  destruct (str_mem moduleId liveIds) eqn:M.
  - intros H. injection H as <-. apply str_mem_In. exact M.
  - set (same := filter _ liveIds).
    assert (S : forall x, In x same -> In x liveIds).
    { intros x Hx. apply filter_In in Hx. exact (proj1 Hx). }
    destruct same as [|only [|more rest]];
      try apply tokenOverlapStage_In.
    intros H. injection H as <-. apply S. left. reflexivity.
Qed.

Lemma resolveClosestLiveModule_live (moduleId : string) (liveIds : list string) :
  In moduleId liveIds -> resolveClosestLiveModule moduleId liveIds = Some moduleId.
Proof.
  intros H. unfold resolveClosestLiveModule.
  rewrite (proj2 (str_mem_In moduleId liveIds) H). reflexivity.
Qed.

(** X8. [resolveClosestLiveModule] answers a live id with the id itself and
    answers [null] on an empty catalog; resolving an answer again gives the
    same answer. *)
Theorem resolveClosestLiveModule_settles (moduleId : string)
    (liveIds : list string) :
  (In moduleId liveIds ->
   resolveClosestLiveModule moduleId liveIds = Some moduleId) /\
  resolveClosestLiveModule moduleId [] = None /\
  (forall r, resolveClosestLiveModule moduleId liveIds = Some r ->
             resolveClosestLiveModule r liveIds = Some r).
Proof.
  split; [apply resolveClosestLiveModule_live|]. split.
  - unfold resolveClosestLiveModule, tokenOverlapStage. simpl.
    destruct (negb _ || negb _); reflexivity.
  - intros r H. apply resolveClosestLiveModule_live.
    exact (resolveClosestLiveModule_In _ _ _ H).
Qed.

Lemma filter_none {A : Type} (p : A -> bool) (l : list A) :
  (forall x, In x l -> p x = false) -> filter p l = [].
Proof.
  induction l as [|y rest IH]; simpl; intros H; [reflexivity|].
  rewrite (H y (or_introl eq_refl)). apply IH.
  intros x Hx. apply H. right. exact Hx.
Qed.

Lemma filter_unique_key {A : Type} (key : A -> string) (k : string)
    (l : list A) (x : A) :
  NoDup (map key l) -> In x l -> key x = k ->
  filter (fun y => String.eqb (key y) k) l = [x].
Proof.
  intros N Hx <-. induction l as [|y rest IH]; simpl; [contradiction|].
  inversion N as [|k ks Hk Nrest]; subst.
  destruct Hx as [->|Hx].
  - rewrite String.eqb_refl. f_equal.
    apply filter_none. intros z Hz.
    destruct (String.eqb (key z) (key x)) eqn:E; [|reflexivity].
    apply String.eqb_eq in E. exfalso. apply Hk. rewrite <- E.
    apply in_map. exact Hz.
  - destruct (String.eqb (key y) (key x)) eqn:E.
    + apply String.eqb_eq in E. exfalso. apply Hk. rewrite E.
      apply in_map. exact Hx.
    + exact (IH Nrest Hx).
Qed.

Lemma NoDup_map_inj_In {A : Type} (key : A -> string) (l : list A) (x y : A) :
  NoDup (map key l) -> In x l -> In y l -> key x = key y -> x = y.
Proof.
  induction l as [|z rest IH]; simpl; intros N Hx Hy E; [contradiction|].
  inversion N as [|k ks Hk Nrest]; subst.
  destruct Hx as [->|Hx], Hy as [->|Hy].
  - reflexivity.
  - exfalso. apply Hk. rewrite E. apply in_map. exact Hy.
  - exfalso. apply Hk. rewrite <- E. apply in_map. exact Hx.
  - exact (IH Nrest Hx Hy E).
Qed.

(** X9. When no two live ids have the same normal form, an id that differs
    from a live id only in case and in characters other than letters, digits
    and colons resolves to that live id. *)
Theorem resolveClosestLiveModule_normal_form (moduleId liveId : string)
    (liveIds : list string) :
  NoDup (map normalizeModuleId liveIds) ->
  In liveId liveIds ->
  normalizeModuleId liveId = normalizeModuleId moduleId ->
  resolveClosestLiveModule moduleId liveIds = Some liveId.
Proof.
  intros N Hl E. unfold resolveClosestLiveModule.
  destruct (str_mem moduleId liveIds) eqn:M.
  - apply str_mem_In in M. f_equal.
    exact (NoDup_map_inj_In normalizeModuleId liveIds _ _ N M Hl (eq_sym E)).
  - rewrite (filter_unique_key normalizeModuleId _ liveIds liveId N Hl E).
    reflexivity.
Qed.

Lemma resolveClosestLiveModule_normal_form_witness :
  resolveClosestLiveModule "Slack:action_post-message"
    ["slack:ActionPostMessage"; "http:ActionSendData"]
  = Some "slack:ActionPostMessage".
Proof.
  apply (resolveClosestLiveModule_normal_form "Slack:action_post-message"
           "slack:ActionPostMessage"
           ["slack:ActionPostMessage"; "http:ActionSendData"]).
  - repeat constructor; vm_compute; intros H;
      repeat (destruct H as [H|H]; [discriminate H|]); exact H.
  - left. reflexivity.
  - vm_compute. reflexivity.
Defined.
(** ** Reading the deployment error *)

(** The search for a match skips a prefix in which no match can start. *)
Lemma first_match_skip {A : Type} (here : string -> option A) (pre s : string) :
  (forall p1 p2, pre = p1 +++ p2 -> p2 <> "" -> here (p2 +++ s) = None) ->
  first_match here (pre +++ s) = first_match here s.
Proof.
  induction pre as [|c pre IH]; intros H; [reflexivity|].
  change (first_match here (String c pre +++ s))
    with (match here (String c pre +++ s) with
          | Some a => Some a
          | None => first_match here (pre +++ s)
          end).
  rewrite (H "" (String c pre) eq_refl) by discriminate.
  apply IH. intros p1 p2 E N. apply (H (String c p1) p2); [|exact N].
  simpl. rewrite E. reflexivity.
Qed.

Lemma string_forall_app (p : ascii -> bool) (a b : string) :
  string_forall p (a +++ b) = string_forall p a && string_forall p b.
Proof.
  induction a as [|c a IH]; simpl; [reflexivity|].
  rewrite IH, andb_assoc. reflexivity.
Qed.

(** A prefix without the letter [x], in either case, starts no match of a
    pattern that begins with [x]. *)
Lemma first_match_skip_letter {A : Type} (here : string -> option A) (x : ascii)
    (pre s : string) :
  (forall c t, Ascii.eqb x (lower_char c) = false -> here (String c t) = None) ->
  string_forall (fun c => negb (Ascii.eqb x (lower_char c))) pre = true ->
  first_match here (pre +++ s) = first_match here s.
Proof.
  intros Hhere Hpre. apply first_match_skip. intros p1 p2 -> N.
  rewrite string_forall_app in Hpre. apply andb_true_iff in Hpre.
  destruct Hpre as [_ H2]. destruct p2 as [|c p2]; [contradiction|].
  simpl in H2. apply andb_true_iff in H2. destruct H2 as [Hc _].
  apply negb_true_iff in Hc. apply Hhere. exact Hc.
Qed.

Lemma first_match_here {A : Type} (here : string -> option A) (s : string) (a : A) :
  here s = Some a -> first_match here s = Some a.
Proof. intros H. destruct s; simpl; rewrite H; reflexivity. Qed.

Lemma take_while_app (p : ascii -> bool) (run rest : string) :
  string_forall p run = true ->
  match rest with
  | EmptyString => true
  | String c _ => negb (p c)
  end = true ->
  take_while p (run +++ rest) = (run, rest).
Proof.
  intros Hrun Hrest. induction run as [|c run IH]; simpl.
  - destruct rest as [|c rest]; [reflexivity|]. simpl.
    apply negb_true_iff in Hrest. rewrite Hrest. reflexivity.
  - simpl in Hrun. apply andb_true_iff in Hrun. destruct Hrun as [Hc Hr].
    rewrite Hc, (IH Hr). reflexivity.
Qed.

(** The group after a separator: a module id that begins with a letter or
    a digit, after a separator without letters and digits. *)
Lemma group_after_separator_id (sep : string) (c : ascii) (tl rest : string) :
  sep <> "" ->
  string_forall (fun x => negb (is_alnum x)) sep = true ->
  is_alnum c = true ->
  string_forall is_id_char tl = true ->
  colon_then_more tl = true ->
  match rest with
  | EmptyString => true
  | String x _ => negb (is_id_char x)
  end = true ->
  group_after_separator (sep +++ String c tl +++ rest) = Some (String c tl).
Proof.
  intros N Hsep Hc Htl Hcolon Hrest.
  assert (G : id_group_here (String c tl +++ rest) = Some (String c tl)).
  { unfold id_group_here.
    rewrite (take_while_app is_id_char (String c tl) rest); [|simpl|exact Hrest].
    - rewrite Hcolon. reflexivity.
    - rewrite Htl, andb_true_r. unfold is_id_char. rewrite Hc. reflexivity. }
  induction sep as [|x sep IH]; [contradiction|].
  simpl in Hsep. apply andb_true_iff in Hsep. destruct Hsep as [Hx Hs].
  apply negb_true_iff in Hx.
  change (group_after_separator (String x (sep +++ String c tl +++ rest))
          = Some (String c tl)).
  cbn [group_after_separator]. rewrite Hx.
  destruct sep as [|y sep].
  - change ("" +++ String c tl +++ rest) with (String c (tl +++ rest)).
    cbn iota. rewrite Hc. cbn [negb]. cbn iota. exact G.
  - change (String y sep +++ String c tl +++ rest)
      with (String y (sep +++ String c tl +++ rest)) in *.
    simpl in Hs. apply andb_true_iff in Hs. destruct Hs as [Hy Hs'].
    cbn iota. rewrite Hy. cbn iota.
    rewrite IH; [reflexivity|discriminate|].
    simpl. rewrite Hy, Hs'. reflexivity.
Qed.

(** X10. From an error text that says [Module not found], then a separator
    without letters and digits, then a module id [app:Name] that begins with
    a letter or a digit, [extractIm007ModuleId] reads the module id, whatever
    text without the letter m precedes and whatever follows that does not
    continue the id. *)
Theorem extractIm007ModuleId_reads_the_module (pre sep : string) (c : ascii)
    (tl rest : string) :
  string_forall (fun x => negb (Ascii.eqb "m" (lower_char x))) pre = true ->
  sep <> "" ->
  string_forall (fun x => negb (is_alnum x)) sep = true ->
  is_alnum c = true ->
  string_forall is_id_char tl = true ->
  colon_then_more tl = true ->
  match rest with
  | EmptyString => true
  | String x _ => negb (is_id_char x)
  end = true ->
  extractIm007ModuleId
    (Some (JStr (pre +++ "Module not found" +++ sep +++ String c tl +++ rest)))
  = Some (String c tl).
Proof.
  intros Hpre N Hsep Hc Htl Hcolon Hrest.
  unfold extractIm007ModuleId, error_body.
  rewrite (first_match_skip_letter module_not_found_here "m" pre).
  - apply first_match_here.
    change (group_after_separator (sep +++ String c tl +++ rest) = Some (String c tl)).
    apply group_after_separator_id; assumption.
  - intros x t Hx. unfold module_not_found_here.
    cbn [after_ci]. rewrite Hx. reflexivity.
  - exact Hpre.
Qed.

Lemma extractIm007ModuleId_reads_the_module_witness :
  extractIm007ModuleId
    (Some (JStr ("Error 400: " +++ "Module not found" +++ " '" +++
                 "acme:Thing" +++ "' for this account")))
  = Some "acme:Thing".
Proof.
  apply (extractIm007ModuleId_reads_the_module "Error 400: " " '" "a" "cme:Thing"
           "' for this account"); try (vm_compute; reflexivity).
  discriminate.
Defined.

Lemma version_in_quotes (pre spaces ds rest : string) :
  string_forall (fun x => negb (Ascii.eqb "v" (lower_char x))) pre = true ->
  spaces <> "" ->
  string_forall is_space spaces = true ->
  nonempty ds = true ->
  all_digits ds = true ->
  first_match version_here
    (error_body
       (Some (JStr (pre +++ "version" +++ spaces +++ "'" +++ ds +++ "'" +++ rest))))
  = Some ds.
Proof.
  intros Hpre N Hsp Hne Hds. unfold error_body.
  rewrite (first_match_skip_letter version_here "v" pre).
  - apply (first_match_here version_here _ ds).
    change (bind_opt (after_run is_space (spaces +++ "'" +++ ds +++ "'" +++ rest))
              (fun s2 => bind_opt (after_ci "'" s2) (fun s3 =>
                 let '(ds0, tl) := take_digits s3 in
                 if nonempty ds0 && startsWith "'" tl then Some ds0 else None))
            = Some ds).
    unfold after_run.
    rewrite (take_while_app is_space spaces ("'" +++ ds +++ "'" +++ rest) Hsp eq_refl).
    destruct spaces as [|x spaces]; [contradiction|].
    cbn [nonempty String.eqb negb bind_opt].
    change (after_ci "'" ("'" +++ ds +++ "'" +++ rest))
      with (Some (ds +++ String "'" rest)).
    cbn [bind_opt].
    rewrite (take_digits_append ds (String "'" rest) Hds eq_refl).
    rewrite Hne. reflexivity.
  - intros x t Hx. unfold version_here. cbn [after_ci]. rewrite Hx. reflexivity.
  - exact Hpre.
Qed.

(** X11. From an error text that says [version], white space, and a number
    N of decimal digits between single quotes, whatever text without the
    letter v precedes, [extractIm007Version] reads N when N is positive and
    below 2^53, and answers [null] when N is zero; from 2^53 on it reads the
    double nearest to N, and from 2^1024 on it answers [null].  A version it
    returns is always positive. *)
Theorem extractIm007Version_reads_the_version (pre spaces ds rest : string) :
  string_forall (fun x => negb (Ascii.eqb "v" (lower_char x))) pre = true ->
  spaces <> "" ->
  string_forall is_space spaces = true ->
  nonempty ds = true ->
  all_digits ds = true ->
  let errorData :=
    Some (JStr (pre +++ "version" +++ spaces +++ "'" +++ ds +++ "'" +++ rest)) in
  let N := number_of_digits 0 ds in
  ((N < 2 ^ 53)%Z ->
   extractIm007Version errorData = (if (0 <? N)%Z then Some N else None)) /\
  ((2 ^ 53 <= N)%Z ->
   extractIm007Version errorData
   = match double_of N with
     | Finite v => Some v
     | Infinity => None
     end) /\
  ((2 ^ 1024 <= N)%Z -> extractIm007Version errorData = None) /\
  forall errorData' v, extractIm007Version errorData' = Some v -> (0 < v)%Z.
Proof.
  intros Hpre Nsp Hsp Hne Hds errorData N.
  assert (E : extractIm007Version errorData
              = match double_of N with
                | Finite parsed => if (parsed <=? 0)%Z then None else Some parsed
                | Infinity => None
                end).
  { unfold extractIm007Version, errorData.
    rewrite (version_in_quotes pre spaces ds rest Hpre Nsp Hsp Hne Hds).
    reflexivity. }
  assert (P53 : (0 < 2 ^ 53)%Z) by reflexivity.
  split; [|split; [|split]].
  - intros Small. rewrite E, (double_of_exact N Small), Z.ltb_antisym.
    destruct (N <=? 0)%Z; reflexivity.
  - intros Large. rewrite E. destruct (double_of N) as [v|] eqn:D; [|reflexivity].
    pose proof (double_of_large N v Large D) as Hv.
    destruct (Z.leb_spec v 0); [lia|reflexivity].
  - intros Huge. rewrite E, (double_of_overflow N Huge). reflexivity.
  - intros errorData' v. unfold extractIm007Version.
    destruct (first_match version_here (error_body errorData')) as [ds0|];
      [|discriminate].
    destruct (Number_of ds0) as [parsed|]; [|discriminate].
    destruct (Z.leb_spec parsed 0) as [|Pos]; [discriminate|].
    intros Hv. injection Hv as <-. exact Pos.
Qed.

Lemma extractIm007Version_reads_the_version_witness :
  extractIm007Version
    (Some (JStr ("Module not found 'acme:Thing' " +++ "version" +++ " " +++ "'" +++
                 "3" +++ "'" +++ "")))
  = Some 3%Z.
Proof.
  refine (proj1 (extractIm007Version_reads_the_version
                   "Module not found 'acme:Thing' " " " "3" "" _ _ _ _ _) _);
    try (vm_compute; reflexivity).
  discriminate.
Defined.

(** ** The scheduling read off a schedule node *)

Lemma parseMinutes_positive (text : string) (minutes : Z) :
  parseMinutes text = Some minutes -> (0 < minutes)%Z.
Proof.
  unfold parseMinutes. destruct (match_minutes text) as [ds|]; [|discriminate].
  destruct (Number_of ds) as [parsed|]; [|discriminate].
  destruct (Z.leb_spec parsed 0) as [|Pos]; [discriminate|].
  intros H. injection H as <-. exact Pos.
Qed.

(** X12. [parseSchedulingFromScheduleModule] always answers a scheduling of
    type [indefinitely], never with an interval that is zero or negative: the
    interval is at least 60 seconds, or it is [Infinity], which is printed
    as [null], and that only for a text without day, week, month and hour
    that names minutes whose product with 60 is 2^1023 or more.  A node
    without an interval text gets 900 seconds. *)
Theorem parseSchedulingFromScheduleModule_interval (module : json) :
  exists interval,
    parseSchedulingFromScheduleModule module = scheduling_of interval /\
    match interval with
    | Finite seconds => (60 <= seconds)%Z
    | Infinity =>
        includes "day" (interval_text module) = false /\
        includes "week" (interval_text module) = false /\
        includes "month" (interval_text module) = false /\
        includes "hour" (interval_text module) = false /\
        exists minutes,
          parseMinutes (interval_text module) = Some minutes /\
          (2 ^ 1023 <= minutes * 60)%Z
    end /\
    (interval_text module = "" -> interval = Finite 900).
Proof.
  exists (interval_seconds (interval_text module)).
  split; [reflexivity|]. split.
  - unfold interval_seconds.
    destruct (includes "day" _); [lia|].
    destruct (includes "week" _); [lia|].
    destruct (includes "month" _); [lia|].
    destruct (includes "hour" _); [lia|].
    destruct (parseMinutes _) as [minutes|] eqn:P; [|lia].
    pose proof (parseMinutes_positive _ _ P) as Pos.
    destruct (double_of (minutes * 60)) as [seconds|] eqn:D.
    + destruct (Z.lt_ge_cases (minutes * 60) (2 ^ 53)) as [Small|Large].
      * rewrite (double_of_exact _ Small) in D. injection D as <-. lia.
      * pose proof (double_of_large _ _ Large D) as B.
        assert (60 < 2 ^ 53)%Z by reflexivity. lia.
    + repeat split. exists minutes. split; [reflexivity|].
      exact (double_of_infinite _ D).
  - intros ->. reflexivity.
Qed.

(** The interval past the doubles: 3 followed by 306 zeros names minutes
    whose product with 60 is [Infinity]; from 309 digits on the minutes
    themselves are, and the interval is 900. *)
Example interval_past_the_doubles :
  interval_seconds ("3" +++ string_of_list_ascii (repeat "0"%char 306) +++ " min")
    = Infinity /\
  interval_seconds ("2" +++ string_of_list_ascii (repeat "0"%char 308) +++ " min")
    = Finite 900 /\
  interval_seconds "9007199254740993 min" = Finite 540431955284459520.
Proof. vm_compute. repeat split. Qed.
(** ** What healing keeps and what it leaves *)

Lemma Forall2_flat_map {A B C : Type} (R : A -> B -> Prop)
    (f : A -> list C) (f' : B -> list C) (l : list A) (l' : list B) :
  Forall2 R l l' ->
  (forall a b, In a l -> R a b -> f' b = f a) ->
  flat_map f' l' = flat_map f l.
Proof.
  induction 1 as [|a b l l' Hab _ IH]; simpl; intros H; [reflexivity|].
  rewrite (H a b (or_introl eq_refl) Hab), IH; [reflexivity|].
  intros x y Hx. apply H. right. exact Hx.
Qed.

(** Healing keeps every node in its place, with its module id. *)
Lemma healNode_modules :
  forall x y, healNode x = Some y ->
    map (field "module") (nodeAndBelow y) = map (field "module") (nodeAndBelow x).
Proof.
  apply (node_induction (fun x => forall y, healNode x = Some y ->
           map (field "module") (nodeAndBelow y)
           = map (field "module") (nodeAndBelow x))).
  intros x IH y H. rewrite !nodeAndBelow_eq. cbn [map].
  rewrite (field_module_healNode x y H). f_equal.
  destruct x as [| | | | |fs]; try (injection H as <-; reflexivity).
  rewrite healNode_obj in H.
  destruct (heal_designer fs) as [fs1|] eqn:D; [|discriminate].
  pose proof (heal_designer_other "routes" _ _ eq_refl D) as Droutes.
  assert (B : below (JObj fs) =
              match get "routes" fs with
              | Some (JArr routes) =>
                  flat_map (fun route =>
                    match route_flow route with
                    | Some sub => flat_map nodeAndBelow sub
                    | None => []
                    end) routes
              | _ => []
              end).
  { unfold below, node_routes.
    destruct (get "routes" fs) as [[| | | |routes|]|]; reflexivity. }
  rewrite B. clear B.
  case_array (get "routes" fs) routes R;
    try (injection H as <-; unfold below, node_routes; rewrite Droutes; reflexivity).
  destruct (map_opt heal_route routes) as [routes'|] eqn:M; [|discriminate].
  injection H as <-. unfold below, node_routes. rewrite get_set_same.
  rewrite !map_flat_map. apply map_opt_Forall2 in M.
  apply (Forall2_flat_map _ _ _ _ _ M).
  intros route route' Hroute Hr.
  destruct (heal_route_healed _ _ Hr) as [_ F].
  destruct (route_flow route) as [sub|] eqn:Fr.
  - destruct F as [sub' [Hsub ->]]. rewrite !map_flat_map.
    apply map_opt_Forall2 in Hsub.
    apply (Forall2_flat_map _ _ _ _ _ Hsub).
    intros n n' Hn Hnn.
    apply (IH routes route sub n); try assumption.
    unfold node_routes. rewrite R. reflexivity.
  - rewrite F. reflexivity.
Qed.

Lemma healFlow_modules (flow flow' : list json) :
  healFlow flow = Some flow' ->
  map (field "module") (treeNodes flow') = map (field "module") (treeNodes flow).
Proof.
  intros H. unfold healFlow in H. apply map_opt_Forall2 in H.
  unfold treeNodes. rewrite !map_flat_map.
  apply (Forall2_flat_map _ _ _ _ _ H).
  intros x y _. apply healNode_modules.
Qed.

Lemma healFlow_healed (flow flow' : list json) :
  healFlow flow = Some flow' -> Forall node_healed (treeNodes flow').
Proof.
  intros H. unfold healFlow in H. apply map_opt_Forall2 in H.
  apply Forall_forall. intros n Hn. apply In_treeNodes in Hn.
  destruct Hn as [y [Hy Hn]].
  destruct (Forall2_In_r _ _ _ _ H Hy) as [x [_ Hxy]].
  pose proof (healNode_healed x y Hxy) as T. unfold tree_healed in T.
  rewrite Forall_forall in T. exact (T n Hn).
Qed.

(** The healed flow, as the input gives it. *)
Lemma heal_flow (parsed : json) (h : healed) (flow0 : list json) :
  heal parsed = Some h ->
  flow_of parsed = Some flow0 ->
  exists fs2 healedFlow,
    healFlow (filter (fun n => negb (is_schedule n)) flow0) = Some healedFlow /\
    truthy_opt (get "metadata" fs2) = true /\
    blueprint_of h = JObj (set "flow" (JArr (map inject_tree healedFlow)) fs2).
Proof.
  destruct parsed as [| | | |items|fs]; try discriminate.
  intros H F. unfold flow_of in F. simpl in F.
  destruct (get "flow" fs) as [[| | | |F0|]|] eqn:E; try discriminate.
  injection F as ->. unfold heal in H. rewrite E in H.
  rewrite with_metadata_flow, get_set_same in H.
  rewrite (normalizedFlow_filter flow0) in H.
  destruct (healFlow (filter (fun n => negb (is_schedule n)) flow0))
    as [healedFlow|] eqn:HF; [|discriminate].
  injection H as <-. rewrite injectVerifiedVersions_tree.
  eexists _, healedFlow. split; [reflexivity|]. split; [|reflexivity].
  apply with_metadata_truthy.
Qed.

Lemma heal_tree_modules (parsed : json) (h : healed) (flow0 : list json) :
  heal parsed = Some h ->
  flow_of parsed = Some flow0 ->
  exists flow,
    flow_of (blueprint_of h) = Some flow /\
    map (field "module") (treeNodes flow)
    = map (field "module")
          (treeNodes (filter (fun n => negb (is_schedule n)) flow0)).
Proof.
  intros H F. destruct (heal_flow parsed h flow0 H F) as [fs2 [healedFlow [HF [_ ->]]]].
  exists (map inject_tree healedFlow). split.
  - unfold flow_of. simpl. rewrite get_set_same. reflexivity.
  - rewrite treeNodes_inject, map_map.
    rewrite <- (healFlow_modules _ _ HF). apply map_ext.
    exact field_module_inject_tree.
Qed.

(** Healing keeps what it keeps of each node in the place of the node. *)
Lemma healNode_keeps {A : Type} (f : json -> A) :
  (forall x y, healNode x = Some y -> f y = f x) ->
  forall x y, healNode x = Some y ->
    map f (nodeAndBelow y) = map f (nodeAndBelow x).
Proof.
  intros Top.
  apply (node_induction (fun x => forall y, healNode x = Some y ->
           map f (nodeAndBelow y) = map f (nodeAndBelow x))).
  intros x IH y H. rewrite !nodeAndBelow_eq. cbn [map].
  rewrite (Top x y H). f_equal.
  destruct x as [| | | | |fs]; try (injection H as <-; reflexivity).
  rewrite healNode_obj in H.
  destruct (heal_designer fs) as [fs1|] eqn:D; [|discriminate].
  pose proof (heal_designer_other "routes" _ _ eq_refl D) as Droutes.
  assert (B : below (JObj fs) =
              match get "routes" fs with
              | Some (JArr routes) =>
                  flat_map (fun route =>
                    match route_flow route with
                    | Some sub => flat_map nodeAndBelow sub
                    | None => []
                    end) routes
              | _ => []
              end).
  { unfold below, node_routes.
    destruct (get "routes" fs) as [[| | | |routes|]|]; reflexivity. }
  rewrite B. clear B.
  case_array (get "routes" fs) routes R;
    try (injection H as <-; unfold below, node_routes; rewrite Droutes; reflexivity).
  destruct (map_opt heal_route routes) as [routes'|] eqn:M; [|discriminate].
  injection H as <-. unfold below, node_routes. rewrite get_set_same.
  rewrite !map_flat_map. apply map_opt_Forall2 in M.
  apply (Forall2_flat_map _ _ _ _ _ M).
  intros route route' Hroute Hr.
  destruct (heal_route_healed _ _ Hr) as [_ F].
  destruct (route_flow route) as [sub|] eqn:Fr.
  - destruct F as [sub' [Hsub ->]]. rewrite !map_flat_map.
    apply map_opt_Forall2 in Hsub.
    apply (Forall2_flat_map _ _ _ _ _ Hsub).
    intros n n' Hn Hnn.
    apply (IH routes route sub n); try assumption.
    unfold node_routes. rewrite R. reflexivity.
  - rewrite F. reflexivity.
Qed.

(** Metadata that is an array is left as it is, and no other metadata
    becomes an array. *)
Lemma metadata_array_heal_designer (fs fs1 : fields) :
  heal_designer fs = Some fs1 ->
  metadata_array (JObj fs1) = metadata_array (JObj fs).
Proof.
  unfold heal_designer, metadata_array, field.
  destruct (get "metadata" fs) as [md|] eqn:G.
  - destruct (negb (truthy md)) eqn:T.
    + intros H. injection H as <-. rewrite get_set_same.
      destruct md; try reflexivity; discriminate.
    + destruct md as [| | | |items|mfs]; try discriminate.
      * intros H. injection H as <-. rewrite G. reflexivity.
      * destruct (truthy_opt (get "designer" mfs)); intros H; injection H as <-;
          [rewrite G; reflexivity|rewrite get_set_same; reflexivity].
  - intros H. injection H as <-. rewrite get_set_same. reflexivity.
Qed.

Lemma metadata_array_healNode (x y : json) :
  healNode x = Some y -> metadata_array y = metadata_array x.
Proof.
  destruct x as [| | | | |fs]; try (intros H; injection H as <-; reflexivity).
  rewrite healNode_obj.
  destruct (heal_designer fs) as [fs1|] eqn:D; [|discriminate].
  pose proof (metadata_array_heal_designer _ _ D) as M.
  destruct (get "routes" fs) as [[| | | |routes|]|];
    try (intros H; injection H as <-; exact M).
  destruct (map_opt heal_route routes); [|discriminate].
  intros H. injection H as <-. rewrite <- M.
  unfold metadata_array, field. rewrite get_set_other by reflexivity.
  reflexivity.
Qed.

Lemma metadata_array_inject_tree (node : json) :
  metadata_array (inject_tree node) = metadata_array node.
Proof.
  destruct node as [| | | | |fs]; try reflexivity.
  rewrite inject_tree_obj. unfold metadata_array, field.
  rewrite get_over_routes by reflexivity.
  rewrite get_inject_version by reflexivity. reflexivity.
Qed.

Lemma healFlow_metadata_arrays (flow flow' : list json) :
  healFlow flow = Some flow' ->
  map metadata_array (treeNodes flow') = map metadata_array (treeNodes flow).
Proof.
  intros H. unfold healFlow in H. apply map_opt_Forall2 in H.
  unfold treeNodes. rewrite !map_flat_map.
  apply (Forall2_flat_map _ _ _ _ _ H).
  intros x y _. apply healNode_keeps. exact metadata_array_healNode.
Qed.

Lemma node_healed_designer_placed (node : json) :
  node_healed node -> designer_placed node.
Proof.
  destruct node as [| | | | |fs]; try (intros _; exact I).
  intros [D R]. split; [|exact R].
  unfold array_metadata, metadata_array, carries_designer, field.
  unfold designer_ok in D.
  destruct (get "metadata" fs) as [[| | | |items|mfs]|]; try discriminate;
    [exact I|exact D].
Qed.

(** X13. When healing succeeds on a blueprint with a flow array, the healed
    blueprint has metadata and a flow array in which, at any depth, every
    node that is an object and whose metadata is not an array has metadata
    with a designer placeholder, and no route carries a [filter]; the tree
    has the nodes of the input tree without the schedule nodes of the root
    flow, each with the module id it had.  The nodes whose metadata is an
    array are those of the input, with the array they had: there the code
    sets the designer as a property of the array, which the blueprint that
    is sent does not carry. *)
Theorem heal_places_designers_and_keeps_modules (parsed : json) (h : healed)
    (flow0 : list json) :
  heal parsed = Some h ->
  flow_of parsed = Some flow0 ->
  exists flow,
    flow_of (blueprint_of h) = Some flow /\
    truthy_opt (field "metadata" (blueprint_of h)) = true /\
    Forall designer_placed (treeNodes flow) /\
    map metadata_array (treeNodes flow)
    = map metadata_array
          (treeNodes (filter (fun n => negb (is_schedule n)) flow0)) /\
    map (field "module") (treeNodes flow)
    = map (field "module")
          (treeNodes (filter (fun n => negb (is_schedule n)) flow0)).
Proof.
  intros H F. destruct (heal_tree_modules parsed h flow0 H F) as [flow [A D]].
  exists flow. split; [exact A|].
  destruct (heal_flow parsed h flow0 H F) as [fs2 [healedFlow [HF [M E]]]].
  rewrite E in A |- *. unfold flow_of in A. simpl in A.
  rewrite get_set_same in A. injection A as <-.
  split; [|split; [|split; [|exact D]]].
  - simpl. rewrite get_set_other by reflexivity. exact M.
  - apply Forall_forall. intros n Hn. rewrite treeNodes_inject in Hn.
    apply in_map_iff in Hn. destruct Hn as [n0 [<- Hn0]].
    apply node_healed_designer_placed, node_healed_inject_tree.
    pose proof (healFlow_healed _ _ HF) as T. rewrite Forall_forall in T.
    exact (T n0 Hn0).
  - rewrite treeNodes_inject, map_map.
    rewrite <- (healFlow_metadata_arrays _ _ HF). apply map_ext.
    exact metadata_array_inject_tree.
Qed.

Lemma heal_places_designers_and_keeps_modules_witness :
  exists h flow,
    heal unhealed_blueprint = Some h /\
    flow_of (blueprint_of h) = Some flow /\
    truthy_opt (field "metadata" (blueprint_of h)) = true /\
    Forall designer_placed (treeNodes flow) /\
    map metadata_array (treeNodes flow) = [None; None] /\
    map (field "module") (treeNodes flow)
    = [Some (JStr "builtin:BasicRouter"); Some (JStr "acme:Thing")].
Proof.
  destruct (heal unhealed_blueprint) as [h|] eqn:H; [|vm_compute in H; discriminate].
  destruct (flow_of unhealed_blueprint) as [flow0|] eqn:F0;
    [|vm_compute in F0; discriminate].
  destruct (heal_places_designers_and_keeps_modules unhealed_blueprint h flow0 H F0)
    as [flow [A [B [C [Arr D]]]]].
  exists h, flow. split; [reflexivity|]. split; [exact A|]. split; [exact B|].
  split; [exact C|]. rewrite Arr, D. vm_compute in F0. injection F0 as <-.
  vm_compute. split; reflexivity.
Defined.

(** Metadata that is an array stays without a designer in the tree. *)
Example array_metadata_keeps_no_designer :
  option_map blueprint_of
    (heal (JObj [("flow", JArr [JObj [("id", JNum 1);
                                      ("module", JStr "http:ActionSendData");
                                      ("metadata", JArr [])]]);
                 ("metadata", JObj [("version", JNum 1)])]))
  = Some (JObj [("flow", JArr [JObj [("id", JNum 1);
                                     ("module", JStr "http:ActionSendData");
                                     ("metadata", JArr []);
                                     ("version", JNum 3)]]);
                ("metadata", JObj [("version", JNum 1)])]).
Proof. vm_compute. reflexivity. Qed.

(** *** A [null] route *)

Lemma healNode_routes_not_null :
  forall x y, healNode x = Some y ->
    forall n routes, In n (nodeAndBelow x) -> node_routes n = Some routes ->
                     ~ In JNull routes.
Proof.
  apply (node_induction (fun x => forall y, healNode x = Some y ->
           forall n routes, In n (nodeAndBelow x) -> node_routes n = Some routes ->
                            ~ In JNull routes)).
  intros x IH y H n rs Hn Hrs. rewrite nodeAndBelow_eq in Hn.
  destruct x as [| | | | |fs];
    try (destruct Hn as [<-|[]]; discriminate Hrs).
  rewrite healNode_obj in H.
  destruct (heal_designer fs) as [fs1|]; [|discriminate].
  destruct Hn as [<-|Hn].
  - unfold node_routes in Hrs.
    case_array (get "routes" fs) routes R; try discriminate.
    injection Hrs as <-.
    destruct (map_opt heal_route routes) as [routes'|] eqn:M; [|discriminate].
    apply map_opt_Forall2 in M. clear - M. intros Hnull.
    induction M as [|r r' l l' Hr _ IHl]; [contradiction|].
    destruct Hnull as [->|Hnull]; [discriminate Hr|exact (IHl Hnull)].
  - apply In_below in Hn.
    destruct Hn as [routes [route [sub [n0 [R [Hroute [F [Hn0 Hn]]]]]]]].
    pose proof R as R0. unfold node_routes in R.
    destruct (get "routes" fs) as [[| | | |routes0|]|]; try discriminate.
    injection R as ->.
    destruct (map_opt heal_route routes) as [routes'|] eqn:M; [|discriminate].
    apply map_opt_Forall2 in M.
    assert (Hr : exists route', heal_route route = Some route').
    { clear - M Hroute. induction M as [|r r' l l' Hr _ IHl]; [contradiction|].
      destruct Hroute as [->|Hroute]; [exists r'; exact Hr|exact (IHl Hroute)]. }
    destruct Hr as [route' Hr].
    destruct (heal_route_healed _ _ Hr) as [_ Hsub]. rewrite F in Hsub.
    destruct Hsub as [sub' [Hsub _]]. apply map_opt_Forall2 in Hsub.
    assert (Hy : exists n0', healNode n0 = Some n0').
    { clear - Hsub Hn0. induction Hsub as [|a b l l' Hab _ IHl]; [contradiction|].
      destruct Hn0 as [->|Hn0]; [exists b; exact Hab|exact (IHl Hn0)]. }
    destruct Hy as [n0' Hy].
    apply (IH routes route sub n0) with (y := n0') (n := n); assumption.
Qed.

(** X14. A [null] among the routes of a node, at any depth of the tree
    outside the schedule nodes of the root flow, makes the healing of
    [create_scenario] throw: the tool fails before any submission. *)
Theorem null_route_stops_create_scenario (post : platform)
    (live : option (list string)) (parsed : json) (flow0 : list json)
    (n : json) (routes : list json) :
  flow_of parsed = Some flow0 ->
  In n (treeNodes (filter (fun x => negb (is_schedule x)) flow0)) ->
  node_routes n = Some routes ->
  In JNull routes ->
  create_scenario post live parsed = (HealingThrew, 0).
Proof.
  intros F Hn Hrs Hnull. unfold create_scenario.
  destruct (heal parsed) as [h|] eqn:H; [exfalso|reflexivity].
  destruct parsed as [| | | |items|fs]; try discriminate.
  unfold flow_of in F. simpl in F.
  destruct (get "flow" fs) as [[| | | |F0|]|] eqn:E; try discriminate.
  injection F as ->. unfold heal in H. rewrite E in H.
  rewrite with_metadata_flow, get_set_same in H.
  rewrite (normalizedFlow_filter flow0) in H.
  destruct (healFlow (filter (fun x => negb (is_schedule x)) flow0))
    as [healedFlow|] eqn:HF; [|discriminate].
  unfold healFlow in HF. apply map_opt_Forall2 in HF.
  apply In_treeNodes in Hn. destruct Hn as [x [Hx Hn]].
  assert (Hy : exists y, healNode x = Some y).
  { clear - HF Hx. induction HF as [|a b l l' Hab _ IHl]; [contradiction|].
    destruct Hx as [->|Hx]; [exists b; exact Hab|exact (IHl Hx)]. }
  destruct Hy as [y Hy].
  exact (healNode_routes_not_null x y Hy n routes Hn Hrs Hnull).
Qed.

Lemma null_route_stops_create_scenario_witness :
  create_scenario (fun _ body => Accepted body) None
    (JObj [("flow", JArr [JObj [("module", JStr "builtin:BasicRouter");
                                ("routes", JArr [JNull])]])])
  = (HealingThrew, 0).
Proof.
  apply (null_route_stops_create_scenario _ _ _
           [JObj [("module", JStr "builtin:BasicRouter"); ("routes", JArr [JNull])]]
           (JObj [("module", JStr "builtin:BasicRouter"); ("routes", JArr [JNull])])
           [JNull]).
  - reflexivity.
  - vm_compute. left. reflexivity.
  - reflexivity.
  - left. reflexivity.
Defined.
(** ** More of the validator *)

Section Reports.

Variable env : environment.

(** *** The live catalog *)

Lemma unavailable_error_names (moduleId : string) (suggestion : option string) :
  includes moduleId (unavailable_error moduleId suggestion) = true.
Proof.
  unfold unavailable_error, quoted. destruct suggestion as [s|].
  - replace ("Module " +++ (dq +++ moduleId +++ dq) +++
             " is not available in this Make account/region. Suggested replacement: " +++
             (dq +++ s +++ dq) +++ ".")
      with (("Module " +++ dq) +++ moduleId +++
            (dq +++ " is not available in this Make account/region. Suggested replacement: " +++
             (dq +++ s +++ dq) +++ ".")).
    + apply includes_append.
    + rewrite !append_assoc. reflexivity.
  - replace ("Module " +++ (dq +++ moduleId +++ dq) +++
             " is not available in this Make account/region.")
      with (("Module " +++ dq) +++ moduleId +++
            (dq +++ " is not available in this Make account/region.")).
    + apply includes_append.
    + rewrite !append_assoc. reflexivity.
Qed.

(** The live check does not throw; it leaves an error and an issue for
    every entry that the live catalog lacks. *)
Lemma live_checks_run (live : list string) (entries : list (string * list string))
    (s : vstate) :
  exists issues s',
    live_checks live entries s = (Ok issues, s') /\
    errors_kept s s' /\
    forall e, In e entries -> str_mem (fst e) live = false ->
      (exists err, In err (errors s') /\ includes (fst e) err = true) /\
      (exists i, In i issues /\ issue_module i = fst e /\ issue_paths i = snd e).
Proof.
  revert s. induction entries as [|e rest IH]; intros s.
  - exists [], s. split; [reflexivity|]. split; [intros x Hx; exact Hx|].
    intros e [].
  - simpl. unfold bind at 1. unfold live_check.
    destruct (str_mem (fst e) live) eqn:M.
    + simpl. destruct (IH s) as [more [s' [Hrun [K H]]]].
      unfold bind. rewrite Hrun. exists more, s'. split; [reflexivity|].
      split; [exact K|].
      intros e' [<-|He'] Hm; [congruence|exact (H e' He' Hm)].
    + set (suggestion := match resolveClosestLiveModule (fst e) live with
                         | Some x => if nonempty x then Some x else None
                         | None => None
                         end).
      simpl.
      set (s1 := {| parsed := parsed s;
                    errors := errors s ++ [unavailable_error (fst e) suggestion];
                    warnings := warnings s;
                    validatedModules := validatedModules s |}).
      destruct (IH s1) as [more [s' [Hrun [K H]]]].
      unfold bind. rewrite Hrun.
      eexists _, s'. split; [reflexivity|]. split.
      * intros x Hx. apply K. simpl. apply in_or_app. left. exact Hx.
      * intros e' [<-|He'] Hm.
        -- split.
           ++ exists (unavailable_error (fst e) suggestion). split.
              ** apply K. simpl. apply in_or_app. right. left. reflexivity.
              ** apply unavailable_error_names.
           ++ eexists. split; [left; reflexivity|]. split; reflexivity.
        -- destruct (H e' He' Hm) as [A [i [Hi B]]]. split; [exact A|].
           exists i. split; [right; exact Hi|exact B].
Qed.

Lemma registry_issues_keeps (entries : list (string * list string))
    (issues : list issue) (i : issue) :
  In i issues -> In i (registry_issues entries issues).
Proof.
  revert issues. induction entries as [|[m paths] rest IH]; intros issues H;
    simpl; [exact H|].
  destruct (getProblematicModuleInfo m); [|exact (IH _ H)].
  destruct (existsb _ issues); [exact (IH _ H)|].
  apply IH. apply in_or_app. left. exact H.
Qed.

Lemma add_path_has (m p : string) (acc : list (string * list string)) :
  In m (map fst (add_path m p acc)) /\
  forall k, In k (map fst acc) -> In k (map fst (add_path m p acc)).
Proof.
  induction acc as [|[m' ps] rest [IH1 IH2]]; simpl.
  - split; [left; reflexivity|intros k []].
  - destruct (String.eqb m m') eqn:E; simpl.
    + apply String.eqb_eq in E. subst. split; [left; reflexivity|].
      intros k Hk. exact Hk.
    + split; [right; exact IH1|].
      intros k [<-|Hk]; [left; reflexivity|right; exact (IH2 k Hk)].
Qed.

Lemma byModule_has (allModules : list (string * string)) (m : string) :
  In m (map fst allModules) -> In m (map fst (byModule allModules)).
Proof.
  unfold byModule.
  assert (G : forall acc,
            In m (map fst allModules) \/ In m (map fst acc) ->
            In m (map fst (fold_left (fun acc mp => add_path (fst mp) (snd mp) acc)
                                     allModules acc))).
  { induction allModules as [|[m' p] rest IH]; simpl; intros acc H.
    - destruct H as [[]|H]. exact H.
    - apply IH. destruct H as [[<-|H]|H].
      + right. exact (proj1 (add_path_has _ _ _)).
      + left. exact H.
      + right. exact (proj2 (add_path_has _ _ _) m H). }
  intros H. apply G. left. exact H.
Qed.

Lemma live_misses_in_report (p : json) (live : list string)
    (fl : list json) (r : report) (s : vstate) (m : string) :
  liveIds env = Some live ->
  validate_scenario env p = (Ok r, s) ->
  flow_of p = Some fl ->
  In m (map fst (extractAllFlowModules fl "Flow")) ->
  ~ In m live ->
  liveCatalogChecked r = true /\
  (exists e, In e (report_errors r) /\ includes m e = true) /\
  (exists i, In i (incompatibleModules r) /\ issue_module i = m).
Proof.
  intros Hlive Hrun Hflow Hm Hmiss.
  unfold validate_scenario, validate_handler in Hrun.
  apply bind_Ok in Hrun. destruct Hrun as [p0 [s0 [Hread Hrun]]].
  injection Hread as <- <-. simpl parsed in Hrun.
  unfold flow_of in Hflow.
  case_array (field "flow" p) flow0 F; try discriminate.
  injection Hflow as ->.
  assert (Body : (flow_checks env p ;;; metadata_warning p ;;;
                  compat <- compatibility env p ;; make_report compat)
                   (initial_state p) = (Ok r, s)).
  { destruct p; try exact Hrun. discriminate. }
  clear Hrun.
  apply bind_Ok in Body. destruct Body as [[] [s1 [_ Body]]].
  apply bind_Ok in Body. destruct Body as [[] [s2 [_ Body]]].
  apply bind_Ok in Body. destruct Body as [compat [s3 [Hcompat Body]]].
  unfold compatibility in Hcompat. rewrite F, Hlive in Hcompat.
  set (entries := byModule (extractAllFlowModules fl "Flow")) in Hcompat.
  destruct (live_checks_run live entries s2) as [issues [s' [Hchecks [_ H]]]].
  unfold bind in Hcompat. rewrite Hchecks in Hcompat.
  injection Hcompat as <- <-.
  unfold make_report in Body. injection Body as <- _. simpl.
  apply byModule_has in Hm. fold entries in Hm.
  apply in_map_iff in Hm. destruct Hm as [e [<- He]].
  assert (M : str_mem (fst e) live = false).
  { destruct (str_mem (fst e) live) eqn:M; [|reflexivity].
    apply str_mem_In in M. contradiction. }
  destruct (H e He M) as [A [i [Hi [B _]]]].
  split; [reflexivity|]. split; [exact A|].
  exists i. split; [apply registry_issues_keeps; exact Hi|exact B].
Qed.

(** X15. With a live catalog, when [validate_scenario] returns a report,
    every module id that [extractAllFlowModules] finds in the blueprint and
    that the live catalog lacks is named in an error of the report and has
    an entry among the incompatible modules; the report says that the live
    catalog was checked. *)
Theorem live_catalog_misses_are_reported (p : json) (live : list string)
    (fl : list json) (r : report) (s : vstate) (m : string) :
  liveIds env = Some live ->
  validate_scenario env p = (Ok r, s) ->
  flow_of p = Some fl ->
  In m (map fst (extractAllFlowModules fl "Flow")) ->
  ~ In m live ->
  liveCatalogChecked r = true /\
  (exists e, In e (report_errors r) /\ includes m e = true) /\
  (exists i, In i (incompatibleModules r) /\ issue_module i = m).
Proof. exact (live_misses_in_report p live fl r s m). Qed.

(** *** The modules validated *)

Lemma keeps_ret {A : Type} (a : A) : keeps_validated (ret a).
Proof. intros s. reflexivity. Qed.

Lemma keeps_throw {A : Type} : keeps_validated (@throw A).
Proof. intros s. reflexivity. Qed.

Lemma keeps_push_error (e : string) : keeps_validated (push_error e).
Proof. intros s. reflexivity. Qed.

Lemma keeps_push_warning (w : string) : keeps_validated (push_warning w).
Proof. intros s. reflexivity. Qed.

Lemma keeps_bind {A B : Type} (c : V A) (k : A -> V B) :
  keeps_validated c -> (forall a, keeps_validated (k a)) -> keeps_validated (bind c k).
Proof.
  intros Hc Hk s. unfold bind. specialize (Hc s).
  destruct (c s) as [[a|] s1]; simpl in *; [|exact Hc].
  rewrite (Hk a s1). exact Hc.
Qed.

Lemma keeps_when (b : bool) (c : V unit) :
  keeps_validated c -> keeps_validated (when b c).
Proof. intros H. destruct b; [exact H|apply keeps_ret]. Qed.

Lemma keeps_for_of {A : Type} (f : A -> V unit) (l : list A) :
  (forall x, keeps_validated (f x)) -> keeps_validated (for_of f l).
Proof.
  intros H. induction l as [|x rest IH]; simpl; [apply keeps_ret|].
  apply keeps_bind; [apply H|intros _; exact IH].
Qed.

Lemma keeps_version_warnings (pos m : string) (fs : fields) :
  keeps_validated (version_warnings pos m fs).
Proof.
  unfold version_warnings. destruct (get "version" fs); [|apply keeps_ret].
  destruct (verifiedVersion m);
    [apply keeps_when|]; apply keeps_push_warning.
Qed.

Lemma keeps_registry_warnings (pos m : string) (fs : fields) :
  keeps_validated (registry_warnings pos m fs).
Proof.
  unfold registry_warnings. apply keeps_bind.
  - destruct (getProblematicModuleInfo m); [apply keeps_push_warning|apply keeps_ret].
  - intros _. destruct (_ && _); [apply keeps_ret|].
    apply keeps_when, keeps_push_warning.
Qed.

Lemma keeps_check_param (pos m : string) (fs : fields) (p : param) :
  keeps_validated (check_param pos m fs p).
Proof.
  unfold check_param. destruct (param_required p); [|apply keeps_ret].
  destruct (_ && _); apply keeps_when, keeps_push_error.
Qed.

Lemma keeps_first_module_warning (flow : list json) :
  keeps_validated (first_module_warning env flow).
Proof.
  unfold first_module_warning. destruct flow as [|first rest]; [apply keeps_ret|].
  destruct (field "module" first) as [m|]; [|apply keeps_ret].
  destruct (truthy m); [|apply keeps_ret].
  destruct (match m with JStr id => Ok (getModule env id) | _ => getModuleOther env m end)
    as [[row|]|]; try apply keeps_ret; [|apply keeps_throw].
  apply keeps_when, keeps_push_warning.
Qed.

Lemma keeps_live_checks (live : list string) (entries : list (string * list string)) :
  keeps_validated (live_checks live entries).
Proof.
  induction entries as [|e rest IH]; simpl; [apply keeps_ret|].
  apply keeps_bind.
  - unfold live_check. destruct (str_mem (fst e) live); [apply keeps_ret|].
    apply keeps_bind; [apply keeps_push_error|intros _; apply keeps_ret].
  - intros here. apply keeps_bind; [exact IH|intros more; apply keeps_ret].
Qed.

Lemma keeps_compatibility (p : json) : keeps_validated (compatibility env p).
Proof.
  unfold compatibility.
  destruct (field "flow" p) as [[| | | |flow|]|]; try apply keeps_ret.
  apply keeps_bind; [|intros li; apply keeps_ret].
  destruct (liveIds env); [apply keeps_live_checks|apply keeps_ret].
Qed.

Lemma keeps_run {A : Type} (c : V A) (s s' : vstate) (a : A) :
  keeps_validated c -> c s = (Ok a, s') -> validatedModules s' = validatedModules s.
Proof. intros H E. specialize (H s). rewrite E in H. exact H. Qed.

(** A loop that ends without a throw has pushed what its turns push. *)
Lemma for_indexed_validated (f : json -> nat -> V unit) (g : json -> list string)
    (l : list json) :
  (forall x j sa sb, In x l -> f x j sa = (Ok tt, sb) ->
                     validatedModules sb = validatedModules sa ++ g x) ->
  forall i s s',
    for_indexed f l i s = (Ok tt, s') ->
    validatedModules s' = validatedModules s ++ flat_map g l.
Proof.
  induction l as [|x rest IH]; intros H i s s' Hrun.
  - injection Hrun as <-. simpl. rewrite app_nil_r. reflexivity.
  - simpl in Hrun. apply bind_Ok in Hrun. destruct Hrun as [[] [s1 [Hx Hrest]]].
    rewrite (IH (fun y j sa sb Hy => H y j sa sb (or_intror Hy)) (S i) s1 s' Hrest).
    rewrite (H x i s s1 (or_introl eq_refl) Hx). simpl. rewrite app_assoc.
    reflexivity.
Qed.

Lemma validated_module_descends (node : json) :
  descends env node = false -> validated_module env node = [].
Proof.
  destruct node as [| | | | |fs]; try reflexivity.
  unfold descends, validated_module. simpl.
  destruct (get "module" fs) as [[| | |m| |]|]; try reflexivity.
  intros ->. reflexivity.
Qed.

Lemma validateNode_validated :
  forall node pos s s',
    validateNode env node pos s = (Ok tt, s') ->
    validatedModules s' =
    validatedModules s ++ flat_map (validated_module env) (visitedNodes env node).
Proof.
  apply (node_induction (fun node =>
    forall pos s s',
      validateNode env node pos s = (Ok tt, s') ->
      validatedModules s' =
      validatedModules s ++ flat_map (validated_module env) (visitedNodes env node))).
  intros node IH pos s s' Hrun. rewrite (visitedNodes_eq env).
  destruct node as [| | | | |fs];
    try (injection Hrun as <-; simpl; rewrite app_nil_r; reflexivity).
  rewrite (validateNode_obj env) in Hrun.
  cbn [flat_map]. unfold descends, validated_module. cbn [field].
  destruct (get "module" fs) as [[| | |m| |]|] eqn:M;
    try (injection Hrun as <-; simpl; rewrite app_nil_r; reflexivity).
  destruct (nonempty m) eqn:N; cbn [negb andb] in Hrun |- *;
    [|injection Hrun as <-; simpl; rewrite app_nil_r; reflexivity].
  apply bind_Ok in Hrun. destruct Hrun as [[] [s1 [H1 Hrun]]].
  pose proof (keeps_run _ _ _ _ (keeps_when _ _ (keeps_push_warning _)) H1) as K1.
  destruct (getModule env m) as [schema|] eqn:G; cbn [is_some].
  - apply bind_Ok in Hrun. destruct Hrun as [[] [s2 [H2 Hrun]]].
    apply bind_Ok in Hrun. destruct Hrun as [[] [s3 [H3 Hrun]]].
    apply bind_Ok in Hrun. destruct Hrun as [[] [s4 [H4 Hrun]]].
    apply bind_Ok in Hrun. destruct Hrun as [[] [s5 [H5 Hrun]]].
    pose proof (keeps_run _ _ _ _ (keeps_version_warnings _ _ _) H2) as K2.
    pose proof (keeps_run _ _ _ _ (keeps_registry_warnings _ _ _) H3) as K3.
    injection H4 as <-.
    pose proof (keeps_run _ _ _ _
                  (keeps_for_of _ _ (fun p => keeps_check_param pos m fs p)) H5) as K5.
    simpl in K5.
    assert (S5 : validatedModules s5 = validatedModules s ++ [m])
      by (rewrite K5, K3, K2, K1; reflexivity).
    unfold validate_routes in Hrun. unfold visited_below, node_routes.
    case_array (get "routes" fs) routes R;
      try (injection Hrun as <-; rewrite S5; simpl; reflexivity).
    assert (NR : node_routes (JObj fs) = Some routes)
      by (unfold node_routes; rewrite R; reflexivity).
    assert (T : forall route r sa sb, In route routes ->
              validate_route env route (route_prefix pos r) sa = (Ok tt, sb) ->
              validatedModules sb = validatedModules sa ++
                flat_map (validated_module env)
                  match route_flow route with
                  | Some sub => flat_map (visitedNodes env) sub
                  | None => []
                  end).
    { intros route r sa sb Hroute Hturn.
      destruct route as [| | | | |rfs];
        try (injection Hturn as <-; simpl; rewrite app_nil_r; reflexivity);
        [discriminate|].
      unfold route_flow. simpl in Hturn.
      case_array (get "flow" rfs) sub F;
        try (injection Hturn as <-; simpl; rewrite app_nil_r; reflexivity).
      unfold validateFlow in Hturn. rewrite flat_map_flat_map.
      refine (for_indexed_validated _ _ sub _ 0 sa sb Hturn).
      intros n i sc sd Hn Hnode.
      apply (IH routes (JObj rfs) sub n NR Hroute) with (pos := pos_of (route_prefix pos r) i);
        try assumption.
      unfold route_flow. rewrite F. reflexivity. }
    rewrite (for_indexed_validated _ _ routes T 0 s5 s' Hrun).
    rewrite S5, <- app_assoc. simpl. f_equal. f_equal.
    rewrite flat_map_flat_map. reflexivity.
  - injection Hrun as <-. simpl. rewrite K1, app_nil_r. reflexivity.
Qed.

(** X16. When [validate_scenario] returns a report for a blueprint with a
    flow array, [modulesValidated] lists, in document order, the module id of
    every node the validator reaches whose module id is a non-empty string
    known to the static catalog, and nothing else; every id it lists is in
    the catalog. *)
Theorem modulesValidated_are_the_known_nodes (p : json) (flow : list json)
    (r : report) (s : vstate) :
  validate_scenario env p = (Ok r, s) ->
  flow_of p = Some flow ->
  modulesValidated r
    = flat_map (validated_module env) (flat_map (visitedNodes env) flow) /\
  Forall (fun m => getModule env m <> None) (modulesValidated r).
Proof.
  intros Hrun Hflow.
  assert (E : modulesValidated r
              = flat_map (validated_module env) (flat_map (visitedNodes env) flow)).
  { unfold validate_scenario, validate_handler in Hrun.
    apply bind_Ok in Hrun. destruct Hrun as [p0 [s0 [Hread Hrun]]].
    injection Hread as <- <-. simpl parsed in Hrun.
    unfold flow_of in Hflow.
    case_array (field "flow" p) flow0 F; try discriminate.
    injection Hflow as ->.
    assert (Body : (flow_checks env p ;;; metadata_warning p ;;;
                    compat <- compatibility env p ;; make_report compat)
                     (initial_state p) = (Ok r, s)).
    { destruct p; try exact Hrun. discriminate. }
    clear Hrun.
    apply bind_Ok in Body. destruct Body as [[] [s1 [Hchecks Body]]].
    apply bind_Ok in Body. destruct Body as [[] [s2 [Hmeta Body]]].
    apply bind_Ok in Body. destruct Body as [compat [s3 [Hcompat Body]]].
    unfold make_report in Body. injection Body as <- _. simpl.
    rewrite (keeps_run _ _ _ _ (keeps_compatibility p) Hcompat).
    rewrite (keeps_run _ _ _ _ (keeps_when _ _ (keeps_push_warning _)) Hmeta).
    unfold flow_checks in Hchecks. rewrite F in Hchecks.
    apply bind_Ok in Hchecks. destruct Hchecks as [[] [sa [Hempty Hchecks]]].
    apply bind_Ok in Hchecks. destruct Hchecks as [[] [sb [Hvalidate Hfirst]]].
    rewrite (keeps_run _ _ _ _ (keeps_first_module_warning flow) Hfirst).
    unfold validateFlow in Hvalidate. rewrite flat_map_flat_map.
    rewrite (for_indexed_validated _ _ flow
               (fun n i sc sd _ H => validateNode_validated n _ sc sd H)
               0 sa sb Hvalidate).
    rewrite (keeps_run _ _ _ _ (keeps_when _ _ (keeps_push_error _)) Hempty).
    reflexivity. }
  split; [exact E|]. rewrite E. apply Forall_forall. intros m Hm.
  apply in_flat_map in Hm. destruct Hm as [n [_ Hm]].
  unfold validated_module in Hm.
  destruct (field "module" n) as [[| | |m0| |]|]; try contradiction.
  destruct (nonempty m0 && is_some (getModule env m0)) eqn:K; [|contradiction].
  destruct Hm as [<-|[]]. apply andb_true_iff in K.
  destruct (getModule env m0); [discriminate|]. destruct K as [_ K]. discriminate K.
Qed.

(** *** A blueprint without a flow *)

Lemma without_flow_report (p : json) :
  p <> JNull ->
  flow_of p = None ->
  exists r s,
    validate_scenario env p = (Ok r, s) /\
    valid r = false /\
    report_errors r
      = ["Blueprint must contain a " +++ quoted "flow" +++ " array of modules."] /\
    modulesValidated r = [] /\
    liveCatalogChecked r = false /\
    verifiedRegistryChecked r = false /\
    incompatibleModules r = [].
Proof.
  intros Hnull Hflow. unfold validate_scenario, validate_handler.
  unfold bind at 1. simpl.
  assert (E : forall s0,
             match p with
             | JNull => throw
             | _ => flow_checks env p ;;; metadata_warning p ;;;
                    compat <- compatibility env p ;; make_report compat
             end s0
             = (flow_checks env p ;;; metadata_warning p ;;;
                compat <- compatibility env p ;; make_report compat) s0).
  { intros s0. destruct p; try reflexivity. contradiction. }
  rewrite E. clear E.
  unfold flow_checks, compatibility, flow_of in *.
  destruct (field "flow" p) as [[| | | |flow|]|]; try discriminate;
    unfold bind, push_error, metadata_warning, when;
    destruct (negb (truthy_opt (field "metadata" p)));
    simpl; eexists _, _; repeat split; reflexivity.
Qed.

(** X17. For a blueprint other than [null] whose [flow] is missing or is
    not an array, [validate_scenario] returns a report that is not valid,
    with the one error that asks for a flow array, no module validated, and
    neither the live catalog nor the verified registry checked. *)
Theorem blueprint_without_flow_is_invalid (p : json) :
  p <> JNull ->
  flow_of p = None ->
  exists r s,
    validate_scenario env p = (Ok r, s) /\
    valid r = false /\
    report_errors r
      = ["Blueprint must contain a " +++ quoted "flow" +++ " array of modules."] /\
    modulesValidated r = [] /\
    liveCatalogChecked r = false /\
    verifiedRegistryChecked r = false /\
    incompatibleModules r = [].
Proof. exact (without_flow_report p). Qed.

(** *** A [null] route *)

Lemma for_indexed_turn_ok (f : json -> nat -> V unit) (l : list json) :
  forall i s s',
    for_indexed f l i s = (Ok tt, s') ->
    forall x, In x l -> exists j sa sb, f x j sa = (Ok tt, sb).
Proof.
  induction l as [|y rest IH]; intros i s s' Hrun x Hx; [contradiction|].
  simpl in Hrun. apply bind_Ok in Hrun. destruct Hrun as [[] [s1 [Hy Hrest]]].
  destruct Hx as [<-|Hx].
  - exists i, s, s1. exact Hy.
  - exact (IH (S i) s1 s' Hrest x Hx).
Qed.

Lemma validateNode_routes_not_null :
  forall node pos s s',
    validateNode env node pos s = (Ok tt, s') ->
    forall n routes,
      In n (visitedNodes env node) -> descends env n = true ->
      node_routes n = Some routes -> ~ In JNull routes.
Proof.
  apply (node_induction (fun node =>
    forall pos s s',
      validateNode env node pos s = (Ok tt, s') ->
      forall n routes,
        In n (visitedNodes env node) -> descends env n = true ->
        node_routes n = Some routes -> ~ In JNull routes)).
  intros node IH pos s s' Hrun n rs Hn Hd Hrs.
  rewrite (visitedNodes_eq env) in Hn.
  destruct node as [| | | | |fs];
    try (destruct Hn as [<-|[]]; discriminate).
  rewrite (validateNode_obj env) in Hrun.
  assert (Hbelow : descends env (JObj fs) = true ->
            forall routes, node_routes (JObj fs) = Some routes ->
            exists s5, for_indexed (fun route r =>
                         validate_route env route (route_prefix pos r)) routes 0 s5
                       = (Ok tt, s')).
  { intros D routes R. simpl in D. unfold node_routes in R.
    destruct (get "module" fs) as [[| | |m0| |]|]; try discriminate.
    apply andb_true_iff in D. destruct D as [Dne Dknown].
    rewrite Dne in Hrun. simpl in Hrun.
    destruct (getModule env m0) as [schema|]; [|discriminate].
    apply bind_Ok in Hrun. destruct Hrun as [[] [s1 [_ Hrun]]].
    apply bind_Ok in Hrun. destruct Hrun as [[] [s2 [_ Hrun]]].
    apply bind_Ok in Hrun. destruct Hrun as [[] [s3 [_ Hrun]]].
    apply bind_Ok in Hrun. destruct Hrun as [[] [s4 [_ Hrun]]].
    apply bind_Ok in Hrun. destruct Hrun as [[] [s5 [_ Hrun]]].
    unfold validate_routes in Hrun.
    destruct (get "routes" fs) as [[| | | |routes0|]|]; try discriminate.
    injection R as ->. exists s5. exact Hrun. }
  destruct Hn as [<-|Hn].
  - destruct (Hbelow Hd rs Hrs) as [s5 Hloop].
    intros Hnull.
    destruct (for_indexed_turn_ok _ rs 0 s5 s' Hloop JNull Hnull)
      as [j [sa [sb Hturn]]].
    discriminate Hturn.
  - destruct (descends env (JObj fs)) eqn:D; [|contradiction].
    unfold visited_below in Hn.
    destruct (node_routes (JObj fs)) as [routes|] eqn:R; [|contradiction].
    destruct (Hbelow eq_refl routes eq_refl) as [s5 Hloop].
    apply in_flat_map in Hn. destruct Hn as [route [Hroute Hn]].
    destruct (route_flow route) as [sub|] eqn:F; [|contradiction].
    apply in_flat_map in Hn. destruct Hn as [n0 [Hn0 Hn]].
    destruct (for_indexed_turn_ok _ routes 0 s5 s' Hloop route Hroute)
      as [r [sa [sb Hturn]]].
    destruct route as [| | | | |rfs]; try discriminate.
    unfold route_flow in F. simpl in Hturn.
    destruct (get "flow" rfs) as [[| | | |sub0|]|] eqn:G; try discriminate.
    injection F as <-. unfold validateFlow in Hturn.
    destruct (for_indexed_turn_ok _ sub0 0 sa sb Hturn n0 Hn0)
      as [i [sc [sd Hnode]]].
    apply (IH routes (JObj rfs) sub0 n0 eq_refl Hroute) with (pos := pos_of (route_prefix pos r) i)
      (s := sc) (s' := sd) (n := n); try assumption.
    unfold route_flow. rewrite G. reflexivity.
Qed.

(** X18. A [null] among the routes of a node that the validator reaches and
    whose module the catalog knows makes [validate_scenario] throw: the tool
    answers with its failure message and no report. *)
Theorem null_route_stops_validate_scenario (p : json) (flow : list json)
    (n : json) (routes : list json) :
  flow_of p = Some flow ->
  In n (flat_map (visitedNodes env) flow) ->
  descends env n = true ->
  node_routes n = Some routes ->
  In JNull routes ->
  fst (validate_scenario env p) = Thrown.
Proof.
  intros Hflow Hn Hd Hrs Hnull.
  destruct (validate_scenario env p) as [[r|] s] eqn:Hrun; [exfalso|reflexivity].
  unfold validate_scenario, validate_handler in Hrun.
  apply bind_Ok in Hrun. destruct Hrun as [p0 [s0 [Hread Hrun]]].
  injection Hread as <- <-. simpl parsed in Hrun.
  unfold flow_of in Hflow.
  case_array (field "flow" p) flow0 F; try discriminate.
  injection Hflow as ->.
  assert (Body : (flow_checks env p ;;; metadata_warning p ;;;
                  compat <- compatibility env p ;; make_report compat)
                   (initial_state p) = (Ok r, s)).
  { destruct p; try exact Hrun. discriminate. }
  clear Hrun.
  apply bind_Ok in Body. destruct Body as [[] [s1 [Hchecks _]]].
  unfold flow_checks in Hchecks. rewrite F in Hchecks.
  apply bind_Ok in Hchecks. destruct Hchecks as [[] [sa [_ Hchecks]]].
  apply bind_Ok in Hchecks. destruct Hchecks as [[] [sb [Hvalidate _]]].
  apply in_flat_map in Hn. destruct Hn as [n0 [Hn0 Hn]].
  unfold validateFlow in Hvalidate.
  destruct (for_indexed_turn_ok _ flow 0 sa sb Hvalidate n0 Hn0)
    as [i [sc [sd Hnode]]].
  exact (validateNode_routes_not_null n0 _ sc sd Hnode n routes Hn Hd Hrs Hnull).
Qed.

Lemma valid_report_has_no_error (p : json) (r : report) (s : vstate) :
  validate_scenario env p = (Ok r, s) -> valid r = true -> report_errors r = [].
Proof.
  intros Hrun. unfold validate_scenario, validate_handler in Hrun.
  apply bind_Ok in Hrun. destruct Hrun as [p0 [s0 [Hread Hrun]]].
  injection Hread as <- <-. simpl parsed in Hrun.
  assert (Body : (flow_checks env p ;;; metadata_warning p ;;;
                  compat <- compatibility env p ;; make_report compat)
                   (initial_state p) = (Ok r, s)).
  { destruct p; try exact Hrun. discriminate. }
  clear Hrun.
  apply bind_Ok in Body. destruct Body as [[] [s1 [_ Body]]].
  apply bind_Ok in Body. destruct Body as [[] [s2 [_ Body]]].
  apply bind_Ok in Body. destruct Body as [compat [s3 [_ Body]]].
  unfold make_report in Body. injection Body as <- _. simpl.
  destruct (errors s3); [reflexivity|discriminate].
Qed.

End Reports.

(** *** The reports of the sample blueprints *)

Lemma live_catalog_misses_are_reported_witness :
  exists r s,
    validate_scenario (sample_env (Some ["gateway:CustomWebHook"])) correct_blueprint
      = (Ok r, s) /\
    liveCatalogChecked r = true /\
    (exists e, In e (report_errors r) /\ includes "slack:ActionPostMessage" e = true) /\
    (exists i, In i (incompatibleModules r) /\ issue_module i = "slack:ActionPostMessage").
Proof.
  destruct (validate_scenario (sample_env (Some ["gateway:CustomWebHook"])) correct_blueprint)
    as [[r|] s] eqn:Run; [|vm_compute in Run; discriminate].
  exists r, s. split; [reflexivity|].
  apply (live_catalog_misses_are_reported
           (sample_env (Some ["gateway:CustomWebHook"])) correct_blueprint
           ["gateway:CustomWebHook"] correct_flow r s "slack:ActionPostMessage").
  - reflexivity.
  - exact Run.
  - reflexivity.
  - vm_compute. right. left. reflexivity.
  - vm_compute. intros [H|[]]. discriminate H.
Defined.

Lemma modulesValidated_are_the_known_nodes_witness :
  exists r s,
    validate_scenario (sample_env None) unknown_below_router = (Ok r, s) /\
    modulesValidated r
      = flat_map (validated_module (sample_env None))
          (flat_map (visitedNodes (sample_env None)) unknown_below_router_flow) /\
    Forall (fun m => getModule (sample_env None) m <> None) (modulesValidated r).
Proof.
  destruct (validate_scenario (sample_env None) unknown_below_router)
    as [[r|] s] eqn:Run; [|vm_compute in Run; discriminate].
  exists r, s. split; [reflexivity|].
  exact (modulesValidated_are_the_known_nodes (sample_env None) unknown_below_router
           unknown_below_router_flow r s Run eq_refl).
Defined.

Lemma blueprint_without_flow_is_invalid_witness :
  exists r s,
    validate_scenario (sample_env None) (JObj [("name", JStr "draft")]) = (Ok r, s) /\
    valid r = false /\
    report_errors r
      = ["Blueprint must contain a " +++ quoted "flow" +++ " array of modules."] /\
    modulesValidated r = [] /\
    liveCatalogChecked r = false /\
    verifiedRegistryChecked r = false /\
    incompatibleModules r = [].
Proof.
  apply (blueprint_without_flow_is_invalid (sample_env None)
           (JObj [("name", JStr "draft")])).
  - discriminate.
  - reflexivity.
Defined.

Lemma null_route_stops_validate_scenario_witness :
  fst (validate_scenario (sample_env None)
         (JObj [("flow", JArr [JObj [("id", JNum 1); ("module", JStr "builtin:BasicRouter");
                                     ("routes", JArr [JNull])]])]))
  = Thrown.
Proof.
  apply (null_route_stops_validate_scenario (sample_env None) _
           [JObj [("id", JNum 1); ("module", JStr "builtin:BasicRouter");
                  ("routes", JArr [JNull])]]
           (JObj [("id", JNum 1); ("module", JStr "builtin:BasicRouter");
                  ("routes", JArr [JNull])])
           [JNull]).
  - reflexivity.
  - vm_compute. left. reflexivity.
  - reflexivity.
  - reflexivity.
  - left. reflexivity.
Defined.
(** ** More of [create_scenario] *)

(** *** The number of submissions *)

(** X19. [create_scenario] submits the blueprint at most [maxAttempts] = 5
    times; it submits nothing exactly when healing threw or a module was
    found unavailable; and it never ends in the answer of a loop left
    without a response. *)
Theorem create_scenario_submissions (post : platform) (live : option (list string))
    (parsed : json) :
  snd (create_scenario post live parsed) <= maxAttempts /\
  fst (create_scenario post live parsed) <> NoResponseAfterRetries /\
  (snd (create_scenario post live parsed) = 0 <->
   fst (create_scenario post live parsed) = HealingThrew \/
   exists unavailable,
     fst (create_scenario post live parsed) = CannotDeploy unavailable).
Proof.
  unfold create_scenario. destruct (heal parsed) as [h|].
  2:{ split; [apply Nat.le_0_l|]. split; [discriminate|].
      split; [left; reflexivity|reflexivity]. }
  destruct (remap_to_live live (blueprint_of h)) as [[parsed1 remapped] unavailable].
  destruct unavailable as [|u us].
  2:{ split; [apply Nat.le_0_l|]. split; [discriminate|].
      split; [right; eexists; reflexivity|reflexivity]. }
  assert (Hpos : 0 < maxAttempts) by (unfold maxAttempts; lia).
  destruct (retry_loop_spec post live maxAttempts 0 (start_state parsed1 remapped)
              Hpos eq_refl (once_only_start parsed1 remapped) eq_refl)
    as [A [B [N _]]].
  fold (deploy post live parsed1 remapped) in A, B, N.
  cbn [fst snd]. split; [exact B|].
  destruct (exit (deploy post live parsed1 remapped)) as [body| |] eqn:E.
  - split; [destruct (marked_invalid body); discriminate|].
    split; [lia|].
    intros [H|[x H]]; destruct (marked_invalid body); discriminate.
  - split; [discriminate|]. split; [lia|]. intros [H|[x H]]; discriminate.
  - exfalso. apply N. reflexivity.
Qed.

(** *** Rejections that are not retried *)

Lemma not_400_throws (live : option (list string)) (e : deploy_error) (more : bool)
    (st : loop_state) :
  is_400 e = false -> on_rejection live e more st = Throw st.
Proof.
  intros H. unfold on_rejection, strategy1, strategy2, strategy3, strategy4, strategy5.
  rewrite H. cbn [andb].
  destruct (truthy_string (extractIm007ModuleId (data e))) as [m|].
  - destruct (flow_of (blueprint st)) as [flow|]; destruct live as [l|];
      try destruct (extractIm007Version (data e)); reflexivity.
  - destruct (flow_of (blueprint st)) as [flow|]; reflexivity.
Qed.

Lemma unnamed_not_IM007_throws (live : option (list string)) (e : deploy_error)
    (more : bool) (st : loop_state) :
  is_IM007 e = false -> extractIm007ModuleId (data e) = None ->
  on_rejection live e more st = Throw st.
Proof.
  intros H M. unfold on_rejection, strategy1, strategy2, strategy3, strategy4, strategy5.
  rewrite H, M. cbn [truthy_string]. rewrite !andb_false_r. cbn [andb].
  destruct (flow_of (blueprint st)) as [flow|]; reflexivity.
Qed.

(** X20. A rejection is retried only with status 400: when the first
    submission is rejected with another status, or with a body that is not
    an IM007 error and names no missing module, [create_scenario] fails after
    that one submission, with no module marked as failed. *)
Theorem only_module_errors_are_retried (post : platform)
    (live : option (list string)) (parsed : json) (h : healed) (submitted : json)
    (remapped : list (string * string)) (e : deploy_error) :
  heal parsed = Some h ->
  remap_to_live live (blueprint_of h) = (submitted, remapped, []) ->
  post 1 submitted = Rejected e ->
  is_400 e = false \/
  (is_IM007 e = false /\ extractIm007ModuleId (data e) = None) ->
  create_scenario post live parsed = (DeployFailed e [], 1).
Proof.
  intros Hheal Hremap Hpost Hwhy. unfold create_scenario.
  rewrite Hheal, Hremap. unfold deploy, maxAttempts.
  cbn [retry_loop].
  change (blueprint (start_state submitted remapped)) with submitted.
  rewrite Hpost.
  assert (T : forall more,
             on_rejection live e more (start_state submitted remapped)
             = Throw (start_state submitted remapped)).
  { intros more. destruct Hwhy as [H|[H M]];
      [apply not_400_throws|apply unnamed_not_IM007_throws]; assumption. }
  rewrite T. reflexivity.
Qed.

Lemma only_module_errors_are_retried_witness :
  create_scenario
    (fun _ _ => Rejected {| status := Some 401%Z; data := Some (JStr "Unauthorized") |})
    None correct_blueprint
  = (DeployFailed {| status := Some 401%Z; data := Some (JStr "Unauthorized") |} [], 1).
Proof.
  destruct (heal correct_blueprint) as [h|] eqn:H; [|vm_compute in H; discriminate].
  apply (only_module_errors_are_retried _ None correct_blueprint h (blueprint_of h) []).
  - exact H.
  - reflexivity.
  - reflexivity.
  - left. reflexivity.
Defined.

(** *** The remap against the live catalog *)

Lemma to_set_In (x : string) (l : list string) : In x (to_set l) <-> In x l.
Proof.
  induction l as [|y rest IH]; simpl; [reflexivity|]. split.
  - intros [<-|H]; [left; reflexivity|].
    apply filter_In in H. right. apply IH. exact (proj1 H).
  - intros [<-|H]; [left; reflexivity|].
    destruct (String.eqb y x) eqn:E.
    + apply String.eqb_eq in E. left. exact E.
    + right. apply filter_In. split; [apply IH; exact H|].
      rewrite E. reflexivity.
Qed.

Lemma truthy_string_Some (s : option string) (m : string) :
  truthy_string s = Some m -> s = Some m.
Proof.
  destruct s as [x|]; [|discriminate]. simpl.
  destruct (nonempty x); [|discriminate]. intros H. exact H.
Qed.

(** The plan of the remap: a replacement leads to a live id other than the
    id replaced; an id of the blueprint is live, or replaced, or
    unavailable. *)
Lemma plan_remap_spec (live ids : list string) :
  let '(replacements, unavailable) := plan_remap live ids in
  (forall from to, In (from, to) replacements ->
     In from ids /\ ~ In from live /\ In to live /\ from <> to /\
     resolveClosestLiveModule from live = Some to) /\
  (forall id, In id ids ->
     In id live \/
     (exists to, record_get id replacements = Some to) \/
     In id unavailable) /\
  (forall id, In id unavailable -> In id ids /\ ~ In id live).
Proof.
  induction ids as [|id rest IH]; simpl.
  - split; [intros from to []|]. split; [intros id []|intros id []].
  - destruct (plan_remap live rest) as [replacements unavailable].
    destruct IH as [IH1 [IH2 IH3]].
    destruct (str_mem id live) eqn:M.
    + apply str_mem_In in M. split; [|split].
      * intros from to H. destruct (IH1 from to H) as [A B].
        split; [right; exact A|exact B].
      * intros x [<-|Hx]; [left; exact M|exact (IH2 x Hx)].
      * intros x Hx. destruct (IH3 x Hx) as [A B]. split; [right; exact A|exact B].
    + assert (Hmiss : ~ In id live).
      { intros H. apply str_mem_In in H. congruence. }
      destruct (truthy_string (resolveClosestLiveModule id live)) as [r|] eqn:R.
      * apply truthy_string_Some in R.
        destruct (String.eqb r id) eqn:E; cbn [negb].
        -- split; [|split].
           ++ intros from to H. destruct (IH1 from to H) as [A B].
              split; [right; exact A|exact B].
           ++ intros x [<-|Hx]; [right; right; left; reflexivity|].
              destruct (IH2 x Hx) as [K|[K|K]];
                [left; exact K|right; left; exact K|right; right; right; exact K].
           ++ intros x [<-|Hx]; [split; [left; reflexivity|exact Hmiss]|].
              destruct (IH3 x Hx) as [A B]. split; [right; exact A|exact B].
        -- split; [|split].
           ++ intros from to [H|H].
              ** injection H as <- <-. split; [left; reflexivity|].
                 split; [exact Hmiss|]. split.
                 --- exact (resolveClosestLiveModule_In _ _ _ R).
                 --- split; [|exact R]. intros ->.
                     rewrite String.eqb_refl in E. discriminate.
              ** destruct (IH1 from to H) as [A B]. split; [right; exact A|exact B].
           ++ intros x [<-|Hx].
              ** right. left. exists r. simpl. rewrite String.eqb_refl. reflexivity.
              ** destruct (IH2 x Hx) as [K|[[to K]|K]];
                   [left; exact K| |right; right; exact K].
                 right. left. simpl. destruct (String.eqb x id); eexists; [reflexivity|exact K].
           ++ intros x Hx. destruct (IH3 x Hx) as [A B]. split; [right; exact A|exact B].
      * split; [|split].
        -- intros from to H. destruct (IH1 from to H) as [A B].
           split; [right; exact A|exact B].
        -- intros x [<-|Hx]; [right; right; left; reflexivity|].
           destruct (IH2 x Hx) as [K|[K|K]];
             [left; exact K|right; left; exact K|right; right; right; exact K].
        -- intros x [<-|Hx]; [split; [left; reflexivity|exact Hmiss]|].
           destruct (IH3 x Hx) as [A B]. split; [right; exact A|exact B].
Qed.

Lemma reported_module_field (n n' : json) :
  field "module" n' = field "module" n -> reported_module n' = reported_module n.
Proof. unfold reported_module. intros ->. reflexivity. Qed.

Lemma In_reported_module (n : json) (m : string) :
  In m (reported_module n) <->
  field "module" n = Some (JStr m) /\ trim_truthy m = true.
Proof.
  unfold reported_module. split.
  - destruct (field "module" n) as [[| | |s| |]|]; try contradiction.
    destruct (trim_truthy s) eqn:T; [|contradiction].
    intros [<-|[]]. split; [reflexivity|exact T].
  - intros [-> T]. rewrite T. left. reflexivity.
Qed.

(** X21. When the remap against the live catalog finds no module
    unavailable, every module id that [extractAllFlowModules] finds in the
    blueprint it leaves is in the live catalog; every replacement it has
    made leads from an id that the catalog lacks to the live id that
    [resolveClosestLiveModule] answers for it. *)
Theorem remap_to_live_leaves_live_modules (live : list string) (parsed : json)
    (submitted : json) (remapped : list (string * string)) (flow : list json)
    (m : string) :
  remap_to_live (Some live) parsed = (submitted, remapped, []) ->
  flow_of submitted = Some flow ->
  In m (map fst (extractAllFlowModules flow "Flow")) ->
  In m live /\
  forall from to, In (from, to) remapped ->
    ~ In from live /\ In to live /\ resolveClosestLiveModule from live = Some to.
Proof.
  unfold remap_to_live. destruct (flow_of parsed) as [flow0|] eqn:F0.
  2:{ intros H. injection H as <- <-. intros F. congruence. }
  set (ids := to_set (map fst (extractAllFlowModules flow0 "Flow"))).
  pose proof (plan_remap_spec live ids) as P.
  destruct (plan_remap live ids) as [replacements unavailable].
  destruct P as [P1 [P2 _]].
  intros H. injection H as Hsub <- ->. intros F Hm. split.
  2:{ intros from to Hft. destruct (P1 from to Hft) as [_ [A [B [_ C]]]].
      split; [exact A|]. split; [exact B|exact C]. }
  assert (Hflow : flow = replaceModuleIdsInFlow flow0 replacements).
  { destruct replacements as [|rp rest].
    - subst submitted. rewrite F0 in F. injection F as <-.
      rewrite replaceModuleIdsInFlow_tree. symmetry. apply map_fixed. intros n _.
      apply (rewritten_tree_id (replace_tree []) (replace_module [])).
      + exact (replace_tree_obj []).
      + intros fs. unfold replace_module.
        destruct (get "module" fs) as [[| | |x| |]|]; reflexivity.
      + exact (replace_tree_other []).
    - subst submitted. unfold flow_of in F0. destruct parsed as [| | | | |fs];
        try discriminate.
      unfold flow_of in F. simpl in F. rewrite get_set_same in F.
      injection F as <-. reflexivity. }
  subst flow. rewrite extractAllFlowModules_modules in Hm.
  rewrite replaceModuleIdsInFlow_tree in Hm.
  rewrite (treeNodes_map (replace_tree replacements)) in Hm
    by exact (replace_tree_nodes replacements).
  rewrite flat_map_map in Hm. apply in_flat_map in Hm.
  destruct Hm as [n [Hn Hm]]. apply In_reported_module in Hm.
  destruct Hm as [Hfield Htrim].
  rewrite replace_tree_field in Hfield by reflexivity. cbn [String.eqb] in Hfield.
  change (renamed replacements (field "module" n) = Some (JStr m)) in Hfield.
  unfold renamed in Hfield.
  destruct (field "module" n) as [[| | |s| |]|] eqn:M; try discriminate.
  destruct (record_get s replacements) as [to|] eqn:G.
  - injection Hfield as <-. apply record_get_In in G.
    exact (proj1 (proj2 (proj2 (P1 _ _ G)))).
  - injection Hfield as ->.
    assert (Hid : In m ids).
    { unfold ids. apply to_set_In. rewrite extractAllFlowModules_modules.
      apply in_flat_map. exists n. split; [exact Hn|].
      apply In_reported_module. split; [exact M|exact Htrim]. }
    destruct (P2 m Hid) as [K|[[to K]|[]]]; [exact K|congruence].
Qed.

Lemma remap_to_live_leaves_live_modules_witness :
  In "slack:ActionPostMessage" ["gateway:CustomWebHook"; "slack:ActionPostMessage"] /\
  forall from to,
    In (from, to) [("slack:actionpostmessage", "slack:ActionPostMessage")] ->
    ~ In from ["gateway:CustomWebHook"; "slack:ActionPostMessage"] /\
    In to ["gateway:CustomWebHook"; "slack:ActionPostMessage"] /\
    resolveClosestLiveModule from ["gateway:CustomWebHook"; "slack:ActionPostMessage"]
    = Some to.
Proof.
  apply (remap_to_live_leaves_live_modules
           ["gateway:CustomWebHook"; "slack:ActionPostMessage"]
           drifted_blueprint
           (JObj [("flow", JArr [webhook_node;
                                 JObj [("id", JNum 2);
                                       ("module", JStr "slack:ActionPostMessage")]])])
           [("slack:actionpostmessage", "slack:ActionPostMessage")]
           [webhook_node;
            JObj [("id", JNum 2); ("module", JStr "slack:ActionPostMessage")]]
           "slack:ActionPostMessage").
  - vm_compute. reflexivity.
  - reflexivity.
  - vm_compute. right. left. reflexivity.
Defined.

Lemma modules_reported (l l' : list json) :
  map (field "module") l' = map (field "module") l ->
  flat_map reported_module l' = flat_map reported_module l.
Proof.
  revert l'. induction l as [|n rest IH]; intros [|n' rest'] H; try discriminate;
    [reflexivity|].
  simpl in H. injection H as Hn Hrest. simpl.
  rewrite (reported_module_field n n' Hn), (IH rest' Hrest). reflexivity.
Qed.

(** X22. With a live catalog, a module id of the blueprint, outside the
    schedule nodes of the root flow, that the catalog lacks and for which
    [resolveClosestLiveModule] has no answer makes [create_scenario] refuse
    the deployment: it names the id as unavailable and submits nothing. *)
Theorem unresolved_module_is_never_submitted (post : platform) (live : list string)
    (parsed : json) (h : healed) (flow0 : list json) (n : json) (m : string) :
  heal parsed = Some h ->
  flow_of parsed = Some flow0 ->
  In n (treeNodes (filter (fun x => negb (is_schedule x)) flow0)) ->
  field "module" n = Some (JStr m) ->
  trim_truthy m = true ->
  ~ In m live ->
  resolveClosestLiveModule m live = None ->
  exists unavailable,
    create_scenario post (Some live) parsed = (CannotDeploy unavailable, 0) /\
    In m unavailable.
Proof.
  intros Hheal F0 Hn Hm Htrim Hmiss Hnone.
  destruct (heal_tree_modules parsed h flow0 Hheal F0) as [flow [F E]].
  unfold create_scenario. rewrite Hheal. unfold remap_to_live. rewrite F.
  set (ids := to_set (map fst (extractAllFlowModules flow "Flow"))).
  assert (Hid : In m ids).
  { unfold ids. apply to_set_In. rewrite extractAllFlowModules_modules.
    rewrite (modules_reported _ _ E). apply in_flat_map. exists n.
    split; [exact Hn|]. apply In_reported_module. split; [exact Hm|exact Htrim]. }
  pose proof (plan_remap_spec live ids) as P.
  destruct (plan_remap live ids) as [replacements unavailable].
  destruct P as [P1 [P2 _]].
  assert (Hu : In m unavailable).
  { destruct (P2 m Hid) as [K|[[to K]|K]]; [contradiction| |exact K].
    apply record_get_In in K.
    destruct (P1 _ _ K) as [_ [_ [_ [_ R]]]]. congruence. }
  destruct unavailable as [|u us]; [contradiction|].
  eexists. split; [reflexivity|exact Hu].
Qed.

Lemma unresolved_module_is_never_submitted_witness :
  exists unavailable,
    create_scenario (fun _ body => Accepted body) (Some ["gateway:CustomWebHook"])
                    correct_blueprint
    = (CannotDeploy unavailable, 0) /\
    In "slack:ActionPostMessage" unavailable.
Proof.
  destruct (heal correct_blueprint) as [h|] eqn:H; [|vm_compute in H; discriminate].
  apply (unresolved_module_is_never_submitted _ ["gateway:CustomWebHook"]
           correct_blueprint h correct_flow (slack_node 2) "slack:ActionPostMessage").
  - exact H.
  - reflexivity.
  - vm_compute. right. left. reflexivity.
  - reflexivity.
  - reflexivity.
  - vm_compute. intros [K|[]]. discriminate K.
  - vm_compute. reflexivity.
Defined.
(** ** The validator and the deployment, together *)

Lemma treeNodes_filter_incl (p : json -> bool) (flow : list json) (n : json) :
  In n (treeNodes (filter p flow)) -> In n (treeNodes flow).
Proof.
  intros H. apply In_treeNodes in H. destruct H as [n0 [Hn0 Hn]].
  apply filter_In in Hn0. apply In_treeNodes. exists n0.
  split; [exact (proj1 Hn0)|exact Hn].
Qed.

(** X23. With the same live catalog, a blueprint for which
    [validate_scenario] returns a valid report is never refused by
    [create_scenario] for an unavailable module: every module id of the
    healed blueprint is in the live catalog, and the remap replaces
    nothing. *)
Theorem valid_blueprint_is_not_refused (env : environment) (post : platform)
    (live : list string) (p : json) (r : report) (s : vstate) :
  liveIds env = Some live ->
  validate_scenario env p = (Ok r, s) ->
  valid r = true ->
  (forall unavailable,
      fst (create_scenario post (Some live) p) <> CannotDeploy unavailable) /\
  (forall h, heal p = Some h ->
             remap_to_live (Some live) (blueprint_of h) = (blueprint_of h, [], [])).
Proof.
  intros Hlive Hrun Hvalid.
  pose proof (valid_report_has_no_error env p r s Hrun Hvalid) as Hnone.
  assert (Hflow : exists flow0, flow_of p = Some flow0).
  { destruct (flow_of p) as [flow0|] eqn:F; [exists flow0; reflexivity|].
    exfalso.
    assert (Hp : p <> JNull).
    { intros ->. vm_compute in Hrun. discriminate Hrun. }
    destruct (without_flow_report env p Hp F) as [r' [s' [Hrun' [Hv _]]]].
    rewrite Hrun in Hrun'. injection Hrun' as <- _. congruence. }
  destruct Hflow as [flow0 F0].
  assert (Hall : forall m, In m (map fst (extractAllFlowModules flow0 "Flow")) ->
                           In m live).
  { intros m Hm. destruct (str_mem m live) eqn:M; [apply str_mem_In; exact M|].
    exfalso.
    assert (Hmiss : ~ In m live).
    { intros H. apply str_mem_In in H. congruence. }
    destruct (live_misses_in_report env p live flow0 r s m Hlive Hrun F0 Hm Hmiss)
      as [_ [[e [He _]] _]].
    rewrite Hnone in He. contradiction. }
  assert (Hremap : forall h, heal p = Some h ->
            remap_to_live (Some live) (blueprint_of h) = (blueprint_of h, [], [])).
  { intros h Hheal.
    destruct (heal_tree_modules p h flow0 Hheal F0) as [flow [F E]].
    unfold remap_to_live. rewrite F.
    set (ids := to_set (map fst (extractAllFlowModules flow "Flow"))).
    assert (Hids : forall m, In m ids -> In m live).
    { intros m Hm. unfold ids in Hm. apply (proj1 (to_set_In _ _)) in Hm.
      rewrite extractAllFlowModules_modules in Hm.
      rewrite (modules_reported _ _ E) in Hm. apply Hall.
      rewrite extractAllFlowModules_modules.
      apply in_flat_map in Hm. destruct Hm as [n [Hn Hm]].
      apply in_flat_map. exists n. split; [|exact Hm].
      exact (treeNodes_filter_incl _ _ _ Hn). }
    pose proof (plan_remap_spec live ids) as P.
    destruct (plan_remap live ids) as [replacements unavailable].
    destruct P as [P1 [_ P3]].
    destruct replacements as [|[from to] rest].
    - destruct unavailable as [|u us]; [reflexivity|].
      exfalso. destruct (P3 u (or_introl eq_refl)) as [A B]. exact (B (Hids u A)).
    - exfalso. destruct (P1 from to (or_introl eq_refl)) as [A [B _]].
      exact (B (Hids from A)). }
  split; [|exact Hremap].
  intros unavailable. unfold create_scenario.
  destruct (heal p) as [h|] eqn:Hheal; [|discriminate].
  rewrite (Hremap h eq_refl). cbn [fst].
  destruct (exit _) as [body| |]; [destruct (marked_invalid body)| |]; discriminate.
Qed.

Lemma valid_blueprint_is_not_refused_witness :
  (forall unavailable,
      fst (create_scenario (fun _ body => Accepted body)
             (Some ["gateway:CustomWebHook"; "slack:ActionPostMessage"]) correct_blueprint)
      <> CannotDeploy unavailable) /\
  (forall h, heal correct_blueprint = Some h ->
             remap_to_live (Some ["gateway:CustomWebHook"; "slack:ActionPostMessage"])
                           (blueprint_of h)
             = (blueprint_of h, [], [])).
Proof.
  destruct (validate_scenario
              (sample_env (Some ["gateway:CustomWebHook"; "slack:ActionPostMessage"]))
              correct_blueprint) as [[r|] s] eqn:Run; [|vm_compute in Run; discriminate].
  apply (valid_blueprint_is_not_refused
           (sample_env (Some ["gateway:CustomWebHook"; "slack:ActionPostMessage"]))
           _ _ correct_blueprint r s).
  - reflexivity.
  - exact Run.
  - vm_compute in Run. injection Run as <- _. reflexivity.
Defined.
(** ** The live module catalog *)

Lemma record_get_map_set {A : Type} (k : string) (v : A) (m : list (string * A)) :
  record_get k (map_set k v m) = Some v.
Proof.
  induction m as [|[k' v'] rest IH]; simpl.
  - rewrite String.eqb_refl. reflexivity.
  - destruct (String.eqb k k') eqn:E; simpl; rewrite E; [reflexivity|exact IH].
Qed.

Lemma record_get_map_set_other {A : Type} (k k' : string) (v : A)
    (m : list (string * A)) :
  String.eqb k k' = false -> record_get k (map_set k' v m) = record_get k m.
Proof.
  intros Hk. induction m as [|[k0 v0] rest IH]; simpl.
  - rewrite Hk. reflexivity.
  - destruct (String.eqb k' k0) eqn:E; simpl.
    + apply String.eqb_eq in E. subst k0. rewrite Hk. reflexivity.
    + destruct (String.eqb k k0); [reflexivity|exact IH].
Qed.

Lemma map_set_Forall {A : Type} (P : string * A -> Prop) (k : string) (v : A)
    (m : list (string * A)) :
  (forall k', P (k', v)) -> Forall P m -> Forall P (map_set k v m).
Proof.
  intros Hv H. induction H as [|[k' v'] rest Hx Hrest IH]; simpl.
  - constructor; [apply Hv|constructor].
  - destruct (String.eqb k k'); constructor; try assumption. apply Hv.
Qed.

Lemma set_add_ok (P : string -> Prop) (x : string) (s : list string) :
  P x -> NoDup s -> Forall P s -> NoDup (set_add x s) /\ Forall P (set_add x s).
Proof.
  intros Hx N F. unfold set_add. destruct (str_mem x s) eqn:M; [split; assumption|].
  split.
  - apply NoDup_app; [exact N|repeat constructor; intros []|].
    intros a Ha [<-|[]]. apply str_mem_In in Ha. congruence.
  - apply Forall_app. split; [exact F|repeat constructor; exact Hx].
Qed.

Lemma id_candidates_colon (item : json) :
  Forall (fun id => has_colon id = true) (id_candidates item).
Proof.
  destruct item as [| | |s| |fs]; try constructor.
  - simpl. destruct (has_colon s) eqn:E; repeat constructor. exact E.
  - unfold id_candidates. apply Forall_forall. intros id H.
    apply in_flat_map in H. destruct H as [c [_ H]].
    destruct c as [[| | |x| |]|]; try contradiction.
    destruct (has_colon x) eqn:E; [|contradiction].
    destruct H as [<-|[]]. exact E.
Qed.

Lemma parse_module_ids_ok (raw : list json) :
  NoDup (parse_module_ids raw) /\
  Forall (fun id => has_colon id = true) (parse_module_ids raw).
Proof.
  unfold parse_module_ids.
  assert (G : forall ids,
             NoDup ids /\ Forall (fun id => has_colon id = true) ids ->
             NoDup (fold_left (fun ids item =>
                      fold_left (fun acc c => set_add c acc) (id_candidates item) ids)
                      raw ids) /\
             Forall (fun id => has_colon id = true)
                    (fold_left (fun ids item =>
                       fold_left (fun acc c => set_add c acc) (id_candidates item) ids)
                       raw ids)).
  { induction raw as [|item rest IH]; intros ids H; [exact H|].
    simpl. apply IH.
    pose proof (id_candidates_colon item) as C.
    revert ids H. induction C as [|c cs Hc _ IHc]; intros ids [N F]; simpl.
    - split; assumption.
    - apply IHc. exact (set_add_ok _ c ids Hc N F). }
  apply G. split; constructor.
Qed.

Lemma fetch_fresh_ok (cache : catalog_cache) (baseUrl : string)
    (request : outcome (option json)) (stored : Z) :
  cache_ok cache ->
  cache_ok (snd (fetch_fresh cache baseUrl request stored)) /\
  forall ids, fst (fetch_fresh cache baseUrl request stored) = Some ids -> ids_ok ids.
Proof.
  intros H. unfold fetch_fresh. destruct request as [data|];
    [|split; [exact H|discriminate]].
  pose proof (parse_module_ids_ok (rawModules data)) as [N F].
  destruct (parse_module_ids (rawModules data)) as [|id ids] eqn:E;
    [split; [exact H|discriminate]|].
  assert (K : ids_ok (id :: ids)) by (split; [discriminate|split; assumption]).
  split.
  - apply map_set_Forall; [intros k'; exact K|exact H].
  - intros x Hx. injection Hx as <-. exact K.
Qed.

(** X24. [fetchLiveModuleIds] never answers an empty set: starting from a
    cache whose entries hold distinct ids with a colon, and at least one,
    which the empty cache does, an answer other than [null] is a non-empty
    set of distinct ids that each contain a colon, and the cache after the
    call holds such entries only. *)
Theorem fetchLiveModuleIds_answers_module_ids (ttl : Z) (cache : catalog_cache)
    (baseUrl : string) (now : Z) (request : outcome (option json)) (stored : Z) :
  cache_ok cache ->
  cache_ok (snd (fetchLiveModuleIds ttl cache baseUrl now request stored)) /\
  forall ids,
    fst (fetchLiveModuleIds ttl cache baseUrl now request stored) = Some ids ->
    ids_ok ids.
Proof.
  intros H. unfold fetchLiveModuleIds.
  destruct (record_get baseUrl cache) as [cached|] eqn:G;
    [|exact (fetch_fresh_ok cache baseUrl request stored H)].
  destruct (now - fetchedAt cached <? ttl)%Z;
    [|exact (fetch_fresh_ok cache baseUrl request stored H)].
  split; [exact H|]. intros ids E. injection E as <-.
  apply record_get_In in G. unfold cache_ok in H. rewrite Forall_forall in H.
  exact (H _ G).
Qed.

Lemma fetchLiveModuleIds_answers_module_ids_witness :
  cache_ok (snd (fetchLiveModuleIds 300000 [] "https://eu1.make.com/api/v2" 0
                   (Ok (Some (JObj [("modules", JArr [JStr "http:ActionSendData";
                                                      JStr "nocolon";
                                                      JObj [("id", JStr "slack:ActionPostMessage")]])])))
                   5)) /\
  forall ids,
    fst (fetchLiveModuleIds 300000 [] "https://eu1.make.com/api/v2" 0
           (Ok (Some (JObj [("modules", JArr [JStr "http:ActionSendData";
                                              JStr "nocolon";
                                              JObj [("id", JStr "slack:ActionPostMessage")]])])))
           5) = Some ids ->
    ids_ok ids.
Proof.
  apply (fetchLiveModuleIds_answers_module_ids 300000 []). constructor.
Defined.

Example fetch_sample :
  fetchLiveModuleIds 300000 [] "https://eu1.make.com/api/v2" 0
    (Ok (Some (JObj [("modules", JArr [JStr "http:ActionSendData"; JStr "nocolon";
                                       JObj [("id", JStr "slack:ActionPostMessage");
                                             ("key", JStr "http:ActionSendData")]])])))
    5
  = (Some ["http:ActionSendData"; "slack:ActionPostMessage"],
     [("https://eu1.make.com/api/v2",
       {| fetchedAt := 5; catalog_ids := ["http:ActionSendData"; "slack:ActionPostMessage"] |})]).
Proof. vm_compute. reflexivity. Qed.

(** X25. An answer of [fetchLiveModuleIds] other than [null] is in the cache
    after the call, and every later call for the same base URL less than
    [ttl] milliseconds after the entry was fetched answers the same ids and
    leaves the cache as it is, whatever the network would answer.  A call
    that answers [null] leaves the cache as it is; an entry as old as [ttl] or
    older is not served, also when the request fails. *)
Theorem fetchLiveModuleIds_serves_fresh_entries (ttl : Z) (cache : catalog_cache)
    (baseUrl : string) (now : Z) (request : outcome (option json)) (stored : Z) :
  let answer := fst (fetchLiveModuleIds ttl cache baseUrl now request stored) in
  let cache1 := snd (fetchLiveModuleIds ttl cache baseUrl now request stored) in
  (forall ids, answer = Some ids ->
     exists t,
       record_get baseUrl cache1 = Some {| fetchedAt := t; catalog_ids := ids |} /\
       forall now' request' stored',
         (now' - t < ttl)%Z ->
         fetchLiveModuleIds ttl cache1 baseUrl now' request' stored'
         = (Some ids, cache1)) /\
  (answer = None -> cache1 = cache) /\
  (forall cached,
     record_get baseUrl cache = Some cached ->
     (ttl <= now - fetchedAt cached)%Z ->
     request = Thrown -> answer = None).
Proof.
  intros answer cache1. subst answer cache1.
  assert (Hit : forall c t ids,
             record_get baseUrl c = Some {| fetchedAt := t; catalog_ids := ids |} ->
             forall now' request' stored',
               (now' - t < ttl)%Z ->
               fetchLiveModuleIds ttl c baseUrl now' request' stored' = (Some ids, c)).
  { intros c t ids G now' request' stored' Hfresh. unfold fetchLiveModuleIds.
    rewrite G. simpl. apply Z.ltb_lt in Hfresh. rewrite Hfresh. reflexivity. }
  assert (Fresh : (forall ids, fst (fetch_fresh cache baseUrl request stored) = Some ids ->
                     exists t,
                       record_get baseUrl (snd (fetch_fresh cache baseUrl request stored))
                       = Some {| fetchedAt := t; catalog_ids := ids |}) /\
                  (fst (fetch_fresh cache baseUrl request stored) = None ->
                   snd (fetch_fresh cache baseUrl request stored) = cache)).
  { unfold fetch_fresh. destruct request as [data|]; [|split; [discriminate|reflexivity]].
    destruct (parse_module_ids (rawModules data)) as [|id ids];
      [split; [discriminate|reflexivity]|].
    split; [|discriminate]. intros x Hx. injection Hx as <-.
    exists stored. apply record_get_map_set. }
  assert (Cases :
            (exists cached,
                record_get baseUrl cache = Some cached /\
                (now - fetchedAt cached < ttl)%Z /\
                fetchLiveModuleIds ttl cache baseUrl now request stored
                = (Some (catalog_ids cached), cache)) \/
            ((forall cached, record_get baseUrl cache = Some cached ->
                             (ttl <= now - fetchedAt cached)%Z) /\
             fetchLiveModuleIds ttl cache baseUrl now request stored
             = fetch_fresh cache baseUrl request stored)).
  { unfold fetchLiveModuleIds.
    destruct (record_get baseUrl cache) as [cached|]; [|right; split; [discriminate|reflexivity]].
    destruct (now - fetchedAt cached <? ttl)%Z eqn:T.
    - left. exists cached. apply Z.ltb_lt in T. repeat split; assumption.
    - right. split; [|reflexivity]. intros c E. injection E as <-.
      apply Z.ltb_ge in T. exact T. }
  destruct Cases as [[cached [G [T ->]]]|[Old ->]]; cbn [fst snd].
  - split; [|split].
    + intros ids E. injection E as <-. exists (fetchedAt cached).
      destruct cached as [t ids]. split; [exact G|]. exact (Hit cache t ids G).
    + discriminate.
    + intros c E Hold. rewrite G in E. injection E as <-. lia.
  - split; [|split].
    + intros ids E. destruct (proj1 Fresh ids E) as [t Ht].
      exists t. split; [exact Ht|exact (Hit _ t ids Ht)].
    + exact (proj2 Fresh).
    + intros c _ _ ->. reflexivity.
Qed.

(** ** [check_account_compatibility] *)

(** A module id with a colon is none of the names that the registries
    inherit: on such ids the tables are the registries. *)
Lemma inherited_names_have_no_colon :
  Forall (fun name => has_colon name = false) inherited_names.
Proof. repeat constructor. Qed.


Lemma set_add_NoDup (x : string) (s : list string) : NoDup s -> NoDup (set_add x s).
Proof.
  intros N. exact (proj1 (set_add_ok (fun _ => True) x s I N
                            (proj2 (Forall_forall _ _) (fun _ _ => I)))).
Qed.

Lemma In_set_add (x y : string) (s : list string) :
  In y (set_add x s) <-> x = y \/ In y s.
Proof.
  unfold set_add. destruct (str_mem x s) eqn:M.
  - apply str_mem_In in M. split; [intros H; right; exact H|].
    intros [<-|H]; assumption.
  - rewrite in_app_iff. simpl. split.
    + intros [H|[<-|[]]]; [right; exact H|left; reflexivity].
    + intros [->|H]; [right; left; reflexivity|left; exact H].
Qed.




Lemma three_way_count {A : Type} (v p : A -> bool) (l : list A) :
  (forall x, In x l -> v x = true -> p x = false) ->
  List.length (filter v l) + List.length (filter p l) +
  List.length (filter (fun x => negb (v x) && negb (p x)) l) = List.length l.
Proof.
  induction l as [|x l IH]; intros D; [reflexivity|].
  assert (IH' := IH (fun y Hy => D y (or_intror Hy))).
  assert (Dx := D x (or_introl eq_refl)).
  simpl. destruct (v x) eqn:Vx.
  - rewrite (Dx eq_refl). simpl. lia.
  - destruct (p x); simpl; lia.
Qed.

Lemma filter_nil_Forall {A : Type} (p : A -> bool) (l : list A) :
  filter p l = [] <-> Forall (fun x => p x = false) l.
Proof.
  induction l as [|x l IH]; simpl.
  - split; [constructor|reflexivity].
  - destruct (p x) eqn:Px; split.
    + discriminate.
    + intros H. inversion H; subst. congruence.
    + intros H. constructor; [exact Px|apply IH, H].
    + intros H. inversion H; subst. apply IH. assumption.
Qed.

Lemma row_not_both (liveIds : option (list string)) (moduleId : string) :
  row_verified (online_row liveIds moduleId) = true ->
  row_problematic (online_row liveIds moduleId) = false.
Proof.
  cbn [online_row row_verified row_problematic].
  destruct (verifiedVersion moduleId) as [v|] eqn:V; [|discriminate].
  rewrite (verified_not_problematic _ _ V). reflexivity.
Qed.

(** X27. For module ids with a colon, the answer of
    [check_account_compatibility] with an API key counts each checked module
    once, as verified, problematic or unverified; [compatible] is [true]
    exactly when every module is verified and [false] exactly when a module
    is problematic. *)
Theorem check_account_compatibility_verdict (apiKey : option string)
    (baseUrl : string) (liveIds : option (list string))
    (moduleIds : option (list string)) (blueprint : option json) :
  Forall (fun id => has_colon id = true) (requested_ids moduleIds blueprint) ->
  match check_account_compatibility apiKey baseUrl liveIds moduleIds
          (option_map Some blueprint) with
  | CompatOnline _ _ _ checkedCount verifiedCount problematicCount
      unverifiedCount compatible modules _ =>
      verifiedCount + problematicCount + unverifiedCount = checkedCount /\
      (compatible = Some true <->
       Forall (fun r => row_verified r = true) modules) /\
      (compatible = Some false <->
       Exists (fun r => row_problematic r = true) modules)
  | _ => True
  end.
Proof.
  intros _.
  assert (Body : forall req,
    match
      match req with
      | [] => CompatFailed "Provide at least one module ID via moduleIds or include a blueprint with a flow array."
      | id :: rest =>
          if hasValidApiKey apiKey then online_answer baseUrl liveIds (id :: rest)
          else offline_answer (id :: rest)
      end
    with
    | CompatOnline _ _ _ checkedCount verifiedCount problematicCount
        unverifiedCount compatible modules _ =>
        verifiedCount + problematicCount + unverifiedCount = checkedCount /\
        (compatible = Some true <->
         Forall (fun r => row_verified r = true) modules) /\
        (compatible = Some false <->
         Exists (fun r => row_problematic r = true) modules)
    | _ => True
    end).
  { intros [|id rest]; [exact I|].
    destruct (hasValidApiKey apiKey); [|exact I].
    unfold online_answer. set (results := map (online_row liveIds) (id :: rest)).
    assert (D : forall r, In r results -> row_verified r = true -> row_problematic r = false).
    { intros r Hr. apply in_map_iff in Hr. destruct Hr as [m [<- _]].
      apply row_not_both. }
    split; [apply three_way_count; exact D|].
    assert (P : filter row_problematic results = [] <->
                Forall (fun r => row_problematic r = false) results)
      by apply filter_nil_Forall.
    assert (U : filter is_unverified results = [] <->
                Forall (fun r => is_unverified r = false) results)
      by apply filter_nil_Forall.
    split.
    - split.
      + intros H. destruct (filter row_problematic results) eqn:Ep; [|discriminate].
        destruct (filter is_unverified results) eqn:Eu; [|discriminate].
        assert (Hp := proj1 P eq_refl). assert (Hu := proj1 U eq_refl).
        rewrite Forall_forall in *. intros r Hr.
        specialize (Hp r Hr). specialize (Hu r Hr). unfold is_unverified in Hu.
        rewrite Hp in Hu. destruct (row_verified r); [reflexivity|discriminate].
      + intros H.
        assert (Hp : filter row_problematic results = []).
        { apply P. rewrite Forall_forall in *. intros r Hr. apply D; auto. }
        assert (Hu : filter is_unverified results = []).
        { apply U. rewrite Forall_forall in *. intros r Hr. unfold is_unverified.
          rewrite (H r Hr). reflexivity. }
        rewrite Hp, Hu. reflexivity.
    - split.
      + intros H. destruct (filter row_problematic results) as [|r rs] eqn:Ep.
        * destruct (filter is_unverified results); discriminate.
        * apply Exists_exists. exists r.
          assert (Hr : In r (filter row_problematic results)) by (rewrite Ep; left; reflexivity).
          apply filter_In in Hr. exact Hr.
      + intros H. apply Exists_exists in H. destruct H as [r [Hr Hp]].
        destruct (filter row_problematic results) as [|r' rs] eqn:Ep; [|reflexivity].
        assert (F := proj1 P eq_refl). rewrite Forall_forall in F.
        rewrite (F r Hr) in Hp. discriminate. }
  specialize (Body (requested_ids moduleIds blueprint)).
  destruct blueprint as [p|]; cbn [option_map].
  - destruct p; try exact I; exact Body.
  - exact Body.
Qed.

Lemma online_row_advice (liveIds : option (list string)) (moduleId : string) :
  let r := online_row liveIds moduleId in
  (row_problematic r = true ->
   exists info, getProblematicModuleInfo moduleId = Some info /\
                row_warning r = Some (reason info) /\
                row_alternative r = Some (alternative info)) /\
  (row_problematic r = false ->
   row_warning r = None /\
   forall a, row_alternative r = Some a ->
             exists live, liveIds = Some live /\ In a live /\ ~ In moduleId live).
Proof.
  cbn [online_row row_problematic row_warning row_alternative].
  destruct (getProblematicModuleInfo moduleId) as [info|]; cbn [is_some option_map].
  - split; [|discriminate]. intros _. exists info. repeat split.
  - split; [discriminate|]. intros _. split; [reflexivity|].
    intros a H. destruct liveIds as [live|]; [|discriminate].
    exists live. split; [reflexivity|].
    destruct (str_mem moduleId live) eqn:M; [discriminate|].
    split; [exact (resolveClosestLiveModule_In _ _ _ H)|].
    intros Hin. apply str_mem_In in Hin. congruence.
Qed.

(** X28. For module ids with a colon, a row of the answer with an API key
    that is problematic carries the warning and the alternative of the
    denylist; a row that is not carries no warning, and an alternative only
    when the module is missing from the live catalog, and then an id of that
    catalog. *)
Theorem check_account_compatibility_advice (apiKey : option string)
    (baseUrl : string) (liveIds : option (list string))
    (moduleIds : option (list string)) (blueprint : option json) :
  Forall (fun id => has_colon id = true) (requested_ids moduleIds blueprint) ->
  match check_account_compatibility apiKey baseUrl liveIds moduleIds
          (option_map Some blueprint) with
  | CompatOnline _ _ _ _ _ _ _ _ modules _ =>
      forall r, In r modules ->
        (row_problematic r = true ->
         exists info, getProblematicModuleInfo (row_moduleId r) = Some info /\
                      row_warning r = Some (reason info) /\
                      row_alternative r = Some (alternative info)) /\
        (row_problematic r = false ->
         row_warning r = None /\
         forall a, row_alternative r = Some a ->
                   exists live, liveIds = Some live /\ In a live /\
                                ~ In (row_moduleId r) live)
  | _ => True
  end.
Proof.
  intros _.
  assert (Body : forall req,
    match
      match req with
      | [] => CompatFailed "Provide at least one module ID via moduleIds or include a blueprint with a flow array."
      | id :: rest =>
          if hasValidApiKey apiKey then online_answer baseUrl liveIds (id :: rest)
          else offline_answer (id :: rest)
      end
    with
    | CompatOnline _ _ _ _ _ _ _ _ modules _ =>
        forall r, In r modules ->
          (row_problematic r = true ->
           exists info, getProblematicModuleInfo (row_moduleId r) = Some info /\
                        row_warning r = Some (reason info) /\
                        row_alternative r = Some (alternative info)) /\
          (row_problematic r = false ->
           row_warning r = None /\
           forall a, row_alternative r = Some a ->
                     exists live, liveIds = Some live /\ In a live /\
                                  ~ In (row_moduleId r) live)
    | _ => True
    end).
  { intros [|id rest]; [exact I|].
    destruct (hasValidApiKey apiKey); [|exact I].
    unfold online_answer. intros r Hr. apply in_map_iff in Hr.
    destruct Hr as [m [<- _]]. exact (online_row_advice liveIds m). }
  specialize (Body (requested_ids moduleIds blueprint)).
  destruct blueprint as [p|]; cbn [option_map].
  - destruct p; try exact I; exact Body.
  - exact Body.
Qed.

Lemma check_account_compatibility_verdict_witness :
  match check_account_compatibility (Some "key") "https://eu1.make.com/api/v2" None
          (Some ["slack:ActionPostMessage"; " openai:CreateCompletion "; "custom:Act"])
          (option_map Some None) with
  | CompatOnline _ _ _ checkedCount verifiedCount problematicCount
      unverifiedCount compatible modules _ =>
      verifiedCount + problematicCount + unverifiedCount = checkedCount /\
      (compatible = Some true <->
       Forall (fun r => row_verified r = true) modules) /\
      (compatible = Some false <->
       Exists (fun r => row_problematic r = true) modules)
  | _ => True
  end.
Proof.
  apply (check_account_compatibility_verdict (Some "key") "https://eu1.make.com/api/v2"
           None (Some ["slack:ActionPostMessage"; " openai:CreateCompletion "; "custom:Act"])
           None).
  vm_compute. repeat constructor.
Defined.

Example compatibility_sample :
  check_account_compatibility (Some "key") "https://eu1.make.com/api/v2"
    (Some ["slack:PostMessage"; "http:ActionSendData"])
    (Some ["slack:ActionPostMessage"; " slack:postmessage "; ""; "slack:ActionPostMessage"])
    None
  = CompatOnline true "https://eu1.make.com/api/v2" 2 2 1 0 1 None
      [ {| row_moduleId := "slack:ActionPostMessage";
           row_liveAvailable := Some (Some false);
           row_verified := true;
           row_recommendedVersion := Some 1%Z;
           row_problematic := false;
           row_warning := None;
           row_alternative := Some "slack:PostMessage" |};
        {| row_moduleId := "slack:postmessage";
           row_liveAvailable := Some (Some false);
           row_verified := false;
           row_recommendedVersion := None;
           row_problematic := false;
           row_warning := None;
           row_alternative := Some "slack:PostMessage" |} ]
      "1 module(s) have verified versions. 1 module(s) are unverified — deployment will attempt them but they may fail.".
Proof. vm_compute. reflexivity. Qed.

Lemma check_account_compatibility_advice_witness :
  match check_account_compatibility (Some "key") "https://eu1.make.com/api/v2"
          (Some ["slack:PostMessage"; "http:ActionSendData"])
          (Some ["slack:postmessage"; "openai:CreateCompletion"])
          (option_map Some None) with
  | CompatOnline _ _ _ _ _ _ _ _ modules _ =>
      forall r, In r modules ->
        (row_problematic r = true ->
         exists info, getProblematicModuleInfo (row_moduleId r) = Some info /\
                      row_warning r = Some (reason info) /\
                      row_alternative r = Some (alternative info)) /\
        (row_problematic r = false ->
         row_warning r = None /\
         forall a, row_alternative r = Some a ->
                   exists live, Some ["slack:PostMessage"; "http:ActionSendData"] = Some live /\
                                In a live /\ ~ In (row_moduleId r) live)
  | _ => True
  end.
Proof.
  apply (check_account_compatibility_advice (Some "key") "https://eu1.make.com/api/v2"
           (Some ["slack:PostMessage"; "http:ActionSendData"])
           (Some ["slack:postmessage"; "openai:CreateCompletion"]) None).
  vm_compute. repeat constructor.
Defined.

(** ** [list_apps] and the resource [make://apps] *)

Lemma map_set_keys {A : Type} (k : string) (v : A) (m : list (string * A)) :
  map fst (map_set k v m) =
  match record_get k m with
  | Some _ => map fst m
  | None => map fst m ++ [k]
  end.
Proof.
  induction m as [|[k' v'] rest IH]; simpl; [reflexivity|].
  destruct (String.eqb k k') eqn:E; simpl; [reflexivity|].
  rewrite IH. destruct (record_get k rest); reflexivity.
Qed.

Lemma record_get_None {A : Type} (k : string) (m : list (string * A)) :
  record_get k m = None -> ~ In k (map fst m).
Proof.
  induction m as [|[k' v'] rest IH]; simpl; [intros _ []|].
  destruct (String.eqb k k') eqn:E; [discriminate|].
  intros H [Hk|Hk]; [|exact (IH H Hk)].
  subst k'. rewrite String.eqb_refl in E. discriminate.
Qed.

Lemma In_record_get {A : Type} (k : string) (v : A) (m : list (string * A)) :
  NoDup (map fst m) -> In (k, v) m -> record_get k m = Some v.
Proof.
  induction m as [|[k' v'] rest IH]; simpl; [intros _ []|].
  intros N [H|H].
  - injection H as -> ->. rewrite String.eqb_refl. reflexivity.
  - inversion N as [|? ? Hk N']; subst.
    destruct (String.eqb k k') eqn:E; [|exact (IH N' H)].
    apply String.eqb_eq in E. subst k'. exfalso. apply Hk.
    exact (in_map fst _ _ H).
Qed.

Lemma map_set_sum {A : Type} (f : A -> nat) (k : string) (v : A)
    (m : list (string * A)) :
  list_sum (map (fun e => f (snd e)) (map_set k v m)) +
  match record_get k m with Some old => f old | None => 0 end =
  list_sum (map (fun e => f (snd e)) m) + f v.
Proof.
  induction m as [|[k' v'] rest IH]; simpl; [lia|].
  destruct (String.eqb k k') eqn:E; simpl; lia.
Qed.

Lemma modules_of_app (a : string) (seen rest : list listed_module) :
  modules_of a (seen ++ rest) = modules_of a seen + modules_of a rest.
Proof. unfold modules_of. rewrite filter_app, length_app. reflexivity. Qed.

Lemma modules_of_one (a : string) (m : listed_module) :
  modules_of a [m] = if String.eqb (mod_app m) a then 1 else 0.
Proof. unfold modules_of. simpl. destruct (String.eqb (mod_app m) a); reflexivity. Qed.

Lemma tally_step_ok (appMap : list (string * app_info)) (seen : list listed_module)
    (m : listed_module) :
  tally_ok appMap seen -> tally_ok (tally_step appMap m) (seen ++ [m]).
Proof.
  intros [N [Hnone [Hsome Hsum]]]. unfold tally_ok, tally_step.
  assert (Other : forall a (v : app_info), String.eqb a (mod_app m) = false ->
            record_get a (map_set (mod_app m) v appMap) = record_get a appMap /\
            modules_of a (seen ++ [m]) = modules_of a seen).
  { intros a v E. split; [apply record_get_map_set_other; exact E|].
    rewrite modules_of_app, modules_of_one, String.eqb_sym, E. lia. }
  assert (Seen : forall a t,
            (exists x, In x (seen ++ [m]) /\ mod_app x = a /\ mod_type x = t) <->
            (exists x, In x seen /\ mod_app x = a /\ mod_type x = t) \/
            (mod_app m = a /\ mod_type m = t)).
  { intros a t. split.
    - intros [x [Hx [Ha Ht]]]. apply in_app_iff in Hx. destruct Hx as [Hx|[<-|[]]].
      + left. exists x. auto.
      + right. auto.
    - intros [[x [Hx [Ha Ht]]]|[Ha Ht]].
      + exists x. rewrite in_app_iff. auto.
      + exists m. rewrite in_app_iff. simpl. auto. }
  destruct (record_get (mod_app m) appMap) as [existing|] eqn:G.
  - destruct (Hsome _ _ G) as [Hc [Hpos [Nt Ht]]].
    set (v := {| info_count := S (info_count existing);
                 info_types := set_add (mod_type m) (info_types existing) |}).
    split; [rewrite map_set_keys, G; exact N|]. split; [|split].
    + intros a Ha. destruct (String.eqb a (mod_app m)) eqn:E.
      * apply String.eqb_eq in E. subst a. rewrite record_get_map_set in Ha.
        discriminate.
      * destruct (Other a v E) as [Hg ->]. apply Hnone. rewrite <- Hg. exact Ha.
    + intros a info Ha. destruct (String.eqb a (mod_app m)) eqn:E.
      * apply String.eqb_eq in E. subst a. rewrite record_get_map_set in Ha.
        injection Ha as <-. cbn [v info_count info_types].
        rewrite modules_of_app, modules_of_one, String.eqb_refl.
        split; [lia|]. split; [lia|].
        split; [apply set_add_NoDup; exact Nt|].
        intros t. rewrite In_set_add, Seen, Ht. split.
        -- intros [<-|H]; [right; auto|left; exact H].
        -- intros [H|[_ H]]; [right; exact H|left; exact H].
      * destruct (Other a v E) as [Hg ->]. rewrite Hg in Ha.
        destruct (Hsome _ _ Ha) as [H1 [H2 [H3 H4]]].
        split; [exact H1|]. split; [exact H2|]. split; [exact H3|].
        intros t. rewrite Seen, H4. split; [auto|].
        intros [H|[H _]]; [exact H|]. subst a. rewrite String.eqb_refl in E.
        discriminate.
    + assert (S := map_set_sum info_count (mod_app m) v appMap).
      rewrite G in S. cbn [v info_count] in S. rewrite length_app. simpl. lia.
  - set (v := {| info_count := 1; info_types := [mod_type m] |}).
    split.
    { rewrite map_set_keys, G. apply NoDup_app; [exact N|repeat constructor; intros []|].
      intros a Ha [<-|[]]. exact (record_get_None _ _ G Ha). }
    split; [|split].
    + intros a Ha. destruct (String.eqb a (mod_app m)) eqn:E.
      * apply String.eqb_eq in E. subst a. rewrite record_get_map_set in Ha.
        discriminate.
      * destruct (Other a v E) as [Hg ->]. apply Hnone. rewrite <- Hg. exact Ha.
    + intros a info Ha. destruct (String.eqb a (mod_app m)) eqn:E.
      * apply String.eqb_eq in E. subst a. rewrite record_get_map_set in Ha.
        injection Ha as <-. cbn [v info_count info_types].
        rewrite modules_of_app, modules_of_one, String.eqb_refl, (Hnone _ G).
        split; [reflexivity|]. split; [lia|].
        split; [repeat constructor; intros []|].
        intros t. rewrite Seen. simpl. split.
        -- intros [<-|[]]. right. auto.
        -- intros [[x [Hx [Ha _]]]|[_ H]]; [|left; exact H].
           exfalso. assert (Z := Hnone _ G). unfold modules_of in Z.
           assert (I : In x (filter (fun module => String.eqb (mod_app module) (mod_app m)) seen)).
           { apply filter_In. split; [exact Hx|]. rewrite Ha. apply String.eqb_refl. }
           destruct (filter _ seen); [exact I|discriminate].
      * destruct (Other a v E) as [Hg ->]. rewrite Hg in Ha.
        destruct (Hsome _ _ Ha) as [H1 [H2 [H3 H4]]].
        split; [exact H1|]. split; [exact H2|]. split; [exact H3|].
        intros t. rewrite Seen, H4. split; [auto|].
        intros [H|[H _]]; [exact H|]. subst a. rewrite String.eqb_refl in E.
        discriminate.
    + assert (S := map_set_sum info_count (mod_app m) v appMap).
      rewrite G in S. cbn [v info_count] in S. rewrite length_app. simpl. lia.
Qed.

Lemma tally_fold_ok (rest seen : list listed_module) (appMap : list (string * app_info)) :
  tally_ok appMap seen ->
  tally_ok (fold_left tally_step rest appMap) (seen ++ rest).
Proof.
  revert seen appMap. induction rest as [|m rest IH]; intros seen appMap H; simpl.
  - rewrite app_nil_r. exact H.
  - assert (E : seen ++ m :: rest = (seen ++ [m]) ++ rest)
      by (rewrite <- app_assoc; reflexivity).
    rewrite E. apply IH. apply tally_step_ok. exact H.
Qed.

Lemma tally_tally_ok (apps : list listed_module) : tally_ok (tally apps) apps.
Proof.
  apply (tally_fold_ok apps [] []). unfold tally_ok. simpl.
  split; [constructor|]. split; [reflexivity|]. split; [discriminate|reflexivity].
Qed.

Lemma sort_insert_Permutation {A : Type} (compare : A -> A -> Z) (x : A) (l : list A) :
  Permutation (sort_insert compare x l) (x :: l).
Proof.
  induction l as [|y rest IH]; simpl; [reflexivity|].
  destruct (compare x y <=? 0)%Z; [reflexivity|].
  rewrite IH. apply perm_swap.
Qed.

Lemma array_sort_Permutation {A : Type} (compare : A -> A -> Z) (l : list A) :
  Permutation (array_sort compare l) l.
Proof.
  induction l as [|x rest IH]; simpl; [reflexivity|].
  rewrite sort_insert_Permutation. constructor. exact IH.
Qed.

Lemma sort_insert_Sorted {A : Type} (key : A -> nat) (x : A) (l : list A) :
  Sorted (fun a b => key b <= key a) l ->
  Sorted (fun a b => key b <= key a)
         (sort_insert (fun a b => (Z.of_nat (key b) - Z.of_nat (key a))%Z) x l).
Proof.
  induction l as [|y rest IH]; intros S; simpl.
  - repeat constructor.
  - destruct (Z.leb_spec (Z.of_nat (key y) - Z.of_nat (key x)) 0).
    + constructor; [exact S|]. constructor. lia.
    + inversion S as [|? ? S' Hd]; subst. constructor; [exact (IH S')|].
      destruct rest as [|z rest]; simpl.
      * constructor. lia.
      * destruct (Z.of_nat (key z) - Z.of_nat (key x) <=? 0)%Z.
        -- constructor. lia.
        -- inversion Hd; subst. constructor. assumption.
Qed.

Lemma array_sort_Sorted {A : Type} (key : A -> nat) (l : list A) :
  StronglySorted (fun a b => key b <= key a)
    (array_sort (fun a b => (Z.of_nat (key b) - Z.of_nat (key a))%Z) l).
Proof.
  apply Sorted_StronglySorted.
  - intros a b c H1 H2. lia.
  - induction l as [|x rest IH]; simpl; [constructor|].
    apply sort_insert_Sorted. exact IH.
Qed.

Lemma sort_insert_map {A B : Type} (f : A -> B) (cA : A -> A -> Z) (cB : B -> B -> Z)
    (x : A) (l : list A) :
  (forall a b, cB (f a) (f b) = cA a b) ->
  sort_insert cB (f x) (map f l) = map f (sort_insert cA x l).
Proof.
  intros H. induction l as [|y rest IH]; simpl; [reflexivity|].
  rewrite H. destruct (cA x y <=? 0)%Z; simpl; [reflexivity|].
  rewrite IH. reflexivity.
Qed.

Lemma array_sort_map {A B : Type} (f : A -> B) (cA : A -> A -> Z) (cB : B -> B -> Z)
    (l : list A) :
  (forall a b, cB (f a) (f b) = cA a b) ->
  array_sort cB (map f l) = map f (array_sort cA l).
Proof.
  intros H. induction l as [|x rest IH]; simpl; [reflexivity|].
  rewrite IH. apply sort_insert_map. exact H.
Qed.

Lemma list_sum_Permutation (l l' : list nat) :
  Permutation l l' -> list_sum l = list_sum l'.
Proof. induction 1; simpl; lia. Qed.

(** X29. [list_apps] lists each app of the catalog once, with the number of
    its modules and the types of its modules, each type once; the apps come
    by falling number of modules, and the numbers add up to [totalModules]. *)
Theorem list_apps_counts (apps : list listed_module) :
  let answer := list_apps apps in
  totalModules answer = List.length apps /\
  totalApps answer = List.length (apps_list answer) /\
  NoDup (map entry_app (apps_list answer)) /\
  (forall module, In module apps ->
                  In (mod_app module) (map entry_app (apps_list answer))) /\
  (forall e, In e (apps_list answer) ->
     entry_moduleCount e = modules_of (entry_app e) apps /\
     0 < entry_moduleCount e /\
     NoDup (entry_types e) /\
     forall t, In t (entry_types e) <->
               exists module, In module apps /\ mod_app module = entry_app e /\
                              mod_type module = t) /\
  StronglySorted (fun a b => entry_moduleCount b <= entry_moduleCount a)
                 (apps_list answer) /\
  list_sum (map entry_moduleCount (apps_list answer)) = totalModules answer.
Proof.
  cbv zeta. unfold list_apps. cbn [totalModules totalApps apps_list].
  set (entry_of := fun entry : string * app_info =>
                     {| entry_app := fst entry;
                        entry_moduleCount := info_count (snd entry);
                        entry_types := info_types (snd entry) |}).
  set (result := array_sort _ (map entry_of (tally apps))).
  assert (P : Permutation result (map entry_of (tally apps)))
    by apply array_sort_Permutation.
  destruct (tally_tally_ok apps) as [N [Hnone [Hsome Hsum]]].
  assert (Keys : map entry_app (map entry_of (tally apps)) = map fst (tally apps)).
  { rewrite map_map. reflexivity. }
  split; [reflexivity|]. split; [reflexivity|]. split; [|split; [|split; [|split]]].
  - apply (Permutation_NoDup (l := map fst (tally apps))); [|exact N].
    rewrite <- Keys. symmetry. apply Permutation_map. exact P.
  - intros module Hm.
    apply (Permutation_in (l := map fst (tally apps))).
    { rewrite <- Keys. symmetry. apply Permutation_map. exact P. }
    destruct (record_get (mod_app module) (tally apps)) as [info|] eqn:G.
    + exact (in_map fst _ _ (record_get_In _ _ _ G)).
    + exfalso. assert (Z := Hnone _ G). unfold modules_of in Z.
      assert (I : In module (filter (fun x => String.eqb (mod_app x) (mod_app module)) apps)).
      { apply filter_In. split; [exact Hm|apply String.eqb_refl]. }
      destruct (filter _ apps); [exact I|discriminate].
  - intros e He. apply (Permutation_in _ P) in He. apply in_map_iff in He.
    destruct He as [[a info] [<- Hin]]. cbn [entry_of entry_app entry_moduleCount entry_types fst snd].
    exact (Hsome _ _ (In_record_get _ _ _ N Hin)).
  - exact (array_sort_Sorted entry_moduleCount (map entry_of (tally apps))).
  - rewrite (list_sum_Permutation _ _ (Permutation_map entry_moduleCount P)).
    rewrite map_map. exact Hsum.
Qed.

Lemma count_apps_fold (rest : list listed_module) (appMap : list (string * app_info)) :
  fold_left (fun (counts : list (string * nat)) module =>
               map_set (mod_app module)
                 (match record_get (mod_app module) counts with
                  | Some count => count
                  | None => 0
                  end + 1)
                 counts)
            rest (map (fun e => (fst e, info_count (snd e))) appMap) =
  map (fun e => (fst e, info_count (snd e))) (fold_left tally_step rest appMap).
Proof.
  revert appMap. induction rest as [|m rest IH]; intros appMap; simpl; [reflexivity|].
  rewrite <- IH. f_equal. unfold tally_step.
  assert (G : forall k (t : list (string * app_info)),
            record_get k (map (fun e => (fst e, info_count (snd e))) t) =
            option_map info_count (record_get k t)).
  { intros k t. induction t as [|[k' v'] t IHt]; simpl; [reflexivity|].
    destruct (String.eqb k k'); [reflexivity|exact IHt]. }
  assert (M : forall k v (t : list (string * app_info)),
            map_set k (info_count v) (map (fun e => (fst e, info_count (snd e))) t) =
            map (fun e => (fst e, info_count (snd e))) (map_set k v t)).
  { intros k v t. induction t as [|[k' v'] t IHt]; simpl; [reflexivity|].
    destruct (String.eqb k k'); simpl; [reflexivity|]. rewrite IHt. reflexivity. }
  rewrite G. destruct (record_get (mod_app m) appMap) as [existing|]; cbn [option_map].
  - rewrite <- M. cbn [info_count]. f_equal. lia.
  - rewrite <- M. reflexivity.
Qed.

(** X30. The resource [make://apps] gives the apps and the numbers of
    modules of [list_apps], in the same order. *)
Theorem apps_resource_agrees_with_list_apps (apps : list listed_module) :
  apps_resource apps =
  (totalApps (list_apps apps),
   map (fun e => (entry_app e, entry_moduleCount e)) (apps_list (list_apps apps))).
Proof.
  unfold apps_resource, list_apps. cbn [totalApps apps_list].
  assert (C : count_apps apps = map (fun e => (fst e, info_count (snd e))) (tally apps)).
  { exact (count_apps_fold apps []). }
  rewrite C.
  set (entry_of := fun entry : string * app_info =>
                     {| entry_app := fst entry;
                        entry_moduleCount := info_count (snd entry);
                        entry_types := info_types (snd entry) |}).
  assert (E : map (fun e => (fst e, info_count (snd e))) (tally apps) =
              map (fun e => (entry_app e, entry_moduleCount e)) (map entry_of (tally apps))).
  { rewrite map_map. reflexivity. }
  rewrite E.
  rewrite (array_sort_map (fun e => (entry_app e, entry_moduleCount e))
             (fun a b => (Z.of_nat (entry_moduleCount b) - Z.of_nat (entry_moduleCount a))%Z)).
  - rewrite length_map. reflexivity.
  - reflexivity.
Qed.

Example list_apps_sample :
  apps_list (list_apps [ {| mod_app := "Slack"; mod_type := "action" |};
                         {| mod_app := "HTTP"; mod_type := "action" |};
                         {| mod_app := "Gmail"; mod_type := "trigger" |};
                         {| mod_app := "HTTP"; mod_type := "action" |};
                         {| mod_app := "Gmail"; mod_type := "action" |} ])
  = [ {| entry_app := "HTTP"; entry_moduleCount := 2; entry_types := ["action"] |};
      {| entry_app := "Gmail"; entry_moduleCount := 2; entry_types := ["trigger"; "action"] |};
      {| entry_app := "Slack"; entry_moduleCount := 1; entry_types := ["action"] |} ].
Proof. reflexivity. Qed.
(** ** Checks of the definitions on concrete inputs *)

Example tokenize_ActionSendData :
  tokenizeModulePart "ActionSendData" = ["action"; "send"; "data"].
Proof. reflexivity. Qed.


Example resolve_slak :
  resolveClosestLiveModule "slak:ActoinPostMessage" ["slack:ActionPostMessage"] = None.
Proof. reflexivity. Qed.


Example resolve_case_drift :
  resolveClosestLiveModule "http:actionsenddata" ["http:ActionSendData"; "http:ActionGetFile"]
  = Some "http:ActionSendData".
Proof. reflexivity. Qed.


Example resolve_tokens :
  resolveClosestLiveModule "http:ActionSendStuff" ["http:ActionSendData"; "http:ActionGetFile"]
  = Some "http:ActionSendData".
Proof. reflexivity. Qed.


Example extract_sample :
  extractAllFlowModules sample_router_flow "Flow" =
  [ ("gateway:CustomWebHook", "Flow[0]");
    ("builtin:BasicRouter", "Flow[1]");
    ("acme:Thing", "Flow[1].routes[0][0]");
    ("http:ActionSendData", "Flow[1].routes[1][0]") ].
Proof. reflexivity. Qed.


Example inject_sample :
  injectVerifiedVersions sample_router_flow =
  ([ JObj [("id", JNum 1); ("module", JStr "gateway:CustomWebHook"); ("version", JNum 1)];
     JObj [("id", JNum 2); ("module", JStr "builtin:BasicRouter");
           ("routes", JArr [
              JObj [("filter", JObj []);
                    ("flow", JArr [JObj [("id", JNum 3); ("module", JStr "acme:Thing")]])];
              JObj [("flow", JArr [JObj [("id", JNum 4); ("module", JStr "http:ActionSendData");
                                         ("version", JNum 3)]])]]);
           ("version", JNum 1)] ],
   (3, 1)).
Proof. reflexivity. Qed.


Example interval_examples :
  interval_seconds "every day" = Finite 86400 /\
  interval_seconds "every week" = Finite 604800 /\
  interval_seconds "monthly: every month" = Finite 2592000 /\
  interval_seconds "each hour" = Finite 3600 /\
  interval_seconds "every 15 minutes" = Finite 900 /\
  interval_seconds "every 20 min" = Finite 1200 /\
  interval_seconds "whenever" = Finite 900 /\
  interval_seconds "0 minutes" = Finite 900.
Proof. repeat split; reflexivity. Qed.

